(** * mongoose-patch-history: path model, exclusion filter, change capture
      and rollback

    A shallow embedding of [src/index.ts].  Plain JavaScript values are
    embedded as the inductive type [value]; a JavaScript [string | undefined]
    is an [option string]; code that can throw returns a [result]. *)

From Stdlib Require Import String Ascii List ZArith Bool Lia Arith.
Import ListNotations.
Local Open Scope string_scope.
Local Open Scope list_scope.

Set Implicit Arguments.

(** ** Results of code that can throw

    [Unmodelled] is not an error of the program: the code went on with
    something that [value] below does not hold (a function or a prototype of
    the runtime that a value inherits, a property whose value is [undefined],
    an object that holds itself), and the model does not follow it there. *)

Inductive error : Type :=
| RollbackError (message : string)
| JsonPatchError (name : string)
| TypeError (message : string)
| Unmodelled (what : string).

Inductive result (A : Type) : Type :=
| Ok (a : A)
| Err (e : error).

Arguments Ok {A} a.
Arguments Err {A} e.

Definition bind {A B : Type} (m : result A) (k : A -> result B) : result B :=
  match m with
  | Ok a => k a
  | Err e => Err e
  end.

Notation "x <- m ;; k" := (bind m (fun x => k))
  (at level 61, m at next level, right associativity).

Fixpoint mapM {A B : Type} (f : A -> result B) (l : list A) : result (list B) :=
  match l with
  | [] => Ok []
  | a :: l' => b <- f a ;; bs <- mapM f l' ;; Ok (b :: bs)
  end.

(** ** JavaScript values

    The values the plugin handles come out of [JSON.parse(JSON.stringify _)]
    ([toJSON]): objects with string keys in insertion order, arrays, and
    scalars.  [delete arr[i]] leaves a hole in an array, so an array element
    is an [option value] ([None] is a hole).  The payload of a number is never
    computed with by the plugin, only compared and stored. *)

Unset Elimination Schemes.
Inductive value : Type :=
| VNull
| VBool (b : bool)
| VNum (n : Z)
| VStr (s : string)
| VArr (elems : list (option value))
| VObj (props : list (string * value)).
Set Elimination Schemes.

(** The predicate [P] holds of the element, when there is one. *)
Definition onElem (P : value -> Prop) (o : option value) : Prop :=
  match o with
  | Some v => P v
  | None => True
  end.

Section ValueInduction.
Variable P : value -> Prop.
Hypothesis Hnull : P VNull.
Hypothesis Hbool : forall b, P (VBool b).
Hypothesis Hnum : forall n, P (VNum n).
Hypothesis Hstr : forall s, P (VStr s).
Hypothesis Harr : forall elems, Forall (onElem P) elems -> P (VArr elems).
Hypothesis Hobj : forall props, Forall (fun kv => P (snd kv)) props -> P (VObj props).

Fixpoint value_ind (v : value) : P v :=
  match v with
  | VNull => Hnull
  | VBool b => Hbool b
  | VNum n => Hnum n
  | VStr s => Hstr s
  | VArr elems =>
      Harr ((fix elems_ind (l : list (option value)) : Forall (onElem P) l :=
               match l with
               | [] => Forall_nil _
               | o :: l' =>
                   Forall_cons o
                     (match o return onElem P o with
                      | Some x => value_ind x
                      | None => I
                      end)
                     (elems_ind l')
               end) elems)
  | VObj props =>
      Hobj ((fix props_ind (l : list (string * value))
               : Forall (fun kv => P (snd kv)) l :=
               match l with
               | [] => Forall_nil _
               | kv :: l' => Forall_cons kv (value_ind (snd kv)) (props_ind l')
               end) props)
  end.
End ValueInduction.

(** Structural equality of values (what [JSON.stringify] comparison and
    [_areEquals] of fast-json-patch see on JSON data). *)
Fixpoint value_eqb (a b : value) {struct a} : bool :=
  match a, b with
  | VNull, VNull => true
  | VBool x, VBool y => Bool.eqb x y
  | VNum x, VNum y => Z.eqb x y
  | VStr x, VStr y => String.eqb x y
  | VArr xs, VArr ys =>
      (fix elems_eqb (xs ys : list (option value)) {struct xs} : bool :=
         match xs, ys with
         | [], [] => true
         | Some x :: xs', Some y :: ys' => value_eqb x y && elems_eqb xs' ys'
         | None :: xs', None :: ys' => elems_eqb xs' ys'
         | _, _ => false
         end) xs ys
  | VObj ps, VObj qs =>
      (fix props_eqb (ps qs : list (string * value)) {struct ps} : bool :=
         match ps, qs with
         | [], [] => true
         | (k, x) :: ps', (k', y) :: qs' =>
             String.eqb k k' && value_eqb x y && props_eqb ps' qs'
         | _, _ => false
         end) ps qs
  | _, _ => false
  end.

(** ** Strings *)

Definition slash : ascii := "/"%char.

(** [s.split(sep)] for a one-character separator: never empty,
    [''.split(sep)] is [['']]. *)
Fixpoint split_on (sep : ascii) (s : string) : list string :=
  match s with
  | EmptyString => [""]
  | String c s' =>
      if Ascii.eqb c sep then "" :: split_on sep s'
      else
        match split_on sep s' with
        | [] => [String c ""]
        | h :: t => String c h :: t
        end
  end.

Definition split_slash (s : string) : list string := split_on slash s.

(** [parts.join(sep)] *)
Fixpoint join (sep : string) (parts : list string) : string :=
  match parts with
  | [] => ""
  | [s] => s
  | s :: parts' => s ++ sep ++ join sep parts'
  end.

(** [s.replace(/^\//, '')]: one leading slash is removed. *)
Definition strip_leading_slash (s : string) : string :=
  match s with
  | String c s' => if Ascii.eqb c slash then s' else s
  | EmptyString => s
  end.

(** [s.includes(c)] for a character. *)
Fixpoint contains (c : ascii) (s : string) : bool :=
  match s with
  | EmptyString => false
  | String x s' => Ascii.eqb x c || contains c s'
  end.

Definition has_slash (s : string) : bool := contains slash s.

(** [key.includes('$')] *)
Fixpoint includes_dollar (s : string) : bool :=
  match s with
  | EmptyString => false
  | String c s' => Ascii.eqb c "$"%char || includes_dollar s'
  end.

(** Decimal digits of a natural number, as [String(n)] prints an array
    index. *)
Definition digit_char (d : nat) : ascii := ascii_of_nat (48 + d).

Fixpoint nat_digits (fuel n : nat) (acc : string) : string :=
  match fuel with
  | O => acc
  | S fuel' =>
      let acc' := String (digit_char (n mod 10)) acc in
      if Nat.ltb n 10 then acc' else nat_digits fuel' (n / 10) acc'
  end.

Definition string_of_nat (n : nat) : string := nat_digits (S n) n "".

(** A canonical array index: decimal digits without a leading zero.  Any
    other property name of an array ([01], [1e2], the empty string) is not an
    element. *)
Definition is_digit (c : ascii) : bool :=
  let n := nat_of_ascii c in Nat.leb 48 n && Nat.leb n 57.

Fixpoint read_nat (s : string) (acc : nat) : option nat :=
  match s with
  | EmptyString => Some acc
  | String c s' =>
      if is_digit c then read_nat s' (10 * acc + (nat_of_ascii c - 48)) else None
  end.

Definition array_index (key : string) : option nat :=
  match key with
  | EmptyString => None
  | String c EmptyString => read_nat key 0
  | String c _ => if Ascii.eqb c "0"%char then None else read_nat key 0
  end.

Local Open Scope Z_scope.

(** ** [Number(entry)]

    The string-to-number conversion of ECMAScript (StringToNumber): white
    space is trimmed, the empty string is [+0], then a hexadecimal, octal or
    binary integer without sign, or a signed decimal literal with optional
    fraction and exponent, or a signed [Infinity]; anything else is [NaN].
    The mathematical value is rounded to the nearest binary64 number, ties to
    even.  A finite number is kept as sign, mantissa and binary exponent: its
    value is [mant * 2 ^ expo].  The characters of a [string] are read as
    code units below 256, so of the Unicode white space only U+00A0 joins the
    ASCII ones. *)

Inductive number : Type :=
| NaN
| Inf (negative : bool)
| Fin (negative : bool) (mant expo : Z).

Definition is_ws (c : ascii) : bool :=
  let n := Z.of_nat (nat_of_ascii c) in
  (n =? 9) || (n =? 10) || (n =? 11) || (n =? 12) || (n =? 13)
  || (n =? 32) || (n =? 160).

Fixpoint drop_ws (l : list ascii) : list ascii :=
  match l with
  | c :: l' => if is_ws c then drop_ws l' else l
  | [] => []
  end.

Definition trim (l : list ascii) : list ascii := rev (drop_ws (rev (drop_ws l))).

Definition digit_value (radix : Z) (c : ascii) : option Z :=
  let n := Z.of_nat (nat_of_ascii c) in
  let d :=
    if (48 <=? n) && (n <=? 57) then n - 48
    else if (97 <=? n) && (n <=? 102) then n - 87
    else if (65 <=? n) && (n <=? 70) then n - 55
    else 99 in
  if d <? radix then Some d else None.

(** Reads the longest run of digits: the accumulated value, how many digits
    were read, and the rest. *)
Fixpoint read_digits (radix : Z) (l : list ascii) (acc : Z) (n : nat)
  : Z * nat * list ascii :=
  match l with
  | c :: l' =>
      match digit_value radix c with
      | Some d => read_digits radix l' (acc * radix + d) (S n)
      | None => (acc, n, l)
      end
  | [] => (acc, n, [])
  end.

Definition round_half_even (a b : Z) : Z :=
  let q := a / b in
  match (2 * (a mod b) ?= b) with
  | Lt => q
  | Gt => q + 1
  | Eq => if Z.even q then q else q + 1
  end.

(** [num / den >= 2 ^ k] *)
Definition ratio_ge_pow2 (num den k : Z) : bool :=
  if 0 <=? k then den * 2 ^ k <=? num else den <=? num * 2 ^ (- k).

Definition floor_log2_ratio (num den : Z) : Z :=
  let k := Z.log2 num - Z.log2 den in
  if ratio_ge_pow2 num den k then k else k - 1.

(** The binary64 number nearest to [num / den] (both positive). *)
Definition to_binary64 (negative : bool) (num den : Z) : number :=
  if num =? 0 then Fin negative 0 0
  else
    let e := Z.max (floor_log2_ratio num den - 52) (-1074) in
    let m :=
      if 0 <=? e then round_half_even num (den * 2 ^ e)
      else round_half_even (num * 2 ^ (- e)) den in
    if (0 <=? e) && (2 ^ 1024 <=? m * 2 ^ e) then Inf negative
    else Fin negative m e.

Definition ascii_list (s : string) : list ascii := list_ascii_of_string s.

Definition is_char (c : ascii) (d : string) : bool :=
  match d with
  | String x EmptyString => Ascii.eqb c x
  | _ => false
  end.

(** A radix-prefixed integer: at least one digit and nothing after. *)
Definition parse_radix (radix : Z) (l : list ascii) : number :=
  match read_digits radix l 0 0 with
  | (v, S _, []) => to_binary64 false v 1
  | _ => NaN
  end.

(** [ExponentPart]: the exponent read, [None] when malformed. *)
Definition parse_exponent (l : list ascii) : option Z :=
  match l with
  | [] => Some 0
  | c :: l' =>
      if is_char c "e" || is_char c "E" then
        let '(negative, l'') :=
          match l' with
          | s :: t =>
              if is_char s "-" then (true, t)
              else if is_char s "+" then (false, t) else (false, l')
          | [] => (false, l')
          end in
        match read_digits 10 l'' 0 0 with
        | (v, S _, []) => Some (if negative then - v else v)
        | _ => None
        end
      else None
  end.

(** [StrUnsignedDecimalLiteral] *)
Definition parse_decimal (negative : bool) (l : list ascii) : number :=
  if list_eq_dec ascii_dec l (ascii_list "Infinity") then Inf negative
  else
    let '(ip, ni, r1) := read_digits 10 l 0 0 in
    let '(mant, nf, r2) :=
      match r1 with
      | c :: t => if is_char c "." then read_digits 10 t ip 0 else (ip, O, r1)
      | [] => (ip, O, r1)
      end in
    match (ni + nf)%nat with
    | O => NaN
    | S _ =>
        match parse_exponent r2 with
        | None => NaN
        | Some ex =>
            let e10 := ex - Z.of_nat nf in
            if 0 <=? e10 then to_binary64 negative (mant * 10 ^ e10) 1
            else to_binary64 negative mant (10 ^ (- e10))
        end
    end.

Definition parse_number (l : list ascii) : number :=
  match l with
  | [] => Fin false 0 0
  | c :: t =>
      match t with
      | x :: digits =>
          if is_char c "0" && (is_char x "x" || is_char x "X")
          then parse_radix 16 digits
          else if is_char c "0" && (is_char x "o" || is_char x "O")
          then parse_radix 8 digits
          else if is_char c "0" && (is_char x "b" || is_char x "B")
          then parse_radix 2 digits
          else if is_char c "-" then parse_decimal true t
          else if is_char c "+" then parse_decimal false t
          else parse_decimal false l
      | [] => parse_decimal false l
      end
  end.

(** [Number(entry)] for [entry : string | undefined]. *)
Definition Number (entry : option string) : number :=
  match entry with
  | None => NaN
  | Some s => parse_number (trim (ascii_list s))
  end.

(** [Number.isInteger] *)
Definition Number_isInteger (x : number) : bool :=
  match x with
  | Fin _ m e => if 0 <=? e then true else m mod 2 ^ (- e) =? 0
  | _ => false
  end.

(** [x >= 0]; [-0 >= 0] is true. *)
Definition Number_ge0 (x : number) : bool :=
  match x with
  | NaN => false
  | Inf negative => negb negative
  | Fin negative m _ => negb negative || (m =? 0)
  end.

(** ** Path model ([src/index.ts], lines 158-264) *)

Definition ARRAY_INDEX_WILDCARD : string := "*".

Definition getArrayFromPath (path : string) : list string :=
  split_slash (strip_leading_slash path).

Definition sanitizeEmptyPath (path : list string) : list string :=
  match path with
  | [s] => if String.eqb s "" then [] else path
  | _ => path
  end.

Definition entryIsIdentical (entry1 : string) (entry2 : option string) : bool :=
  match entry2 with
  | Some s => String.eqb entry1 s
  | None => false
  end.

Definition isArrayIndexWildcard (entry : string) : bool :=
  String.eqb entry ARRAY_INDEX_WILDCARD.

Definition isIntegerGreaterEqual0 (entry : option string) : bool :=
  Number_isInteger (Number entry) && Number_ge0 (Number entry).

Definition matchesArrayWildcard (entry1 : string) (entry2 : option string) : bool :=
  isArrayIndexWildcard entry1 && isIntegerGreaterEqual0 entry2.

(** [Array.prototype.every] with the element's index. *)
Fixpoint every_from {A : Type} (f : A -> nat -> bool) (idx : nat) (l : list A) : bool :=
  match l with
  | [] => true
  | a :: l' => f a idx && every_from f (S idx) l'
  end.

Definition every {A : Type} (f : A -> nat -> bool) (l : list A) : bool :=
  every_from f 0%nat l.

(** [fullPath[idx]] is [undefined] past the end of [fullPath]. *)
Definition isPathContained (fractionPath fullPath : list string) : bool :=
  every
    (fun entry idx =>
       entryIsIdentical entry (nth_error fullPath idx)
       || matchesArrayWildcard entry (nth_error fullPath idx))
    fractionPath.

(** ** Property access on values

    [getProp] reads the own properties of a value: the keys of an object, the
    elements and [length] of an array, the characters and [length] of a
    string.  [memberOf] is the property access [value[key]] of the language,
    which goes on to the members the value inherits. *)

Fixpoint assoc (key : string) (props : list (string * value)) : option value :=
  match props with
  | [] => None
  | (k, v) :: props' => if String.eqb key k then Some v else assoc key props'
  end.

Fixpoint remove_key (key : string) (props : list (string * value))
  : list (string * value) :=
  match props with
  | [] => []
  | (k, v) :: props' =>
      if String.eqb key k then remove_key key props'
      else (k, v) :: remove_key key props'
  end.

Fixpoint replace_key (key : string) (v' : value) (props : list (string * value))
  : list (string * value) :=
  match props with
  | [] => []
  | (k, v) :: props' =>
      if String.eqb key k then (k, v') :: props'
      else (k, v) :: replace_key key v' props'
  end.

Fixpoint set_nth {A : Type} (i : nat) (a : A) (l : list A) : list A :=
  match l, i with
  | [], _ => []
  | _ :: l', O => a :: l'
  | x :: l', S i' => x :: set_nth i' a l'
  end.

Definition elem_at (elems : list (option value)) (i : nat) : option value :=
  match nth_error elems i with
  | Some o => o
  | None => None
  end.

Definition char_at (s : string) (i : nat) : option value :=
  match String.get i s with
  | Some c => Some (VStr (String c EmptyString))
  | None => None
  end.

(** The own property of [v] under [key], if it has one. *)
Definition getProp (v : value) (key : string) : option value :=
  match v with
  | VObj props => assoc key props
  | VArr elems =>
      match array_index key with
      | Some i => elem_at elems i
      | None =>
          if String.eqb key "length"
          then Some (VNum (Z.of_nat (List.length elems))) else None
      end
  | VStr s =>
      match array_index key with
      | Some i => char_at s i
      | None =>
          if String.eqb key "length"
          then Some (VNum (Z.of_nat (String.length s))) else None
      end
  | _ => None
  end.

(** The string-keyed members of the built-in prototypes, as ECMAScript 2024
    and its annex B list them (Node.js 20 and later, which Mongoose 9
    requires).  Each of them is a function, but for [__proto__], an accessor
    that answers the prototype itself.  [length] is an own property of every
    array and string. *)
Definition objectPrototypeKeys : list string :=
  ["constructor"; "__defineGetter__"; "__defineSetter__"; "hasOwnProperty";
   "__lookupGetter__"; "__lookupSetter__"; "isPrototypeOf";
   "propertyIsEnumerable"; "toString"; "valueOf"; "__proto__"; "toLocaleString"].

Definition arrayPrototypeKeys : list string :=
  ["constructor"; "at"; "concat"; "copyWithin"; "fill"; "find"; "findIndex";
   "findLast"; "findLastIndex"; "lastIndexOf"; "pop"; "push"; "reverse";
   "shift"; "unshift"; "slice"; "sort"; "splice"; "includes"; "indexOf";
   "join"; "keys"; "entries"; "values"; "forEach"; "filter"; "flat";
   "flatMap"; "map"; "every"; "some"; "reduce"; "reduceRight";
   "toLocaleString"; "toString"; "toReversed"; "toSorted"; "toSpliced"; "with"].

Definition stringPrototypeKeys : list string :=
  ["constructor"; "anchor"; "at"; "big"; "blink"; "bold"; "charAt";
   "charCodeAt"; "codePointAt"; "concat"; "endsWith"; "fontcolor"; "fontsize";
   "fixed"; "includes"; "indexOf"; "isWellFormed"; "italics"; "lastIndexOf";
   "link"; "localeCompare"; "match"; "matchAll"; "normalize"; "padEnd";
   "padStart"; "repeat"; "replace"; "replaceAll"; "search"; "slice"; "small";
   "split"; "strike"; "sub"; "substr"; "substring"; "sup"; "startsWith";
   "toString"; "toWellFormed"; "trim"; "trimStart"; "trimLeft"; "trimEnd";
   "trimRight"; "toLocaleLowerCase"; "toLocaleUpperCase"; "toLowerCase";
   "toUpperCase"; "valueOf"].

Definition numberPrototypeKeys : list string :=
  ["constructor"; "toExponential"; "toFixed"; "toPrecision"; "toString";
   "valueOf"; "toLocaleString"].

Definition booleanPrototypeKeys : list string :=
  ["constructor"; "toString"; "valueOf"].

Definition isOneOf (key : string) (keys : list string) : bool :=
  existsb (String.eqb key) keys.

(** The members a value inherits; [null] has none. *)
Definition inheritedKeys (v : value) : list string :=
  match v with
  | VNull => []
  | VBool _ => booleanPrototypeKeys ++ objectPrototypeKeys
  | VNum _ => numberPrototypeKeys ++ objectPrototypeKeys
  | VStr _ => stringPrototypeKeys ++ objectPrototypeKeys
  | VArr _ => arrayPrototypeKeys ++ objectPrototypeKeys
  | VObj _ => objectPrototypeKeys
  end.

Definition inherits (v : value) (key : string) : bool :=
  isOneOf key (inheritedKeys v).

(** [value[key]]: an own property, a member that the value inherits, or
    [undefined]. *)
Inductive member : Type :=
| Own (v : value)
| Inherited
| Absent.

Definition memberOf (v : value) (key : string) : member :=
  match getProp v key with
  | Some x => Own x
  | None => if inherits v key then Inherited else Absent
  end.

(** A name that some value inherits a member under. *)
Definition builtinKey (key : string) : bool :=
  isOneOf key
    (objectPrototypeKeys ++ arrayPrototypeKeys ++ stringPrototypeKeys
     ++ numberPrototypeKeys ++ booleanPrototypeKeys).

(** [delete value[key]] for a property that [getProp] found, in strict mode:
    deleting an element leaves a hole; [length] and the characters of a
    string cannot be deleted. *)
Definition deleteProp (v : value) (key : string) : result value :=
  match v with
  | VObj props => Ok (VObj (remove_key key props))
  | VArr elems =>
      match array_index key with
      | Some i => Ok (VArr (set_nth i None elems))
      | None => Err (TypeError "Cannot delete property")
      end
  | VStr _ => Err (TypeError "Cannot delete property")
  | _ => Ok v
  end.

(** The parent after its property [key] was mutated in place into [child]. *)
Definition updChild (v : value) (key : string) (child : value) : value :=
  match v with
  | VObj props => VObj (replace_key key child props)
  | VArr elems =>
      match array_index key with
      | Some i => VArr (set_nth i (Some child) elems)
      | None => v
      end
  | _ => v
  end.

Fixpoint present_indices (i : nat) (elems : list (option value)) : list string :=
  match elems with
  | [] => []
  | Some _ :: l => string_of_nat i :: present_indices (S i) l
  | None :: l => present_indices (S i) l
  end.

Fixpoint char_indices (i : nat) (s : string) : list string :=
  match s with
  | EmptyString => []
  | String _ s' => string_of_nat i :: char_indices (S i) s'
  end.

(** [Object.keys(v)]; it throws on [null]. *)
Definition Object_keys (v : value) : result (list string) :=
  match v with
  | VNull => Err (TypeError "Cannot convert undefined or null to object")
  | VObj props => Ok (map fst props)
  | VArr elems => Ok (present_indices 0 elems)
  | VStr s => Ok (char_indices 0 s)
  | _ => Ok []
  end.

Definition isArray (v : value) : bool :=
  match v with
  | VArr _ => true
  | _ => false
  end.

(** ** Patch operations *)

Inductive opkind : Type := op_add | op_remove | op_replace | op_move | op_copy | op_test | op_get.

(** What lodash [get] answers for the original value of an operation: a
    value, [undefined], or, when the path names a member that a value
    inherits, whatever the runtime has there, which the model does not
    follow. *)
Inductive lookup : Type :=
| Found (v : value)
| Missing
| Builtin.

Record PatchOperation : Type := mkOp {
  op : opkind;
  path : string;
  value_ : option value;
  from : option string;
  originalValue : lookup
}.

Definition setValue (patch : PatchOperation) (v : value) : PatchOperation :=
  mkOp (op patch) (path patch) (Some v) (from patch) (originalValue patch).

(** ** [deepRemovePath] ([src/index.ts], lines 179-235)

    [walk segs lastKey value] is the [for] loop over the segments
    [excludePath[operationPath.length .. excludePath.length - 2]] followed by
    the deletion of [lastKey]; [val] is the loop variable [value].  It answers
    [None] where the source returns [true] without having touched anything,
    and [Some v] with the value as mutated in place where the source goes on
    to look at [Object.keys(patch.value)].

    In the wildcard branch the source calls
    [deepRemovePath({ op: 'add', path: '/', value: elem }, excludePath.slice(i + 1))]
    on every element that is not a hole: the operation path of that call is
    [[]], so its loop runs over all but the last segment of the slice, and its
    boolean is dropped.

    [value?.[key]] reads inherited members too.  For the last key, [delete]
    does nothing to a property that is not an own one, and the source goes on
    to look at the keys.  For a segment of the loop, [value] becomes a
    function of the runtime and the loop goes on in it ([walkInherited]). *)

(** The loop after [value = value[seg]] gave a member that the value
    inherits.  Under [constructor] it is a constructor; the [constructor] of
    any function is [Function], a constructor again; the [prototype] of a
    constructor cannot be deleted.  Elsewhere the model does not follow the
    loop. *)
Definition walkInherited (seg : string) (segs : list string) (lastKey : string)
  : result (option value) :=
  if negb (String.eqb seg "__proto__")
     && forallb (String.eqb "constructor") segs
     && (String.eqb seg "constructor" || negb (Nat.eqb (List.length segs) 0))
     && String.eqb lastKey "prototype"
  then Err (TypeError "Cannot delete property")
  else Err (Unmodelled "a member of a built-in object").

Fixpoint walk (segs : list string) (lastKey : string) (val : value)
  : result (option value) :=
  match segs with
  | [] =>
      match getProp val lastKey with
      | None => if inherits val lastKey then Ok (Some val) else Ok None
      | Some _ => v' <- deleteProp val lastKey ;; Ok (Some v')
      end
  | seg :: segs' =>
      match String.eqb seg ARRAY_INDEX_WILDCARD, val with
      | true, VArr elems =>
          elems' <- mapM
            (fun o : option value =>
               match o with
               | None => Ok None
               | Some elem =>
                   r <- walk segs' lastKey elem ;;
                   match r with
                   | None => Ok (Some elem)
                   | Some elem' => _ <- Object_keys elem' ;; Ok (Some elem')
                   end
               end) elems ;;
          Ok (Some (VArr elems'))
      | _, _ =>
          match getProp val seg with
          | None =>
              if inherits val seg then walkInherited seg segs' lastKey else Ok None
          | Some child =>
              r <- walk segs' lastKey child ;;
              match r with
              | None => Ok None
              | Some child' => Ok (Some (updChild val seg child'))
              end
          end
      end
  end.

(** [excludePath[excludePath.length - 1]]; as a property name [undefined] is
    the string [undefined]. *)
Definition lastKeyOf (excludePath : list string) : string :=
  last excludePath "undefined".

(** The segments the loop visits: from [operationPath.length] up to but not
    including [excludePath.length - 1]. *)
Definition loopSegments (operationPath excludePath : list string) : list string :=
  firstn (List.length excludePath - 1 - List.length operationPath)
    (skipn (List.length operationPath) excludePath).

(** The boolean the source returns and the operation as it left it. *)
Definition deepRemovePath (patch : PatchOperation) (excludePath : list string)
  : result (bool * PatchOperation) :=
  let operationPath := sanitizeEmptyPath (getArrayFromPath (path patch)) in
  if isPathContained operationPath excludePath then
    match value_ patch with
    | None => Ok (true, patch)
    | Some val =>
        r <- walk (loopSegments operationPath excludePath) (lastKeyOf excludePath) val ;;
        match r with
        | None => Ok (true, patch)
        | Some value' =>
            keys <- Object_keys value' ;;
            Ok (negb (Nat.eqb (List.length keys) 0), setValue patch value')
        end
    end
  else Ok (true, patch).

(** ** The exclusion filter of [createPatch] ([src/index.ts], lines 479-491) *)

(** [excludes.every(exclude => deepRemovePath(op, exclude))]: it stops at
    the first [false]. *)
Fixpoint everyDeepRemove (patch : PatchOperation) (excludes : list (list string))
  : result (bool * PatchOperation) :=
  match excludes with
  | [] => Ok (true, patch)
  | exclude :: excludes' =>
      r <- deepRemovePath patch exclude ;;
      if fst r then everyDeepRemove (snd r) excludes' else Ok (false, snd r)
  end.

(** The callback of [ops.filter]. *)
Definition keepOp (excludes : list (list string)) (patch : PatchOperation)
  : result (bool * PatchOperation) :=
  let pathArray := getArrayFromPath (path patch) in
  if existsb (fun exclude => isPathContained exclude pathArray) excludes
  then Ok (false, patch)
  else everyDeepRemove patch excludes.

Fixpoint filterM (excludes : list (list string)) (ops : list PatchOperation)
  : result (list PatchOperation) :=
  match ops with
  | [] => Ok []
  | patch :: ops' =>
      r <- keepOp excludes patch ;;
      rest <- filterM excludes ops' ;;
      Ok (if fst r then snd r :: rest else rest)
  end.

Definition filterOps (excludes : list (list string)) (ops : list PatchOperation)
  : result (list PatchOperation) :=
  if Nat.ltb 0 (List.length excludes) then filterM excludes ops else Ok ops.

(** ** Objects as the runtime updates them *)

(** [obj[key] = v]: an existing key keeps its place, a new one goes last. *)
Fixpoint set_key (key : string) (v : value) (props : list (string * value))
  : list (string * value) :=
  match props with
  | [] => [(key, v)]
  | (k, x) :: props' =>
      if String.eqb key k then (k, v) :: props'
      else (k, x) :: set_key key v props'
  end.

Fixpoint indexed_from (i : nat) (elems : list (option value)) : list (string * value) :=
  match elems with
  | [] => []
  | Some v :: l => (string_of_nat i, v) :: indexed_from (S i) l
  | None :: l => indexed_from (S i) l
  end.

Fixpoint chars_from (i : nat) (s : string) : list (string * value) :=
  match s with
  | EmptyString => []
  | String c s' => (string_of_nat i, VStr (String c EmptyString)) :: chars_from (S i) s'
  end.

(** The own enumerable properties of a value, in the order of
    [Object.keys]. *)
Definition ownProps (v : value) : list (string * value) :=
  match v with
  | VObj props => props
  | VArr elems => indexed_from 0 elems
  | VStr s => chars_from 0 s
  | _ => []
  end.

(** [Object.assign(target, source)] on the properties of [target]. *)
Definition assign (target source : list (string * value)) : list (string * value) :=
  fold_left (fun t kv => set_key (fst kv) (snd kv) t) source target.

(** JavaScript truthiness. *)
Definition truthy (v : value) : bool :=
  match v with
  | VNull => false
  | VBool b => b
  | VNum n => negb (n =? 0)
  | VStr s => negb (String.eqb s "")
  | _ => true
  end.

(** lodash [isObject] on the values of the model. *)
Definition isObject (v : value) : bool :=
  match v with
  | VArr _ | VObj _ => true
  | _ => false
  end.

(** ** [mergeQueryConditionsWithUpdate] ([src/index.ts], lines 274-294) *)

(** [_update ? (_update.$set || _update) : _update], as the source of
    [Object.assign]; [undefined] contributes nothing. *)
Definition updateSource (_update : option value) : list (string * value) :=
  match _update with
  | None => []
  | Some u =>
      if truthy u then
        match getProp u "$set" with
        | Some s => if truthy s then ownProps s else ownProps u
        | None => ownProps u
        end
      else []
  end.

Definition mergeQueryConditionsWithUpdate (_conditions : value) (_update : option value)
  : value :=
  let conditions := assign (assign [] (ownProps _conditions)) (updateSource _update) in
  VObj (filter (fun kv => negb (includes_dollar (fst kv))) conditions).

(** ** lodash [dropRightWhile] and [merge] *)

Fixpoint dropRightWhile {A : Type} (predicate : A -> bool) (array : list A) : list A :=
  match array with
  | [] => []
  | a :: array' =>
      match dropRightWhile predicate array' with
      | [] => if predicate a then [] else [a]
      | kept => a :: kept
      end
  end.

Fixpoint pad_holes (n : nat) (elems : list (option value)) : list (option value) :=
  match n, elems with
  | O, _ => elems
  | S n', [] => None :: pad_holes n' []
  | S n', o :: l => o :: pad_holes n' l
  end.

(** [object[key] = v] on an object or an array.  An array grows by holes
    when the index is past its end; a property of an array that is not an
    index has no place in [value] and is not kept. *)
Definition putProp (object : value) (key : string) (v : value) : value :=
  match object with
  | VObj props => VObj (set_key key v props)
  | VArr elems =>
      match array_index key with
      | Some i => VArr (set_nth i (Some v) (pad_holes (S i) elems))
      | None => object
      end
  | _ => object
  end.

(** The destination [baseMergeDeep] merges a source object or array into:
    the existing value when it fits, a fresh [[]] or [{}] otherwise. *)
Definition mergeTarget (objValue : option value) (srcValue : value) : value :=
  match srcValue, objValue with
  | VArr _, Some (VArr a) => VArr a
  | VArr _, _ => VArr []
  | _, Some (VArr a) => VArr a
  | _, Some (VObj o) => VObj o
  | _, _ => VObj []
  end.

(** One key of [baseMerge]: objects and arrays are merged recursively by
    [rec], anything else is assigned. *)
Definition mergeKey (rec : value -> value) (object : value) (key : string)
  (srcValue : value) : value :=
  if isObject srcValue
  then putProp object key (rec (mergeTarget (getProp object key) srcValue))
  else putProp object key srcValue.

(** [baseMerge(object, source)]: every key of [source] is merged into
    [object], in order.  A hole of a source array leaves the destination as
    it is. *)
Fixpoint baseMerge (source : value) (object : value) {struct source} : value :=
  match source with
  | VObj props =>
      (fix mergeProps (ps : list (string * value)) (object : value) : value :=
         match ps with
         | [] => object
         | (k, srcValue) :: ps' =>
             mergeProps ps' (mergeKey (baseMerge srcValue) object k srcValue)
         end) props object
  | VArr elems =>
      (fix mergeElems (i : nat) (es : list (option value)) (object : value) : value :=
         match es with
         | [] => object
         | Some srcValue :: es' =>
             mergeElems (S i) es'
               (mergeKey (baseMerge srcValue) object (string_of_nat i) srcValue)
         | None :: es' => mergeElems (S i) es' object
         end) 0%nat elems object
  | _ => object
  end.

(** [merge(object, source)] *)
Definition merge (object source : value) : value := baseMerge source object.

(** ** fast-json-patch: [applyOperation] and [applyPatch]

    The library (version 3.1) is not part of the repository; its [core]
    module is transcribed here.  [descend] is the loop of [applyOperation]
    with [validateOperation = true], as [rollback] calls it; [rawApply] is
    the same loop without validation, as the library calls it on itself for
    [move], [copy] and [getValueByPointer].  The library runs in strict
    mode.  [applyOperation] answers the [newDocument] of its result. *)

Fixpoint replace_pair (a b r : ascii) (s : string) : string :=
  match s with
  | EmptyString => s
  | String x t =>
      match t with
      | EmptyString => s
      | String y s' =>
          if Ascii.eqb x a && Ascii.eqb y b then String r (replace_pair a b r s')
          else String x (replace_pair a b r t)
      end
  end.

(** [path.replace(/~1/g, '/').replace(/~0/g, '~')] *)
Definition unescapePathComponent (s : string) : string :=
  replace_pair "~" "0" "~" (replace_pair "~" "1" "/" s).

(** [path.replace(/~/g, '~0').replace(/\//g, '~1')] *)
Fixpoint escapePathComponent (s : string) : string :=
  match s with
  | EmptyString => EmptyString
  | String c s' =>
      if Ascii.eqb c "~" then String "~" (String "0" (escapePathComponent s'))
      else if Ascii.eqb c slash then String "~" (String "1" (escapePathComponent s'))
      else String c (escapePathComponent s')
  end.

(** The reference tokens of a JSON pointer that is not the root. *)
Definition pointerKeys (pointer : string) : list string :=
  map unescapePathComponent (tl (split_slash pointer)).

Definition isRootPath (pointer : string) : bool := String.eqb pointer "".

Definition starts_with_slash (s : string) : bool :=
  match s with
  | String c _ => Ascii.eqb c slash
  | EmptyString => false
  end.

Fixpoint insert_nth {A : Type} (i : nat) (a : A) (l : list A) : list A :=
  match i, l with
  | O, _ => a :: l
  | S i', x :: l' => x :: insert_nth i' a l'
  | S _, [] => [a]
  end.

Fixpoint remove_nth {A : Type} (i : nat) (l : list A) : list A :=
  match i, l with
  | _, [] => []
  | O, _ :: l' => l'
  | S i', x :: l' => x :: remove_nth i' l'
  end.

Fixpoint hasUndefined (v : value) : bool :=
  match v with
  | VArr elems =>
      (fix holes (l : list (option value)) : bool :=
         match l with
         | [] => false
         | None :: _ => true
         | Some x :: l' => hasUndefined x || holes l'
         end) elems
  | VObj props =>
      (fix inProps (l : list (string * value)) : bool :=
         match l with
         | [] => false
         | (_, x) :: l' => hasUndefined x || inProps l'
         end) props
  | _ => false
  end.

Definition patchError {A : Type} (name : string) : result A :=
  Err (JsonPatchError name).

(** The index a reference token names in an array.  [isInteger] of the
    library answers [true] on every run of decimal digits, the empty one
    also, and the loop then reads the key with [~~key]: the number it
    converts to, modulo 2^32, as a signed integer. *)
Fixpoint isInteger (str : string) : bool :=
  match str with
  | EmptyString => true
  | String c str' => is_digit c && isInteger str'
  end.

(** The integer part of a number; none for [NaN] and the infinities. *)
Definition truncate (x : number) : option Z :=
  match x with
  | Fin negative mant expo =>
      let a := if 0 <=? expo then mant * 2 ^ expo else mant / 2 ^ (- expo) in
      Some (if negative then - a else a)
  | _ => None
  end.

(** [~~x] *)
Definition toInt32 (x : number) : Z :=
  match truncate x with
  | Some a => let k := a mod 2 ^ 32 in if k <? 2 ^ 31 then k else k - 2 ^ 32
  | None => 0
  end.

(** Where [arr.splice(start, ...)] starts: a negative [start] counts from
    the end. *)
Definition spliceStart (len : nat) (start : Z) : nat :=
  if start <? 0 then Z.to_nat (Z.max (Z.of_nat len + start) 0)
  else Nat.min (Z.to_nat start) len.

(** The same for a start that is not an integer yet. *)
Definition spliceStartOf (len : nat) (start : number) : nat :=
  match start with
  | NaN => 0%nat
  | Inf negative => if negative then 0%nat else len
  | Fin _ _ _ =>
      match truncate start with
      | Some a => spliceStart len a
      | None => 0%nat
      end
  end.

(** [key === '-'] is the position after the last element. *)
Definition rawIndex (elems : list (option value)) (key : string) : option Z :=
  if String.eqb key "-" then Some (Z.of_nat (List.length elems))
  else if isInteger key then Some (toInt32 (Number (Some key)))
  else None.

Definition arrayKey (elems : list (option value)) (key : string) : result Z :=
  match rawIndex elems key with
  | Some k => Ok k
  | None => patchError "OPERATION_PATH_ILLEGAL_ARRAY_INDEX"
  end.

(** [arr[k]] for a number [k] *)
Definition elementAt (elems : list (option value)) (k : Z) : option value :=
  if k <? 0 then None else elem_at elems (Z.to_nat k).

(** [key == '__proto__' || (key == 'prototype' && t > 0 && keys[t - 1] == 'constructor')] *)
Definition banned (key previous : string) : bool :=
  String.eqb key "__proto__"
  || (String.eqb key "prototype" && String.eqb previous "constructor").

Definition banError {A : Type} : result A :=
  Err (TypeError "JSON-Patch: modifying `__proto__` or `constructor/prototype` prop is banned for security reasons").

Definition readError {A : Type} : result A :=
  Err (TypeError "Cannot read properties of undefined").

(** [_areEquals(a, b)]: arrays are compared element by element and objects
    key by key, from the last to the first; the keys of [a] are looked for
    in [b] with [b.hasOwnProperty], which is not a function when [b] has a
    property of that name. *)
Fixpoint areEquals (a b : value) {struct a} : result bool :=
  match a, b with
  | VNull, VNull => Ok true
  | VBool x, VBool y => Ok (Bool.eqb x y)
  | VNum x, VNum y => Ok (x =? y)
  | VStr x, VStr y => Ok (String.eqb x y)
  | VArr xs, VArr ys =>
      if negb (Nat.eqb (List.length xs) (List.length ys)) then Ok false
      else
        (fix elems (xs ys : list (option value)) {struct xs} : result bool :=
           match xs, ys with
           | x :: xs', y :: ys' =>
               later <- elems xs' ys' ;;
               if later then
                 match x, y with
                 | Some x', Some y' => areEquals x' y'
                 | None, None => Ok true
                 | _, _ => Ok false
                 end
               else Ok false
           | _, _ => Ok true
           end) xs ys
  | VObj ps, VObj qs =>
      if negb (Nat.eqb (List.length ps) (List.length qs)) then Ok false
      else
        match ps with
        | [] => Ok true
        | _ :: _ =>
            match assoc "hasOwnProperty" qs with
            | Some _ => Err (TypeError "b.hasOwnProperty is not a function")
            | None =>
                if negb (forallb (fun kv : string * value =>
                                    match assoc (fst kv) qs with
                                    | Some _ => true
                                    | None => false
                                    end) ps)
                then Ok false
                else
                  (fix props (ps : list (string * value)) {struct ps} : result bool :=
                     match ps with
                     | [] => Ok true
                     | (k, x) :: ps' =>
                         later <- props ps' ;;
                         if later then
                           match assoc k qs with
                           | Some y => areEquals x y
                           | None => Ok false
                           end
                         else Ok false
                     end) ps
            end
        end
  | _, _ => Ok false
  end.

(** [_deepClone(obj)] for an object: [JSON.parse(JSON.stringify(obj))], in
    which a hole of an array becomes [null]. *)
Fixpoint deepClone (v : value) : value :=
  match v with
  | VArr elems =>
      VArr (map (fun o : option value =>
                   match o with
                   | Some x => Some (deepClone x)
                   | None => Some VNull
                   end) elems)
  | VObj props =>
      VObj (map (fun kv : string * value => let '(k, x) := kv in (k, deepClone x)) props)
  | _ => v
  end.

(** [validator(operation, 0)]: the checks on the shape of an operation.
    Every kind of the type [PatchOperation] is an operation of the library. *)
Definition validator (operation : PatchOperation) : result unit :=
  if negb (isRootPath (path operation) || starts_with_slash (path operation))
  then patchError "OPERATION_PATH_INVALID"
  else
    match op operation, from operation, value_ operation with
    | (op_move | op_copy), None, _ => patchError "OPERATION_FROM_REQUIRED"
    | (op_add | op_replace | op_test), _, None =>
        patchError "OPERATION_VALUE_REQUIRED"
    | (op_add | op_replace | op_test), _, Some v =>
        if hasUndefined v
        then patchError "OPERATION_VALUE_CANNOT_CONTAIN_UNDEFINED"
        else Ok tt
    | _, _, _ => Ok tt
    end.

(** [validator(operation, 0, document, existingPathFragment)], after the
    checks above, which have passed.  The loop calls it once: at the first
    key that [obj] lacks, with the path up to there ([found = false]), or at
    the last key, with the whole path ([found = true]).  An [add] is refused
    when the path goes on after a missing key, that is when the key is not
    the [last].  [fromCheck] is what the validation of [from] answers. *)
Definition validateExisting (operation : PatchOperation) (document : value)
  (fromCheck : result unit) (found last : bool) : result unit :=
  if truthy document then
    match op operation with
    | op_add =>
        if found || last then Ok tt else patchError "OPERATION_PATH_CANNOT_ADD"
    | op_replace | op_remove | op_get =>
        if found then Ok tt else patchError "OPERATION_PATH_UNRESOLVABLE"
    | op_move | op_copy => fromCheck
    | op_test => Ok tt
    end
  else Ok tt.

Definition testOutcome (found : option value) (v : value) : result (option value) :=
  match found with
  | Some x =>
      equal <- areEquals x v ;;
      if equal then Ok None else patchError "TEST_OPERATION_FAILED"
  | None => patchError "TEST_OPERATION_FAILED"
  end.

(** [arrOps[operation.op].call(operation, obj, key, document)] behind the
    bound check of an [add]; [Some] is the array as the operation left it,
    [None] stands for an operation that leaves it alone: [test] and [_get],
    and [move] and [copy], which work on the whole document. *)
Definition arrayLeaf (operation : PatchOperation) (elems : list (option value)) (k : Z)
  : result (option value) :=
  match op operation, value_ operation with
  | op_add, Some v =>
      if Z.of_nat (List.length elems) <? k
      then patchError "OPERATION_VALUE_OUT_OF_BOUNDS"
      else Ok (Some (VArr (insert_nth (spliceStart (List.length elems) k) (Some v) elems)))
  | op_remove, _ =>
      Ok (Some (VArr (remove_nth (spliceStart (List.length elems) k) elems)))
  | op_replace, Some v =>
      if k <? 0 then Err (Unmodelled "a property of an array that is not an element")
      else Ok (Some (VArr (set_nth (Z.to_nat k) (Some v)
                             (pad_holes (S (Z.to_nat k)) elems))))
  | op_test, Some v => testOutcome (elementAt elems k) v
  | (op_get | op_move | op_copy), _ => Ok None
  | _, None => Err (Unmodelled "an operation without its value")
  end.

(** [objOps[operation.op].call(operation, obj, key, document)] *)
Definition objectLeaf (operation : PatchOperation) (obj : value) (key : string)
  : result (option value) :=
  match obj with
  | VObj props =>
      match op operation, value_ operation with
      | (op_add | op_replace), Some v => Ok (Some (VObj (set_key key v props)))
      | op_remove, _ => Ok (Some (VObj (remove_key key props)))
      | op_test, Some v => testOutcome (assoc key props) v
      | (op_get | op_move | op_copy), _ => Ok None
      | _, None => Err (Unmodelled "an operation without its value")
      end
  | VNull => Err (TypeError "Cannot read properties of null")
  | _ =>
      match op operation, value_ operation with
      | op_test, Some v => testOutcome (getProp obj key) v
      | (op_get | op_move | op_copy), _ => Ok None
      | _, _ => Err (Unmodelled "a property of a value that is not an object")
      end
  end.

(** The loop of [applyOperation] with [validateOperation = true], from the
    key [keys[t]] on: [rest] holds [keys[t]], [keys[t + 1]], ..., [previous]
    is [keys[t - 1]], and [pending] says that [existingPathFragment] is still
    [undefined].  [obj] is the document or an object or array in it. *)
Fixpoint descend (operation : PatchOperation) (document : value)
  (fromCheck : result unit) (previous : string) (pending : bool)
  (rest : list string) (obj : value) : result (option value) :=
  match rest with
  | [] => Err (Unmodelled "a path without a key")
  | raw :: rest' =>
      let key := unescapePathComponent raw in
      let last := match rest' with [] => true | _ :: _ => false end in
      let found := match memberOf obj key with Absent => false | _ => true end in
      if banned key previous then banError
      else
        match obj with
        | VNull => Err (TypeError "Cannot read properties of null")
        | _ =>
            _ <- (if pending && (negb found || last)
                  then validateExisting operation document fromCheck found last
                  else Ok tt) ;;
            match obj with
            | VArr elems =>
                k <- arrayKey elems key ;;
                match rest' with
                | [] => arrayLeaf operation elems k
                | _ :: _ =>
                    match elementAt elems k with
                    | Some child =>
                        if isObject child then
                          r <- descend operation document fromCheck raw
                                 (pending && found) rest' child ;;
                          Ok (option_map
                                (fun child' => VArr (set_nth (Z.to_nat k) (Some child') elems))
                                r)
                        else patchError "OPERATION_PATH_UNRESOLVABLE"
                    | None => patchError "OPERATION_PATH_UNRESOLVABLE"
                    end
                end
            | _ =>
                match rest' with
                | [] => objectLeaf operation obj key
                | _ :: _ =>
                    match memberOf obj key with
                    | Own child =>
                        if isObject child then
                          r <- descend operation document fromCheck raw
                                 (pending && found) rest' child ;;
                          Ok (option_map (updChild obj key) r)
                        else patchError "OPERATION_PATH_UNRESOLVABLE"
                    | _ => patchError "OPERATION_PATH_UNRESOLVABLE"
                    end
                end
            end
        end
  end.

(** The operations the library applies on its own account, without
    validation: [add] with a value, [remove], which answers what it removed,
    and [_get], which answers what it found. *)
Inductive rawOp : Type :=
| RawAdd (v : value)
| RawRemove
| RawGet.

(** The loop goes on with [obj = undefined]: the next key is checked, then
    a property of [undefined] is read. *)
Definition onUndefined {A : Type} (previous : string) (rest : list string) : result A :=
  match rest with
  | raw :: _ => if banned (unescapePathComponent raw) previous then banError else readError
  | [] => readError
  end.

(** [obj[key]] in the loop without validation: in an array a key that
    [isInteger] accepts is a number by now, any other is a property name. *)
Definition rawChild (obj : value) (key : string) : result (option value) :=
  match obj with
  | VNull => Err (TypeError "Cannot read properties of null")
  | VArr elems =>
      match rawIndex elems key with
      | Some k => Ok (elementAt elems k)
      | None =>
          match memberOf obj key with
          | Own v => Ok (Some v)
          | Inherited => Err (Unmodelled "a member of a built-in object")
          | Absent => Ok None
          end
      end
  | _ =>
      match memberOf obj key with
      | Own v => Ok (Some v)
      | Inherited => Err (Unmodelled "a member of a built-in object")
      | Absent => Ok None
      end
  end.

(** The parent after the child under [key] was mutated in place. *)
Definition rawUpdate (obj : value) (key : string) (child : value) : value :=
  match obj with
  | VObj props => VObj (replace_key key child props)
  | VArr elems =>
      match rawIndex elems key with
      | Some k => if k <? 0 then obj else VArr (set_nth (Z.to_nat k) (Some child) elems)
      | None => obj
      end
  | _ => obj
  end.

(** [arrOps] and [objOps] without validation: the object as the operation
    left it, and what it removed or found ([None] is [undefined]). *)
Definition rawLeaf (what : rawOp) (obj : value) (key : string)
  : result (value * option value) :=
  match obj with
  | VNull => Err (TypeError "Cannot read properties of null")
  | VArr elems =>
      match rawIndex elems key, what with
      | Some k, RawAdd v =>
          Ok (VArr (insert_nth (spliceStart (List.length elems) k) (Some v) elems), None)
      | Some k, RawRemove =>
          let i := spliceStart (List.length elems) k in
          Ok (VArr (remove_nth i elems), elem_at elems i)
      | Some k, RawGet => Ok (obj, elementAt elems k)
      | None, RawAdd _ => Err (Unmodelled "a property of an array that is not an element")
      | None, RawRemove =>
          let i := spliceStartOf (List.length elems) (Number (Some key)) in
          Ok (VArr (remove_nth i elems), elem_at elems i)
      | None, RawGet => found <- rawChild obj key ;; Ok (obj, found)
      end
  | VObj props =>
      match what with
      | RawAdd v => Ok (VObj (set_key key v props), None)
      | RawRemove => removed <- rawChild obj key ;; Ok (VObj (remove_key key props), removed)
      | RawGet => found <- rawChild obj key ;; Ok (obj, found)
      end
  | _ =>
      match what with
      | RawGet => found <- rawChild obj key ;; Ok (obj, found)
      | _ => Err (Unmodelled "a property of a value that is not an object")
      end
  end.

Fixpoint rawApply (what : rawOp) (previous : string) (rest : list string) (obj : value)
  : result (value * option value) :=
  match rest with
  | [] => Err (Unmodelled "a path without a key")
  | raw :: rest' =>
      let key := unescapePathComponent raw in
      if banned key previous then banError
      else
        match rest' with
        | [] => rawLeaf what obj key
        | _ :: _ =>
            child <- rawChild obj key ;;
            match child with
            | None => onUndefined raw rest'
            | Some c =>
                r <- rawApply what raw rest' c ;;
                Ok (rawUpdate obj key (fst r), snd r)
            end
        end
  end.

(** [path.split('/')]: the loop starts at the second part. *)
Definition firstRaw (pointer : string) : string := hd "" (split_slash pointer).

Definition rawKeys (pointer : string) : list string := tl (split_slash pointer).

(** An operation without validation at a pointer that is not the root.  In
    a pointer without a slash there is no second part: [keys[1]] is
    [undefined], which [isInteger] cannot read in an array and which names the
    property [undefined] elsewhere. *)
Definition rawAt (what : rawOp) (pointer : string) (document : value)
  : result (value * option value) :=
  match rawKeys pointer with
  | [] =>
      match document with
      | VArr _ => readError
      | _ => rawLeaf what document "undefined"
      end
  | keys => rawApply what (firstRaw pointer) keys document
  end.

(** [getValueByPointer(document, pointer)]; [None] is [undefined]. *)
Definition getValueByPointer (document : value) (pointer : string)
  : result (option value) :=
  if isRootPath pointer then Ok (Some document)
  else r <- rawAt RawGet pointer document ;; Ok (snd r).

(** [objOps.copy]: the value at [from] is added at [path], cloned when it
    is an object, as [null] when it is [undefined]. *)
Definition documentCopy (document : value) (src pointer : string) : result value :=
  valueToCopy <- getValueByPointer document src ;;
  r <- rawAt (RawAdd (match valueToCopy with
                      | Some v => deepClone v
                      | None => VNull
                      end)) pointer document ;;
  Ok (fst r).

(** [objOps.move]: what [remove] answers at [from] is added at [path].  A
    [from] that is the root would put the document into itself, a [from]
    that names nothing would add [undefined]. *)
Definition documentMove (document : value) (src pointer : string) : result value :=
  if isRootPath src then Err (Unmodelled "an object that holds itself")
  else
    r <- rawAt RawRemove src document ;;
    match snd r with
    | None => Err (Unmodelled "a property whose value is undefined")
    | Some originalValue =>
        r' <- rawAt (RawAdd originalValue) pointer (fst r) ;;
        Ok (fst r')
    end.

Definition getOperation (pointer : string) : PatchOperation :=
  mkOp op_get pointer None None Missing.

(** [applyPatch(document, [{ op: '_get', path: pointer }], true)], for its
    errors. *)
Definition resolves (document : value) (pointer : string) : result unit :=
  _ <- validator (getOperation pointer) ;;
  if isRootPath pointer then Ok tt
  else
    _ <- descend (getOperation pointer) document (Ok tt) (firstRaw pointer) true
           (rawKeys pointer) document ;;
    Ok tt.

(** The validation of [from] for [move] and [copy]: [validate] tries a
    [_get] on a clone of the document and answers the error of the library, of
    which [validator] only looks for [OPERATION_PATH_UNRESOLVABLE]; any other
    error it throws again. *)
Definition validateFrom (document : value) (src : string) : result unit :=
  match resolves (deepClone document) src with
  | Err (JsonPatchError name) =>
      if String.eqb name "OPERATION_PATH_UNRESOLVABLE"
      then patchError "OPERATION_FROM_UNRESOLVABLE"
      else Ok tt
  | Err e => Err e
  | Ok _ => Ok tt
  end.

(** An operation whose [path] is not the root: the document after it. *)
Definition applyInside (doc : value) (operation : PatchOperation) : result value :=
  let fromCheck :=
    match from operation with
    | Some src => validateFrom doc src
    | None => Ok tt
    end in
  r <- descend operation doc fromCheck (firstRaw (path operation)) true
         (rawKeys (path operation)) doc ;;
  match r with
  | Some doc' => Ok doc'
  | None =>
      match op operation, from operation with
      | op_move, Some src => documentMove doc src (path operation)
      | op_copy, Some src => documentCopy doc src (path operation)
      | _, _ => Ok doc
      end
  end.

(** An operation on the root: the [newDocument] of its result.  The
    document is [None] when an earlier operation left [undefined] for it. *)
Definition applyRoot (doc : option value) (operation : PatchOperation)
  : result (option value) :=
  match op operation, value_ operation, from operation with
  | (op_add | op_replace), Some v, _ => Ok (Some v)
  | op_remove, _, _ => Ok (Some VNull)
  | (op_move | op_copy), _, Some src =>
      match doc with
      | Some d => getValueByPointer d src
      | None => if isRootPath src then Ok None else onUndefined (firstRaw src) (rawKeys src)
      end
  | op_test, Some v, _ =>
      match doc with
      | Some d =>
          equal <- areEquals d v ;;
          if equal then Ok doc else patchError "TEST_OPERATION_FAILED"
      | None => patchError "TEST_OPERATION_FAILED"
      end
  | op_get, _, _ => Ok doc
  | _, _, _ => Err (Unmodelled "an operation without its value")
  end.

(** [applyOperation(document, operation, true)]: its [newDocument]. *)
Definition applyOperation (doc : value) (operation : PatchOperation) : result value :=
  _ <- validator operation ;;
  if isRootPath (path operation) then
    r <- applyRoot (Some doc) operation ;;
    match r with
    | Some d => Ok d
    | None => Err (Unmodelled "a document that is undefined")
    end
  else applyInside doc operation.

(** Standard application of a sequence of operations: each one to the
    document the previous one answered. *)
Fixpoint applyAll (doc : value) (ops : list PatchOperation) : result value :=
  match ops with
  | [] => Ok doc
  | operation :: ops' => doc' <- applyOperation doc operation ;; applyAll doc' ops'
  end.

(** ** The state that [applyPatch] mutates

    [jsonpatch.applyPatch(state, ops, true)] answers a result that the
    caller drops; what counts is what it leaves in the caller's [state].
    Inside the library the variable [document] starts as [state]; an
    operation inside the document mutates it in place; an operation on the
    root only rebinds [document].  After it [document] is either a part of
    [state], at [Alias p], or a value apart from it, [undefined] maybe. *)

(** The key of an element as the library reads it right: decimal digits
    without a leading zero, for a number below 2^31. *)
Definition smallIndex (key : string) : option nat :=
  match array_index key with
  | Some i => if Z.of_nat i <? 2 ^ 31 then Some i else None
  | None => None
  end.

(** The part of an object or of an array under a key. *)
Definition leafGet (obj : value) (key : string) : option value :=
  match obj with
  | VObj props => assoc key props
  | VArr elems =>
      match smallIndex key with
      | Some i => elem_at elems i
      | None => None
      end
  | _ => None
  end.

Fixpoint getAt (keys : list string) (doc : value) : option value :=
  match keys with
  | [] => Some doc
  | key :: keys' =>
      match leafGet doc key with
      | Some child => getAt keys' child
      | None => None
      end
  end.

Inductive docref : Type :=
| Alias (p : list string)
| Detached (d : option value).

(** The part of [state] at [p] after it was mutated into [d]. *)
Fixpoint setAt (p : list string) (d : value) (state : value) : value :=
  match p with
  | [] => d
  | key :: p' =>
      match leafGet state key with
      | Some child =>
          match state with
          | VObj props => VObj (replace_key key (setAt p' d child) props)
          | VArr elems =>
              match smallIndex key with
              | Some i => VArr (set_nth i (Some (setAt p' d child)) elems)
              | None => state
              end
          | _ => state
          end
      | None => state
      end
  end.

(** The keys under which [getAt] finds what the loop without validation
    finds along [rest]. *)
Fixpoint canonicalKeys (rest : list string) (obj : value) : option (list string) :=
  match rest with
  | [] => Some []
  | raw :: rest' =>
      let key := unescapePathComponent raw in
      match obj with
      | VObj props =>
          match assoc key props with
          | Some child => option_map (cons key) (canonicalKeys rest' child)
          | None => None
          end
      | VArr elems =>
          match rawIndex elems key with
          | Some k =>
              match elementAt elems k with
              | Some child =>
                  option_map (cons (string_of_nat (Z.to_nat k)))
                    (canonicalKeys rest' child)
              | None => None
              end
          | None => None
          end
      | _ => None
      end
  end.

(** Where [document] points after an operation on the root.  [move] and
    [copy] answer the value at [from] itself, not a clone of it. *)
Definition rebind (p : list string) (doc : value) (operation : PatchOperation)
  : result docref :=
  match op operation, from operation with
  | (op_move | op_copy), Some src =>
      if isRootPath src then Ok (Alias p)
      else
        found <- getValueByPointer doc src ;;
        match found with
        | None => Ok (Detached None)
        | Some x =>
            if isObject x then
              match canonicalKeys (match rawKeys src with
                                   | [] => ["undefined"]
                                   | keys => keys
                                   end) doc with
              | Some q => Ok (Alias (p ++ q))
              | None => Err (Unmodelled "a part of the state under a key of its own")
              end
            else Ok (Detached (Some x))
        end
  | (op_test | op_get), _ => _ <- applyRoot (Some doc) operation ;; Ok (Alias p)
  | _, _ => d <- applyRoot (Some doc) operation ;; Ok (Detached d)
  end.

Fixpoint applyPatchFrom (ref : docref) (state : value) (ops : list PatchOperation)
  : result value :=
  match ops with
  | [] => Ok state
  | operation :: ops' =>
      _ <- validator operation ;;
      match ref with
      | Detached None =>
          if isRootPath (path operation) then
            d' <- applyRoot None operation ;;
            applyPatchFrom (Detached d') state ops'
          else onUndefined (firstRaw (path operation)) (rawKeys (path operation))
      | Detached (Some d) =>
          if isRootPath (path operation) then
            d' <- applyRoot (Some d) operation ;;
            applyPatchFrom (Detached d') state ops'
          else
            d' <- applyInside d operation ;;
            applyPatchFrom (Detached (Some d')) state ops'
      | Alias p =>
          match getAt p state with
          | None => Err (Unmodelled "a part of the state under a key of its own")
          | Some doc =>
              if isRootPath (path operation) then
                ref' <- rebind p doc operation ;;
                applyPatchFrom ref' state ops'
              else
                doc' <- applyInside doc operation ;;
                applyPatchFrom (Alias p) (setAt p doc' state) ops'
          end
      end
  end.

Definition applyPatch (state : value) (ops : list PatchOperation) : result value :=
  applyPatchFrom (Alias []) state ops.

(** ** fast-json-patch: [compare]

    [_generate(mirror, obj, patches, path)]: the keys of [mirror] are visited
    from the last to the first, then the keys of [obj] that [mirror] lacks
    are added in order.  Both trees are objects or arrays without holes, as
    the plugin calls it on what [toJSON] answers. *)

Definition mkPatch (kind : opkind) (pointer : string) (v : option value) : PatchOperation :=
  mkOp kind pointer v None Missing.

(** [oldVal !== newVal] where the two are not both objects, or not both
    arrays: objects and arrays are never the same reference. *)
Definition strictNeq (oldVal newVal : value) : bool :=
  if isObject oldVal || isObject newVal then true else negb (value_eqb oldVal newVal).

Definition childPath (pointer key : string) : string :=
  pointer ++ "/" ++ escapePathComponent key.

(** One key of [mirror]: the operations it gives and whether it was
    deleted. *)
Definition generateKey (rec : value -> string -> list PatchOperation)
  (mirror obj : value) (pointer key : string) (oldVal : value)
  : list PatchOperation * bool :=
  match assoc key (ownProps obj) with
  | Some newVal =>
      if isObject oldVal && isObject newVal
         && Bool.eqb (isArray oldVal) (isArray newVal)
      then (rec newVal (childPath pointer key), false)
      else if strictNeq oldVal newVal
      then ([mkPatch op_replace (childPath pointer key) (Some newVal)], false)
      else ([], false)
  | None =>
      if Bool.eqb (isArray mirror) (isArray obj)
      then ([mkPatch op_remove (childPath pointer key) None], true)
      else ([mkPatch op_replace pointer (Some obj)], false)
  end.

(** The second loop of [_generate]. *)
Definition generateAdds (mirror obj : value) (pointer : string) : list PatchOperation :=
  flat_map
    (fun kv =>
       match assoc (fst kv) (ownProps mirror) with
       | Some _ => []
       | None => [mkPatch op_add (childPath pointer (fst kv)) (Some (snd kv))]
       end)
    (ownProps obj).

Definition finishGenerate (mirror obj : value) (pointer : string)
  (perKey : list (list PatchOperation * bool)) : list PatchOperation :=
  let olds := concat (map fst (rev perKey)) in
  let deleted := existsb snd perKey in
  if negb deleted
     && Nat.eqb (List.length (ownProps obj)) (List.length (ownProps mirror))
  then olds
  else olds ++ generateAdds mirror obj pointer.

Fixpoint generate (mirror : value) (obj : value) (pointer : string) {struct mirror}
  : list PatchOperation :=
  match mirror with
  | VObj props =>
      finishGenerate mirror obj pointer
        ((fix eachProp (ps : list (string * value)) : list (list PatchOperation * bool) :=
            match ps with
            | [] => []
            | (key, oldVal) :: ps' =>
                generateKey (generate oldVal) mirror obj pointer key oldVal
                :: eachProp ps'
            end) props)
  | VArr elems =>
      finishGenerate mirror obj pointer
        ((fix eachElem (i : nat) (es : list (option value))
            : list (list PatchOperation * bool) :=
            match es with
            | [] => []
            | Some oldVal :: es' =>
                generateKey (generate oldVal) mirror obj pointer (string_of_nat i) oldVal
                :: eachElem (S i) es'
            | None :: es' => eachElem (S i) es'
            end) 0%nat elems)
  | _ => finishGenerate mirror obj pointer []
  end.

(** [jsonpatch.compare(tree1, tree2)] *)
Definition compare (tree1 tree2 : value) : list PatchOperation :=
  generate tree1 tree2 "".

(** ** lodash [tail] and [get] *)

(** The own properties along [keys]: what [get] reads along a path as long
    as no key of it names a member that a value inherits. *)
Fixpoint baseGet (keys : list string) (object : value) : option value :=
  match keys with
  | [] => Some object
  | key :: keys' =>
      match getProp object key with
      | Some child => baseGet keys' child
      | None => None
      end
  end.

(** [reIsPlainProp = /^\w*$/] *)
Definition is_word (c : ascii) : bool :=
  let n := nat_of_ascii c in
  (Nat.leb 48 n && Nat.leb n 57) || (Nat.leb 65 n && Nat.leb n 90)
  || (Nat.leb 97 n && Nat.leb n 122) || Nat.eqb n 95.

Fixpoint reIsPlainProp (s : string) : bool :=
  match s with
  | EmptyString => true
  | String c s' => is_word c && reIsPlainProp s'
  end.

(** [reIsDeepProp]: a dot, or an opening bracket with a closing bracket
    somewhere after it; between the last opening bracket before a closing one
    and that one there is no bracket. *)
Fixpoint hasBracketGroup (s : string) : bool :=
  match s with
  | EmptyString => false
  | String c s' => (Ascii.eqb c "[" && contains "]" s') || hasBracketGroup s'
  end.

Definition reIsDeepProp (s : string) : bool :=
  contains "." s || hasBracketGroup s.

(** [isKey(value, object)] for a string and an object that is not [null];
    [value in Object(object)] is true of inherited members too. *)
Definition isKey (path : string) (object : value) : bool :=
  reIsPlainProp path || negb (reIsDeepProp path)
  || match memberOf object path with
     | Absent => false
     | _ => true
     end.

(** [rePropName], alternative by alternative.  The first: the longest run
    of characters other than a dot and the brackets. *)
Definition is_special (c : ascii) : bool :=
  Ascii.eqb c "." || Ascii.eqb c "[" || Ascii.eqb c "]".

Fixpoint takeRun (s : string) : string * string :=
  match s with
  | EmptyString => ("", "")
  | String c s' =>
      if is_special c then ("", s)
      else let '(run, rest) := takeRun s' in (String c run, rest)
  end.

Fixpoint takeDigits (s : string) : string * string :=
  match s with
  | EmptyString => ("", "")
  | String c s' =>
      if is_digit c then let '(run, rest) := takeDigits s' in (String c run, rest)
      else ("", s)
  end.

(** The second, behind the opening bracket: a number, [-?\d+(?:\.\d+)?],
    and the closing bracket. *)
Definition bracketNumber (s : string) : option (string * string) :=
  let '(sign, s1) :=
    match s with
    | String c s' => if Ascii.eqb c "-" then ("-", s') else ("", s)
    | EmptyString => ("", s)
    end in
  let '(whole, s2) := takeDigits s1 in
  if String.eqb whole "" then None
  else
    match s2 with
    | String c s3 =>
        if Ascii.eqb c "]" then Some ((sign ++ whole)%string, s3)
        else if Ascii.eqb c "." then
          let '(fraction, s4) := takeDigits s3 in
          if String.eqb fraction "" then None
          else
            match s4 with
            | String d rest =>
                if Ascii.eqb d "]" then Some ((sign ++ whole ++ "." ++ fraction)%string, rest)
                else None
            | EmptyString => None
            end
        else None
    | EmptyString => None
    end.

Definition dquote : ascii := ascii_of_nat 34.

Definition backslash : ascii := ascii_of_nat 92.

(** A dot of a regular expression matches no line terminator. *)
Definition is_line_terminator (c : ascii) : bool :=
  Nat.eqb (nat_of_ascii c) 10 || Nat.eqb (nat_of_ascii c) 13.

(** Or a quoted string: the characters up to the first quote [q] that no
    backslash escapes, and what follows that quote. *)
Fixpoint quotedBody (q : ascii) (s : string) : option (string * string) :=
  match s with
  | EmptyString => None
  | String c s' =>
      if Ascii.eqb c q then Some ("", s')
      else if Ascii.eqb c backslash then
        match s' with
        | String d s'' =>
            if is_line_terminator d then None
            else
              match quotedBody q s'' with
              | Some (body, rest) => Some (String c (String d body), rest)
              | None => None
              end
        | EmptyString => None
        end
      else
        match quotedBody q s' with
        | Some (body, rest) => Some (String c body, rest)
        | None => None
        end
  end.

(** [subString.replace(reEscapeChar, '$1')]: of two backslashes one is
    left, a single one goes. *)
Fixpoint unescapeQuoted (s : string) : string :=
  match s with
  | EmptyString => EmptyString
  | String c s' =>
      if Ascii.eqb c backslash then
        match s' with
        | String d s'' =>
            if Ascii.eqb d backslash then String backslash (unescapeQuoted s'')
            else unescapeQuoted s'
        | EmptyString => EmptyString
        end
      else String c (unescapeQuoted s')
  end.

Definition bracketQuoted (s : string) : option (string * string) :=
  match s with
  | String q s' =>
      if Ascii.eqb q dquote || Ascii.eqb q "'" then
        match quotedBody q s' with
        | Some (body, String c rest) =>
            if Ascii.eqb c "]" then Some (unescapeQuoted body, rest) else None
        | _ => None
        end
      else None
  | EmptyString => None
  end.

(** The third matches the empty string in front of a dot or of [[]] that
    is followed by a dot, by [[]], or by nothing. *)
Definition dropDelimiter (s : string) : option string :=
  match s with
  | String c s' =>
      if Ascii.eqb c "." then Some s'
      else if Ascii.eqb c "[" then
        match s' with
        | String d rest => if Ascii.eqb d "]" then Some rest else None
        | EmptyString => None
        end
      else None
  | EmptyString => None
  end.

Definition emptyKeyAhead (s : string) : bool :=
  match dropDelimiter s with
  | Some rest =>
      String.eqb rest ""
      || match dropDelimiter rest with
         | Some _ => true
         | None => false
         end
  | None => false
  end.

(** [string.replace(rePropName, ...)]: the matches from left to right, each
    pushed as a key; after an empty match, and where nothing matches, the
    search goes on one character further.  Every step uses up a character at
    least. *)
Fixpoint scanPath (fuel : nat) (s : string) : list string :=
  match fuel with
  | O => []
  | S fuel' =>
      match s with
      | EmptyString => []
      | String c s' =>
          if negb (is_special c) then
            let '(run, rest) := takeRun s in run :: scanPath fuel' rest
          else
            let onward :=
              if emptyKeyAhead s then "" :: scanPath fuel' s' else scanPath fuel' s' in
            if Ascii.eqb c "[" then
              match bracketNumber s' with
              | Some (number, rest) => number :: scanPath fuel' rest
              | None =>
                  match bracketQuoted s' with
                  | Some (quoted, rest) => quoted :: scanPath fuel' rest
                  | None => onward
                  end
              end
            else onward
      end
  end.

(** [stringToPath(string)] *)
Definition stringToPath (s : string) : list string :=
  (match s with
   | String c _ => if Ascii.eqb c "." then [""] else []
   | EmptyString => []
   end) ++ scanPath (String.length s) s.

(** [castPath(path, object)] *)
Definition castPath (path : string) (object : value) : list string :=
  if isKey path object then [path] else stringToPath path.

(** The loop of lodash [baseGet]: [object = object[key]] as long as [object]
    is neither [null] nor [undefined]. *)
Fixpoint readPath (keys : list string) (object : value) : lookup :=
  match keys with
  | [] => Found object
  | key :: keys' =>
      match object with
      | VNull => Missing
      | _ =>
          match memberOf object key with
          | Own child => readPath keys' child
          | Inherited => Builtin
          | Absent => Missing
          end
      end
  end.

(** [get(object, path)]; an empty path answers [undefined]. *)
Definition lodash_get (object : option value) (path : string) : lookup :=
  match object with
  | None | Some VNull => Missing
  | Some o =>
      match castPath path o with
      | [] => Missing
      | keys => readPath keys o
      end
  end.

(** ** Rollback ([src/index.ts], lines 362-413) *)

Record PatchData : Type := mkPatchData {
  _id : string;
  date : Z;
  ops : list PatchOperation;
  ref : value
}.

(** What [rollback] does to the document it is called on. *)
Inductive docEffect : Type :=
| DocSet (v : value)
| DocSave.

(** [apply.forEach(patch => jsonpatch.applyPatch(state, patch.ops, true))]:
    every record is applied to the same [state]. *)
Fixpoint applyRecords (state : value) (apply : list PatchData) : result value :=
  match apply with
  | [] => Ok state
  | patch :: apply' =>
      state' <- applyPatch state (ops patch) ;;
      applyRecords state' apply'
  end.

(** [patches] is the answer of [find({ ref }).sort({ date: 1 })]; [patchId]
    and the [_id] of a record are compared as strings.  [saved] is how the
    promise of [this.save()] settles when it is called: the promise of
    [rollback] then settles the same way
    ([this.save().then(resolve).catch(reject)]).  The answer is what was done
    to the document and how the promise of [rollback] settles. *)
Definition rollback (patches : list PatchData) (patchId : string) (data : value)
  (save : bool) (saved : result unit) : list docEffect * result unit :=
  let patchIds := map _id patches in
  if negb (existsb (String.eqb patchId) patchIds)
  then ([], Err (RollbackError "patch doesn't exist"))
  else
    let apply := dropRightWhile (fun patch => negb (String.eqb (_id patch) patchId)) patches in
    if Nat.eqb (List.length patches) (List.length apply)
    then ([], Err (RollbackError "rollback to latest patch"))
    else
      match applyRecords (VObj []) apply with
      | Err e => ([], Err e)
      | Ok state =>
          let effects := [DocSet (merge data state)] in
          if save then (effects ++ [DocSave], saved) else (effects, Ok tt)
      end.

(** ** Change capture ([src/index.ts], lines 425-700) *)

Record SchemaInclude : Type := mkInclude {
  include_from : option string
}.

Record ResolvedOptions : Type := mkOptions {
  excludes : list (list string);
  includes : list (string * SchemaInclude);
  removePatches : bool;
  trackOriginalValue : bool
}.

(** A document of the model: its identity, its data view
    [toJSON(this.data())], the snapshot [_original], and the properties the
    [includes] option reads. *)
Record Document : Type := mkDocument {
  docId : value;
  docData : value;
  _original : option value;
  isNew : bool;
  timestamp : option Z;
  docProps : list (string * value)
}.

Definition withOriginal (doc : Document) (original : option value) : Document :=
  mkDocument (docId doc) (docData doc) original (isNew doc) (timestamp doc) (docProps doc).

Record PatchDataInput : Type := mkPatchDataInput {
  input_ops : list PatchOperation;
  input_ref : value;
  input_date : Z;
  input_includes : list (string * option value)
}.

(** The patch collection, the clock behind [new Date()], and the conditions
    of the lookups made on the model, latest first. *)
Record World : Type := mkWorld {
  patchCollection : list PatchDataInput;
  now : Z;
  lookups : list value
}.

(** Code that reads and writes the world and may throw: what it did stays
    done when it throws. *)
Definition M (A : Type) : Type := World -> World * result A.

Definition ret {A : Type} (a : A) : M A := fun w => (w, Ok a).

Definition bindM {A B : Type} (m : M A) (k : A -> M B) : M B :=
  fun w =>
    match m w with
    | (w', Ok a) => k a w'
    | (w', Err e) => (w', Err e)
    end.

Definition lift {A : Type} (r : result A) : M A := fun w => (w, r).

(** [a || b] *)
Definition orElse (a b : option value) : option value :=
  match a with
  | Some v => if truthy v then a else b
  | None => b
  end.

(** [tail(entry.path.split('/')).join('.')] *)
Definition dottedPath (pointer : string) : string :=
  join "." (tl (split_slash pointer)).

Definition trackOriginal (document : Document) (entry : PatchOperation) : PatchOperation :=
  mkOp (op entry) (path entry) (value_ entry) (from entry)
    (lodash_get (if isNew document then Some (VObj []) else _original document)
       (dottedPath (path entry))).

Definition includeValue (document : Document) (queryOptions : value)
  (entry : string * SchemaInclude) : string * option value :=
  let fromKey :=
    match include_from (snd entry) with
    | Some f => if String.eqb f "" then fst entry else f
    | None => fst entry
    end in
  (fst entry, orElse (assoc fromKey (docProps document)) (getProp queryOptions fromKey)).

(** [document.patches.create(data)] *)
Definition createRecord (data : PatchDataInput) : M unit :=
  fun w => (mkWorld (patchCollection w ++ [data]) (now w) (lookups w), Ok tt).

Definition createPatch (options : ResolvedOptions) (document : Document)
  (queryOptions : value) : M unit :=
  let compareResult :=
    compare (match orElse (_original document) (Some (VObj [])) with
             | Some o => o
             | None => VObj []
             end)
            (docData document) in
  bindM (lift (filterOps (excludes options) compareResult)) (fun ops =>
  match ops with
  | [] => ret tt
  | _ :: _ =>
      let ops' :=
        if trackOriginalValue options then map (trackOriginal document) ops else ops in
      fun w =>
        createRecord
          (mkPatchDataInput ops' (docId document)
             (match timestamp document with Some t => t | None => now w end)
             (map (includeValue document queryOptions) (includes options)))
          w
  end).

(** The state a query carries from its [pre] hook to its [post] hook. *)
Record UpdateQueryContext : Type := mkContext {
  _conditions : value;
  _update : option value;
  ctx_original : option value;
  _originalId : option value;
  _originalIds : option (list value);
  _originals : option (list value);
  options : value
}.

(** The two fields the [post] hooks read in the answer of the store:
    [result?.lastErrorObject?.n] and [result?.upsertedCount]. *)
Record ModifyResult : Type := mkModifyResult {
  lastErrorObject_n : option Z;
  upsertedCount : option Z
}.

Definition isZero (n : option Z) : bool :=
  match n with
  | Some z => z =? 0
  | None => false
  end.

(** [modifyResult?.lastErrorObject?.n === 0 && modifyResult?.upsertedCount === 0];
    [result] is [None] when the store answered [null]. *)
Definition nothingTouched (result : option ModifyResult) : bool :=
  match result with
  | Some r => isZero (lastErrorObject_n r) && isZero (upsertedCount r)
  | None => false
  end.

(** [this.model.find(conditions)] and [findOne]: [find] is what the
    collection answers to a query at the time of the hook. *)
Definition modelFind (find : value -> list Document) (conditions : value)
  : M (list Document) :=
  fun w => (mkWorld (patchCollection w) (now w) (conditions :: lookups w),
            Ok (find conditions)).

Definition modelFindOne (find : value -> list Document) (conditions : value)
  : M (option Document) :=
  bindM (modelFind find conditions) (fun docs => ret (hd_error docs)).

Definition isTruthy (o : option value) : bool :=
  match o with
  | Some v => truthy v
  | None => false
  end.

Definition preUpdateOne (find : value -> list Document) (this : UpdateQueryContext)
  : M UpdateQueryContext :=
  bindM (modelFindOne find (_conditions this)) (fun original =>
  match original with
  | Some o =>
      ret (mkContext (_conditions this) (_update this) (Some (docData o))
             (Some (docId o)) (_originalIds this) (_originals this) (options this))
  | None => ret this
  end).

Definition postUpdateOne (opts : ResolvedOptions) (find : value -> list Document)
  (this : UpdateQueryContext) (result : option ModifyResult) : M unit :=
  if nothingTouched result then ret tt
  else
    let conditions :=
      if isTruthy (_originalId this)
      then VObj [("_id", VObj [("$eq", match _originalId this with
                                       | Some id => id
                                       | None => VNull
                                       end)])]
      else mergeQueryConditionsWithUpdate (_conditions this) (_update this) in
    bindM (modelFindOne find conditions) (fun doc =>
    match doc with
    | Some d => createPatch opts (withOriginal d (ctx_original this)) (options this)
    | None => ret tt
    end).

Definition preUpdateMany (find : value -> list Document) (this : UpdateQueryContext)
  : M UpdateQueryContext :=
  bindM (modelFind find (_conditions this)) (fun originals =>
  ret (mkContext (_conditions this) (_update this) (ctx_original this)
         (_originalId this) (Some (map docId originals))
         (Some (map docData originals)) (options this))).

(** [Promise.all(docs.map((doc, i) => f(doc, i)))]: every call is made, in
    order; the first failure is the one reported. *)
Fixpoint allDocs (f : Document -> nat -> M unit) (i : nat) (docs : list Document)
  : M unit :=
  fun w =>
    match docs with
    | [] => (w, Ok tt)
    | doc :: docs' =>
        let '(w1, r1) := f doc i w in
        let '(w2, r2) := allDocs f (S i) docs' w1 in
        (w2, match r1 with
             | Err e => Err e
             | Ok _ => r2
             end)
    end.

(** [this._originals?.[i]] *)
Definition originalAt (this : UpdateQueryContext) (i : nat) : option value :=
  match _originals this with
  | Some originals => nth_error originals i
  | None => None
  end.

Definition postUpdateMany (opts : ResolvedOptions) (find : value -> list Document)
  (this : UpdateQueryContext) (result : option ModifyResult) : M unit :=
  if nothingTouched result then ret tt
  else
    let conditions :=
      match _originalIds this with
      | Some (id :: ids) => VObj [("_id", VObj [("$in", VArr (map Some (id :: ids)))])]
      | _ => mergeQueryConditionsWithUpdate (_conditions this) (_update this)
      end in
    bindM (modelFind find conditions) (fun docs =>
    allDocs
      (fun doc i => createPatch opts (withOriginal doc (originalAt this i)) (options this))
      0%nat docs).

(** [schema.pre('save')] and the [snapshot] taken after [init] and [save]. *)
Definition preSave (opts : ResolvedOptions) (this : Document) : M unit :=
  createPatch opts this (VObj []).

Definition snapshot (this : Document) : Document :=
  withOriginal this (Some (docData this)).

(** ** Histories the plugin writes, and sample data *)

(** The operation does not address the root of the document: so are all
    the operations [jsonpatch.compare] gives for two objects. *)
Definition nonRoot (operation : PatchOperation) : Prop :=
  isRootPath (path operation) = false.

Definition addOp (pointer : string) (v : value) : PatchOperation :=
  mkOp op_add pointer (Some v) None Missing.

Definition replaceOp (pointer : string) (v : value) : PatchOperation :=
  mkOp op_replace pointer (Some v) None Missing.

(** The history of the rollback tests: a comment saved three times. *)
Definition commentHistory : list PatchData :=
  [ mkPatchData "p1" 1 [addOp "/text" (VStr "comm 1")] (VStr "c");
    mkPatchData "p2" 2 [replaceOp "/text" (VStr "comm 2")] (VStr "c");
    mkPatchData "p3" 3 [replaceOp "/text" (VStr "comm 3")] (VStr "c") ].

(** The caller's [state] in [rollback]: an object, whose keys are distinct. *)
Definition objectState (v : value) : Prop :=
  exists props, v = VObj props /\ NoDup (map fst props).

(** One step of [baseMerge] over the properties of a source object. *)
Definition mergeStep (object : value) (kv : string * value) : value :=
  mergeKey (baseMerge (snd kv)) object (fst kv) (snd kv).

(** What [merge] leaves at a key that the source object has. *)
Definition mergedValue (objValue : option value) (srcValue : value) : value :=
  if isObject srcValue then baseMerge srcValue (mergeTarget objValue srcValue)
  else srcValue.

(** The resolved documents of a batch update, each with the captured
    snapshot at its position, and with none past the last captured one. *)
Fixpoint pairByPosition (docs : list Document) (originals : list value) : list Document :=
  match docs with
  | [] => []
  | doc :: docs' =>
      match originals with
      | original :: originals' =>
          withOriginal doc (Some original) :: pairByPosition docs' originals'
      | [] => withOriginal doc None :: pairByPosition docs' []
      end
  end.

(** The conditions of the lookup a batch update makes after the update. *)
Definition resolveConditions (this : UpdateQueryContext) : value :=
  match _originalIds this with
  | Some (id :: ids) => VObj [("_id", VObj [("$in", VArr (map Some (id :: ids)))])]
  | _ => mergeQueryConditionsWithUpdate (_conditions this) (_update this)
  end.

Definition capturedOriginals (this : UpdateQueryContext) : list value :=
  match _originals this with
  | Some originals => originals
  | None => []
  end.

Definition logLookup (conditions : value) (w : World) : World :=
  mkWorld (patchCollection w) (now w) (conditions :: lookups w).

(** In the words of the specification: the snapshot captured for the
    identity [id], looked for among the captured identities. *)
Fixpoint snapshotOf (ids : list value) (originals : list value) (id : value)
  : option value :=
  match ids, originals with
  | i :: ids', original :: originals' =>
      if value_eqb i id then Some original else snapshotOf ids' originals' id
  | _, _ => None
  end.

(** Two posts captured by a batch update; the first is deleted before the
    lookup that follows the update, the second is left as it was. *)
Definition postTwo : Document :=
  mkDocument (VNum 2) (VObj [("title", VStr "two")]) None false (Some 7) [].

Definition batchContext : UpdateQueryContext :=
  mkContext (VObj [("active", VBool true)]) (Some (VObj [("seen", VBool true)]))
    None None
    (Some [VNum 1; VNum 2])
    (Some [VObj [("title", VStr "one")]; VObj [("title", VStr "two")]])
    (VObj []).

Definition plainOptions : ResolvedOptions := mkOptions [] [] true false.

Definition emptyWorld : World := mkWorld [] 0 [].

Definition updateResultShape : option ModifyResult :=
  Some (mkModifyResult None (Some 0)).

Definition nothingTouchedResult : option ModifyResult :=
  Some (mkModifyResult (Some 0) (Some 0)).

(** An update that matches no document, as the tests of the repository
    make it (title [the_answer_to_life] to be set to [42]), in a collection
    that holds another document, whose title is [42] already.  The context is
    what the [pre] hook of a single update leaves when it finds nothing, and
    what the one of a batch update leaves then. *)
Definition answerContext : UpdateQueryContext :=
  mkContext (VObj [("title", VStr "the_answer_to_life")])
    (Some (VObj [("title", VStr "42")])) None None None None (VObj []).

Definition answerBatchContext : UpdateQueryContext :=
  mkContext (VObj [("title", VStr "the_answer_to_life")])
    (Some (VObj [("title", VStr "42")])) None None (Some []) (Some []) (VObj []).

Definition postFortyTwo : Document :=
  mkDocument (VNum 42) (VObj [("title", VStr "42")]) None false (Some 7) [].

Definition answerCollection (conditions : value) : list Document :=
  if value_eqb conditions (VObj [("title", VStr "42")]) then [postFortyTwo] else [].

(** ** Values after pruning *)

(** [pruned v' v]: [v'] is [v] with properties deleted, at any depth.  An
    array keeps its length, a deleted element is a hole. *)
#[local] Unset Elimination Schemes.
Inductive pruned : value -> value -> Prop :=
| pruned_same (v : value) : pruned v v
| pruned_array (es' es : list (option value)) :
    List.length es' = List.length es ->
    (forall i c', nth_error es' i = Some (Some c') ->
                  exists c, nth_error es i = Some (Some c) /\ pruned c' c) ->
    pruned (VArr es') (VArr es)
| pruned_object (ps' ps : list (string * value)) :
    (forall k c', assoc k ps' = Some c' ->
                  exists c, assoc k ps = Some c /\ pruned c' c) ->
    pruned (VObj ps') (VObj ps).
#[local] Set Elimination Schemes.

(** The value the loop of [deepRemovePath] leaves: the mutated one when it
    mutated, the one it was given otherwise. *)
Definition valueAfter (r : option value) (v : value) : value :=
  match r with
  | Some v' => v'
  | None => v
  end.

(** [Object.keys(v).length !== 0] *)
Definition hasKeys (v : value) : Prop :=
  exists keys, Object_keys v = Ok keys /\ Nat.eqb (List.length keys) 0 = false.

(** The callback of the fan-out over the elements of an array. *)
Definition walkElem (segs : list string) (lastKey : string) (o : option value)
  : result (option value) :=
  match o with
  | None => Ok None
  | Some elem =>
      r <- walk segs lastKey elem ;;
      match r with
      | None => Ok (Some elem)
      | Some elem' => _ <- Object_keys elem' ;; Ok (Some elem')
      end
  end.

(** The document of the exclusion test, with the properties [p0], [p1],
    [p2] under [property] in the three elements of [object.array]. *)
Definition arrayElement (p rest : list (string * value)) : value :=
  VObj (("property", VObj p) :: rest).

Definition threeElements (a b c : value) : value :=
  VArr [Some a; Some b; Some c].

Definition excludeDocument (a b c : value) : value :=
  VObj [("object", VObj [("array", threeElements a b c)])].

Definition hiddenPattern : list (list string) :=
  [getArrayFromPath "/object/array/*/property/hidden"].

(** The exclude patterns of the test schema and the operations of its first
    save. *)
Definition testExcludes : list (list string) :=
  map getArrayFromPath
    ["/hidden"; "/object/hiddenProperty"; "/object/array/1/hidden";
     "/object/array/*/property/hidden"; "/array/*/hiddenProperty";
     "/emptyArray/*/hiddenProperty"].

Definition hiddenElement : value :=
  VObj [("hidden", VStr "h"); ("property", VObj [("hidden", VStr "h")])].

Definition listedElement : value :=
  VObj [("hiddenProperty", VStr "hidden"); ("property", VStr "visible")].

Definition testOps : list PatchOperation :=
  [ addOp "/name" (VStr "exclude1");
    addOp "/hidden" (VStr "hidden");
    addOp "/object"
      (VObj [("hiddenProperty", VStr "hidden");
             ("array", threeElements hiddenElement hiddenElement hiddenElement)]);
    addOp "/array" (VArr [Some listedElement; Some listedElement]);
    addOp "/emptyArray" (VArr [Some (VObj [("hiddenProperty", VStr "hidden")])]) ].

Definition testOpsFiltered : list PatchOperation :=
  [ addOp "/name" (VStr "exclude1");
    addOp "/object"
      (VObj [("array",
              threeElements
                (VObj [("hidden", VStr "h"); ("property", VObj [])])
                (VObj [("property", VObj [])])
                (VObj [("hidden", VStr "h"); ("property", VObj [])]))]);
    addOp "/array"
      (VArr [Some (VObj [("property", VStr "visible")]);
             Some (VObj [("property", VStr "visible")])]);
    addOp "/emptyArray" (VArr [Some (VObj [])]) ].

(** A document for the pattern [/object/array/*/property/hidden]: the
    elements 0 and 2 have [property.hidden], the element 1 has no [hidden]. *)
Definition hiddenDocument : value :=
  excludeDocument
    (arrayElement [("hidden", VStr "h")] [])
    (arrayElement [("visible", VStr "v")] [])
    (arrayElement [("hidden", VStr "h")] []).

(** A history whose first record replaces the root of the document. *)
Definition rootHistory : list PatchData :=
  [ mkPatchData "r1" 1 [replaceOp "" (VObj [("a", VNum 1)]); addOp "/b" (VNum 2)] (VStr "c");
    mkPatchData "r2" 2 [addOp "/c" (VNum 3)] (VStr "c");
    mkPatchData "r3" 3 [addOp "/d" (VNum 4)] (VStr "c") ].

(** ** Further model: what the loop of [deepRemovePath] would delete *)

(** [reaches segs lastKey val]: the loop over [segs] arrives at a value
    that has the property [lastKey], in [val] itself or, behind a wildcard, in
    an element of an array; that property is what [deepRemovePath] deletes. *)
Fixpoint reaches (segs : list string) (lastKey : string) (val : value) : bool :=
  match segs with
  | [] =>
      match getProp val lastKey with
      | Some _ => true
      | None => false
      end
  | seg :: segs' =>
      match String.eqb seg ARRAY_INDEX_WILDCARD, val with
      | true, VArr elems =>
          existsb
            (fun o : option value =>
               match o with
               | Some elem => reaches segs' lastKey elem
               | None => false
               end) elems
      | _, _ =>
          match getProp val seg with
          | Some child => reaches segs' lastKey child
          | None => false
          end
      end
  end.

(** The operation path as [deepRemovePath] reads it. *)
Definition operationPathOf (patch : PatchOperation) : list string :=
  sanitizeEmptyPath (getArrayFromPath (path patch)).

(** A kept operation and the one it was: the same, or the same with its
    value pruned and still holding a key. *)
Definition keptAs (p' p : PatchOperation) : Prop :=
  p' = p \/
  exists v v', value_ p = Some v /\ p' = setValue p v' /\ pruned v' v /\ hasKeys v'.

(** [keptFrom ops' ops]: [ops'] is [ops] with some operations dropped and
    the others kept, in their order. *)
Inductive keptFrom : list PatchOperation -> list PatchOperation -> Prop :=
| kept_nil : keptFrom [] []
| kept_drop (p : PatchOperation) (ops' ops : list PatchOperation) :
    keptFrom ops' ops -> keptFrom ops' (p :: ops)
| kept_keep (p' p : PatchOperation) (ops' ops : list PatchOperation) :
    keptAs p' p -> keptFrom ops' ops -> keptFrom (p' :: ops') (p :: ops).

(** The last segment of an exclude pattern names neither an element nor
    [length]: [delete] on it cannot throw. *)
Definition deletableKey (excludePath : list string) : bool :=
  match array_index (lastKeyOf excludePath) with
  | Some _ => false
  | None => negb (String.eqb (lastKeyOf excludePath) "length")
  end.

(** No segment of the pattern is the name of a member of a built-in
    prototype: what the pattern finds in a value is an own property of it. *)
Definition ownNames (excludePath : list string) : bool :=
  forallb (fun seg => negb (builtinKey seg)) excludePath.




(** A key that holds no slash, no dot and no bracket. *)
Definition plainName (key : string) : bool :=
  negb (contains slash key || contains "." key || contains "[" key
        || contains "]" key).

(** What [get] answers when it reads own properties only. *)
Definition ownLookup (o : option value) : lookup :=
  match o with
  | Some v => Found v
  | None => Missing
  end.

(** The pattern reaches into the value of the operation, not past it. *)
Definition overlaps (patch : PatchOperation) (excludePath : list string) : bool :=
  isPathContained (operationPathOf patch) excludePath.

(** An operation on one element of [object.array], for the pattern
    [/object/array/*/property/hidden]. *)
Definition elementOp : PatchOperation :=
  addOp "/object/array/1" (arrayElement [("hidden", VStr "h")] []).

(** An operation without a value, and one on an array that a pattern ending
    in [length] meets. *)
Definition removeOp (pointer : string) : PatchOperation :=
  mkOp op_remove pointer None None Missing.

Definition tagsOp : PatchOperation :=
  addOp "/tags" (VArr [Some (VStr "a"); Some (VStr "b")]).

(** ** Values with distinct keys

    What [JSON.parse] answers: in every object, at any depth, no key twice. *)

Fixpoint distinct (keys : list string) : bool :=
  match keys with
  | [] => true
  | k :: keys' => negb (existsb (String.eqb k) keys') && distinct keys'
  end.

Fixpoint distinctKeys (v : value) : bool :=
  match v with
  | VArr elems =>
      (fix all (l : list (option value)) : bool :=
         match l with
         | [] => true
         | Some x :: l' => distinctKeys x && all l'
         | None :: l' => all l'
         end) elems
  | VObj props =>
      distinct (map fst props)
      && (fix all (l : list (string * value)) : bool :=
            match l with
            | [] => true
            | (_, x) :: l' => distinctKeys x && all l'
            end) props
  | _ => true
  end.

(** ** Deleting the history of a document ([src/index.ts], lines 435-450 and
    535-551) *)

(** [document.patches.find({ ref: document._id })], then [deleteOne] on
    every record found. *)
Definition deletePatches (document : Document) : M unit :=
  fun w =>
    (mkWorld
       (filter (fun r => negb (value_eqb (input_ref r) (docId document)))
          (patchCollection w))
       (now w) (lookups w), Ok tt).

(** [schema.pre('deleteOne', { document: true, query: false })] *)
Definition preDeleteOne (opts : ResolvedOptions) (this : Document) : M unit :=
  if negb (removePatches opts) then ret tt else deletePatches this.

(** [schema.pre('findOneAndDelete')]; [conditions] is [this.getFilter()]. *)
Definition preFindOneAndDelete (opts : ResolvedOptions) (find : value -> list Document)
  (conditions : value) : M unit :=
  if negb (removePatches opts) then ret tt
  else
    bindM (modelFindOne find conditions) (fun original =>
    match original with
    | Some o => deletePatches o
    | None => ret tt
    end).

(** ** The data view of a document ([src/index.ts], lines 321-359) *)

(** A name in the [timestamps] option of a schema: a string or a boolean. *)
Inductive timestampName : Type :=
| NameString (s : string)
| NameBool (b : bool).

(** [schema.get('timestamps')]: [true], an object with the optional fields
    [createdAt] and [updatedAt], or anything else. *)
Inductive timestampsConfig : Type :=
| TimestampsTrue
| TimestampsObject (createdAt updatedAt : option timestampName)
| TimestampsOther.

(** [if (name) delete ret[typeof name === 'string' ? name : byDefault]] *)
Definition deleteTimestamp (name : option timestampName) (byDefault : string)
  (ret : list (string * value)) : list (string * value) :=
  match name with
  | Some (NameString s) => if String.eqb s "" then ret else remove_key s ret
  | Some (NameBool true) => remove_key byDefault ret
  | _ => ret
  end.

(** The [transform] that [data()] hands to [toObject]. *)
Definition dataTransform (config : timestampsConfig) (ret : list (string * value))
  : list (string * value) :=
  let ret1 := remove_key "_id" ret in
  match config with
  | TimestampsTrue => remove_key "updatedAt" (remove_key "createdAt" ret1)
  | TimestampsObject createdAt updatedAt =>
      deleteTimestamp updatedAt "updatedAt" (deleteTimestamp createdAt "createdAt" ret1)
  | TimestampsOther => ret1
  end.

(** The keys the transform deletes. *)
Definition deletedName (name : option timestampName) (byDefault : string) : list string :=
  match name with
  | Some (NameString s) => if String.eqb s "" then [] else [s]
  | Some (NameBool true) => [byDefault]
  | _ => []
  end.

Definition deletedKeys (config : timestampsConfig) : list string :=
  "_id" ::
  match config with
  | TimestampsTrue => ["createdAt"; "updatedAt"]
  | TimestampsObject createdAt updatedAt =>
      deletedName createdAt "createdAt" ++ deletedName updatedAt "updatedAt"
  | TimestampsOther => []
  end.

(** [delete ret[k]] for each of [keys]. *)
Definition removeAll (keys : list string) (props : list (string * value))
  : list (string * value) :=
  fold_left (fun r k => remove_key k r) keys props.

(** A document of a schema with the option [config], read from what
    [toObject] gives the transform; [toJSON] changes nothing in a value of the
    model. *)
Definition documentOf (config : timestampsConfig) (id : value)
  (ret : list (string * value)) (original : option value) : Document :=
  mkDocument id (VObj (dataTransform config ret)) original false None [].

(** The value the plugin diffs a document against: [document._original || {}]. *)
Definition diffBase (document : Document) : value :=
  match orElse (_original document) (Some (VObj [])) with
  | Some o => o
  | None => VObj []
  end.

(** ** JSON documents and the replay of their diffs *)

(** A key that [applyOperation] does not ban, wherever it stands. *)
Definition plainKey (key : string) : bool :=
  negb (String.eqb key "__proto__") && negb (String.eqb key "prototype").

(** What [JSON.parse] answers, without the banned keys: no hole in an
    array, no key twice in an object, at any depth.  An array has fewer than
    2^31 elements: from there on [applyOperation] takes the index of an
    element for a negative number. *)
Fixpoint jsonValue (v : value) : bool :=
  match v with
  | VArr elems =>
      (Z.of_nat (List.length elems) <? 2 ^ 31)
      && (fix all (l : list (option value)) : bool :=
            match l with
            | [] => true
            | Some x :: l' => jsonValue x && all l'
            | None :: _ => false
            end) elems
  | VObj props =>
      distinct (map fst props) && forallb plainKey (map fst props)
      && (fix all (l : list (string * value)) : bool :=
            match l with
            | [] => true
            | (_, x) :: l' => jsonValue x && all l'
            end) props
  | _ => true
  end.

(** The JSON pointer of a sequence of keys. *)
Fixpoint pointerOf (keys : list string) : string :=
  match keys with
  | [] => ""
  | key :: keys' => "/" ++ escapePathComponent key ++ pointerOf keys'
  end.

(** [sameJSON a b]: the same value up to the order of the keys of objects. *)
#[local] Unset Elimination Schemes.
Inductive sameJSON : value -> value -> Prop :=
| same_scalar (v : value) : isObject v = false -> sameJSON v v
| same_array (es fs : list (option value)) :
    List.length es = List.length fs ->
    (forall i, (i < List.length es)%nat ->
               exists x y, nth_error es i = Some (Some x) /\
                           nth_error fs i = Some (Some y) /\ sameJSON x y) ->
    sameJSON (VArr es) (VArr fs)
| same_object (ps qs : list (string * value)) :
    (forall k x, assoc k ps = Some x ->
                 exists y, assoc k qs = Some y /\ sameJSON x y) ->
    (forall k, assoc k ps = None -> assoc k qs = None) ->
    sameJSON (VObj ps) (VObj qs).
#[local] Set Elimination Schemes.

(** The operations [ops] turn the part [s] of a document at [prefix] into
    [s'], and leave the rest of the document as it is. *)
Definition transforms (prefix : list string) (ops : list PatchOperation)
  (s s' : value) : Prop :=
  Forall nonRoot ops /\
  forall root, getAt prefix root = Some s ->
               applyAll root ops = Ok (setAt prefix s' root).

(** The first loop of [_generate] on an array, index by index. *)
Fixpoint perKeyElems (mirror obj : value) (pointer : string) (i : nat)
  (elems : list (option value)) : list (list PatchOperation * bool) :=
  match elems with
  | [] => []
  | Some oldVal :: elems' =>
      generateKey (generate oldVal) mirror obj pointer (string_of_nat i) oldVal
      :: perKeyElems mirror obj pointer (S i) elems'
  | None :: elems' => perKeyElems mirror obj pointer (S i) elems'
  end.

(** The same property, or none, on both sides. *)
Definition sameOption (o o' : option value) : Prop :=
  match o, o' with
  | Some x, Some y => sameJSON x y
  | None, None => True
  | _, _ => False
  end.

Definition protoFree (keys : list string) : Prop :=
  Forall (fun key => plainKey key = true) keys.

(** What [add], [remove] and [replace] do to the object or the array they
    address, at a key it has or, for [add], can have. *)
Definition leafAdd (v : value) (obj : value) (key : string) : option value :=
  match obj with
  | VObj props => Some (VObj (set_key key v props))
  | VArr elems =>
      match smallIndex key with
      | Some i =>
          if Nat.leb i (List.length elems)
          then Some (VArr (insert_nth i (Some v) elems)) else None
      | None => None
      end
  | _ => None
  end.

Definition leafRemove (obj : value) (key : string) : option value :=
  match leafGet obj key, obj with
  | Some _, VObj props => Some (VObj (remove_key key props))
  | Some _, VArr elems =>
      match smallIndex key with
      | Some i => Some (VArr (remove_nth i elems))
      | None => None
      end
  | _, _ => None
  end.

Definition leafReplace (v : value) (obj : value) (key : string) : option value :=
  match leafGet obj key, obj with
  | Some _, VObj props => Some (VObj (replace_key key v props))
  | Some _, VArr elems =>
      match smallIndex key with
      | Some i => Some (VArr (set_nth i (Some v) elems))
      | None => None
      end
  | _, _ => None
  end.

(** Replaying the diff from [mirror] to any [obj] of the same kind, on a
    value that is the same as [mirror], gives the same as [obj]. *)
Definition replays (mirror : value) : Prop :=
  forall obj s prefix,
    jsonValue mirror = true -> jsonValue obj = true ->
    isObject mirror = true -> isObject obj = true ->
    isArray mirror = isArray obj ->
    sameJSON s mirror -> protoFree prefix ->
    exists s', transforms prefix (generate mirror obj (pointerOf prefix)) s s' /\
               sameJSON s' obj.

(** What the first loop of [_generate] leaves at a key: the value of [obj]
    for a key of [mirror], nothing for any other key. *)
Definition afterOlds (mp op : list (string * value)) (k : string) : option value :=
  match assoc k mp with
  | Some _ => assoc k op
  | None => None
  end.

(** ** A document saved again and again *)

(** A JSON object: the data of a document. *)
Definition jsonDocument (v : value) : bool :=
  match v with
  | VObj _ => jsonValue v
  | _ => false
  end.

(** The document with new data, as it is when [save] is called. *)
Definition withData (doc : Document) (d : value) : Document :=
  mkDocument (docId doc) d (_original doc) (isNew doc) (timestamp doc) (docProps doc).

(** The document after [save]: the snapshot is taken, and the document is
    not new any more. *)
Definition afterSave (doc : Document) : Document :=
  mkDocument (docId doc) (docData doc) (_original (snapshot doc)) false
    (timestamp doc) (docProps doc).

(** The saves of a document with the data [states], one after the other:
    the hook before [save], then the snapshot after it. *)
Fixpoint saveAll (opts : ResolvedOptions) (this : Document) (states : list value)
  : M Document :=
  match states with
  | [] => ret this
  | d :: states' =>
      bindM (preSave opts (withData this d)) (fun _ =>
      saveAll opts (afterSave (withData this d)) states')
  end.

(** The records of the patch collection as a lookup answers them, each
    with the id the store gave it, in the order they were written. *)
Fixpoint stored (ids : list string) (records : list PatchDataInput) : list PatchData :=
  match ids, records with
  | id :: ids', r :: records' =>
      mkPatchData id (input_date r) (input_ops r) (input_ref r) :: stored ids' records'
  | _, _ => []
  end.

(** Two operations that differ at most in their original value. *)
Definition sameOperation (a b : PatchOperation) : Prop :=
  op a = op b /\ path a = path b /\ value_ a = value_ b /\ from a = from b.

(** The operations of the records that the saves of [states] write, the
    first against [base]: nothing for a save that changes nothing. *)
Fixpoint writtenOps (base : value) (states : list value) : list (list PatchOperation) :=
  match states with
  | [] => []
  | d :: states' =>
      match compare base d with
      | [] => writtenOps d states'
      | o :: rest => (o :: rest) :: writtenOps d states'
      end
  end.

(** A new comment and the data of its three saves. *)
Definition newComment : Document :=
  mkDocument (VStr "c") (VObj []) None true None [].

Definition commentData (text : string) : value :=
  VObj [("text", VStr text); ("tags", VArr [Some (VStr text); Some (VStr "all")])].

(** ** Paths of operations on the elements of arrays *)

(** [instanceOf concrete pattern]: [concrete] is [pattern] with an array
    index, as [String(i)] prints it, in the place of each wildcard it takes
    the place of. *)
Definition instanceOf (concrete pattern : list string) : Prop :=
  Forall2
    (fun seg entry =>
       seg = entry \/
       (entry = ARRAY_INDEX_WILDCARD /\
        exists i : nat, Z.of_nat i < 2 ^ 53 /\ seg = string_of_nat i))
    concrete pattern.

(** ** A history that cannot be replayed *)

(** The exclusion of one property of an object, and three saves: the
    object with that property alone, then with a second property, then
    without the second and with a new key beside the object. *)
Definition hiddenOptions : ResolvedOptions :=
  mkOptions [getArrayFromPath "/a/hidden"] [] true false.

Definition hiddenStates (secret : string) (v later : value) : list value :=
  [ VObj [("a", VObj [("hidden", VStr secret)])];
    VObj [("a", VObj [("hidden", VStr secret); ("x", v)])];
    VObj [("a", VObj [("hidden", VStr secret)]); ("y", later)] ].

(** ** Excluded top-level keys *)

(** A key that can be excluded on its own: it holds no slash and no tilde,
    it is not the wildcard and does not read as a non-negative integer. *)
Definition hideable (key : string) : bool :=
  negb (contains slash key) && negb (contains "~" key)
  && negb (String.eqb key ARRAY_INDEX_WILDCARD)
  && negb (isIntegerGreaterEqual0 (Some key)).

(** The exclude patterns of the top-level keys [hidden]: what the option
    [excludes] gives for the paths [/key]. *)
Definition topLevel (hidden : list string) : list (list string) :=
  map (fun key => [key]) hidden.

Definition visible (hidden : list string) (key : string) : bool :=
  negb (existsb (String.eqb key) hidden).

(** The value without the keys [hidden]. *)
Definition withoutKeys (hidden : list string) (v : value) : value :=
  match v with
  | VObj props => VObj (filter (fun kv => visible hidden (fst kv)) props)
  | _ => v
  end.

(** The data of a document whose keys are not empty. *)
Definition plainDocument (v : value) : bool :=
  jsonDocument v
  && match getProp v "" with
     | None => true
     | Some _ => false
     end.

(** ** The containment criterion, in the words of the specification *)

(** [denotes x n]: the number [x] is the integer [n].  A finite number is
    [mant * 2 ^ expo], with its sign. *)
Definition denotes (x : number) (n : Z) : Prop :=
  match x with
  | Fin negative mant expo =>
      let m := if negative then - mant else mant in
      if 0 <=? expo then n = m * 2 ^ expo else m = n * 2 ^ (- expo)
  | _ => False
  end.

(** A segment parses as a non-negative integer: the number it converts to
    is an integer that is not negative. *)
Definition parsesAsNonNegativeInteger (seg : string) : Prop :=
  exists n : Z, 0 <= n /\ denotes (Number (Some seg)) n.

(** * Properties *)

Unset Implicit Arguments.

(** ** Path model *)

Lemma every_from_spec (A : Type) (f : A -> nat -> bool) (l : list A) (k : nat) :
  every_from f k l = true <->
  (forall i a, nth_error l i = Some a -> f a (k + i)%nat = true).
Proof.
  revert k; induction l as [|x l IH]; intros k; simpl.
  - split; [intros _ [|i] a H; discriminate | reflexivity].
  - rewrite andb_true_iff, IH. split.
    + intros [Hx Hl] [|i] a H; simpl in H.
      * injection H as <-. now rewrite Nat.add_0_r.
      * rewrite Nat.add_succ_r. apply (Hl i a H).
    + intros H. split.
      * specialize (H 0%nat x eq_refl). now rewrite Nat.add_0_r in H.
      * intros i a Hi. specialize (H (S i) a Hi). now rewrite Nat.add_succ_r in H.
Qed.

Lemma entryIsIdentical_spec (entry : string) (o : option string) :
  entryIsIdentical entry o = true <-> o = Some entry.
Proof.
  destruct o as [s|]; simpl.
  - rewrite String.eqb_eq. split; [intros ->; reflexivity | intros H; now injection H].
  - split; discriminate.
Qed.

Lemma matchesArrayWildcard_spec (entry : string) (o : option string) :
  matchesArrayWildcard entry o = true <->
  entry = ARRAY_INDEX_WILDCARD /\ isIntegerGreaterEqual0 o = true.
Proof.
  unfold matchesArrayWildcard, isArrayIndexWildcard.
  now rewrite andb_true_iff, String.eqb_eq.
Qed.

Lemma isIntegerGreaterEqual0_undefined : isIntegerGreaterEqual0 None = false.
Proof. reflexivity. Qed.

Lemma isPathContained_nth (fractionPath fullPath : list string) :
  isPathContained fractionPath fullPath = true <->
  (forall i entry,
      nth_error fractionPath i = Some entry ->
      exists seg,
        nth_error fullPath i = Some seg /\
        (entry = seg \/
         (entry = ARRAY_INDEX_WILDCARD /\ isIntegerGreaterEqual0 (Some seg) = true))).
Proof.
  unfold isPathContained, every. rewrite every_from_spec. simpl.
  split; intros H i entry Hi; specialize (H i entry Hi).
  - rewrite orb_true_iff, entryIsIdentical_spec, matchesArrayWildcard_spec in H.
    destruct (nth_error fullPath i) as [seg|].
    + exists seg. split; [reflexivity|].
      destruct H as [H | H]; [left; now injection H | right; exact H].
    + destruct H as [H | [_ H]]; discriminate.
  - destruct H as (seg & -> & H).
    rewrite orb_true_iff, entryIsIdentical_spec, matchesArrayWildcard_spec.
    destruct H as [-> | H]; [now left | now right].
Qed.

Lemma isPathContained_prefix (pattern rest : list string) :
  isPathContained pattern (pattern ++ rest) = true.
Proof.
  apply isPathContained_nth. intros i entry Hi. exists entry. split; [|now left].
  rewrite nth_error_app1; [exact Hi|].
  apply nth_error_Some. rewrite Hi. discriminate.
Qed.

Lemma isPathContained_length (pattern concrete : list string) :
  isPathContained pattern concrete = true ->
  (List.length pattern <= List.length concrete)%nat.
Proof.
  intros H. rewrite isPathContained_nth in H.
  destruct pattern as [|e pattern] using rev_ind; [simpl; lia|].
  destruct (H (List.length pattern) e) as (seg & Hseg & _).
  - rewrite nth_error_app2, Nat.sub_diag by lia. reflexivity.
  - assert (Hlt : (List.length pattern < List.length concrete)%nat).
    { apply nth_error_Some. rewrite Hseg. discriminate. }
    rewrite length_app. simpl. lia.
Qed.

(** C10. The wildcard matches a segment exactly when its [Number]
    conversion is an integer >= 0.  That holds of the empty string and of
    [1e2], [0x10] and [3.0], none of which is the index of an array element:
    a wildcard pattern contains paths whose segment at the wildcard's position
    no array has. *)
Theorem wildcard_matches_by_number_conversion :
  (forall seg,
      matchesArrayWildcard "*" seg
      = Number_isInteger (Number seg) && Number_ge0 (Number seg)) /\
  matchesArrayWildcard "*" (Some "") = true /\
  matchesArrayWildcard "*" (Some "1e2") = true /\
  matchesArrayWildcard "*" (Some "0x10") = true /\
  matchesArrayWildcard "*" (Some "3.0") = true /\
  matchesArrayWildcard "*" (Some "7") = true /\
  matchesArrayWildcard "*" (Some "-1") = false /\
  matchesArrayWildcard "*" (Some "1.5") = false /\
  matchesArrayWildcard "*" (Some "name") = false /\
  isPathContained (getArrayFromPath "/tags/*") (getArrayFromPath "/tags/") = true /\
  isPathContained (getArrayFromPath "/tags/*") (getArrayFromPath "/tags/1e2") = true /\
  (forall elems,
      array_index "" = None /\ array_index "1e2" = None /\
      array_index "0x10" = None /\ array_index "3.0" = None /\
      getProp (VArr elems) "" = None /\ getProp (VArr elems) "1e2" = None /\
      getProp (VArr elems) "0x10" = None /\ getProp (VArr elems) "3.0" = None).
Proof.
  split; [intros seg; reflexivity|].
  do 10 (split; [vm_compute; reflexivity|]).
  intros elems. repeat split; reflexivity.
Qed.

(** The conversion rounds to the nearest binary64 number: a tiny decimal
    is zero, hence an integer, and a large one is infinite, hence not. *)
Example Number_rounds_to_binary64 :
  Number (Some "0.1") = Fin false 7205759403792794 (-56) /\
  Number (Some "9007199254740993") = Fin false 4503599627370496 1 /\
  Number (Some "1e-400") = Fin false 0 (-1074) /\
  Number (Some "1e400") = Inf false /\
  Number (Some "12px") = NaN /\
  isIntegerGreaterEqual0 (Some "1e-400") = true /\
  isIntegerGreaterEqual0 (Some "1e400") = false.
Proof. repeat split; vm_compute; reflexivity. Qed.

(** ** Association lists *)

Lemma assoc_set_key (k key : string) (v : value) (props : list (string * value)) :
  assoc k (set_key key v props)
  = if String.eqb k key then Some v else assoc k props.
Proof.
  induction props as [|[k0 x] props IH]; simpl.
  - destruct (String.eqb_spec k key); reflexivity.
  - destruct (String.eqb_spec key k0) as [->|Hne]; simpl.
    + destruct (String.eqb_spec k k0); reflexivity.
    + rewrite IH. destruct (String.eqb_spec k k0) as [->|]; [|reflexivity].
      destruct (String.eqb_spec k0 key) as [->|]; [contradiction|reflexivity].
Qed.

Lemma assoc_None_notin (k : string) (props : list (string * value)) :
  ~ In k (map fst props) -> assoc k props = None.
Proof.
  induction props as [|[k0 x] props IH]; simpl; intros H; [reflexivity|].
  destruct (String.eqb_spec k k0) as [->|]; [tauto|].
  apply IH. tauto.
Qed.

Lemma assoc_In (k : string) (v : value) (props : list (string * value)) :
  assoc k props = Some v -> In (k, v) props.
Proof.
  induction props as [|[k0 x] props IH]; simpl; [discriminate|].
  destruct (String.eqb_spec k k0) as [->|].
  - intros H; injection H as ->. now left.
  - intros H. right. now apply IH.
Qed.

Lemma assoc_assign (source target : list (string * value)) (k : string) :
  NoDup (map fst source) ->
  assoc k (assign target source)
  = match assoc k source with
    | Some v => Some v
    | None => assoc k target
    end.
Proof.
  unfold assign. revert target.
  induction source as [|[k0 v0] source IH]; intros target Hnd; simpl; [reflexivity|].
  inversion Hnd as [|? ? Hnotin Hnd']; subst.
  rewrite IH by assumption. rewrite assoc_set_key.
  destruct (String.eqb_spec k k0) as [->|]; [|reflexivity].
  now rewrite (assoc_None_notin _ _ Hnotin).
Qed.

Lemma assoc_filter_keys (keep : string -> bool) (k : string)
  (props : list (string * value)) :
  assoc k (filter (fun kv => keep (fst kv)) props)
  = if keep k then assoc k props else None.
Proof.
  induction props as [|[k0 x] props IH]; simpl.
  - now destruct (keep k).
  - destruct (keep k0) eqn:Hk0; simpl.
    + destruct (String.eqb_spec k k0) as [->|]; [now rewrite Hk0 | exact IH].
    + rewrite IH. destruct (String.eqb_spec k k0) as [->|]; [now rewrite Hk0 | reflexivity].
Qed.

(** ** Lookup conditions after an upsert *)

Lemma createPatch_lookups (opts : ResolvedOptions) (document : Document)
  (queryOptions : value) (w : World) :
  lookups (fst (createPatch opts document queryOptions w)) = lookups w.
Proof.
  unfold createPatch, bindM, lift.
  destruct (filterOps (excludes opts) _) as [l|e]; [|reflexivity].
  destruct l; reflexivity.
Qed.

(** C8. When no identity was captured before the update, the lookup that
    follows it is made with the conditions [mergeQueryConditionsWithUpdate]
    answers.  They hold no key that includes a dollar sign, so no update
    operator; any other key has the value the update assigns to it, and the
    value of the original conditions when the update does not assign it.  The
    assignments of the update are those of its [$set] object when it has one,
    its own keys otherwise. *)
Theorem mergeQueryConditionsWithUpdate_lookup
  (conditions : value) (update : option value)
  (Hconditions : NoDup (map fst (ownProps conditions)))
  (Hupdate : NoDup (map fst (updateSource update))) :
  (forall opts find this result w,
      _conditions this = conditions -> _update this = update ->
      _originalId this = None -> nothingTouched result = false ->
      lookups (fst (postUpdateOne opts find this result w))
      = mergeQueryConditionsWithUpdate conditions update :: lookups w) /\
  (forall key,
      getProp (mergeQueryConditionsWithUpdate conditions update) key
      = if includes_dollar key then None
        else match assoc key (updateSource update) with
             | Some v => Some v
             | None => assoc key (ownProps conditions)
             end) /\
  (forall props sets,
      update = Some (VObj props) ->
      assoc "$set" props = Some (VObj sets) ->
      updateSource update = sets) /\
  (forall props,
      update = Some (VObj props) ->
      assoc "$set" props = None ->
      updateSource update = props) /\
  (update = None -> updateSource update = []).
Proof.
  split; [|split; [|split; [|split]]].
  - intros opts find this result w <- <- Hid Htouched.
    unfold postUpdateOne. rewrite Htouched, Hid. cbn [isTruthy].
    unfold bindM, modelFindOne, modelFind, bindM, ret.
    destruct (hd_error (find _)) as [doc|]; [|reflexivity].
    now rewrite createPatch_lookups.
  - intros key. unfold mergeQueryConditionsWithUpdate. simpl.
    rewrite (assoc_filter_keys (fun k => negb (includes_dollar k))).
    destruct (includes_dollar key); simpl; [reflexivity|].
    rewrite assoc_assign by assumption.
    destruct (assoc key (updateSource update)); [reflexivity|].
    rewrite assoc_assign by assumption.
    now destruct (assoc key (ownProps conditions)).
  - intros props sets -> Hset. simpl. now rewrite Hset.
  - intros props -> Hset. simpl. now rewrite Hset.
  - intros ->. reflexivity.
Qed.

Lemma mergeQueryConditionsWithUpdate_lookup_witness :
  let conditions := VObj [("title", VStr "upsert0"); ("$or", VArr [])] in
  let update :=
    Some (VObj [("$set", VObj [("title", VStr "upsert1")]);
                ("$inc", VObj [("n", VNum 1)])]) in
  NoDup (map fst (ownProps conditions)) /\
  NoDup (map fst (updateSource update)) /\
  getProp (mergeQueryConditionsWithUpdate conditions update) "title"
  = Some (VStr "upsert1") /\
  getProp (mergeQueryConditionsWithUpdate conditions update) "$or" = None /\
  getProp (mergeQueryConditionsWithUpdate conditions update) "$inc" = None.
Proof.
  intros conditions update.
  assert (Hconditions : NoDup (map fst (ownProps conditions))).
  { simpl. repeat constructor; simpl; intuition discriminate. }
  assert (Hupdate : NoDup (map fst (updateSource update))).
  { simpl. repeat constructor; simpl; intuition discriminate. }
  split; [exact Hconditions|]. split; [exact Hupdate|].
  destruct (mergeQueryConditionsWithUpdate_lookup conditions update
              Hconditions Hupdate) as (_ & Hlookup & _).
  split; [exact (Hlookup "title")|].
  split; [exact (Hlookup "$or") | exact (Hlookup "$inc")].
Defined.

(** ** Rollback *)

Lemma dropRightWhile_stop (A : Type) (predicate : A -> bool) (l1 l2 : list A) (a : A) :
  predicate a = false ->
  Forall (fun x => predicate x = true) l2 ->
  dropRightWhile predicate (l1 ++ a :: l2) = l1 ++ [a].
Proof.
  intros Ha Hl2.
  assert (Htail : dropRightWhile predicate l2 = []).
  { induction Hl2 as [|x l Hx _ IH]; simpl; [reflexivity|]. now rewrite IH, Hx. }
  induction l1 as [|x l1 IH]; simpl.
  - now rewrite Htail, Ha.
  - rewrite IH. now destruct l1.
Qed.

Lemma dropRightWhile_last (A : Type) (predicate : A -> bool) (l : list A) (a : A) :
  predicate a = false ->
  dropRightWhile predicate (l ++ [a]) = l ++ [a].
Proof.
  intros Ha. now apply dropRightWhile_stop.
Qed.

Lemma existsb_eqb_In (s : string) (l : list string) :
  existsb (String.eqb s) l = true <-> In s l.
Proof.
  rewrite existsb_exists. split.
  - intros (x & Hx & Heq). apply String.eqb_eq in Heq. now subst.
  - intros H. exists s. split; [exact H | apply String.eqb_refl].
Qed.

(** C3. Rolling back to the last record of a history is rejected with the
    error [rollback to latest patch], and nothing is done to the document:
    it is neither set nor saved. *)
Theorem rollback_to_latest_rejected
  (earlier : list PatchData) (latest : PatchData) (data : value) (save : bool)
  (saved : result unit) :
  rollback (earlier ++ [latest]) (_id latest) data save saved
  = ([], Err (RollbackError "rollback to latest patch")).
Proof.
  unfold rollback.
  assert (Hin : existsb (String.eqb (_id latest)) (map _id (earlier ++ [latest])) = true).
  { apply existsb_eqb_In. rewrite map_app. apply in_or_app. right. now left. }
  rewrite Hin. simpl.
  rewrite dropRightWhile_last by (now rewrite String.eqb_refl).
  now rewrite Nat.eqb_refl.
Qed.

Lemma applyPatch_nonRoot (ops : list PatchOperation) (state : value) :
  Forall nonRoot ops -> applyPatch state ops = applyAll state ops.
Proof.
  unfold applyPatch. intros Hops. revert state.
  induction Hops as [|operation ops Hop _ IH]; intros state; [reflexivity|].
  cbn [applyPatchFrom applyAll getAt]. unfold applyOperation.
  destruct (validator operation) as [[]|e]; cbn [bind]; [|reflexivity].
  rewrite Hop. destruct (applyInside state operation) as [doc'|e]; cbn [bind];
    [|reflexivity].
  apply IH.
Qed.

Lemma applyAll_app (ops1 ops2 : list PatchOperation) (doc : value) :
  applyAll doc (ops1 ++ ops2) = (doc' <- applyAll doc ops1 ;; applyAll doc' ops2).
Proof.
  revert doc. induction ops1 as [|operation ops1 IH]; intros doc; simpl; [reflexivity|].
  destruct (applyOperation doc operation) as [doc'|e]; simpl; [apply IH | reflexivity].
Qed.

Lemma applyRecords_flat (records : list PatchData) (state : value) :
  Forall nonRoot (flat_map ops records) ->
  applyRecords state records = applyAll state (flat_map ops records).
Proof.
  revert state. induction records as [|patch records IH]; intros state H; simpl;
    [reflexivity|].
  simpl in H. apply Forall_app in H as [Hpatch Hrest].
  rewrite applyAll_app, applyPatch_nonRoot by assumption.
  destruct (applyAll state (ops patch)) as [state'|e]; simpl; [now apply IH | reflexivity].
Qed.

Lemma nth_error_split_at (A : Type) (l : list A) (i : nat) (a : A) :
  nth_error l i = Some a -> l = firstn i l ++ a :: skipn (S i) l.
Proof.
  revert i. induction l as [|x l IH]; intros [|i] H; simpl in *; try discriminate.
  - now injection H as ->.
  - f_equal. now apply IH.
Qed.

Lemma firstn_S_nth (A : Type) (l : list A) (i : nat) (a : A) :
  nth_error l i = Some a -> firstn (S i) l = firstn i l ++ [a].
Proof.
  revert i. induction l as [|x l IH]; intros [|i] H; simpl in *; try discriminate.
  - now injection H as ->.
  - f_equal. now apply IH.
Qed.

(** The records [rollback] applies: those up to the target. *)
Lemma rollback_prefix (H : list PatchData) (i : nat) (target : PatchData) :
  NoDup (map _id H) ->
  nth_error H i = Some target ->
  dropRightWhile (fun patch => negb (String.eqb (_id patch) (_id target))) H
  = firstn (S i) H.
Proof.
  intros Hnd Hi.
  rewrite (firstn_S_nth _ _ _ _ Hi).
  rewrite (nth_error_split_at _ _ _ _ Hi) at 1.
  apply dropRightWhile_stop.
  - now rewrite String.eqb_refl.
  - rewrite (nth_error_split_at _ _ _ _ Hi), map_app in Hnd. simpl in Hnd.
    apply NoDup_remove_2 in Hnd.
    apply Forall_forall. intros x Hx.
    apply negb_true_iff, String.eqb_neq. intros Heq.
    apply Hnd, in_or_app. right. rewrite <- Heq. now apply in_map.
Qed.

(** C2, amended. For a history with distinct ids, a target that is not its
    last record, and operations none of which addresses the root of the
    document, [rollback] sets the document to [merge(data, state)] where
    [state] is what the operations of the records up to the target give, in
    the order of the records and of the operations in each, from the empty
    object, as [applyOperation] of the patch library applies each; with
    [save] the document is then saved and the rollback settles as the save
    does, without it the rollback resolves; when one of the operations
    fails, the rollback is rejected with its error and the document is left
    alone. *)
Theorem rollback_replays_prefix
  (H : list PatchData) (i : nat) (target : PatchData) (data : value) (save : bool)
  (saved : result unit)
  (Hids : NoDup (map _id H))
  (Hi : nth_error H i = Some target)
  (Hnotlast : (S i < List.length H)%nat)
  (Hnonroot : Forall nonRoot (flat_map ops (firstn (S i) H))) :
  rollback H (_id target) data save saved
  = match applyAll (VObj []) (flat_map ops (firstn (S i) H)) with
    | Ok state =>
        (DocSet (merge data state) :: (if save then [DocSave] else []),
         if save then saved else Ok tt)
    | Err e => ([], Err e)
    end.
Proof.
  unfold rollback.
  assert (Hin : existsb (String.eqb (_id target)) (map _id H) = true).
  { apply existsb_eqb_In, in_map. now apply nth_error_In with i. }
  assert (Hlen : Nat.eqb (List.length H) (List.length (firstn (S i) H)) = false).
  { apply Nat.eqb_neq. rewrite length_firstn. lia. }
  rewrite Hin, (rollback_prefix _ _ _ Hids Hi).
  remember (firstn (S i) H) as prefix eqn:Hprefix.
  cbn [negb]. rewrite Hlen, applyRecords_flat by assumption.
  destruct (applyAll (VObj []) (flat_map ops prefix)); [|reflexivity].
  now destruct save.
Qed.

Lemma rollback_replays_prefix_witness :
  rollback commentHistory "p2" (VObj [("user", VStr "u")]) true (Ok tt)
  = match applyAll (VObj []) (flat_map ops (firstn 2 commentHistory)) with
    | Ok state =>
        (DocSet (merge (VObj [("user", VStr "u")]) state) :: [DocSave], Ok tt)
    | Err e => ([], Err e)
    end.
Proof.
  apply (rollback_replays_prefix commentHistory 1
           (mkPatchData "p2" 2 [replaceOp "/text" (VStr "comm 2")] (VStr "c"))
           (VObj [("user", VStr "u")]) true (Ok tt)).
  - simpl. repeat constructor; simpl; intuition discriminate.
  - reflexivity.
  - simpl. lia.
  - simpl. repeat constructor.
Defined.

(** C2 as stated fails at the last index: the records up to it replay to a
    state, yet [rollback] does not set the document to it, it rejects. *)
Lemma rollback_last_index_counterexample :
  nth_error commentHistory 2
  = Some (mkPatchData "p3" 3 [replaceOp "/text" (VStr "comm 3")] (VStr "c")) /\
  (2 < List.length commentHistory)%nat /\
  applyAll (VObj []) (flat_map ops (firstn 3 commentHistory))
  = Ok (VObj [("text", VStr "comm 3")]) /\
  rollback commentHistory "p3" (VObj []) false (Ok tt)
  <> ([DocSet (merge (VObj []) (VObj [("text", VStr "comm 3")]))], Ok tt) /\
  rollback commentHistory "p3" (VObj []) false (Ok tt)
  = ([], Err (RollbackError "rollback to latest patch")).
Proof.
  repeat split; try reflexivity.
  - simpl. lia.
  - vm_compute. discriminate.
Qed.

(** An operation on the root is outside the theorem: the library answers
    the new root in its result, which [rollback] drops, and the [state] the
    records are applied to does not see it. *)
Example rollback_root_operation :
  applyAll (VObj []) (flat_map ops (firstn 2 rootHistory))
  = Ok (VObj [("a", VNum 1); ("b", VNum 2); ("c", VNum 3)]) /\
  rollback rootHistory "r2" (VObj []) false (Ok tt)
  = ([DocSet (VObj [("c", VNum 3)])], Ok tt).
Proof. split; reflexivity. Qed.

(** ** The keys of the state stay distinct *)

Lemma map_fst_replace_key (k : string) (v : value) (props : list (string * value)) :
  map fst (replace_key k v props) = map fst props.
Proof.
  induction props as [|[k0 x] props IH]; simpl; [reflexivity|].
  destruct (String.eqb k k0); simpl; [reflexivity | now rewrite IH].
Qed.

Lemma In_set_key (x k : string) (v : value) (props : list (string * value)) :
  In x (map fst (set_key k v props)) <-> x = k \/ In x (map fst props).
Proof.
  induction props as [|[k0 y] props IH]; simpl.
  - intuition.
  - destruct (String.eqb_spec k k0) as [->|]; simpl; [intuition | rewrite IH; intuition].
Qed.

Lemma NoDup_set_key (k : string) (v : value) (props : list (string * value)) :
  NoDup (map fst props) -> NoDup (map fst (set_key k v props)).
Proof.
  induction props as [|[k0 y] props IH]; simpl; intros Hnd.
  - constructor; [intros [] | constructor].
  - inversion Hnd as [|? ? Hnotin Hnd']; subst.
    destruct (String.eqb_spec k k0) as [->|Hne]; simpl.
    + now constructor.
    + constructor; [|now apply IH].
      rewrite In_set_key. intros [Heq | Hin]; [now subst | contradiction].
Qed.

Lemma In_remove_key (x k : string) (props : list (string * value)) :
  In x (map fst (remove_key k props)) -> In x (map fst props).
Proof.
  induction props as [|[k0 y] props IH]; simpl; [tauto|].
  destruct (String.eqb k k0); simpl; intuition.
Qed.

Lemma NoDup_remove_key (k : string) (props : list (string * value)) :
  NoDup (map fst props) -> NoDup (map fst (remove_key k props)).
Proof.
  induction props as [|[k0 y] props IH]; simpl; intros Hnd; [constructor|].
  inversion Hnd as [|? ? Hnotin Hnd']; subst.
  destruct (String.eqb k k0); simpl; [now apply IH|].
  constructor; [|now apply IH].
  intros Hin. now apply Hnotin, In_remove_key with k.
Qed.

Lemma objectState_replace_key (k : string) (v : value) (props : list (string * value)) :
  NoDup (map fst props) -> objectState (VObj (replace_key k v props)).
Proof.
  intros Hnd. exists (replace_key k v props). split; [reflexivity|].
  now rewrite map_fst_replace_key.
Qed.

Lemma testOutcome_None (found : option value) (v : value) (r : option value) :
  testOutcome found v = Ok r -> r = None.
Proof.
  unfold testOutcome. destruct found as [x|]; [|discriminate].
  destruct (areEquals x v) as [[]|]; cbn [bind]; intros H; try discriminate.
  now injection H.
Qed.

Lemma objectLeaf_objectState (operation : PatchOperation) (obj : value) (key : string)
  (r : value) :
  objectState obj -> objectLeaf operation obj key = Ok (Some r) -> objectState r.
Proof.
  intros (props & -> & Hnd) H. cbn [objectLeaf] in H.
  destruct (op operation), (value_ operation) as [v|]; try discriminate;
    try (apply testOutcome_None in H; discriminate);
    injection H as <-.
  all: first [ exists (set_key key v props); split;
               [reflexivity | now apply NoDup_set_key]
             | exists (remove_key key props); split;
               [reflexivity | now apply NoDup_remove_key] ].
Qed.

Lemma updChild_objectState (obj : value) (key : string) (child : value) :
  objectState obj -> objectState (updChild obj key child).
Proof. intros (props & -> & Hnd). now apply objectState_replace_key. Qed.

Lemma descend_objectState (operation : PatchOperation) (document : value)
  (fromCheck : result unit) (previous : string) (pending : bool)
  (rest : list string) (obj r : value) :
  objectState obj ->
  descend operation document fromCheck previous pending rest obj = Ok (Some r) ->
  objectState r.
Proof.
  intros Hobj H. destruct rest as [|raw rest']; [discriminate|].
  pose proof Hobj as (props & -> & Hnd). cbn [descend] in H.
  destruct (banned _ _); [discriminate|].
  match type of H with (_ <- ?c ;; _) = _ => destruct c as [[]|]; [|discriminate] end.
  cbn [bind] in H. destruct rest' as [|raw' rest''].
  - now apply objectLeaf_objectState with operation (VObj props) (unescapePathComponent raw).
  - destruct (memberOf _ _) as [child| |]; try discriminate.
    destruct (isObject child); [|discriminate].
    match type of H with (_ <- ?c ;; _) = _ => destruct c as [[child'|]|]; try discriminate end.
    cbn [bind option_map] in H. injection H as <-.
    now apply objectState_replace_key.
Qed.

Lemma rawLeaf_objectState (what : rawOp) (obj : value) (key : string)
  (r : value) (x : option value) :
  objectState obj -> rawLeaf what obj key = Ok (r, x) -> objectState r.
Proof.
  intros Hobj H. pose proof Hobj as (props & -> & Hnd). cbn [rawLeaf] in H.
  destruct what as [v| |].
  - injection H as <- _. exists (set_key key v props).
    split; [reflexivity | now apply NoDup_set_key].
  - destruct (rawChild _ _); [|discriminate]. injection H as <- _.
    exists (remove_key key props). split; [reflexivity | now apply NoDup_remove_key].
  - destruct (rawChild _ _); [|discriminate]. now injection H as <- _.
Qed.

Lemma rawApply_objectState (what : rawOp) (previous : string) (rest : list string)
  (obj r : value) (x : option value) :
  objectState obj -> rawApply what previous rest obj = Ok (r, x) -> objectState r.
Proof.
  intros Hobj H. destruct rest as [|raw rest']; [discriminate|].
  cbn [rawApply] in H. destruct (banned _ _); [discriminate|].
  destruct rest' as [|raw' rest''].
  - now apply rawLeaf_objectState with what obj (unescapePathComponent raw) x.
  - destruct (rawChild _ _) as [[c|]|]; try discriminate.
    + cbn [bind] in H.
      destruct (rawApply what raw (raw' :: rest'') c) as [[c' y]|]; [|discriminate].
      cbn [bind fst snd] in H. injection H as <- _.
      destruct Hobj as (props & -> & Hnd). now apply objectState_replace_key.
    + cbn [bind] in H. unfold onUndefined, banError, readError in H.
      destruct (banned _ _); discriminate.
Qed.

Lemma rawAt_objectState (what : rawOp) (pointer : string) (document r : value)
  (x : option value) :
  objectState document -> rawAt what pointer document = Ok (r, x) -> objectState r.
Proof.
  intros Hdoc H. unfold rawAt in H. destruct (rawKeys pointer) as [|raw rest].
  - pose proof Hdoc as (props & -> & Hnd).
    now apply rawLeaf_objectState with what (VObj props) "undefined" x.
  - now apply rawApply_objectState with what (firstRaw pointer) (raw :: rest) document x.
Qed.

Lemma applyInside_objectState (doc : value) (operation : PatchOperation) (r : value) :
  objectState doc -> applyInside doc operation = Ok r -> objectState r.
Proof.
  intros Hdoc H. unfold applyInside in H.
  match type of H with (_ <- ?c ;; _) = _ => destruct c as [[doc'|]|] eqn:Hd;
    [| |discriminate] end; cbn [bind] in H.
  - injection H as <-. exact (descend_objectState _ _ _ _ _ _ _ _ Hdoc Hd).
  - destruct (op operation), (from operation) as [src|];
      try (now injection H as <-).
    + unfold documentMove in H. destruct (isRootPath src); [discriminate|].
      destruct (rawAt RawRemove src doc) as [[doc1 removed]|] eqn:Hrm; [|discriminate].
      cbn [bind fst snd] in H. destruct removed as [v|]; [|discriminate].
      destruct (rawAt (RawAdd v) (path operation) doc1) as [[doc2 y]|] eqn:Hadd;
        [|discriminate].
      cbn [bind fst] in H. injection H as <-.
      apply (rawAt_objectState _ _ _ _ _ (rawAt_objectState _ _ _ _ _ Hdoc Hrm) Hadd).
    + unfold documentCopy in H.
      destruct (getValueByPointer doc src) as [found|]; [|discriminate].
      cbn [bind] in H.
      match type of H with (_ <- ?c ;; _) = _ => destruct c as [[doc2 y]|] eqn:Hadd;
        [|discriminate] end.
      cbn [bind fst] in H. injection H as <-.
      exact (rawAt_objectState _ _ _ _ _ Hdoc Hadd).
Qed.

Lemma setAt_objectState (p : list string) (d state : value) :
  objectState state -> (p = [] -> objectState d) -> objectState (setAt p d state).
Proof.
  intros Hstate Hd. destruct p as [|key p']; simpl; [now apply Hd|].
  destruct (leafGet state key); [|exact Hstate].
  destruct Hstate as (props & -> & Hnd). now apply objectState_replace_key.
Qed.

Lemma applyPatchFrom_objectState (ops : list PatchOperation) (ref : docref)
  (state r : value) :
  objectState state -> applyPatchFrom ref state ops = Ok r -> objectState r.
Proof.
  revert ref state. induction ops as [|operation ops IH]; intros ref state Hstate H;
    cbn [applyPatchFrom] in H.
  - now injection H as <-.
  - destruct (validator operation) as [[]|]; [|discriminate]. cbn [bind] in H.
    destruct ref as [p|[d|]].
    + destruct (getAt p state) as [doc|] eqn:Hdoc; [|discriminate].
      destruct (isRootPath (path operation)).
      * destruct (rebind p doc operation) as [ref'|]; [|discriminate]. cbn [bind] in H.
        now apply IH with ref' state.
      * destruct (applyInside doc operation) as [doc'|] eqn:Hin; [|discriminate].
        cbn [bind] in H. apply IH with (Alias p) (setAt p doc' state); [|exact H].
        apply setAt_objectState; [exact Hstate|].
        intros ->. cbn [getAt] in Hdoc. injection Hdoc as <-.
        now apply applyInside_objectState with state operation.
    + destruct (isRootPath (path operation)).
      * destruct (applyRoot (Some d) operation) as [d'|]; [|discriminate].
        cbn [bind] in H. now apply IH with (Detached d') state.
      * destruct (applyInside d operation) as [d'|]; [|discriminate].
        cbn [bind] in H. now apply IH with (Detached (Some d')) state.
    + destruct (isRootPath (path operation)).
      * destruct (applyRoot None operation) as [d'|]; [|discriminate].
        cbn [bind] in H. now apply IH with (Detached d') state.
      * unfold onUndefined, banError, readError in H.
        destruct (rawKeys (path operation)); [discriminate|].
        destruct (banned _ _); discriminate.
Qed.

Lemma applyRecords_objectState (records : list PatchData) (state r : value) :
  objectState state -> applyRecords state records = Ok r -> objectState r.
Proof.
  revert state. induction records as [|patch records IH]; intros state Hstate H;
    simpl in H.
  - now injection H as <-.
  - destruct (applyPatch state (ops patch)) as [state'|] eqn:Hp; [|discriminate].
    simpl in H. apply IH with state'; [|exact H].
    now apply applyPatchFrom_objectState with (ops patch) (Alias []) state.
Qed.

(** ** [merge(data, state)] *)

Lemma baseMerge_object (props : list (string * value)) (object : value) :
  baseMerge (VObj props) object = fold_left mergeStep props object.
Proof.
  simpl. revert object.
  induction props as [|[k srcValue] props IH]; intros object; simpl; [reflexivity|].
  now rewrite IH.
Qed.

Lemma mergeStep_object (dp : list (string * value)) (k : string) (srcValue : value) :
  mergeStep (VObj dp) (k, srcValue)
  = VObj (set_key k (mergedValue (assoc k dp) srcValue) dp).
Proof.
  unfold mergeStep, mergeKey, mergedValue. simpl.
  now destruct (isObject srcValue).
Qed.

Lemma merge_objects (sp dp : list (string * value)) :
  NoDup (map fst sp) ->
  exists rp,
    fold_left mergeStep sp (VObj dp) = VObj rp /\
    forall k,
      assoc k rp
      = match assoc k sp with
        | Some v => Some (mergedValue (assoc k dp) v)
        | None => assoc k dp
        end.
Proof.
  revert dp. induction sp as [|[k0 v0] sp IH]; intros dp Hnd; simpl.
  - now exists dp.
  - inversion Hnd as [|? ? Hnotin Hnd']; subst.
    rewrite mergeStep_object.
    destruct (IH (set_key k0 (mergedValue (assoc k0 dp) v0) dp) Hnd') as (rp & Hrp & Hlookup).
    exists rp. split; [exact Hrp|]. intros k. rewrite Hlookup, assoc_set_key.
    destruct (String.eqb_spec k k0) as [->|Hne].
    + now rewrite (assoc_None_notin _ _ Hnotin).
    + reflexivity.
Qed.

(** On a key of both, the value of the source wins unless it is an object
    or an array, which is merged into what the destination has; a key that
    the source lacks keeps the value of the destination. *)
Lemma merge_source_wins (data sp : list (string * value)) :
  NoDup (map fst sp) ->
  (forall k v,
      assoc k sp = Some v -> isObject v = false ->
      getProp (merge (VObj data) (VObj sp)) k = Some v) /\
  (forall k v,
      assoc k sp = Some v ->
      getProp (merge (VObj data) (VObj sp)) k = Some (mergedValue (assoc k data) v)) /\
  (forall k,
      assoc k sp = None ->
      getProp (merge (VObj data) (VObj sp)) k = assoc k data).
Proof.
  intros Hnd. unfold merge. rewrite baseMerge_object.
  destruct (merge_objects sp data Hnd) as (rp & -> & Hlookup). simpl.
  split; [|split].
  - intros k v Hk Hv. rewrite Hlookup, Hk. unfold mergedValue. now rewrite Hv.
  - intros k v Hk. now rewrite Hlookup, Hk.
  - intros k Hk. now rewrite Hlookup, Hk.
Qed.

(** C1, amended. When [rollback] goes through, it sets the document to
    [merge(data, state)], [state] being the object the records up to the
    target were applied to, and saves it when asked.  In the merged value the
    reconstructed state is on top of the overrides: on a key of both, the
    value of the state wins when it is a scalar or null, and is merged into
    the override when it is an object or an array; an override is kept on
    the keys the state lacks. *)
Theorem rollback_state_over_overrides
  (patches : list PatchData) (patchId : string) (data : list (string * value))
  (save : bool) (saved : result unit) (effects : list docEffect)
  (Hdone : rollback patches patchId (VObj data) save saved = (effects, Ok tt)) :
  exists state,
    applyRecords (VObj [])
      (dropRightWhile (fun patch => negb (String.eqb (_id patch) patchId)) patches)
    = Ok (VObj state) /\
    effects
    = DocSet (merge (VObj data) (VObj state)) :: (if save then [DocSave] else []) /\
    (forall k v,
        assoc k state = Some v -> isObject v = false ->
        getProp (merge (VObj data) (VObj state)) k = Some v) /\
    (forall k v,
        assoc k state = Some v ->
        getProp (merge (VObj data) (VObj state)) k
        = Some (mergedValue (assoc k data) v)) /\
    (forall k,
        assoc k state = None ->
        getProp (merge (VObj data) (VObj state)) k = assoc k data).
Proof.
  unfold rollback in Hdone.
  destruct (negb (existsb (String.eqb patchId) (map _id patches))); [discriminate|].
  remember (dropRightWhile _ patches) as apply eqn:Happly.
  destruct (Nat.eqb (List.length patches) (List.length apply)); [discriminate|].
  destruct (applyRecords (VObj []) apply) as [st|e] eqn:Hst; [|discriminate].
  destruct (applyRecords_objectState apply (VObj []) st) as (state & -> & Hnd);
    [exists []; split; [reflexivity | constructor] | exact Hst |].
  exists state. split; [reflexivity|]. split.
  - destruct save; inversion Hdone; reflexivity.
  - now apply merge_source_wins.
Qed.

Lemma rollback_state_over_overrides_witness :
  exists state,
    applyRecords (VObj [])
      (dropRightWhile (fun patch => negb (String.eqb (_id patch) "p2")) commentHistory)
    = Ok (VObj state) /\
    [DocSet (VObj [("text", VStr "comm 2"); ("user", VStr "u")]); DocSave]
    = DocSet (merge (VObj [("text", VStr "override"); ("user", VStr "u")]) (VObj state))
      :: (if true then [DocSave] else []) /\
    (forall k v,
        assoc k state = Some v -> isObject v = false ->
        getProp (merge (VObj [("text", VStr "override"); ("user", VStr "u")])
                   (VObj state)) k = Some v) /\
    (forall k v,
        assoc k state = Some v ->
        getProp (merge (VObj [("text", VStr "override"); ("user", VStr "u")])
                   (VObj state)) k
        = Some (mergedValue
                  (assoc k [("text", VStr "override"); ("user", VStr "u")]) v)) /\
    (forall k,
        assoc k state = None ->
        getProp (merge (VObj [("text", VStr "override"); ("user", VStr "u")])
                   (VObj state)) k
        = assoc k [("text", VStr "override"); ("user", VStr "u")]).
Proof.
  apply (rollback_state_over_overrides commentHistory "p2"
           [("text", VStr "override"); ("user", VStr "u")] true (Ok tt)).
  reflexivity.
Defined.

(** C1 as stated fails: the override [text] collides with the [text] of the
    reconstructed state, and the document is set to the value of the state. *)
Lemma rollback_override_loses_counterexample :
  let data := VObj [("text", VStr "override"); ("user", VStr "u")] in
  applyRecords (VObj [])
    (dropRightWhile (fun patch => negb (String.eqb (_id patch) "p2")) commentHistory)
  = Ok (VObj [("text", VStr "comm 2")]) /\
  getProp data "text" = Some (VStr "override") /\
  rollback commentHistory "p2" data true (Ok tt)
  = ([DocSet (VObj [("text", VStr "comm 2"); ("user", VStr "u")]); DocSave], Ok tt) /\
  getProp (VObj [("text", VStr "comm 2"); ("user", VStr "u")]) "text"
  <> Some (VStr "override").
Proof.
  repeat split; try reflexivity. discriminate.
Qed.

(** ** Conditional updates *)

(** C6. The code does not skip an update that matched nothing.  The
    guard of the [post] hooks asks for [lastErrorObject.n] and [upsertedCount]
    to be zero together; the store answers an update that matched nothing
    with [null] or with an [UpdateResult], which has no [lastErrorObject], so
    the guard does not fire.  No identity was captured, the hook looks for a
    document that meets the conditions merged with the update, and when the
    collection holds one, as here a document whose title is [42] already, it
    writes a record for it, with the whole document as the change. *)
Lemma zero_match_update_writes_a_record :
  answerCollection (_conditions answerContext) = [] /\
  snd (preUpdateOne answerCollection answerContext emptyWorld) = Ok answerContext /\
  snd (preUpdateMany answerCollection answerContext emptyWorld)
  = Ok answerBatchContext /\
  nothingTouched None = false /\
  nothingTouched updateResultShape = false /\
  (let written :=
     (mkWorld [mkPatchDataInput [addOp "/title" (VStr "42")] (VNum 42) 7 []] 0
        [VObj [("title", VStr "42")]], Ok tt) in
   postUpdateOne plainOptions answerCollection answerContext None emptyWorld
   = written /\
   postUpdateOne plainOptions answerCollection answerContext updateResultShape
     emptyWorld = written /\
   postUpdateMany plainOptions answerCollection answerBatchContext None emptyWorld
   = written /\
   postUpdateMany plainOptions answerCollection answerBatchContext updateResultShape
     emptyWorld = written).
Proof.
  repeat split; reflexivity.
Qed.

Lemma allDocs_pairByPosition (f : Document -> M unit) (originals : list value)
  (docs : list Document) (k : nat) (w : World) :
  allDocs (fun doc i => f (withOriginal doc (nth_error originals i))) k docs w
  = allDocs (fun doc _ => f doc) 0 (pairByPosition docs (skipn k originals)) w.
Proof.
  revert k w. induction docs as [|doc docs IH]; intros k w; [reflexivity|].
  assert (Hstep : forall l j u,
             allDocs (fun d (_ : nat) => f d) j l u
             = allDocs (fun d (_ : nat) => f d) 0 l u).
  { assert (Hany : forall l j j' u,
               allDocs (fun d (_ : nat) => f d) j l u
               = allDocs (fun d (_ : nat) => f d) j' l u).
    { induction l as [|d l IHl]; intros j j' u; simpl; [reflexivity|].
      destruct (f d u) as [w1 r1]. now rewrite (IHl (S j) (S j')). }
    intros l j u. apply Hany. }
  simpl. destruct (skipn k originals) as [|original rest] eqn:Hskip.
  - assert (Hnone : nth_error originals k = None).
    { apply nth_error_None. apply (f_equal (@List.length _)) in Hskip.
      rewrite length_skipn in Hskip. simpl in Hskip. lia. }
    simpl. rewrite Hnone. destruct (f (withOriginal doc None) w) as [w1 r1].
    rewrite IH, (Hstep _ 1%nat).
    assert (Hrest : skipn (S k) originals = []).
    { apply skipn_all2. apply nth_error_None in Hnone. lia. }
    now rewrite Hrest.
  - assert (Hsome : nth_error originals k = Some original /\ skipn (S k) originals = rest).
    { clear -Hskip. revert originals Hskip.
      induction k as [|k IHk]; intros [|o originals] Hskip; simpl in *; try discriminate.
      - injection Hskip as -> ->. now split.
      - now apply IHk. }
    destruct Hsome as [Hnth Hrest]. simpl. rewrite Hnth.
    destruct (f (withOriginal doc (Some original)) w) as [w1 r1].
    now rewrite IH, (Hstep _ 1%nat), Hrest.
Qed.

Lemma pairByPosition_nth (docs : list Document) (originals : list value)
  (i : nat) (doc : Document) :
  nth_error docs i = Some doc ->
  nth_error (pairByPosition docs originals) i
  = Some (withOriginal doc (nth_error originals i)).
Proof.
  revert originals i. induction docs as [|d docs IH]; intros originals [|i] H;
    simpl in H; try discriminate.
  - injection H as ->. now destruct originals.
  - destruct originals as [|o originals]; simpl.
    + rewrite (IH [] i H). now destruct i.
    + now apply IH.
Qed.

Lemma pairByPosition_length (docs : list Document) (originals : list value) :
  List.length (pairByPosition docs originals) = List.length docs.
Proof.
  revert originals. induction docs as [|d docs IH]; intros originals; [reflexivity|].
  destruct originals; simpl; now rewrite IH.
Qed.

Lemma pairByPosition_drops (docs : list Document) (originals extra : list value) :
  (List.length docs <= List.length originals)%nat ->
  pairByPosition docs (originals ++ extra) = pairByPosition docs originals.
Proof.
  revert originals. induction docs as [|d docs IH]; intros originals Hlen; [reflexivity|].
  destruct originals as [|o originals]; simpl in *; [lia|].
  rewrite IH by lia. reflexivity.
Qed.

Lemma allDocs_ext (f g : Document -> nat -> M unit) (docs : list Document)
  (k : nat) (w : World) :
  (forall doc i u, f doc i u = g doc i u) ->
  allDocs f k docs w = allDocs g k docs w.
Proof.
  intros Hfg. revert k w. induction docs as [|doc docs IH]; intros k w; simpl;
    [reflexivity|].
  rewrite Hfg. destruct (g doc k w) as [w1 r1]. now rewrite IH.
Qed.

Lemma split_on_nonempty (sep : ascii) (s : string) : split_on sep s <> [].
Proof.
  induction s as [|c s IH]; simpl; [discriminate|].
  destruct (Ascii.eqb c sep); [discriminate|].
  destruct (split_on sep s); [contradiction | discriminate].
Qed.

(** X25. Before a batch update the identities and the snapshots of the
    matching documents are captured in two lists, in the order of the lookup.
    After a batch update that the guard does not skip, the documents the
    second lookup answers are paired with the captured snapshots by position
    alone: the document at position [i] is diffed against the snapshot
    captured at position [i]; when there is none it is diffed against the
    empty object; the snapshots captured at positions past the last resolved
    document are dropped. *)
Theorem postUpdateMany_pairs_by_position
  (opts : ResolvedOptions) (find : value -> list Document)
  (this : UpdateQueryContext) (result : option ModifyResult) (w : World)
  (Htouched : nothingTouched result = false) :
  (forall before u,
      snd (preUpdateMany before this u)
      = Ok (mkContext (_conditions this) (_update this) (ctx_original this)
              (_originalId this)
              (Some (map docId (before (_conditions this))))
              (Some (map docData (before (_conditions this))))
              (options this))) /\
  postUpdateMany opts find this result w
  = allDocs (fun doc _ => createPatch opts doc (options this)) 0
      (pairByPosition (find (resolveConditions this)) (capturedOriginals this))
      (logLookup (resolveConditions this) w) /\
  (forall docs originals i doc,
      nth_error docs i = Some doc ->
      nth_error (pairByPosition docs originals) i
      = Some (withOriginal doc (nth_error originals i))) /\
  (forall doc, diffBase (withOriginal doc None) = VObj []) /\
  (forall docs originals extra,
      (List.length docs <= List.length originals)%nat ->
      pairByPosition docs (originals ++ extra) = pairByPosition docs originals).
Proof.
  split; [intros before u; reflexivity|].
  split; [|split; [exact pairByPosition_nth|
                   split; [reflexivity | exact pairByPosition_drops]]].
  unfold postUpdateMany. rewrite Htouched.
  fold (resolveConditions this). unfold bindM, modelFind. fold (logLookup (resolveConditions this) w).
  rewrite <- (allDocs_pairByPosition
                (fun doc => createPatch opts doc (options this))
                (capturedOriginals this) (find (resolveConditions this)) 0).
  apply allDocs_ext. intros doc i u. unfold originalAt, capturedOriginals.
  destruct (_originals this); [reflexivity|].
  now destruct i.
Qed.

Lemma postUpdateMany_pairs_by_position_witness :
  postUpdateMany plainOptions (fun _ => [postTwo]) batchContext updateResultShape
    emptyWorld
  = allDocs (fun doc _ => createPatch plainOptions doc (options batchContext)) 0
      (pairByPosition [postTwo] (capturedOriginals batchContext))
      (logLookup (resolveConditions batchContext) emptyWorld).
Proof.
  apply (proj2 (postUpdateMany_pairs_by_position plainOptions (fun _ => [postTwo])
                  batchContext updateResultShape emptyWorld eq_refl)).
Defined.

(** C7. The code does not pair a document with its own snapshot.  Two
    documents are captured by a batch update, the first is gone when the
    lookup after the update is made, the second did not change.  Its own
    snapshot is the one captured under its identity, and the diff against it
    is empty; the hook diffs it against the snapshot captured at its position
    in the answer of the lookup, which is that of the first document, and
    writes a record for a change that did not happen. *)
Lemma batch_update_diffs_a_neighbour_snapshot :
  snapshotOf [VNum 1; VNum 2] (capturedOriginals batchContext) (docId postTwo)
  = Some (VObj [("title", VStr "two")]) /\
  originalAt batchContext 0 = Some (VObj [("title", VStr "one")]) /\
  compare (VObj [("title", VStr "two")]) (docData postTwo) = [] /\
  patchCollection
    (fst (postUpdateMany plainOptions (fun _ => [postTwo]) batchContext
            updateResultShape emptyWorld))
  = [mkPatchDataInput [replaceOp "/title" (VStr "two")] (VNum 2) 7 []].
Proof.
  repeat split; reflexivity.
Qed.

(** ** Lists and properties under deletion *)

Lemma assoc_remove_key (k key : string) (props : list (string * value)) :
  assoc k (remove_key key props)
  = if String.eqb k key then None else assoc k props.
Proof.
  induction props as [|[k0 x] props IH]; simpl.
  - now destruct (String.eqb k key).
  - destruct (String.eqb_spec key k0) as [->|Hne]; simpl.
    + rewrite IH. destruct (String.eqb_spec k k0); reflexivity.
    + rewrite IH. destruct (String.eqb_spec k k0) as [->|]; [|reflexivity].
      destruct (String.eqb_spec k0 key) as [->|]; [contradiction | reflexivity].
Qed.

Lemma assoc_replace_key (k key : string) (v : value) (props : list (string * value)) :
  assoc k (replace_key key v props)
  = match assoc k props with
    | Some x => if String.eqb k key then Some v else Some x
    | None => None
    end.
Proof.
  induction props as [|[k0 x] props IH]; simpl; [reflexivity|].
  destruct (String.eqb_spec key k0) as [->|Hne]; simpl.
  - destruct (String.eqb_spec k k0); [reflexivity|].
    now destruct (assoc k props).
  - rewrite IH. destruct (String.eqb_spec k k0) as [->|]; [|reflexivity].
    destruct (String.eqb_spec k0 key) as [->|]; [contradiction | reflexivity].
Qed.

Lemma replace_key_same (key : string) (v : value) (props : list (string * value)) :
  assoc key props = Some v -> replace_key key v props = props.
Proof.
  induction props as [|[k0 x] props IH]; simpl; [reflexivity|].
  destruct (String.eqb_spec key k0) as [->|Hne].
  - intros H. now injection H as ->.
  - intros H. now rewrite IH.
Qed.

Lemma remove_key_absent (key : string) (props : list (string * value)) :
  assoc key props = None -> remove_key key props = props.
Proof.
  induction props as [|[k0 x] props IH]; simpl; [reflexivity|].
  destruct (String.eqb key k0); [discriminate|].
  intros H. now rewrite IH.
Qed.

Lemma length_set_nth (A : Type) (i : nat) (a : A) (l : list A) :
  List.length (set_nth i a l) = List.length l.
Proof.
  revert i. induction l as [|x l IH]; intros [|i]; simpl; try reflexivity.
  now rewrite IH.
Qed.

Lemma nth_error_set_nth (A : Type) (i j : nat) (a : A) (l : list A) :
  nth_error (set_nth i a l) j
  = if Nat.eqb i j
    then match nth_error l j with Some _ => Some a | None => None end
    else nth_error l j.
Proof.
  revert i j. induction l as [|x l IH]; intros [|i] [|j]; simpl; try reflexivity.
  - now destruct (Nat.eqb i j).
  - apply IH.
Qed.

Lemma set_nth_same (A : Type) (i : nat) (a : A) (l : list A) :
  nth_error l i = Some a -> set_nth i a l = l.
Proof.
  revert i. induction l as [|x l IH]; intros [|i] H; simpl in *; try discriminate.
  - now injection H as ->.
  - now rewrite IH.
Qed.

Lemma elem_at_Some (elems : list (option value)) (i : nat) (c : value) :
  elem_at elems i = Some c <-> nth_error elems i = Some (Some c).
Proof.
  unfold elem_at. destruct (nth_error elems i) as [[x|]|]; split; intros H;
    try discriminate; try (now injection H as ->); inversion H; reflexivity.
Qed.

(** ** [pruned] is a preorder that property access respects *)

Lemma pruned_getProp (v' v : value) (key : string) (c' : value) :
  pruned v' v -> getProp v' key = Some c' ->
  exists c, getProp v key = Some c /\ pruned c' c.
Proof.
  intros Hp Hget. destruct Hp as [v | es' es Hlen Hes | ps' ps Hps].
  - exists c'. split; [exact Hget | constructor].
  - simpl in *. destruct (array_index key) as [i|].
    + apply elem_at_Some in Hget. destruct (Hes i c' Hget) as (c & Hc & Hcc).
      exists c. split; [now apply elem_at_Some | exact Hcc].
    + destruct (String.eqb key "length"); [|discriminate].
      injection Hget as <-. rewrite Hlen. eexists. split; [reflexivity | constructor].
  - simpl in *. now apply Hps.
Qed.

Lemma pruned_getProp_None (v' v : value) (key : string) :
  pruned v' v -> getProp v key = None -> getProp v' key = None.
Proof.
  intros Hp Hnone. destruct (getProp v' key) as [c'|] eqn:Hget; [|reflexivity].
  destruct (pruned_getProp v' v key c' Hp Hget) as (c & Hc & _). congruence.
Qed.

Lemma pruned_array_inv (v' : value) (es : list (option value)) :
  pruned v' (VArr es) ->
  exists es', v' = VArr es' /\ List.length es' = List.length es /\
    (forall i c', nth_error es' i = Some (Some c') ->
                  exists c, nth_error es i = Some (Some c) /\ pruned c' c).
Proof.
  intros Hp. inversion Hp as [v | es' es0 Hlen Hes | ]; subst.
  - exists es. split; [reflexivity|]. split; [reflexivity|].
    intros i c' H. exists c'. split; [exact H | constructor].
  - now exists es'.
Qed.

Lemma pruned_not_array (v' v : value) :
  pruned v' v -> isArray v = false -> isArray v' = false.
Proof.
  intros Hp Hv. destruct Hp; [exact Hv | discriminate | reflexivity].
Qed.

Lemma pruned_trans (a b c : value) : pruned a b -> pruned b c -> pruned a c.
Proof.
  revert b c. induction a as [|b0|n|s|es' IH|ps' IH] using value_ind;
    intros b c Hab Hbc; try (inversion Hab; subst; exact Hbc).
  - inversion Hab as [v | es0 es Hlen Hes | ]; subst; [exact Hbc|].
    inversion Hbc as [v | es0 es1 Hlen1 Hes1 | ]; subst; [exact Hab|].
    constructor; [congruence|].
    intros i c' Hi. destruct (Hes i c' Hi) as (x & Hx & Hcx).
    destruct (Hes1 i x Hx) as (y & Hy & Hxy). exists y. split; [exact Hy|].
    rewrite Forall_forall in IH.
    apply (IH (Some c') (nth_error_In _ _ Hi) x y Hcx Hxy).
  - inversion Hab as [v | | ps0 ps Hps]; subst; [exact Hbc|].
    inversion Hbc as [v | | ps0 ps1 Hps1]; subst; [exact Hab|].
    constructor. intros k c' Hk. destruct (Hps k c' Hk) as (x & Hx & Hcx).
    destruct (Hps1 k x Hx) as (y & Hy & Hxy). exists y. split; [exact Hy|].
    rewrite Forall_forall in IH.
    apply (IH (k, c') (assoc_In _ _ _ Hk) x y Hcx Hxy).
Qed.

(** ** The loop of [deepRemovePath] *)

Lemma mapM_Forall2 (A B : Type) (f : A -> result B) (l : list A) (l' : list B) :
  mapM f l = Ok l' -> Forall2 (fun a b => f a = Ok b) l l'.
Proof.
  revert l'. induction l as [|a l IH]; intros l' H; simpl in H.
  - injection H as <-. constructor.
  - destruct (f a) as [b|] eqn:Hb; [|discriminate]. simpl in H.
    destruct (mapM f l) as [bs|]; [|discriminate]. simpl in H.
    injection H as <-. constructor; [exact Hb | now apply IH].
Qed.


Lemma Forall2_nth_right (A B : Type) (R : A -> B -> Prop) (l : list A) (l' : list B)
  (i : nat) (b : B) :
  Forall2 R l l' -> nth_error l' i = Some b ->
  exists a, nth_error l i = Some a /\ R a b.
Proof.
  intros HF. revert i. induction HF as [|x y l l' Hxy _ IH]; intros [|i] H;
    simpl in H; try discriminate.
  - injection H as <-. now exists x.
  - now apply IH.
Qed.

Lemma walk_array (seg : string) (segs : list string) (lastKey : string)
  (elems : list (option value)) :
  String.eqb seg ARRAY_INDEX_WILDCARD = true ->
  walk (seg :: segs) lastKey (VArr elems)
  = (elems' <- mapM (walkElem segs lastKey) elems ;; Ok (Some (VArr elems'))).
Proof.
  intros Hw. simpl. now rewrite Hw.
Qed.

Lemma walk_other (seg : string) (segs : list string) (lastKey : string) (v : value) :
  String.eqb seg ARRAY_INDEX_WILDCARD && isArray v = false ->
  walk (seg :: segs) lastKey v
  = match getProp v seg with
    | None => if inherits v seg then walkInherited seg segs lastKey else Ok None
    | Some child =>
        r <- walk segs lastKey child ;;
        match r with
        | None => Ok None
        | Some child' => Ok (Some (updChild v seg child'))
        end
    end.
Proof.
  intros H. simpl. destruct (String.eqb seg ARRAY_INDEX_WILDCARD); [|reflexivity].
  destruct v; try reflexivity. discriminate.
Qed.

Lemma walk_cases (seg : string) (v : value) :
  (String.eqb seg ARRAY_INDEX_WILDCARD = true /\ exists elems, v = VArr elems) \/
  String.eqb seg ARRAY_INDEX_WILDCARD && isArray v = false.
Proof.
  destruct (String.eqb seg ARRAY_INDEX_WILDCARD); [|now right].
  destruct v; try (now right). left. split; [reflexivity | now eexists].
Qed.

(** A property that is an object or an array is a property of an object
    or an element of an array. *)
Lemma getProp_parent (v : value) (key : string) (child : value) :
  getProp v key = Some child -> isObject child = true ->
  (exists ps, v = VObj ps /\ assoc key ps = Some child) \/
  (exists es i, v = VArr es /\ array_index key = Some i /\
                nth_error es i = Some (Some child)).
Proof.
  intros Hget Hobj. destruct v as [| | |s|es|ps]; simpl in Hget; try discriminate.
  - destruct (array_index key) as [i|].
    + unfold char_at in Hget. destruct (String.get i s); [|discriminate].
      injection Hget as <-. discriminate.
    + destruct (String.eqb key "length"); [|discriminate].
      injection Hget as <-. discriminate.
  - right. destruct (array_index key) as [i|] eqn:Hi.
    + exists es, i. split; [reflexivity|]. split; [reflexivity|].
      now apply elem_at_Some.
    + destruct (String.eqb key "length"); [|discriminate].
      injection Hget as <-. discriminate.
  - left. now exists ps.
Qed.

Lemma updChild_isObject (v : value) (key : string) (child c' : value) :
  getProp v key = Some child -> isObject child = true ->
  isObject v = true /\ isObject (updChild v key c') = true.
Proof.
  intros Hget Hobj.
  destruct (getProp_parent v key child Hget Hobj)
    as [(ps & -> & _) | (es & i & -> & Hi & _)]; simpl; [now split|].
  now rewrite Hi.
Qed.

Lemma updChild_same (v : value) (key : string) (c : value) :
  getProp v key = Some c -> updChild v key c = v.
Proof.
  intros Hget. destruct v as [| | |s|es|ps]; simpl in *; try reflexivity.
  - destruct (array_index key) as [i|]; [|reflexivity].
    apply elem_at_Some in Hget. now rewrite set_nth_same.
  - now rewrite replace_key_same.
Qed.

Lemma isOneOf_app (key : string) (a b : list string) :
  isOneOf key (a ++ b) = isOneOf key a || isOneOf key b.
Proof. apply existsb_app. Qed.

(** A name that is no built-in one is inherited by no value. *)
Lemma inherits_builtinKey (v : value) (key : string) :
  builtinKey key = false -> inherits v key = false.
Proof.
  unfold builtinKey. rewrite !isOneOf_app. intros H.
  apply orb_false_iff in H as [Ho H]. apply orb_false_iff in H as [Ha H].
  apply orb_false_iff in H as [Hs H]. apply orb_false_iff in H as [Hn Hb].
  destruct v; unfold inherits; cbn [inheritedKeys]; rewrite ?isOneOf_app;
    rewrite ?Ho, ?Ha, ?Hs, ?Hn, ?Hb; reflexivity.
Qed.

Lemma ownNames_cons (seg : string) (segs : list string) :
  ownNames (seg :: segs) = true -> builtinKey seg = false /\ ownNames segs = true.
Proof.
  unfold ownNames. cbn [forallb]. intros H. apply andb_true_iff in H as [H1 H2].
  split; [now apply negb_true_iff in H1 | exact H2].
Qed.

(** The loop went into a member that the value inherits: it throws or goes
    where the model does not follow. *)
Lemma walkInherited_error (seg : string) (segs : list string) (lastKey : string) :
  exists e, walkInherited seg segs lastKey = Err e.
Proof.
  unfold walkInherited.
  destruct (negb (String.eqb seg "__proto__") && forallb (String.eqb "constructor") segs
            && (String.eqb seg "constructor" || negb (Nat.eqb (List.length segs) 0))
            && String.eqb lastKey "prototype"); eauto.
Qed.

(** Only an object or an array is ever mutated. *)
Lemma walk_changed (segs : list string) (lastKey : string) (v v' : value) :
  walk segs lastKey v = Ok (Some v') ->
  v' = v \/ (isObject v = true /\ isObject v' = true).
Proof.
  revert v v'. induction segs as [|seg segs IH]; intros v v' H.
  - simpl in H. destruct (getProp v lastKey) as [x|] eqn:Hget.
    + right. destruct v as [| | |s|es|ps]; simpl in Hget, H; try discriminate.
      * destruct (array_index lastKey); [|discriminate]. simpl in H.
        injection H as <-. now split.
      * injection H as <-. now split.
    + left. destruct (inherits v lastKey); [|discriminate]. now injection H as <-.
  - destruct (walk_cases seg v) as [[Hw (elems & ->)] | Hother].
    + rewrite (walk_array _ _ _ _ Hw) in H.
      destruct (mapM (walkElem segs lastKey) elems); [|discriminate].
      simpl in H. injection H as <-. right. now split.
    + rewrite (walk_other _ _ _ _ Hother) in H.
      destruct (getProp v seg) as [child|] eqn:Hget.
      * destruct (walk segs lastKey child) as [[child'|]|] eqn:Hchild;
          try discriminate.
        simpl in H. injection H as <-.
        destruct (IH child child' Hchild) as [-> | [Hobj _]].
        -- left. now apply updChild_same.
        -- right. now apply updChild_isObject with child.
      * destruct (inherits v seg); [|discriminate].
        destruct (walkInherited_error seg segs lastKey) as (e & He).
        rewrite He in H. discriminate.
Qed.

(** With names that are own ones only, what the loop answers as mutated is an
    object or an array. *)
Lemma walk_mutates_objects (segs : list string) (lastKey : string) (v v' : value) :
  ownNames segs = true -> builtinKey lastKey = false ->
  walk segs lastKey v = Ok (Some v') -> isObject v = true /\ isObject v' = true.
Proof.
  revert v v'. induction segs as [|seg segs IH]; intros v v' Hown Hlast H.
  - simpl in H. rewrite (inherits_builtinKey v lastKey Hlast) in H.
    destruct (getProp v lastKey) as [x|] eqn:Hget; [|discriminate].
    destruct v as [| | |s|es|ps]; simpl in Hget, H; try discriminate.
    + destruct (array_index lastKey); [|discriminate]. simpl in H.
      injection H as <-. now split.
    + injection H as <-. now split.
  - apply ownNames_cons in Hown as [Hseg Hown].
    destruct (walk_cases seg v) as [[Hw (elems & ->)] | Hother].
    + rewrite (walk_array _ _ _ _ Hw) in H.
      destruct (mapM (walkElem segs lastKey) elems); [|discriminate].
      simpl in H. injection H as <-. now split.
    + rewrite (walk_other _ _ _ _ Hother) in H.
      rewrite (inherits_builtinKey v seg Hseg) in H.
      destruct (getProp v seg) as [child|] eqn:Hget; [|discriminate].
      destruct (walk segs lastKey child) as [[child'|]|] eqn:Hchild;
        try discriminate.
      simpl in H. injection H as <-.
      destruct (IH child child' Hown Hlast Hchild) as [Hobj _].
      now apply updChild_isObject with child.
Qed.

Lemma Object_keys_isObject (v : value) :
  isObject v = true -> exists keys, Object_keys v = Ok keys.
Proof.
  destruct v; try discriminate; intros _; simpl; eauto.
Qed.

Lemma pruned_updChild (v : value) (key : string) (child child' : value) :
  getProp v key = Some child -> isObject child = true ->
  pruned child' child -> pruned (updChild v key child') v.
Proof.
  intros Hget Hobj Hp.
  destruct (getProp_parent v key child Hget Hobj)
    as [(ps & -> & Hk) | (es & i & -> & Hi & Hnth)]; simpl.
  - constructor. intros k c' Hc'. rewrite assoc_replace_key in Hc'.
    destruct (assoc k ps) as [x|] eqn:Hx; [|discriminate].
    destruct (String.eqb_spec k key) as [->|].
    + injection Hc' as <-. exists child. split; [congruence | exact Hp].
    + injection Hc' as <-. exists x. split; [reflexivity | constructor].
  - rewrite Hi. constructor; [apply length_set_nth|].
    intros j c' Hc'. rewrite nth_error_set_nth in Hc'.
    destruct (Nat.eqb_spec i j) as [->|].
    + rewrite Hnth in Hc'. injection Hc' as <-. now exists child.
    + exists c'. split; [exact Hc' | constructor].
Qed.

Lemma pruned_deleteProp (v v' : value) (key : string) :
  deleteProp v key = Ok v' -> pruned v' v.
Proof.
  intros H. destruct v as [| | |s|es|ps]; simpl in H;
    try (injection H as <-; apply pruned_same); try discriminate.
  - destruct (array_index key) as [i|]; [|discriminate]. injection H as <-.
    apply pruned_array; [apply length_set_nth|].
    intros j c' Hc'. rewrite nth_error_set_nth in Hc'.
    destruct (Nat.eqb i j).
    + destruct (nth_error es j); discriminate.
    + exists c'. split; [exact Hc' | apply pruned_same].
  - injection H as <-. apply pruned_object.
    intros k c' Hc'. rewrite assoc_remove_key in Hc'.
    destruct (String.eqb k key); [discriminate|].
    exists c'. split; [exact Hc' | apply pruned_same].
Qed.

Lemma getProp_deleteProp (v v' : value) (key : string) (x : value) :
  getProp v key = Some x -> deleteProp v key = Ok v' -> getProp v' key = None.
Proof.
  intros Hget H. destruct v as [| | |s|es|ps]; simpl in Hget, H; try discriminate.
  - destruct (array_index key) as [i|] eqn:Hi; [|discriminate]. injection H as <-.
    simpl. rewrite Hi. unfold elem_at. rewrite nth_error_set_nth, Nat.eqb_refl.
    now destruct (nth_error es i).
  - injection H as <-. simpl. now rewrite assoc_remove_key, String.eqb_refl.
Qed.

(** What the loop leaves is the value it was given, pruned. *)
Lemma walk_pruned (segs : list string) (lastKey : string) (v v' : value) :
  walk segs lastKey v = Ok (Some v') -> pruned v' v.
Proof.
  revert v v'. induction segs as [|seg segs IH]; intros v v' H.
  - simpl in H. destruct (getProp v lastKey).
    + destruct (deleteProp v lastKey) as [d|] eqn:Hd; [|discriminate].
      simpl in H. injection H as <-. now apply pruned_deleteProp with lastKey.
    + destruct (inherits v lastKey); [|discriminate].
      injection H as <-. apply pruned_same.
  - destruct (walk_cases seg v) as [[Hw (elems & ->)] | Hother].
    + rewrite (walk_array _ _ _ _ Hw) in H.
      destruct (mapM (walkElem segs lastKey) elems) as [elems'|] eqn:Hmap;
        [|discriminate].
      simpl in H. injection H as <-. apply mapM_Forall2 in Hmap.
      constructor; [symmetry; now apply Forall2_length with (1 := Hmap)|].
      intros i c' Hc'.
      destruct (Forall2_nth_right _ _ _ _ _ i _ Hmap Hc') as (o & Ho & Hwalk).
      unfold walkElem in Hwalk.
      destruct o as [c|]; [|discriminate Hwalk]. exists c. split; [exact Ho|].
      destruct (walk segs lastKey c) as [[e'|]|] eqn:Hc; simpl in Hwalk;
        [| |discriminate Hwalk].
      * destruct (Object_keys e'); [|discriminate Hwalk]. simpl in Hwalk.
        injection Hwalk as <-. now apply IH.
      * injection Hwalk as <-. apply pruned_same.
    + rewrite (walk_other _ _ _ _ Hother) in H.
      destruct (getProp v seg) as [child|] eqn:Hget.
      * destruct (walk segs lastKey child) as [[child'|]|] eqn:Hchild;
          try discriminate.
        simpl in H. injection H as <-.
        destruct (walk_changed _ _ _ _ Hchild) as [-> | [Hobj _]].
        -- rewrite (updChild_same v seg child Hget). apply pruned_same.
        -- apply pruned_updChild with child; [exact Hget | exact Hobj | now apply IH].
      * destruct (inherits v seg); [|discriminate].
        destruct (walkInherited_error seg segs lastKey) as (e & He).
        rewrite He in H. discriminate.
Qed.

Lemma getProp_updChild (v : value) (key : string) (child c' : value) :
  getProp v key = Some child -> isObject child = true ->
  getProp (updChild v key c') key = Some c'.
Proof.
  intros Hget Hobj.
  destruct (getProp_parent v key child Hget Hobj)
    as [(ps & -> & Hk) | (es & i & -> & Hi & Hnth)]; simpl.
  - now rewrite assoc_replace_key, Hk, String.eqb_refl.
  - rewrite Hi. simpl. rewrite Hi. unfold elem_at.
    now rewrite nth_error_set_nth, Nat.eqb_refl, Hnth.
Qed.

Lemma isArray_updChild (v : value) (key : string) (c' : value) :
  isArray (updChild v key c') = isArray v.
Proof.
  destruct v; simpl; try reflexivity. now destruct (array_index key).
Qed.


(** ** The exclusion filter is idempotent *)

Lemma setValue_same (patch : PatchOperation) (v : value) :
  value_ patch = Some v -> setValue patch v = patch.
Proof.
  destruct patch as [k p val f o]. simpl. now intros ->.
Qed.

Lemma setValue_twice (patch : PatchOperation) (v w : value) :
  setValue (setValue patch v) w = setValue patch w.
Proof. reflexivity. Qed.

Lemma hasKeys_check (v : value) (keys : list string) :
  Object_keys v = Ok keys ->
  negb (Nat.eqb (List.length keys) 0) = true -> hasKeys v.
Proof.
  intros Hkeys Hb. exists keys. split; [exact Hkeys|].
  now apply negb_true_iff in Hb.
Qed.

(** An operation that [deepRemovePath] keeps is the one it was given, or
    that one with its value pruned and not empty. *)
Lemma deepRemovePath_true (patch : PatchOperation) (exclude : list string)
  (p1 : PatchOperation) :
  deepRemovePath patch exclude = Ok (true, p1) ->
  p1 = patch \/
  exists v v', value_ patch = Some v /\ p1 = setValue patch v' /\
               pruned v' v /\ hasKeys v'.
Proof.
  unfold deepRemovePath. intros H.
  destruct (isPathContained _ exclude); [|injection H as <-; now left].
  destruct (value_ patch) as [v|] eqn:Hv; [|injection H as <-; now left].
  destruct (walk _ (lastKeyOf exclude) v) as [[v'|]|] eqn:Hwalk;
    simpl in H; [| injection H as <-; now left | discriminate].
  destruct (Object_keys v') as [keys|] eqn:Hkeys; [|discriminate].
  simpl in H. injection H as Hb <-. right. exists v, v'.
  split; [reflexivity|]. split; [reflexivity|].
  split; [now apply walk_pruned in Hwalk | now apply hasKeys_check with keys].
Qed.

Lemma ownNames_loopSegments (operationPath exclude : list string) :
  ownNames exclude = true -> ownNames (loopSegments operationPath exclude) = true.
Proof.
  unfold ownNames, loopSegments. intros H. apply forallb_forall. intros seg Hin.
  apply (proj1 (forallb_forall _ _) H).
  rewrite <- (firstn_skipn (List.length operationPath) exclude).
  apply in_or_app. right.
  rewrite <- (firstn_skipn (List.length exclude - 1 - List.length operationPath)
                (skipn (List.length operationPath) exclude)).
  apply in_or_app. now left.
Qed.

Lemma ownNames_lastKeyOf (exclude : list string) :
  ownNames exclude = true -> builtinKey (lastKeyOf exclude) = false.
Proof.
  unfold ownNames, lastKeyOf. intros H.
  destruct exclude as [|seg segs]; [reflexivity|].
  apply negb_true_iff. apply (proj1 (forallb_forall _ _) H).
  destruct (exists_last (l := seg :: segs)) as (front & key & Heq); [discriminate|].
  rewrite Heq, last_last. apply in_or_app. right. now left.
Qed.


Lemma everyDeepRemove_true (excludes : list (list string))
  (patch p' : PatchOperation) :
  everyDeepRemove patch excludes = Ok (true, p') ->
  p' = patch \/
  exists v v', value_ patch = Some v /\ p' = setValue patch v' /\
               pruned v' v /\ hasKeys v'.
Proof.
  revert patch. induction excludes as [|exclude excludes IH]; intros patch H;
    simpl in H.
  - injection H as <-. now left.
  - destruct (deepRemovePath patch exclude) as [[b p1]|] eqn:Hd; [|discriminate].
    simpl in H. destruct b; [|discriminate].
    destruct (IH p1 H) as [-> | (v1 & v' & Hv1 & -> & Hp & Hk)];
      [now apply deepRemovePath_true with exclude|].
    right. destruct (deepRemovePath_true _ _ _ Hd) as [-> | (v & w & Hv & -> & Hpw & _)].
    + now exists v1, v'.
    + simpl in Hv1. injection Hv1 as <-. exists v, v'.
      split; [exact Hv|]. split; [reflexivity|].
      split; [now apply pruned_trans with w | exact Hk].
Qed.

Lemma everyDeepRemove_value (excludes : list (list string))
  (patch p' : PatchOperation) (v' : value) :
  everyDeepRemove patch excludes = Ok (true, p') ->
  value_ p' = Some v' ->
  exists v, value_ patch = Some v /\ pruned v' v.
Proof.
  intros H Hv'.
  destruct (everyDeepRemove_true _ _ _ H) as [-> | (v & w & Hv & -> & Hp & _)].
  - exists v'. split; [exact Hv' | apply pruned_same].
  - simpl in Hv'. injection Hv' as <-. now exists v.
Qed.


Lemma everyDeepRemove_path (excludes : list (list string))
  (patch p' : PatchOperation) :
  everyDeepRemove patch excludes = Ok (true, p') -> path p' = path patch.
Proof.
  intros H.
  now destruct (everyDeepRemove_true _ _ _ H) as [-> | (v & w & _ & -> & _)].
Qed.






(** ** Pruning under a wildcard, element by element *)

Lemma walkElem_property_hidden (p rest : list (string * value)) :
  walkElem ["property"] "hidden" (Some (arrayElement p rest))
  = Ok (Some (arrayElement (remove_key "hidden" p) rest)).
Proof.
  unfold walkElem, arrayElement. simpl.
  destruct (assoc "hidden" p) eqn:Hhidden; simpl; [reflexivity|].
  now rewrite remove_key_absent.
Qed.

Lemma walk_three_elements (p0 p1 p2 r0 r1 r2 : list (string * value)) :
  walk ["*"; "property"] "hidden"
    (threeElements (arrayElement p0 r0) (arrayElement p1 r1) (arrayElement p2 r2))
  = Ok (Some (threeElements (arrayElement (remove_key "hidden" p0) r0)
                (arrayElement (remove_key "hidden" p1) r1)
                (arrayElement (remove_key "hidden" p2) r2))).
Proof.
  unfold threeElements. rewrite walk_array by reflexivity.
  unfold mapM. now rewrite !walkElem_property_hidden.
Qed.

Lemma deepRemovePath_false (patch : PatchOperation) (exclude : list string)
  (p' : PatchOperation) :
  deepRemovePath patch exclude = Ok (false, p') ->
  exists v, value_ p' = Some v /\ Object_keys v = Ok [].
Proof.
  unfold deepRemovePath. intros H.
  destruct (isPathContained _ exclude); [|discriminate].
  destruct (value_ patch) as [v|]; [|discriminate].
  destruct (walk _ (lastKeyOf exclude) v) as [[v'|]|]; simpl in H; try discriminate.
  destruct (Object_keys v') as [keys|] eqn:Hkeys; [|discriminate].
  simpl in H. injection H as Hb <-. exists v'. split; [reflexivity|].
  destruct keys; [exact Hkeys | discriminate].
Qed.

(** C4, amended. With the exclude pattern [/object/array/*/property/hidden]
    and a document whose [object.array] holds three elements, the diff
    against the empty object filters to exactly one [add] at [/object]; its
    value holds under [array] the three elements in their order, each with
    the key [hidden] removed from its [property] and nothing else; an element
    whose [property] becomes empty stays.  Against a prior that has an empty
    [object], the one [add] is at [/object/array] and its value is that
    array.  [deepRemovePath] answers [false], which drops the operation, only
    when the value of the operation itself has no key left. *)
Theorem hidden_pruned_in_each_element
  (p0 p1 p2 r0 r1 r2 : list (string * value)) :
  let pruned3 :=
    threeElements (arrayElement (remove_key "hidden" p0) r0)
      (arrayElement (remove_key "hidden" p1) r1)
      (arrayElement (remove_key "hidden" p2) r2) in
  let document :=
    excludeDocument (arrayElement p0 r0) (arrayElement p1 r1) (arrayElement p2 r2) in
  filterOps hiddenPattern (compare (VObj []) document)
  = Ok [addOp "/object" (VObj [("array", pruned3)])] /\
  filterOps hiddenPattern (compare (VObj [("object", VObj [])]) document)
  = Ok [addOp "/object/array" pruned3] /\
  (forall patch exclude p',
      deepRemovePath patch exclude = Ok (false, p') ->
      exists v, value_ p' = Some v /\ Object_keys v = Ok []).
Proof.
  intros pruned3 document.
  split; [|split; [|exact deepRemovePath_false]].
  - change (compare (VObj []) document)
      with [addOp "/object"
              (VObj [("array",
                      threeElements (arrayElement p0 r0) (arrayElement p1 r1)
                        (arrayElement p2 r2))])].
    unfold filterOps, hiddenPattern. cbn [List.length Nat.ltb Nat.leb filterM].
    unfold keepOp. cbn [path addOp existsb everyDeepRemove].
    change (isPathContained (getArrayFromPath "/object/array/*/property/hidden")
              (getArrayFromPath "/object")) with false.
    cbn [orb]. unfold deepRemovePath. cbn [path value_ addOp].
    change (isPathContained (sanitizeEmptyPath (getArrayFromPath "/object"))
              (getArrayFromPath "/object/array/*/property/hidden")) with true.
    change (loopSegments (sanitizeEmptyPath (getArrayFromPath "/object"))
              (getArrayFromPath "/object/array/*/property/hidden"))
      with ["array"; "*"; "property"].
    change (lastKeyOf (getArrayFromPath "/object/array/*/property/hidden"))
      with "hidden".
    rewrite walk_other by reflexivity. cbn [getProp assoc String.eqb Ascii.eqb Bool.eqb].
    rewrite walk_three_elements. reflexivity.
  - change (compare (VObj [("object", VObj [])]) document)
      with [addOp "/object/array"
              (threeElements (arrayElement p0 r0) (arrayElement p1 r1)
                 (arrayElement p2 r2))].
    unfold filterOps, hiddenPattern. cbn [List.length Nat.ltb Nat.leb filterM].
    unfold keepOp. cbn [path addOp existsb everyDeepRemove].
    change (isPathContained (getArrayFromPath "/object/array/*/property/hidden")
              (getArrayFromPath "/object/array")) with false.
    cbn [orb]. unfold deepRemovePath. cbn [path value_ addOp].
    change (isPathContained (sanitizeEmptyPath (getArrayFromPath "/object/array"))
              (getArrayFromPath "/object/array/*/property/hidden")) with true.
    change (loopSegments (sanitizeEmptyPath (getArrayFromPath "/object/array"))
              (getArrayFromPath "/object/array/*/property/hidden"))
      with ["*"; "property"].
    change (lastKeyOf (getArrayFromPath "/object/array/*/property/hidden"))
      with "hidden".
    rewrite walk_three_elements. reflexivity.
Qed.

(** C4 as stated fails on the path of the operation: against an empty
    prior the diff has its one [add] at [/object], the whole new object, and
    not at [/object/array]. *)
Lemma add_at_object_array_counterexample :
  filterOps hiddenPattern (compare (VObj []) hiddenDocument)
  = Ok [addOp "/object"
          (VObj [("array",
                  threeElements (arrayElement [] [])
                    (arrayElement [("visible", VStr "v")] [])
                    (arrayElement [] []))])] /\
  ~ (exists v,
        filterOps hiddenPattern (compare (VObj []) hiddenDocument)
        = Ok [addOp "/object/array" v]).
Proof.
  split; [reflexivity|].
  intros (v & H). vm_compute in H. discriminate H.
Qed.

(** * Further properties *)

(** ** Paths and their segments *)

Lemma split_on_no_sep (sep : ascii) (s : string) :
  contains sep s = false -> split_on sep s = [s].
Proof.
  induction s as [|c s IH]; simpl; [reflexivity|].
  intros H. apply orb_false_iff in H as [Hc Hs]. rewrite Hc, (IH Hs). reflexivity.
Qed.

Lemma split_on_append (sep : ascii) (a rest : string) :
  contains sep a = false ->
  split_on sep (a ++ String sep rest)%string = a :: split_on sep rest.
Proof.
  induction a as [|c a IH]; simpl; intros H.
  - now rewrite Ascii.eqb_refl.
  - apply orb_false_iff in H as [Hc Ha]. rewrite Hc, (IH Ha). reflexivity.
Qed.

Lemma join_cons (sep s s' : string) (segs : list string) :
  join sep (s :: s' :: segs) = (s ++ sep ++ join sep (s' :: segs))%string.
Proof. reflexivity. Qed.

Lemma split_on_join (sep : ascii) (segs : list string) :
  segs <> [] -> Forall (fun s => contains sep s = false) segs ->
  split_on sep (join (String sep "") segs) = segs.
Proof.
  intros Hne Hall. induction Hall as [|s segs Hs Hall IH]; [contradiction|].
  destruct segs as [|s' segs'].
  - simpl. now apply split_on_no_sep.
  - rewrite join_cons.
    change (String sep "" ++ join (String sep "") (s' :: segs'))%string
      with (String sep (join (String sep "") (s' :: segs'))).
    rewrite split_on_append by exact Hs. f_equal. apply IH. discriminate.
Qed.

Lemma split_join (segs : list string) :
  segs <> [] -> Forall (fun s => has_slash s = false) segs ->
  split_slash (join "/" segs) = segs.
Proof. apply (split_on_join slash). Qed.

Lemma join_split (s : string) : join "/" (split_slash s) = s.
Proof.
  unfold split_slash. induction s as [|c s IH]; [reflexivity|].
  simpl. destruct (Ascii.eqb_spec c slash) as [->|Hc].
  - destruct (split_on slash s) as [|h t] eqn:Hsplit;
      [now apply split_on_nonempty in Hsplit|].
    change (join "/" ("" :: h :: t)) with (String slash (join "/" (h :: t))).
    now rewrite IH.
  - destruct (split_on slash s) as [|h t] eqn:Hsplit;
      [now apply split_on_nonempty in Hsplit|].
    rewrite <- IH. destruct t; reflexivity.
Qed.

(** X1. Splitting a path and joining the segments with slashes gives the
    path back without its leading slash; joining segments that hold no
    slash, behind a leading slash, and splitting gives the segments back. *)
Theorem getArrayFromPath_round_trip :
  (forall p, join "/" (getArrayFromPath p) = strip_leading_slash p) /\
  (forall segs,
      segs <> [] -> Forall (fun s => has_slash s = false) segs ->
      getArrayFromPath (String slash (join "/" segs)) = segs).
Proof.
  split.
  - intros p. apply join_split.
  - intros segs Hne Hall. unfold getArrayFromPath.
    change (strip_leading_slash (String slash (join "/" segs))) with (join "/" segs).
    now apply split_join.
Qed.

Lemma split_slash_single_empty (s : string) : split_slash s = [""] <-> s = "".
Proof.
  split; [|intros ->; reflexivity].
  unfold split_slash. destruct s as [|c s]; [reflexivity|]. simpl.
  destruct (Ascii.eqb c slash).
  - destruct (split_on slash s) as [|h t] eqn:Hs;
      [now apply split_on_nonempty in Hs | discriminate].
  - destruct (split_on slash s); discriminate.
Qed.

(** X2. [getArrayFromPath] never answers the empty list: for [/] and for
    the empty path it answers one empty segment, and these two are the only
    paths that [sanitizeEmptyPath] then turns into the empty list. *)
Theorem root_path_segments (p : string) :
  getArrayFromPath p <> [] /\
  (sanitizeEmptyPath (getArrayFromPath p) = [] <-> p = "" \/ p = "/").
Proof.
  split; [apply split_on_nonempty|].
  unfold sanitizeEmptyPath.
  assert (Hroot : getArrayFromPath p = [""] <-> p = "" \/ p = "/").
  { unfold getArrayFromPath. rewrite split_slash_single_empty.
    destruct p as [|c p]; simpl; [intuition|].
    destruct (Ascii.eqb_spec c slash) as [->|Hc].
    - split; [intros ->; now right | intros [H|H]; [discriminate | now injection H]].
    - split; [discriminate | intros [H|H]; [discriminate|]].
      injection H as H _. contradiction. }
  destruct (getArrayFromPath p) as [|s [|s' l]] eqn:Hp.
  - now apply split_on_nonempty in Hp.
  - destruct (String.eqb_spec s "") as [->|Hs].
    + split; [intros _; now apply Hroot | reflexivity].
    + split; [discriminate|]. intros H. apply Hroot in H. congruence.
  - split; [discriminate|]. intros H. apply Hroot in H. discriminate.
Qed.

Lemma isIntegerGreaterEqual0_wildcard :
  isIntegerGreaterEqual0 (Some ARRAY_INDEX_WILDCARD) = false.
Proof. vm_compute. reflexivity. Qed.

(** X3. Containment is a preorder on paths: every path contains itself,
    and a pattern contained in a path that is contained in a third is
    contained in the third. *)
Theorem isPathContained_preorder :
  (forall p, isPathContained p p = true) /\
  (forall p q r,
      isPathContained p q = true -> isPathContained q r = true ->
      isPathContained p r = true).
Proof.
  split.
  - intros p. apply isPathContained_nth. intros i entry Hi.
    exists entry. split; [exact Hi | now left].
  - intros p q r Hpq Hqr. rewrite isPathContained_nth in *.
    intros i entry Hi.
    destruct (Hpq i entry Hi) as (x & Hx & Hpx).
    destruct (Hqr i x Hx) as (y & Hy & Hxy).
    exists y. split; [exact Hy|].
    destruct Hpx as [-> | [-> Hint]].
    + exact Hxy.
    + destruct Hxy as [<- | [-> Hint']]; [now right|].
      rewrite isIntegerGreaterEqual0_wildcard in Hint. discriminate.
Qed.

Lemma nth_prefix (A : Type) (p c : list A) :
  (forall i a, nth_error p i = Some a -> nth_error c i = Some a) ->
  exists rest, c = p ++ rest.
Proof.
  revert c. induction p as [|x p IH]; intros c H; [now exists c|].
  destruct c as [|y c]; [specialize (H 0%nat x eq_refl); discriminate|].
  pose proof (H 0%nat x eq_refl) as H0. simpl in H0. injection H0 as ->.
  destruct (IH c) as (rest & ->).
  - intros i a Hi. exact (H (S i) a Hi).
  - now exists rest.
Qed.

(** X4. For a pattern without a wildcard segment, containment is being a
    prefix: the pattern is contained in a path exactly when the path is the
    pattern followed by more segments. *)
Theorem isPathContained_literal (pattern concrete : list string)
  (Hliteral : Forall (fun s => s <> ARRAY_INDEX_WILDCARD) pattern) :
  isPathContained pattern concrete = true <->
  exists rest, concrete = pattern ++ rest.
Proof.
  split.
  - intros H. rewrite isPathContained_nth in H. apply nth_prefix.
    intros i a Hi. destruct (H i a Hi) as (seg & Hseg & [-> | [Hw _]]);
      [exact Hseg|].
    rewrite Forall_forall in Hliteral.
    now apply (Hliteral a (nth_error_In _ _ Hi)) in Hw.
  - intros (rest & ->). apply isPathContained_prefix.
Qed.

Lemma isPathContained_literal_witness :
  isPathContained ["object"; "array"] ["object"; "array"; "1"] = true <->
  exists rest, ["object"; "array"; "1"] = ["object"; "array"] ++ rest.
Proof.
  apply (isPathContained_literal ["object"; "array"] ["object"; "array"; "1"]).
  repeat constructor; discriminate.
Defined.

(** ** What the exclusion filter keeps *)

Lemma reaches_array (seg : string) (segs : list string) (lastKey : string)
  (elems : list (option value)) :
  String.eqb seg ARRAY_INDEX_WILDCARD = true ->
  reaches (seg :: segs) lastKey (VArr elems)
  = existsb (fun o : option value =>
               match o with
               | Some elem => reaches segs lastKey elem
               | None => false
               end) elems.
Proof. intros Hw. simpl. now rewrite Hw. Qed.

Lemma reaches_other (seg : string) (segs : list string) (lastKey : string) (v : value) :
  String.eqb seg ARRAY_INDEX_WILDCARD && isArray v = false ->
  reaches (seg :: segs) lastKey v
  = match getProp v seg with
    | Some child => reaches segs lastKey child
    | None => false
    end.
Proof.
  intros H. simpl. destruct (String.eqb seg ARRAY_INDEX_WILDCARD); [|reflexivity].
  destruct v; try reflexivity. discriminate.
Qed.

(** After the loop nothing is left for it to delete. *)
Lemma walk_clears (segs : list string) (lastKey : string) (v : value)
  (r : option value) :
  walk segs lastKey v = Ok r -> reaches segs lastKey (valueAfter r v) = false.
Proof.
  revert v r. induction segs as [|seg segs IH]; intros v r H.
  - simpl in H |- *. destruct (getProp v lastKey) as [x|] eqn:Hget.
    + destruct (deleteProp v lastKey) as [d|] eqn:Hd; [|discriminate].
      simpl in H. injection H as <-. simpl.
      now rewrite (getProp_deleteProp v d lastKey x Hget Hd).
    + destruct (inherits v lastKey); injection H as <-; simpl; now rewrite Hget.
  - destruct (walk_cases seg v) as [[Hw (elems & ->)] | Hother].
    + rewrite (walk_array _ _ _ _ Hw) in H.
      destruct (mapM (walkElem segs lastKey) elems) as [elems'|] eqn:Hmap;
        [|discriminate].
      simpl in H. injection H as <-. simpl valueAfter.
      rewrite (reaches_array _ _ _ _ Hw).
      apply mapM_Forall2 in Hmap.
      induction Hmap as [|o o' l l' Ho _ IHl]; [reflexivity|].
      simpl. rewrite IHl, orb_false_r.
      unfold walkElem in Ho. destruct o as [c|]; [|now injection Ho as <-].
      destruct (walk segs lastKey c) as [rc|] eqn:Hc; [|discriminate Ho].
      specialize (IH c rc Hc). simpl in Ho. destruct rc as [e'|].
      * destruct (Object_keys e'); [|discriminate Ho]. simpl in Ho.
        injection Ho as <-. exact IH.
      * injection Ho as <-. exact IH.
    + rewrite (walk_other _ _ _ _ Hother) in H.
      destruct (getProp v seg) as [child|] eqn:Hget.
      * destruct (walk segs lastKey child) as [rc|] eqn:Hchild; [|discriminate].
        specialize (IH child rc Hchild). simpl in H. destruct rc as [c'|].
        -- injection H as <-. simpl valueAfter in *.
           destruct (walk_changed _ _ _ _ Hchild) as [-> | [Hobj _]].
           ++ rewrite (updChild_same v seg child Hget).
              now rewrite (reaches_other _ _ _ _ Hother), Hget.
           ++ rewrite reaches_other by (now rewrite isArray_updChild).
              now rewrite (getProp_updChild v seg child c' Hget Hobj).
        -- injection H as <-. simpl valueAfter in *.
           now rewrite (reaches_other _ _ _ _ Hother), Hget.
      * destruct (inherits v seg).
        -- destruct (walkInherited_error seg segs lastKey) as (e & He).
           rewrite He in H. discriminate.
        -- injection H as <-. simpl valueAfter.
           now rewrite (reaches_other _ _ _ _ Hother), Hget.
Qed.

(** Pruning further does not bring anything back. *)
Lemma reaches_pruned (segs : list string) (lastKey : string) (v2 v1 : value) :
  pruned v2 v1 -> reaches segs lastKey v1 = false -> reaches segs lastKey v2 = false.
Proof.
  revert v2 v1. induction segs as [|seg segs IH]; intros v2 v1 Hp H.
  - simpl in H |- *. destruct (getProp v1 lastKey) eqn:Hget; [discriminate|].
    now rewrite (pruned_getProp_None v2 v1 lastKey Hp Hget).
  - destruct (walk_cases seg v1) as [[Hw (elems & ->)] | Hother].
    + destruct (pruned_array_inv _ _ Hp) as (es2 & -> & Hlen & Hes).
      rewrite (reaches_array _ _ _ elems Hw) in H.
      rewrite (reaches_array _ _ _ es2 Hw).
      destruct (existsb _ es2) eqn:Hex; [|reflexivity].
      apply existsb_exists in Hex as (o & Hin & Ho).
      destruct o as [c2|]; [|discriminate].
      destruct (In_nth_error _ _ Hin) as (i & Hi).
      destruct (Hes i c2 Hi) as (c1 & Hc1 & Hc).
      assert (Hr1 : reaches segs lastKey c1 = false).
      { destruct (reaches segs lastKey c1) eqn:Hr; [|reflexivity].
        assert (Hex1 : existsb (fun o : option value =>
                          match o with
                          | Some elem => reaches segs lastKey elem
                          | None => false
                          end) elems = true).
        { apply existsb_exists. exists (Some c1).
          split; [now apply nth_error_In with i | exact Hr]. }
        congruence. }
      rewrite (IH c2 c1 Hc Hr1) in Ho. discriminate.
    + rewrite (reaches_other _ _ _ _ Hother) in H.
      assert (Hother2 : String.eqb seg ARRAY_INDEX_WILDCARD && isArray v2 = false).
      { apply andb_false_iff in Hother as [Hseg | Harr]; [now rewrite Hseg|].
        apply andb_false_iff. right. now apply (pruned_not_array _ _ Hp). }
      rewrite (reaches_other _ _ _ _ Hother2).
      destruct (getProp v2 seg) as [c2|] eqn:Hget2; [|reflexivity].
      destruct (pruned_getProp _ _ _ _ Hp Hget2) as (c1 & Hc1 & Hc).
      rewrite Hc1 in H. now apply IH with c1.
Qed.

Lemma deepRemovePath_path (patch : PatchOperation) (exclude : list string)
  (b : bool) (p1 : PatchOperation) :
  deepRemovePath patch exclude = Ok (b, p1) -> path p1 = path patch.
Proof.
  unfold deepRemovePath. intros H.
  destruct (isPathContained _ exclude); [|now injection H as _ <-].
  destruct (value_ patch) as [v|]; [|now injection H as _ <-].
  destruct (walk _ (lastKeyOf exclude) v) as [[v'|]|]; simpl in H;
    [| now injection H as _ <- | discriminate].
  destruct (Object_keys v'); [|discriminate]. simpl in H. now injection H as _ <-.
Qed.

Lemma deepRemovePath_clears (patch : PatchOperation) (exclude : list string)
  (b : bool) (p1 : PatchOperation) (v1 : value) :
  deepRemovePath patch exclude = Ok (b, p1) ->
  value_ p1 = Some v1 -> overlaps patch exclude = true ->
  reaches (loopSegments (operationPathOf patch) exclude) (lastKeyOf exclude) v1 = false.
Proof.
  unfold deepRemovePath, overlaps, operationPathOf. intros H Hv1 Hover.
  rewrite Hover in H.
  destruct (value_ patch) as [v|] eqn:Hv; [|injection H as _ <-; congruence].
  destruct (walk _ (lastKeyOf exclude) v) as [r|] eqn:Hwalk; [|discriminate].
  apply walk_clears in Hwalk. simpl in H. destruct r as [v'|].
  - destruct (Object_keys v'); [|discriminate]. simpl in H.
    injection H as _ <-. simpl in Hv1. now injection Hv1 as <-.
  - injection H as _ <-. rewrite Hv in Hv1. now injection Hv1 as <-.
Qed.

Lemma everyDeepRemove_clears (excludes : list (list string))
  (patch p' : PatchOperation) (v' : value) (exclude : list string) :
  everyDeepRemove patch excludes = Ok (true, p') ->
  value_ p' = Some v' -> In exclude excludes -> overlaps patch exclude = true ->
  reaches (loopSegments (operationPathOf patch) exclude) (lastKeyOf exclude) v' = false.
Proof.
  revert patch. induction excludes as [|e excludes IH]; intros patch H Hv' Hin Hover;
    [contradiction|].
  simpl in H. destruct (deepRemovePath patch e) as [[b p1]|] eqn:Hd; [|discriminate].
  simpl in H. destruct b; [|discriminate].
  pose proof (deepRemovePath_path _ _ _ _ Hd) as Hpath.
  destruct Hin as [-> | Hin].
  - destruct (everyDeepRemove_value _ _ _ _ H Hv') as (v1 & Hv1 & Hp).
    apply reaches_pruned with v1; [exact Hp|].
    now apply deepRemovePath_clears with true p1.
  - unfold overlaps, operationPathOf in *. rewrite <- Hpath.
    apply IH; [exact H | exact Hv' | exact Hin | now rewrite Hpath].
Qed.

Lemma filterM_In (excludes : list (list string)) (ops ops' : list PatchOperation)
  (p' : PatchOperation) :
  filterM excludes ops = Ok ops' -> In p' ops' ->
  exists patch, In patch ops /\ keepOp excludes patch = Ok (true, p').
Proof.
  revert ops'. induction ops as [|patch ops IH]; intros ops' H Hin; simpl in H.
  - injection H as <-. contradiction.
  - destruct (keepOp excludes patch) as [[b p1]|] eqn:Hkeep; [|discriminate].
    simpl in H. destruct (filterM excludes ops) as [rest|]; [|discriminate].
    simpl in H. injection H as <-.
    destruct b; simpl in Hin.
    + destruct Hin as [<- | Hin]; [exists patch; split; [now left | exact Hkeep]|].
      destruct (IH rest eq_refl Hin) as (q & Hq & Hk). exists q. split; [now right | exact Hk].
    + destruct (IH rest eq_refl Hin) as (q & Hq & Hk). exists q. split; [now right | exact Hk].
Qed.

Lemma reaches_literal (segs : list string) (lastKey : string) (v : value) :
  Forall (fun s => s <> ARRAY_INDEX_WILDCARD) segs ->
  reaches segs lastKey v = false -> baseGet (segs ++ [lastKey]) v = None.
Proof.
  intros Hall. revert v. induction Hall as [|seg segs Hseg _ IH]; intros v H.
  - simpl in H |- *. now destruct (getProp v lastKey).
  - rewrite reaches_other in H
      by (apply andb_false_iff; left; now apply String.eqb_neq).
    simpl. destruct (getProp v seg); [now apply IH | reflexivity].
Qed.

(** X5. In every operation the filter answers, and for every exclude
    pattern that reaches into the value of the operation, nothing is left
    where the pattern points: the loop of [deepRemovePath] would find no
    property to delete, in the value or in any element behind a wildcard; for
    a pattern without wildcard past the operation path, looking the rest of
    the pattern up in the value gives [undefined]. *)
Theorem excluded_values_are_gone
  (excludes : list (list string)) (ops ops' : list PatchOperation)
  (p' : PatchOperation) (v' : value) (exclude : list string)
  (Hfiltered : filterOps excludes ops = Ok ops')
  (Hkept : In p' ops') (Hvalue : value_ p' = Some v')
  (Hexclude : In exclude excludes) (Hoverlap : overlaps p' exclude = true) :
  reaches (loopSegments (operationPathOf p') exclude) (lastKeyOf exclude) v' = false /\
  (Forall (fun s => s <> ARRAY_INDEX_WILDCARD)
     (loopSegments (operationPathOf p') exclude) ->
   baseGet (loopSegments (operationPathOf p') exclude ++ [lastKeyOf exclude]) v' = None).
Proof.
  assert (Hreach : reaches (loopSegments (operationPathOf p') exclude)
                     (lastKeyOf exclude) v' = false).
  { unfold filterOps in Hfiltered.
    destruct (Nat.ltb 0 (List.length excludes)) eqn:Hlen;
      [|destruct excludes; [contradiction | discriminate]].
    destruct (filterM_In _ _ _ _ Hfiltered Hkept) as (patch & _ & Hkeep).
    unfold keepOp in Hkeep. destruct (existsb _ excludes); [discriminate|].
    pose proof (everyDeepRemove_path _ _ _ Hkeep) as Hpath.
    unfold overlaps, operationPathOf in *. rewrite Hpath in *.
    now apply (everyDeepRemove_clears excludes patch p' v' exclude Hkeep). }
  split; [exact Hreach | intros Hlit; now apply reaches_literal].
Qed.

Lemma everyDeepRemove_keptAs (excludes : list (list string))
  (patch p' : PatchOperation) :
  everyDeepRemove patch excludes = Ok (true, p') -> keptAs p' patch.
Proof. apply everyDeepRemove_true. Qed.

(** X6. The filter drops and prunes, and does nothing else: the list it
    answers is the list it was given with some operations dropped and the
    others in their order, each one either untouched or with its value pruned
    and still holding a key; and no operation it answers has a path that
    contains an exclude pattern. *)
Theorem filter_keeps_in_order
  (excludes : list (list string)) (ops ops' : list PatchOperation)
  (Hfiltered : filterOps excludes ops = Ok ops') :
  keptFrom ops' ops /\
  (excludes <> [] ->
   forall p' exclude,
     In p' ops' -> In exclude excludes ->
     isPathContained exclude (getArrayFromPath (path p')) = false).
Proof.
  unfold filterOps in Hfiltered.
  destruct (Nat.ltb 0 (List.length excludes)) eqn:Hlen.
  - split.
    + revert ops' Hfiltered. induction ops as [|patch ops IH]; intros ops' H;
        simpl in H.
      * injection H as <-. constructor.
      * destruct (keepOp excludes patch) as [[b p1]|] eqn:Hkeep; [|discriminate].
        simpl in H. destruct (filterM excludes ops) as [rest|]; [|discriminate].
        simpl in H. injection H as <-. specialize (IH rest eq_refl).
        destruct b; simpl; [|now constructor].
        apply kept_keep; [|exact IH].
        unfold keepOp in Hkeep. destruct (existsb _ excludes); [discriminate|].
        now apply everyDeepRemove_keptAs with excludes.
    + intros _ p' exclude Hin Hex.
      destruct (filterM_In _ _ _ _ Hfiltered Hin) as (patch & _ & Hkeep).
      unfold keepOp in Hkeep.
      destruct (existsb _ excludes) eqn:Hwhole; [discriminate|].
      rewrite (everyDeepRemove_path _ _ _ Hkeep).
      destruct (isPathContained exclude _) eqn:Hc; [|reflexivity].
      assert (Htrue : existsb
                (fun e => isPathContained e (getArrayFromPath (path patch)))
                excludes = true)
        by (apply existsb_exists; now exists exclude).
      congruence.
  - injection Hfiltered as <-. split.
    + induction ops as [|p ops IH]; constructor; [now left | exact IH].
    + intros Hne. destruct excludes; [contradiction | discriminate].
Qed.

Lemma everyDeepRemove_no_value (excludes : list (list string)) (patch : PatchOperation) :
  value_ patch = None -> everyDeepRemove patch excludes = Ok (true, patch).
Proof.
  intros Hv. induction excludes as [|e excludes IH]; [reflexivity|].
  simpl. unfold deepRemovePath at 1. rewrite Hv.
  destruct (isPathContained _ e); simpl; exact IH.
Qed.

(** X7. An operation without a value, as every [remove] is, is never
    pruned: the filter keeps it as it is unless its path contains an exclude
    pattern, and [deepRemovePath] answers [true] on it for every pattern. *)
Theorem valueless_operation_kept
  (excludes : list (list string)) (patch : PatchOperation)
  (Hvalue : value_ patch = None) :
  (forall exclude, deepRemovePath patch exclude = Ok (true, patch)) /\
  keepOp excludes patch
  = Ok (negb (existsb (fun exclude =>
                         isPathContained exclude (getArrayFromPath (path patch)))
                excludes), patch).
Proof.
  split.
  - intros exclude. unfold deepRemovePath. rewrite Hvalue.
    now destruct (isPathContained _ exclude).
  - unfold keepOp. destruct (existsb _ excludes); [reflexivity|].
    now apply everyDeepRemove_no_value.
Qed.

Lemma everyDeepRemove_no_overlap (excludes : list (list string)) (patch : PatchOperation) :
  Forall (fun exclude => overlaps patch exclude = false) excludes ->
  everyDeepRemove patch excludes = Ok (true, patch).
Proof.
  induction 1 as [|e excludes He _ IH]; [reflexivity|].
  simpl. unfold deepRemovePath at 1. unfold overlaps, operationPathOf in He.
  rewrite He. simpl. exact IH.
Qed.

(** X8. Exclude patterns that do not meet an operation change nothing:
    when no pattern is contained in the path of any operation and the path of
    no operation is contained in any pattern, the filter answers the list it
    was given. *)
Theorem filter_without_overlap
  (excludes : list (list string)) (ops : list PatchOperation)
  (Hapart :
     Forall (fun patch =>
               Forall (fun exclude =>
                         isPathContained exclude (getArrayFromPath (path patch)) = false
                         /\ overlaps patch exclude = false) excludes) ops) :
  filterOps excludes ops = Ok ops.
Proof.
  unfold filterOps. destruct (Nat.ltb 0 (List.length excludes)); [|reflexivity].
  induction Hapart as [|patch ops Hpatch _ IH]; [reflexivity|].
  simpl. unfold keepOp.
  assert (Hwhole : existsb
            (fun e => isPathContained e (getArrayFromPath (path patch)))
            excludes = false).
  { destruct (existsb _ excludes) eqn:Hex; [|reflexivity].
    apply existsb_exists in Hex as (e & Hin & He).
    rewrite Forall_forall in Hpatch. destruct (Hpatch e Hin) as [Hc _]. congruence. }
  rewrite Hwhole, everyDeepRemove_no_overlap; [simpl; now rewrite IH|].
  eapply Forall_impl; [|exact Hpatch]. now intros e [_ He].
Qed.

Lemma mapM_total (A B : Type) (f : A -> result B) (l : list A) :
  Forall (fun a => exists b, f a = Ok b) l -> exists l', mapM f l = Ok l'.
Proof.
  induction 1 as [|a l (b & Hb) _ (l' & Hl')]; [now exists []|].
  exists (b :: l'). simpl. now rewrite Hb, Hl'.
Qed.

Lemma walk_total (segs : list string) (lastKey : string) (v : value) :
  ownNames segs = true -> builtinKey lastKey = false ->
  array_index lastKey = None -> String.eqb lastKey "length" = false ->
  exists r, walk segs lastKey v = Ok r.
Proof.
  intros Hown Hlast Hidx Hlen. revert v.
  induction segs as [|seg segs IH]; intros v.
  - simpl. rewrite (inherits_builtinKey v lastKey Hlast).
    destruct v as [| | |s|es|ps]; simpl; try (now eexists).
    + rewrite Hidx, Hlen. now eexists.
    + rewrite Hidx, Hlen. now eexists.
    + destruct (assoc lastKey ps); simpl; now eexists.
  - apply ownNames_cons in Hown as [Hseg Hown]. specialize (IH Hown).
    destruct (walk_cases seg v) as [[Hw (elems & ->)] | Hother].
    + rewrite (walk_array _ _ _ _ Hw).
      destruct (mapM_total _ _ (walkElem segs lastKey) elems) as (elems' & ->);
        [|simpl; now eexists].
      apply Forall_forall. intros o _. unfold walkElem.
      destruct o as [c|]; [|now eexists].
      destruct (IH c) as (rc & Hrc). rewrite Hrc. simpl.
      destruct rc as [e'|]; [|now eexists].
      destruct (walk_mutates_objects _ _ _ _ Hown Hlast Hrc) as [_ Hobj].
      destruct (Object_keys_isObject e' Hobj) as (keys & ->). simpl. now eexists.
    + rewrite (walk_other _ _ _ _ Hother), (inherits_builtinKey v seg Hseg).
      destruct (getProp v seg) as [child|]; [|now eexists].
      destruct (IH child) as (rc & ->). simpl. destruct rc; now eexists.
Qed.

Lemma deepRemovePath_total (patch : PatchOperation) (exclude : list string) :
  ownNames exclude = true ->
  deletableKey exclude = true -> exists r, deepRemovePath patch exclude = Ok r.
Proof.
  unfold deletableKey, deepRemovePath. intros Hown Hkey.
  destruct (array_index (lastKeyOf exclude)) eqn:Hidx; [discriminate|].
  apply negb_true_iff in Hkey.
  destruct (isPathContained _ exclude); [|now eexists].
  destruct (value_ patch) as [v|]; [|now eexists].
  pose proof (ownNames_loopSegments
                (sanitizeEmptyPath (getArrayFromPath (path patch))) exclude Hown)
    as Hsegs.
  pose proof (ownNames_lastKeyOf exclude Hown) as Hlast.
  destruct (walk_total _ (lastKeyOf exclude) v Hsegs Hlast Hidx Hkey) as (r & Hr).
  rewrite Hr. simpl. destruct r as [v'|]; [|now eexists].
  destruct (walk_mutates_objects _ _ _ _ Hsegs Hlast Hr) as [_ Hobj].
  destruct (Object_keys_isObject v' Hobj) as (keys & ->). simpl. now eexists.
Qed.

(** X9. The filter does not throw when no exclude pattern names a member
    of a built-in prototype and none ends in [length] or in an array index:
    what the patterns find are own properties, and [delete] then only ever
    meets properties of objects. *)
Theorem filter_does_not_throw
  (excludes : list (list string)) (ops : list PatchOperation)
  (Hown : forallb ownNames excludes = true)
  (Hkeys : forallb deletableKey excludes = true) :
  exists ops', filterOps excludes ops = Ok ops'.
Proof.
  unfold filterOps. destruct (Nat.ltb 0 (List.length excludes)); [|now eexists].
  assert (Hevery : forall es patch,
             forallb ownNames es = true ->
             forallb deletableKey es = true ->
             exists r, everyDeepRemove patch es = Ok r).
  { induction es as [|e es IH]; intros patch Ho H; [now eexists|].
    simpl in H. apply andb_true_iff in H as [He Hes].
    cbn [forallb] in Ho. apply andb_true_iff in Ho as [Hoe Hoes]. simpl.
    destruct (deepRemovePath_total patch e Hoe He) as ([b p1] & ->). simpl.
    destruct b; [now apply IH | now eexists]. }
  induction ops as [|patch ops (rest & IH)]; [now eexists|].
  simpl. unfold keepOp. rewrite IH.
  destruct (existsb _ excludes); [simpl; now eexists|].
  destruct (Hevery excludes patch Hown Hkeys) as (r & ->). simpl. now eexists.
Qed.

Lemma mapM_error (A B : Type) (f : A -> result B) (l : list A) (e : error) :
  mapM f l = Err e -> exists a, In a l /\ f a = Err e.
Proof.
  induction l as [|a l IH]; simpl; [discriminate|].
  destruct (f a) as [b|e'] eqn:Ha; simpl.
  - destruct (mapM f l) as [bs|e'']; simpl; [discriminate|].
    intros H. injection H as ->. destruct (IH eq_refl) as (x & Hx & Hfx).
    exists x. split; [now right | exact Hfx].
  - intros H. injection H as ->. exists a. split; [now left | exact Ha].
Qed.

Lemma walk_error (segs : list string) (lastKey : string) (v : value) (e : error) :
  ownNames segs = true -> builtinKey lastKey = false ->
  walk segs lastKey v = Err e ->
  (exists m, e = TypeError m) /\
  (array_index lastKey <> None \/ lastKey = "length").
Proof.
  intros Hown Hlast H. split.
  - revert v Hown H. induction segs as [|seg segs IH]; intros v Hown H.
    + simpl in H. rewrite (inherits_builtinKey v lastKey Hlast) in H.
      destruct (getProp v lastKey); [|discriminate].
      destruct v as [| | |s|es|ps]; simpl in H; try discriminate.
      * injection H as <-. now eexists.
      * destruct (array_index lastKey); [discriminate|]. injection H as <-. now eexists.
    + apply ownNames_cons in Hown as [Hseg Hown].
      destruct (walk_cases seg v) as [[Hw (elems & ->)] | Hother].
      * rewrite (walk_array _ _ _ _ Hw) in H.
        destruct (mapM (walkElem segs lastKey) elems) as [elems'|e'] eqn:Hmap;
          [discriminate|].
        simpl in H. injection H as ->.
        apply mapM_error in Hmap as (o & _ & Ho). unfold walkElem in Ho.
        destruct o as [c|]; [|discriminate].
        destruct (walk segs lastKey c) as [rc|e'] eqn:Hc.
        -- simpl in Ho. destruct rc as [e'|]; [|discriminate].
           destruct (walk_mutates_objects _ _ _ _ Hown Hlast Hc) as [_ Hobj].
           destruct (Object_keys_isObject e' Hobj) as (keys & Hk).
           rewrite Hk in Ho. discriminate.
        -- simpl in Ho. injection Ho as ->. now apply IH with c.
      * rewrite (walk_other _ _ _ _ Hother), (inherits_builtinKey v seg Hseg) in H.
        destruct (getProp v seg) as [child|]; [|discriminate].
        destruct (walk segs lastKey child) as [rc|e'] eqn:Hc.
        -- simpl in H. destruct rc; discriminate.
        -- simpl in H. injection H as ->. now apply IH with child.
  - destruct (array_index lastKey) eqn:Hidx; [left; discriminate|].
    destruct (String.eqb_spec lastKey "length") as [->|Hne]; [now right|].
    apply String.eqb_neq in Hne.
    destruct (walk_total segs lastKey v Hown Hlast Hidx Hne) as (r & Hr). congruence.
Qed.

(** X10. With exclude patterns that name no member of a built-in
    prototype, when the filter throws, it throws a [TypeError], and some
    exclude pattern ends in [length] or in an array index: the error is the
    one [delete] raises on the length of an array or on a character of a
    string. *)
Theorem filter_throws_type_error
  (excludes : list (list string)) (ops : list PatchOperation) (e : error)
  (Hown : forallb ownNames excludes = true)
  (Hthrown : filterOps excludes ops = Err e) :
  (exists m, e = TypeError m) /\
  exists exclude,
    In exclude excludes /\
    (array_index (lastKeyOf exclude) <> None \/ lastKeyOf exclude = "length").
Proof.
  unfold filterOps in Hthrown.
  destruct (Nat.ltb 0 (List.length excludes)); [|discriminate].
  assert (Hdeep : forall patch exclude e',
             ownNames exclude = true ->
             deepRemovePath patch exclude = Err e' ->
             (exists m, e' = TypeError m) /\
             (array_index (lastKeyOf exclude) <> None \/ lastKeyOf exclude = "length")).
  { intros patch exclude e' Ho H. unfold deepRemovePath in H.
    destruct (isPathContained _ exclude); [|discriminate].
    destruct (value_ patch) as [v|]; [|discriminate].
    pose proof (ownNames_loopSegments
                  (sanitizeEmptyPath (getArrayFromPath (path patch))) exclude Ho)
      as Hsegs.
    pose proof (ownNames_lastKeyOf exclude Ho) as Hlast.
    destruct (walk _ (lastKeyOf exclude) v) as [r|e''] eqn:Hw.
    - simpl in H. destruct r as [v'|]; [|discriminate].
      destruct (walk_mutates_objects _ _ _ _ Hsegs Hlast Hw) as [_ Hobj].
      destruct (Object_keys_isObject v' Hobj) as (keys & Hk).
      rewrite Hk in H. discriminate.
    - simpl in H. injection H as ->. now apply walk_error in Hw. }
  assert (Hevery : forall es patch e',
             forallb ownNames es = true ->
             everyDeepRemove patch es = Err e' ->
             (exists m, e' = TypeError m) /\
             exists exclude, In exclude es /\
               (array_index (lastKeyOf exclude) <> None
                \/ lastKeyOf exclude = "length")).
  { induction es as [|x es IH]; intros patch e' Ho H; [discriminate|].
    cbn [forallb] in Ho. apply andb_true_iff in Ho as [Hox Hoes].
    simpl in H. destruct (deepRemovePath patch x) as [[b p1]|e''] eqn:Hd.
    - simpl in H. destruct b; [|discriminate].
      destruct (IH p1 e' Hoes H) as (Hm & ex & Hin & Hex).
      split; [exact Hm|]. exists ex. split; [now right | exact Hex].
    - simpl in H. injection H as ->. destruct (Hdeep _ _ _ Hox Hd) as (Hm & Hex).
      split; [exact Hm|]. exists x. split; [now left | exact Hex]. }
  induction ops as [|patch ops IH]; [discriminate|].
  simpl in Hthrown. destruct (keepOp excludes patch) as [r|e'] eqn:Hkeep.
  - simpl in Hthrown. destruct (filterM excludes ops) as [rest|e'']; [discriminate|].
    simpl in Hthrown. injection Hthrown as ->. now apply IH.
  - simpl in Hthrown. injection Hthrown as ->. unfold keepOp in Hkeep.
    destruct (existsb _ excludes); [discriminate|]. now apply Hevery with patch.
Qed.

(** X11. A wildcard of a pattern does not match an index in the path of
    an operation: an operation whose path is shorter than the pattern and has
    a segment other than the wildcard where the pattern has its wildcard is
    kept as it is, with whatever its value holds under the rest of the
    pattern. *)
Theorem wildcard_misses_indexed_operation
  (patch : PatchOperation) (exclude : list string) (i : nat) (s : string)
  (Hseg : nth_error (operationPathOf patch) i = Some s)
  (Hnot : s <> ARRAY_INDEX_WILDCARD)
  (Hwild : nth_error exclude i = Some ARRAY_INDEX_WILDCARD)
  (Hshort : (List.length (getArrayFromPath (path patch)) < List.length exclude)%nat) :
  keepOp [exclude] patch = Ok (true, patch).
Proof.
  unfold keepOp. simpl.
  assert (Hwhole : isPathContained exclude (getArrayFromPath (path patch)) = false).
  { destruct (isPathContained exclude _) eqn:Hc; [|reflexivity].
    apply isPathContained_length in Hc. lia. }
  rewrite Hwhole. simpl. unfold deepRemovePath.
  assert (Hover : isPathContained (sanitizeEmptyPath (getArrayFromPath (path patch)))
                    exclude = false).
  { destruct (isPathContained _ exclude) eqn:Hc; [|reflexivity].
    rewrite isPathContained_nth in Hc.
    destruct (Hc i s Hseg) as (seg & Hs & [-> | [-> _]]); [|contradiction].
    rewrite Hwild in Hs. injection Hs as Hs. now symmetry in Hs. }
  now rewrite Hover.
Qed.

Lemma excluded_values_are_gone_witness :
  let exclude := getArrayFromPath "/object/array/*/property/hidden" in
  let v' :=
    VObj [("array",
           threeElements
             (VObj [("hidden", VStr "h"); ("property", VObj [])])
             (VObj [("property", VObj [])])
             (VObj [("hidden", VStr "h"); ("property", VObj [])]))] in
  filterOps testExcludes testOps = Ok testOpsFiltered /\
  In (addOp "/object" v') testOpsFiltered /\
  reaches ["array"; "*"; "property"] "hidden" v' = false.
Proof.
  intros exclude v'.
  assert (Hfiltered : filterOps testExcludes testOps = Ok testOpsFiltered)
    by reflexivity.
  assert (Hkept : In (addOp "/object" v') testOpsFiltered) by (simpl; tauto).
  assert (Hexclude : In exclude testExcludes) by (simpl; tauto).
  split; [exact Hfiltered|]. split; [exact Hkept|].
  exact (proj1 (excluded_values_are_gone testExcludes testOps testOpsFiltered
                  (addOp "/object" v') v' exclude Hfiltered Hkept eq_refl
                  Hexclude eq_refl)).
Defined.

Lemma filter_keeps_in_order_witness :
  filterOps testExcludes testOps = Ok testOpsFiltered /\
  keptFrom testOpsFiltered testOps.
Proof.
  assert (Hfiltered : filterOps testExcludes testOps = Ok testOpsFiltered)
    by reflexivity.
  split; [exact Hfiltered|].
  exact (proj1 (filter_keeps_in_order testExcludes testOps testOpsFiltered Hfiltered)).
Defined.

Lemma valueless_operation_kept_witness :
  keepOp testExcludes (removeOp "/object") = Ok (true, removeOp "/object") /\
  keepOp testExcludes (removeOp "/object/hiddenProperty")
  = Ok (false, removeOp "/object/hiddenProperty").
Proof.
  split.
  - exact (proj2 (valueless_operation_kept testExcludes (removeOp "/object") eq_refl)).
  - exact (proj2 (valueless_operation_kept testExcludes
                    (removeOp "/object/hiddenProperty") eq_refl)).
Defined.

Lemma filter_without_overlap_witness :
  filterOps testExcludes [addOp "/name" (VStr "exclude1"); removeOp "/visible"]
  = Ok [addOp "/name" (VStr "exclude1"); removeOp "/visible"].
Proof.
  apply (filter_without_overlap testExcludes
           [addOp "/name" (VStr "exclude1"); removeOp "/visible"]).
  repeat constructor.
Defined.

Lemma filter_does_not_throw_witness :
  exists ops', filterOps testExcludes testOps = Ok ops'.
Proof.
  apply (filter_does_not_throw testExcludes testOps); reflexivity.
Defined.

Lemma filter_throws_type_error_witness :
  filterOps [getArrayFromPath "/tags/length"] [tagsOp]
  = Err (TypeError "Cannot delete property") /\
  exists exclude,
    In exclude [getArrayFromPath "/tags/length"] /\
    (array_index (lastKeyOf exclude) <> None \/ lastKeyOf exclude = "length").
Proof.
  assert (Hthrown : filterOps [getArrayFromPath "/tags/length"] [tagsOp]
                    = Err (TypeError "Cannot delete property")) by reflexivity.
  split; [exact Hthrown|].
  exact (proj2 (filter_throws_type_error [getArrayFromPath "/tags/length"] [tagsOp]
                  (TypeError "Cannot delete property") eq_refl Hthrown)).
Defined.

Lemma wildcard_misses_indexed_operation_witness :
  getProp (arrayElement [("hidden", VStr "h")] []) "property"
  = Some (VObj [("hidden", VStr "h")]) /\
  keepOp [getArrayFromPath "/object/array/*/property/hidden"] elementOp
  = Ok (true, elementOp).
Proof.
  split; [reflexivity|].
  apply (wildcard_misses_indexed_operation elementOp
           (getArrayFromPath "/object/array/*/property/hidden") 2 "1").
  - reflexivity.
  - discriminate.
  - reflexivity.
  - simpl. lia.
Defined.

(** ** Values compared with themselves *)

Lemma is_digit_digit_char (d : nat) :
  (d < 10)%nat -> is_digit (digit_char d) = true /\ (nat_of_ascii (digit_char d) - 48 = d)%nat.
Proof.
  intros H. do 10 (destruct d as [|d]; [split; reflexivity|]). lia.
Qed.

Lemma read_nat_app (ds acc : string) (k : nat) :
  read_nat (ds ++ acc)%string k
  = match read_nat ds k with
    | Some k' => read_nat acc k'
    | None => None
    end.
Proof.
  revert k. induction ds as [|c ds IH]; intros k; simpl; [reflexivity|].
  destruct (is_digit c); [apply IH | reflexivity].
Qed.

Lemma string_app_assoc (a b c : string) : ((a ++ b) ++ c = a ++ (b ++ c))%string.
Proof. induction a as [|x a IH]; simpl; [reflexivity | now rewrite IH]. Qed.

Lemma string_app_empty (a : string) : (a ++ "")%string = a.
Proof. induction a as [|x a IH]; simpl; [reflexivity | now rewrite IH]. Qed.

Lemma nat_digits_read (fuel n : nat) (acc : string) :
  (n < fuel)%nat ->
  exists ds,
    nat_digits fuel n acc = (ds ++ acc)%string /\
    (forall k, exists m, read_nat ds k = Some m /\ (k = 0 -> m = n)%nat) /\
    (ds = "0"%string \/ exists c rest, ds = String c rest /\ c <> "0"%char).
Proof.
  revert n acc. induction fuel as [|fuel IH]; intros n acc Hn; [lia|].
  cbn [nat_digits]. destruct (Nat.ltb n 10) eqn:Hlt.
  - apply Nat.ltb_lt in Hlt. rewrite (Nat.mod_small _ _ Hlt).
    destruct (is_digit_digit_char n Hlt) as [Hd Hv].
    exists (String (digit_char n) ""). repeat split.
    + intros k. cbn [read_nat]. rewrite Hd, Hv. eexists. split; [reflexivity|].
      intros ->. lia.
    + destruct n as [|n]; [now left | right].
      exists (digit_char (S n)), ""%string. split; [reflexivity|].
      do 9 (destruct n as [|n]; [discriminate|]). lia.
  - apply Nat.ltb_ge in Hlt.
    assert (Hdiv : (n / 10 < fuel)%nat).
    { assert (n / 10 < n)%nat by (apply Nat.div_lt; lia). lia. }
    destruct (IH (n / 10)%nat (String (digit_char (n mod 10)) acc) Hdiv)
      as (ds & Heq & Hread & Hlead).
    assert (Hmod : (n mod 10 < 10)%nat) by (apply Nat.mod_upper_bound; lia).
    destruct (is_digit_digit_char _ Hmod) as [Hd Hv].
    exists (ds ++ String (digit_char (n mod 10)) "")%string. repeat split.
    + rewrite Heq, string_app_assoc. reflexivity.
    + intros k. rewrite read_nat_app. destruct (Hread k) as (m & -> & Hm).
      cbn [read_nat]. rewrite Hd, Hv. eexists. split; [reflexivity|].
      intros Hk. rewrite (Hm Hk). symmetry.
      rewrite (Nat.div_mod_eq n 10) at 1. lia.
    + right. destruct Hlead as [-> | (c & rest & -> & Hc)].
      * exfalso. destruct (Hread 0%nat) as (m & Hm & Hmn).
        specialize (Hmn eq_refl). cbn in Hm. injection Hm as <-.
        assert (n / 10 <> 0)%nat; [|lia].
        intros Hz. apply Nat.div_small_iff in Hz; lia.
      * exists c, (rest ++ String (digit_char (n mod 10)) "")%string. now split.
Qed.

Lemma array_index_string_of_nat (n : nat) : array_index (string_of_nat n) = Some n.
Proof.
  unfold string_of_nat.
  destruct (nat_digits_read (S n) n "" (Nat.lt_succ_diag_r n))
    as (ds & Heq & Hread & Hlead).
  rewrite Heq, string_app_empty. destruct (Hread 0%nat) as (m & Hm & Hmn). rewrite (Hmn eq_refl) in Hm.
  destruct Hlead as [-> | (c & rest & -> & Hc)]; [exact Hm|].
  unfold array_index. destruct rest as [|c' rest]; [exact Hm|].
  apply Ascii.eqb_neq in Hc. rewrite Hc. exact Hm.
Qed.

Lemma string_of_nat_inj (i j : nat) : string_of_nat i = string_of_nat j -> i = j.
Proof.
  intros H. pose proof (array_index_string_of_nat i) as Hi.
  rewrite H, array_index_string_of_nat in Hi. now injection Hi.
Qed.

Lemma value_eqb_refl (v : value) : value_eqb v v = true.
Proof.
  induction v as [|b|n|s|es IH|ps IH] using value_ind; simpl.
  - reflexivity.
  - apply Bool.eqb_reflx.
  - apply Z.eqb_refl.
  - apply String.eqb_refl.
  - induction IH as [|o es Ho _ IHes]; [reflexivity|].
    destruct o as [x|]; [|exact IHes]. simpl in Ho. now rewrite Ho, IHes.
  - induction IH as [|[k x] ps Hx _ IHps]; [reflexivity|].
    simpl in Hx. now rewrite String.eqb_refl, Hx, IHps.
Qed.

Lemma distinct_NoDup (keys : list string) : distinct keys = true -> NoDup keys.
Proof.
  induction keys as [|k keys IH]; simpl; intros H; constructor.
  - apply andb_true_iff in H as [Hk _]. apply negb_true_iff in Hk.
    intros Hin. apply existsb_eqb_In in Hin. congruence.
  - apply andb_true_iff in H as [_ H]. now apply IH.
Qed.

Lemma assoc_NoDup_In (k : string) (v : value) (props : list (string * value)) :
  NoDup (map fst props) -> In (k, v) props -> assoc k props = Some v.
Proof.
  induction props as [|[k' v'] props IH]; simpl; intros Hnd Hin; [contradiction|].
  inversion Hnd as [|? ? Hnot Hnd']; subst.
  destruct Hin as [Heq | Hin].
  - injection Heq as -> ->. now rewrite String.eqb_refl.
  - destruct (String.eqb_spec k k') as [->|_]; [|now apply IH].
    exfalso. apply Hnot. change k' with (fst (k', v)). now apply in_map.
Qed.

Lemma assoc_indexed_from (elems : list (option value)) (i j : nat) :
  assoc (string_of_nat j) (indexed_from i elems)
  = if Nat.leb i j then elem_at elems (j - i) else None.
Proof.
  revert i. induction elems as [|o elems IH]; intros i.
  - simpl. unfold elem_at. destruct (Nat.leb i j); [|reflexivity].
    now destruct (j - i)%nat.
  - pose proof (IH (S i)) as Hrest.
    assert (Hnext : (i < j)%nat ->
                    forall x, elem_at (x :: elems) (j - i) = elem_at elems (j - S i)).
    { intros Hlt x. unfold elem_at.
      replace (j - i)%nat with (S (j - S i)) by lia. reflexivity. }
    destruct o as [x|]; simpl.
    + destruct (String.eqb_spec (string_of_nat j) (string_of_nat i)) as [Heq|Hne].
      * apply string_of_nat_inj in Heq. subst j.
        rewrite Nat.leb_refl, Nat.sub_diag. reflexivity.
      * assert (Hij : i <> j) by (intros ->; now apply Hne).
        rewrite Hrest. destruct (Nat.leb_spec i j) as [Hle|Hgt].
        -- destruct (Nat.leb_spec (S i) j); [|lia]. symmetry. apply Hnext. lia.
        -- destruct (Nat.leb_spec (S i) j); [lia | reflexivity].
    + rewrite Hrest. destruct (Nat.leb_spec i j) as [Hle|Hgt].
      * destruct (Nat.eq_dec i j) as [->|Hij].
        -- destruct (Nat.leb_spec (S j) j); [lia|]. now rewrite Nat.sub_diag.
        -- destruct (Nat.leb_spec (S i) j); [|lia]. symmetry. apply Hnext. lia.
      * destruct (Nat.leb_spec (S i) j); [lia | reflexivity].
Qed.

Lemma finishGenerate_nothing (mirror obj : value) (pointer : string)
  (perKey : list (list PatchOperation * bool)) :
  Forall (fun r => r = ([], false)) perKey ->
  List.length (ownProps obj) = List.length (ownProps mirror) ->
  finishGenerate mirror obj pointer perKey = [].
Proof.
  intros Hall Hlen. unfold finishGenerate.
  assert (Hdeleted : existsb snd perKey = false).
  { induction Hall as [|r l -> _ IH]; [reflexivity | exact IH]. }
  assert (Holds : concat (map fst (rev perKey)) = []).
  { apply Forall_rev in Hall. induction Hall as [|r l -> _ IH]; [reflexivity | exact IH]. }
  rewrite Hdeleted, Holds, Hlen, Nat.eqb_refl. reflexivity.
Qed.

Lemma generateKey_same (rec : value -> string -> list PatchOperation)
  (v : value) (pointer key : string) (oldVal : value) :
  assoc key (ownProps v) = Some oldVal ->
  (forall p, rec oldVal p = []) ->
  generateKey rec v v pointer key oldVal = ([], false).
Proof.
  intros Hkey Hrec. unfold generateKey. rewrite Hkey.
  destruct (isObject oldVal) eqn:Hobj; simpl.
  - rewrite Bool.eqb_reflx. now rewrite Hrec.
  - unfold strictNeq. rewrite Hobj. simpl. now rewrite value_eqb_refl.
Qed.

Lemma distinctKeys_props (props : list (string * value)) :
  distinctKeys (VObj props) = true ->
  NoDup (map fst props) /\ Forall (fun kv => distinctKeys (snd kv) = true) props.
Proof.
  simpl. intros H. apply andb_true_iff in H as [Hd Hall].
  split; [now apply distinct_NoDup|].
  induction props as [|[k x] props IH]; [constructor|].
  simpl in Hd. apply andb_true_iff in Hd as [_ Hd].
  apply andb_true_iff in Hall as [Hx Hall].
  constructor; [exact Hx | now apply IH].
Qed.

Lemma distinctKeys_elems (elems : list (option value)) :
  distinctKeys (VArr elems) = true ->
  Forall (onElem (fun x => distinctKeys x = true)) elems.
Proof.
  simpl. induction elems as [|[x|] elems IH]; intros H; constructor.
  - apply andb_true_iff in H as [Hx _]. exact Hx.
  - apply andb_true_iff in H as [_ H]. now apply IH.
  - exact I.
  - now apply IH.
Qed.

(** Diffing a value with distinct keys against itself gives no operation. *)
Lemma generate_same (v : value) :
  distinctKeys v = true -> forall pointer, generate v v pointer = [].
Proof.
  induction v as [|b|n|s|es IH|ps IH] using value_ind; intros Hwf pointer;
    try (apply finishGenerate_nothing; [constructor | reflexivity]).
  - simpl.
    match goal with
    | |- finishGenerate _ _ _ (?f 0%nat es) = [] => set (eachElem := f)
    end.
    apply finishGenerate_nothing; [|reflexivity].
    apply distinctKeys_elems in Hwf.
    assert (Hgen : forall l i,
               (forall j x, nth_error l j = Some (Some x) ->
                            elem_at es (i + j) = Some x) ->
               Forall (onElem (fun x => distinctKeys x = true ->
                                        forall p, generate x x p = [])) l ->
               Forall (onElem (fun x => distinctKeys x = true)) l ->
               Forall (fun r => r = ([], false)) (eachElem i l)).
    { induction l as [|o l IHl]; intros i Hat Hih Hd; [constructor|].
      inversion Hih as [|? ? Ho Hih']; subst.
      inversion Hd as [|? ? Hdo Hd']; subst.
      assert (Hl : Forall (fun r => r = ([], false)) (eachElem (S i) l)).
      { apply IHl; [|exact Hih' | exact Hd'].
        intros j x Hj. replace (S i + j)%nat with (i + S j)%nat by lia.
        now apply Hat. }
      destruct o as [x|]; simpl; [|exact Hl].
      constructor; [|exact Hl].
      apply generateKey_same.
      - simpl. rewrite assoc_indexed_from. simpl. rewrite Nat.sub_0_r.
        rewrite <- (Nat.add_0_r i). now apply Hat.
      - intros p. now apply Ho. }
    apply (Hgen es 0%nat); [|exact IH | exact Hwf].
    intros j x Hj. unfold elem_at. simpl. now rewrite Hj.
  - simpl.
    match goal with
    | |- finishGenerate _ _ _ (?f ps) = [] => set (eachProp := f)
    end.
    apply finishGenerate_nothing; [|reflexivity].
    apply distinctKeys_props in Hwf as [Hnd Hwf].
    assert (Hgen : forall l,
               (forall kv, In kv l -> In kv ps) ->
               Forall (fun kv => distinctKeys (snd kv) = true ->
                                 forall p, generate (snd kv) (snd kv) p = []) l ->
               Forall (fun kv => distinctKeys (snd kv) = true) l ->
               Forall (fun r => r = ([], false)) (eachProp l)).
    { induction l as [|[k x] l IHl]; intros Hin Hih Hd; [constructor|].
      inversion Hih as [|? ? Ho Hih']; subst.
      inversion Hd as [|? ? Hdo Hd']; subst.
      simpl. constructor.
      - apply generateKey_same.
        + simpl. apply assoc_NoDup_In; [exact Hnd | apply Hin; now left].
        + intros p. now apply Ho.
      - apply IHl; [|exact Hih' | exact Hd']. intros kv Hkv. apply Hin. now right. }
    apply (Hgen ps); [auto | exact IH | exact Hwf].
Qed.

Lemma compare_same (v : value) : distinctKeys v = true -> compare v v = [].
Proof. intros H. now apply generate_same. Qed.

Lemma compare_empty_falsy (v : value) : truthy v = false -> compare (VObj []) v = [].
Proof.
  intros H. unfold compare. simpl. unfold finishGenerate. simpl.
  destruct v as [|b|n|s|es|ps]; try discriminate; try reflexivity.
  simpl in H. apply negb_false_iff, String.eqb_eq in H. now subst.
Qed.

Lemma filterOps_nil (excludes : list (list string)) : filterOps excludes [] = Ok [].
Proof. unfold filterOps. now destruct (Nat.ltb 0 (List.length excludes)). Qed.

Lemma createPatch_same (opts : ResolvedOptions) (document : Document)
  (queryOptions : value) (w : World) :
  _original document = Some (docData document) ->
  distinctKeys (docData document) = true ->
  createPatch opts document queryOptions w = (w, Ok tt).
Proof.
  intros Horig Hwf. unfold createPatch, bindM, lift. rewrite Horig. simpl.
  destruct (truthy (docData document)) eqn:Ht.
  - now rewrite (compare_same _ Hwf), filterOps_nil.
  - now rewrite (compare_empty_falsy _ Ht), filterOps_nil.
Qed.

(** X12. Saving a document that has not changed since its snapshot was
    taken writes no record and does not throw, whatever the options: the
    snapshot taken after [init] or [save] followed by the hook of the next
    [save] leaves the patch collection as it was. *)
Theorem save_without_change_writes_nothing
  (opts : ResolvedOptions) (this : Document) (w : World)
  (Hkeys : distinctKeys (docData this) = true) :
  preSave opts (snapshot this) w = (w, Ok tt).
Proof.
  unfold preSave, snapshot. now apply createPatch_same.
Qed.

Lemma save_without_change_writes_nothing_witness :
  preSave (mkOptions testExcludes [] true true)
    (snapshot (mkDocument (VNum 1) hiddenDocument None true None [])) emptyWorld
  = (emptyWorld, Ok tt).
Proof.
  apply (save_without_change_writes_nothing (mkOptions testExcludes [] true true)
           (mkDocument (VNum 1) hiddenDocument None true None []) emptyWorld).
  reflexivity.
Defined.

(** ** What [createPatch] writes *)

Lemma createPatch_cases (opts : ResolvedOptions) (document : Document)
  (queryOptions : value) (w : World) :
  (createPatch opts document queryOptions w = (w, Ok tt) /\
   filterOps (excludes opts) (compare (diffBase document) (docData document)) = Ok [])
  \/
  (exists e,
      createPatch opts document queryOptions w = (w, Err e) /\
      filterOps (excludes opts) (compare (diffBase document) (docData document)) = Err e)
  \/
  (exists o rest,
      filterOps (excludes opts) (compare (diffBase document) (docData document))
      = Ok (o :: rest) /\
      createPatch opts document queryOptions w
      = (mkWorld
           (patchCollection w ++
            [mkPatchDataInput
               (if trackOriginalValue opts
                then map (trackOriginal document) (o :: rest) else o :: rest)
               (docId document)
               (match timestamp document with Some t => t | None => now w end)
               (map (includeValue document queryOptions) (includes opts))])
           (now w) (lookups w), Ok tt)).
Proof.
  unfold createPatch, diffBase, bindM, lift, createRecord, ret.
  destruct (filterOps (excludes opts) _) as [[|o rest]|e].
  - now left.
  - right. right. now exists o, rest.
  - right. left. now exists e.
Qed.

Lemma filterOps_origin (excludes : list (list string)) (ops ops' : list PatchOperation) :
  filterOps excludes ops = Ok ops' ->
  Forall (fun p' => exists p, In p ops /\ op p' = op p /\ path p' = path p
                              /\ from p' = from p) ops'.
Proof.
  intros H. apply Forall_forall. intros p' Hin. unfold filterOps in H.
  destruct (Nat.ltb 0 (List.length excludes)).
  - destruct (filterM_In _ _ _ _ H Hin) as (p & Hp & Hkeep). exists p.
    split; [exact Hp|]. unfold keepOp in Hkeep.
    destruct (existsb _ excludes); [discriminate|].
    now destruct (everyDeepRemove_true _ _ _ Hkeep) as [-> | (v & v' & _ & -> & _)].
  - injection H as <-. now exists p'.
Qed.

(** X13. [createPatch] writes at most one record, behind the records of
    the collection, which it leaves as they are, and it changes nothing else.
    The record it writes refers to the document, is dated with the timestamp
    of the document or else with the clock, has one field for each name of
    the [includes] option, and holds at least one operation, each with the
    kind and the path of an operation of the diff between the snapshot and
    the data of the document.  When the filter throws, nothing is written. *)
Theorem createPatch_writes_one_record
  (opts : ResolvedOptions) (document : Document) (queryOptions : value) (w : World) :
  let w' := fst (createPatch opts document queryOptions w) in
  let outcome := snd (createPatch opts document queryOptions w) in
  now w' = now w /\ lookups w' = lookups w /\
  (patchCollection w' = patchCollection w \/
   exists record,
     patchCollection w' = patchCollection w ++ [record] /\
     outcome = Ok tt /\
     input_ref record = docId document /\
     input_date record
     = match timestamp document with Some t => t | None => now w end /\
     map fst (input_includes record) = map fst (includes opts) /\
     input_ops record <> [] /\
     Forall (fun p' =>
               exists p, In p (compare (diffBase document) (docData document)) /\
                         op p' = op p /\ path p' = path p /\ from p' = from p)
       (input_ops record)) /\
  (forall e, outcome = Err e -> w' = w).
Proof.
  intros w' outcome. subst w' outcome.
  destruct (createPatch_cases opts document queryOptions w)
    as [[-> _] | [(e & -> & _) | (o & rest & Hfilter & ->)]]; simpl.
  - do 2 (split; [reflexivity|]). split; [now left | discriminate].
  - do 2 (split; [reflexivity|]). split; [now left | reflexivity].
  - do 2 (split; [reflexivity|]). split; [|discriminate].
    right. eexists. split; [reflexivity|].
    simpl. do 3 (split; [reflexivity|]).
    split; [rewrite map_map; reflexivity|].
    split; [destruct (trackOriginalValue opts); discriminate|].
    + apply filterOps_origin in Hfilter.
      destruct (trackOriginalValue opts); [|exact Hfilter].
      apply Forall_forall. intros p' Hin.
      change (In p' (map (trackOriginal document) (o :: rest))) in Hin.
      apply in_map_iff in Hin as (q & <- & Hq).
      rewrite Forall_forall in Hfilter.
      destruct (Hfilter q Hq) as (p & Hp & Hop & Hpath & Hfrom). now exists p.
Qed.

(** ** The update hooks *)

Lemma createPatch_appends (opts : ResolvedOptions) (document : Document)
  (queryOptions : value) (w : World) :
  exists rs,
    patchCollection (fst (createPatch opts document queryOptions w))
    = patchCollection w ++ rs /\
    (List.length rs <= 1)%nat /\
    Forall (fun r => input_ref r = docId document /\ input_ops r <> []) rs.
Proof.
  destruct (createPatch_cases opts document queryOptions w)
    as [[-> _] | [(e & -> & _) | (o & rest & _ & ->)]]; simpl.
  - exists []. rewrite app_nil_r. repeat split; [simpl; lia | constructor].
  - exists []. rewrite app_nil_r. repeat split; [simpl; lia | constructor].
  - eexists. split; [reflexivity|]. split; [simpl; lia|].
    constructor; [|constructor]. simpl. split; [reflexivity|].
    destruct (trackOriginalValue opts); discriminate.
Qed.

Lemma allDocs_appends (f : Document -> nat -> M unit) (docs : list Document) :
  (forall doc i w,
      exists rs,
        patchCollection (fst (f doc i w)) = patchCollection w ++ rs /\
        (List.length rs <= 1)%nat /\
        Forall (fun r => input_ref r = docId doc /\ input_ops r <> []) rs) ->
  forall i w,
  exists rs,
    patchCollection (fst (allDocs f i docs w)) = patchCollection w ++ rs /\
    (List.length rs <= List.length docs)%nat /\
    Forall (fun r => (exists d, In d docs /\ input_ref r = docId d)
                     /\ input_ops r <> []) rs.
Proof.
  intros Hf. induction docs as [|doc docs IH]; intros i w; simpl.
  - exists []. rewrite app_nil_r. repeat split; [simpl; lia | constructor].
  - destruct (Hf doc i w) as (rs1 & H1 & Hlen1 & Hall1).
    destruct (f doc i w) as [w1 r1]. simpl in H1.
    destruct (IH (S i) w1) as (rs2 & H2 & Hlen2 & Hall2).
    destruct (allDocs f (S i) docs w1) as [w2 r2]. simpl in H2 |- *.
    exists (rs1 ++ rs2). rewrite H2, H1, app_assoc. split; [reflexivity|].
    split; [rewrite length_app; lia|].
    apply Forall_app. split.
    + eapply Forall_impl; [|exact Hall1]. intros r [Href Hops].
      split; [|exact Hops]. exists doc. split; [now left | exact Href].
    + eapply Forall_impl; [|exact Hall2]. intros r [(d & Hd & Href) Hops].
      split; [|exact Hops]. exists d. split; [now right | exact Href].
Qed.

(** X14. The hooks that run after an update only add to the patch
    collection: the records it held stay as they were and where they were.
    After [updateOne] or [findOneAndUpdate] at most one record is added,
    after [updateMany] at most one for each document of the lookup; every
    record added refers to a document that the lookup of the hook answered
    and holds at least one operation. *)
Theorem update_hooks_only_append
  (opts : ResolvedOptions) (find : value -> list Document)
  (this : UpdateQueryContext) (result : option ModifyResult) (w : World) :
  (exists rs,
      patchCollection (fst (postUpdateOne opts find this result w))
      = patchCollection w ++ rs /\
      (List.length rs <= 1)%nat /\
      Forall (fun r => (exists conditions d,
                           hd_error (find conditions) = Some d /\
                           input_ref r = docId d)
                       /\ input_ops r <> []) rs) /\
  (exists rs,
      patchCollection (fst (postUpdateMany opts find this result w))
      = patchCollection w ++ rs /\
      (List.length rs <= List.length (find (resolveConditions this)))%nat /\
      Forall (fun r => (exists d, In d (find (resolveConditions this)) /\
                                  input_ref r = docId d)
                       /\ input_ops r <> []) rs).
Proof.
  split.
  - unfold postUpdateOne. destruct (nothingTouched result).
    + exists []. simpl. rewrite app_nil_r. repeat split; [simpl; lia | constructor].
    + match goal with
      | |- context [modelFindOne find ?c] => set (conditions := c)
      end.
      unfold bindM, modelFindOne, modelFind, ret. simpl.
      destruct (hd_error (find conditions)) as [d|] eqn:Hd.
      * destruct (createPatch_appends opts (withOriginal d (ctx_original this))
                    (options this)
                    (mkWorld (patchCollection w) (now w) (conditions :: lookups w)))
          as (rs & Hrs & Hlen & Hall).
        exists rs. split; [exact Hrs|]. split; [exact Hlen|].
        eapply Forall_impl; [|exact Hall]. intros r [Href Hops].
        split; [|exact Hops]. now exists conditions, d.
      * exists []. simpl. rewrite app_nil_r. repeat split; [simpl; lia | constructor].
  - unfold postUpdateMany. destruct (nothingTouched result).
    + exists []. simpl. rewrite app_nil_r. repeat split; [simpl; lia | constructor].
    + fold (resolveConditions this). unfold bindM, modelFind. 
      destruct (allDocs_appends
                  (fun doc i => createPatch opts (withOriginal doc (originalAt this i))
                                  (options this))
                  (find (resolveConditions this))
                  (fun doc i w0 =>
                     createPatch_appends opts (withOriginal doc (originalAt this i))
                       (options this) w0)
                  0%nat
                  (mkWorld (patchCollection w) (now w)
                     (resolveConditions this :: lookups w)))
        as (rs & Hrs & Hlen & Hall).
      exists rs. split; [exact Hrs|]. split; [exact Hlen | exact Hall].
Qed.

Lemma allDocs_nothing (f : Document -> nat -> M unit) (docs : list Document) (w : World) :
  forall i,
    (forall j doc, nth_error docs j = Some doc -> f doc (i + j)%nat w = (w, Ok tt)) ->
    allDocs f i docs w = (w, Ok tt).
Proof.
  induction docs as [|doc docs IH]; intros i Hf; simpl; [reflexivity|].
  rewrite <- (Nat.add_0_r i) at 1. rewrite (Hf 0%nat doc eq_refl).
  rewrite IH; [reflexivity|].
  intros j d Hd. replace (S i + j)%nat with (i + S j)%nat by lia. now apply Hf.
Qed.

(** X15. An update that changes nothing writes no record.  When the hook
    before [updateOne] or [findOneAndUpdate] found a document with a truthy
    id, and the lookup by that id after the update answers a document with
    the same data, the two hooks leave the patch collection as it was.  When
    the hook before [updateMany] found documents, and the lookup by their ids
    after the update answers documents with the same data in the same order,
    the two hooks leave the patch collection as it was. *)
Theorem update_without_change_writes_nothing
  (opts : ResolvedOptions) (before after : value -> list Document)
  (this : UpdateQueryContext) (result : option ModifyResult) (w : World)
  (o : Document) (originals : list Document)
  (Hbefore : before (_conditions this) = o :: originals)
  (Hkeys : Forall (fun d => distinctKeys (docData d) = true) (o :: originals)) :
  (forall d,
      truthy (docId o) = true ->
      hd_error (after (VObj [("_id", VObj [("$eq", docId o)])])) = Some d ->
      docData d = docData o ->
      let run := bindM (preUpdateOne before this)
                   (fun this' => postUpdateOne opts after this' result) w in
      patchCollection (fst run) = patchCollection w /\ snd run = Ok tt) /\
  (map docData
     (after (VObj [("_id", VObj [("$in", VArr (map Some (map docId (o :: originals))))])]))
   = map docData (o :: originals) ->
   let run := bindM (preUpdateMany before this)
                (fun this' => postUpdateMany opts after this' result) w in
   patchCollection (fst run) = patchCollection w /\ snd run = Ok tt).
Proof.
  split.
  - intros d Hid Hafter Hsame run.
    inversion Hkeys as [|? ? Ho _]; subst.
    assert (Hrun : exists lk,
               run = (mkWorld (patchCollection w) (now w) lk, Ok tt)).
    { subst run. unfold bindM at 1.
      unfold preUpdateOne, modelFindOne, modelFind, bindM at 1 2.
      simpl. rewrite Hbefore. simpl.
      unfold postUpdateOne. destruct (nothingTouched result); [now eexists|].
      simpl. rewrite Hid.
      unfold bindM, modelFindOne, modelFind, ret. simpl. rewrite Hafter.
      rewrite createPatch_same.
      - now eexists.
      - simpl. now rewrite Hsame.
      - simpl. rewrite Hsame. exact Ho. }
    destruct Hrun as (lk & ->). now split.
  - intros Hafter run.
    assert (Hrun : exists lk,
               run = (mkWorld (patchCollection w) (now w) lk, Ok tt)).
    { subst run. unfold bindM at 1. unfold preUpdateMany, modelFind, bindM at 1.
      simpl. rewrite Hbefore. unfold postUpdateMany.
      destruct (nothingTouched result); [now eexists|].
      cbn [_originalIds _conditions _update map].
      unfold bindM, modelFind. cbn [patchCollection now lookups].
      cbn [map] in Hafter.
      match goal with
      | |- context [after ?c] => set (conditions := c) in *
      end.
      rewrite allDocs_nothing; [now eexists|].
      intros j doc Hdoc. simpl. unfold originalAt. cbn [_originals].
      assert (Hdata : nth_error (map docData (o :: originals)) j = Some (docData doc)).
      { cbn [map]. rewrite <- Hafter. now apply map_nth_error. }
      apply createPatch_same.
      + simpl. exact Hdata.
      + simpl. apply nth_error_In in Hdata. apply in_map_iff in Hdata as (d & Hd & Hin).
        rewrite <- Hd. rewrite Forall_forall in Hkeys. now apply Hkeys. }
    destruct Hrun as (lk & ->). now split.
Qed.

Lemma update_without_change_writes_nothing_witness :
  let one :=
    bindM (preUpdateOne (fun _ => [postTwo]) batchContext)
      (fun this' => postUpdateOne plainOptions (fun _ => [postTwo]) this'
                      updateResultShape) emptyWorld in
  let many :=
    bindM (preUpdateMany (fun _ => [postTwo]) batchContext)
      (fun this' => postUpdateMany plainOptions (fun _ => [postTwo]) this'
                      updateResultShape) emptyWorld in
  (patchCollection (fst one) = [] /\ snd one = Ok tt) /\
  (patchCollection (fst many) = [] /\ snd many = Ok tt).
Proof.
  intros one many.
  destruct (update_without_change_writes_nothing plainOptions
              (fun _ => [postTwo]) (fun _ => [postTwo]) batchContext
              updateResultShape emptyWorld postTwo [] eq_refl
              (Forall_cons postTwo eq_refl (Forall_nil _)))
    as [Hone Hmany].
  split.
  - exact (Hone postTwo eq_refl eq_refl eq_refl).
  - exact (Hmany eq_refl).
Defined.

(** ** Deleting a document *)

Lemma value_eqb_eq (a b : value) : value_eqb a b = true <-> a = b.
Proof.
  split; [|intros ->; apply value_eqb_refl].
  revert b. induction a as [|x|n|s|es IH|ps IH] using value_ind; intros b H;
    destruct b as [|y|m|t|fs|qs]; simpl in H; try discriminate.
  - reflexivity.
  - apply Bool.eqb_prop in H. now subst.
  - apply Z.eqb_eq in H. now subst.
  - apply String.eqb_eq in H. now subst.
  - f_equal. revert fs H. induction IH as [|o es Ho _ IHes]; intros fs H.
    + now destruct fs.
    + destruct o as [x|], fs as [|[y|] fs]; try discriminate.
      * apply andb_true_iff in H as [Hx Hrest]. simpl in Ho.
        rewrite (Ho y Hx), (IHes fs Hrest). reflexivity.
      * now rewrite (IHes fs H).
  - f_equal. revert qs H. induction IH as [|[k x] ps Hx _ IHps]; intros qs H.
    + now destruct qs.
    + destruct qs as [|[k' y] qs]; [discriminate|].
      apply andb_true_iff in H as [H Hrest]. apply andb_true_iff in H as [Hk Hxy].
      apply String.eqb_eq in Hk. simpl in Hx.
      rewrite Hk, (Hx y Hxy), (IHps qs Hrest). reflexivity.
Qed.

Lemma filter_filter_swap (A : Type) (f g : A -> bool) (l : list A) :
  filter f (filter g l) = filter g (filter f l).
Proof.
  induction l as [|x l IH]; simpl; [reflexivity|].
  destruct (f x) eqn:Hf, (g x) eqn:Hg; simpl; rewrite ?Hf, ?Hg, IH; reflexivity.
Qed.

Lemma filter_all (A : Type) (f : A -> bool) (l : list A) :
  Forall (fun x => f x = true) l -> filter f l = l.
Proof.
  induction 1 as [|x l Hx _ IH]; simpl; [reflexivity|]. now rewrite Hx, IH.
Qed.

Lemma deletePatches_history (document : Document) (w : World) :
  let w' := fst (deletePatches document w) in
  filter (fun r => value_eqb (input_ref r) (docId document)) (patchCollection w') = [] /\
  (forall id, id <> docId document ->
     filter (fun r => value_eqb (input_ref r) id) (patchCollection w')
     = filter (fun r => value_eqb (input_ref r) id) (patchCollection w)).
Proof.
  simpl. split.
  - induction (patchCollection w) as [|r l IH]; simpl; [reflexivity|].
    destruct (value_eqb (input_ref r) (docId document)) eqn:Href; simpl;
      [exact IH|]. now rewrite Href.
  - intros id Hid. rewrite filter_filter_swap. apply filter_all.
    apply Forall_forall. intros r Hr. apply filter_In in Hr as [_ Hr].
    apply value_eqb_eq in Hr. apply negb_true_iff.
    destruct (value_eqb (input_ref r) (docId document)) eqn:Href; [|reflexivity].
    apply value_eqb_eq in Href. congruence.
Qed.

(** X16. Deleting a document deletes its history and no other.  With
    [removePatches] set, after the hook of [deleteOne] no record of the patch
    collection refers to the document, and the records that refer to any
    other id are the ones there were, in their order; the hook of
    [findOneAndDelete] does the same for the first document that matches the
    filter, and nothing when none matches.  With [removePatches] unset both
    hooks leave the patch collection as it was. *)
Theorem delete_hooks_remove_one_history
  (opts : ResolvedOptions) (find : value -> list Document) (conditions : value)
  (this : Document) (w : World) :
  let history id w0 :=
    filter (fun r => value_eqb (input_ref r) id) (patchCollection w0) in
  let afterOne := fst (preDeleteOne opts this w) in
  let afterFind := fst (preFindOneAndDelete opts find conditions w) in
  (removePatches opts = false ->
   patchCollection afterOne = patchCollection w /\
   patchCollection afterFind = patchCollection w) /\
  (removePatches opts = true ->
   history (docId this) afterOne = [] /\
   (forall id, id <> docId this -> history id afterOne = history id w) /\
   match hd_error (find conditions) with
   | Some original =>
       history (docId original) afterFind = [] /\
       (forall id, id <> docId original -> history id afterFind = history id w)
   | None => patchCollection afterFind = patchCollection w
   end).
Proof.
  intros history afterOne afterFind. subst history afterOne afterFind.
  unfold preDeleteOne, preFindOneAndDelete. split; intros Hremove; rewrite Hremove.
  - now split.
  - cbn [negb].
    destruct (deletePatches_history this w) as [Hnone Hothers].
    split; [exact Hnone|]. split; [exact Hothers|].
    unfold bindM, modelFindOne, modelFind, bindM, ret. simpl.
    destruct (hd_error (find conditions)) as [original|]; [|reflexivity].
    exact (deletePatches_history original
             (mkWorld (patchCollection w) (now w) (conditions :: lookups w))).
Qed.

(** ** The data view and the timestamps *)

Lemma remove_key_filter (key : string) (props : list (string * value)) :
  remove_key key props = filter (fun kv => negb (String.eqb key (fst kv))) props.
Proof.
  induction props as [|[k v] props IH]; simpl; [reflexivity|].
  destruct (String.eqb key k); simpl; now rewrite IH.
Qed.

Lemma remove_key_set_key (key : string) (v : value) (props : list (string * value)) :
  remove_key key (set_key key v props) = remove_key key props.
Proof.
  induction props as [|[k x] props IH]; simpl.
  - now rewrite String.eqb_refl.
  - destruct (String.eqb key k) eqn:Hk; simpl; rewrite Hk; [reflexivity|].
    now rewrite IH.
Qed.

Lemma remove_key_set_other (a key : string) (v : value) (props : list (string * value)) :
  a <> key ->
  remove_key a (set_key key v props) = set_key key v (remove_key a props).
Proof.
  intros Hne. induction props as [|[k x] props IH]; simpl.
  - apply String.eqb_neq in Hne. now rewrite Hne.
  - destruct (String.eqb key k) eqn:Hk, (String.eqb a k) eqn:Ha; simpl;
      rewrite ?Hk, ?Ha, ?IH; try reflexivity.
    apply String.eqb_eq in Hk, Ha. congruence.
Qed.

Lemma dataTransform_remove (config : timestampsConfig) (ret : list (string * value)) :
  dataTransform config ret = removeAll (deletedKeys config) ret.
Proof.
  assert (Hname : forall name byDefault r,
             deleteTimestamp name byDefault r = removeAll (deletedName name byDefault) r).
  { intros name byDefault r. unfold deleteTimestamp, deletedName.
    destruct name as [[s|[|]]|]; try reflexivity. now destruct (String.eqb s ""). }
  unfold dataTransform, deletedKeys, removeAll.
  destruct config as [|createdAt updatedAt|]; simpl; try reflexivity.
  rewrite fold_left_app. now rewrite !Hname.
Qed.

Lemma removeAll_set_key (keys : list string) (key : string) (v : value)
  (ret : list (string * value)) :
  In key keys -> removeAll keys (set_key key v ret) = removeAll keys ret.
Proof.
  unfold removeAll. revert ret. induction keys as [|k keys IH]; intros ret Hin;
    simpl; [contradiction|].
  destruct (String.eqb_spec k key) as [->|Hne].
  - now rewrite remove_key_set_key.
  - rewrite remove_key_set_other by exact Hne. apply IH.
    destruct Hin as [Heq | Hin]; [contradiction | exact Hin].
Qed.

Lemma removeAll_absent (keys : list string) (k : string) (ret : list (string * value)) :
  assoc k ret = None -> assoc k (removeAll keys ret) = None.
Proof.
  unfold removeAll. revert ret. induction keys as [|k' keys IH]; intros ret H; simpl;
    [exact H|].
  apply IH. rewrite assoc_remove_key. now destruct (String.eqb k k').
Qed.

Lemma removeAll_deleted (keys : list string) (k : string) (ret : list (string * value)) :
  In k keys -> assoc k (removeAll keys ret) = None.
Proof.
  revert ret. induction keys as [|k' keys IH]; intros ret Hin; [contradiction|].
  destruct (String.eqb_spec k k') as [->|Hne].
  - change (removeAll (k' :: keys) ret) with (removeAll keys (remove_key k' ret)).
    apply removeAll_absent. now rewrite assoc_remove_key, String.eqb_refl.
  - change (removeAll (k' :: keys) ret) with (removeAll keys (remove_key k' ret)).
    apply IH. destruct Hin as [-> | Hin]; [contradiction | exact Hin].
Qed.

Lemma distinct_filter (keep : string -> bool) (keys : list string) :
  distinct keys = true -> distinct (filter keep keys) = true.
Proof.
  induction keys as [|k keys IH]; simpl; [reflexivity|].
  intros H. apply andb_true_iff in H as [Hk Hd].
  destruct (keep k); simpl; [|now apply IH].
  rewrite (IH Hd), andb_true_r. apply negb_true_iff.
  apply negb_true_iff in Hk.
  destruct (existsb (String.eqb k) (filter keep keys)) eqn:Hex; [|reflexivity].
  apply existsb_exists in Hex as (x & Hx & Heq). apply filter_In in Hx as [Hx _].
  assert (existsb (String.eqb k) keys = true)
    by (apply existsb_exists; now exists x).
  congruence.
Qed.

Lemma distinctKeys_remove_key (key : string) (props : list (string * value)) :
  distinctKeys (VObj props) = true -> distinctKeys (VObj (remove_key key props)) = true.
Proof.
  intros H. simpl in H. apply andb_true_iff in H as [Hd Hall]. simpl.
  apply andb_true_iff. split.
  - rewrite remove_key_filter.
    assert (Hmap : map fst (filter (fun kv : string * value =>
                                      negb (String.eqb key (fst kv))) props)
                   = filter (fun k => negb (String.eqb key k)) (map fst props)).
    { clear. induction props as [|[k v] props IH]; simpl; [reflexivity|].
      destruct (String.eqb key k); simpl; now rewrite IH. }
    rewrite Hmap. now apply distinct_filter.
  - clear Hd. induction props as [|[k x] props IH]; simpl; [reflexivity|].
    apply andb_true_iff in Hall as [Hx Hall].
    destruct (String.eqb key k); [now apply IH|].
    now rewrite Hx, IH.
Qed.

Lemma distinctKeys_dataTransform (config : timestampsConfig)
  (ret : list (string * value)) :
  distinctKeys (VObj ret) = true -> distinctKeys (VObj (dataTransform config ret)) = true.
Proof.
  rewrite dataTransform_remove. unfold removeAll. revert ret.
  induction (deletedKeys config) as [|k keys IH]; intros ret H; simpl; [exact H|].
  apply IH. now apply distinctKeys_remove_key.
Qed.

(** X17. The data view of a document holds none of the keys the transform
    deletes: [_id] and the timestamp fields that the [timestamps] option of
    the schema names.  So a save that only assigns such a key, as every save
    of a schema with timestamps assigns [updatedAt], is no change for the
    plugin: it writes no record. *)
Theorem timestamps_alone_write_nothing
  (opts : ResolvedOptions) (config : timestampsConfig) (id : value)
  (ret : list (string * value)) (key : string) (v : value) (w : World)
  (Hkey : In key (deletedKeys config))
  (Hkeys : distinctKeys (VObj ret) = true) :
  (forall k, In k (deletedKeys config) -> assoc k (dataTransform config ret) = None) /\
  preSave opts
    (documentOf config id (set_key key v ret)
       (_original (snapshot (documentOf config id ret None)))) w
  = (w, Ok tt).
Proof.
  split.
  - intros k Hk. rewrite dataTransform_remove. now apply removeAll_deleted.
  - unfold preSave. apply createPatch_same.
    + simpl. now rewrite !dataTransform_remove, removeAll_set_key.
    + simpl docData. rewrite dataTransform_remove, removeAll_set_key by exact Hkey.
      rewrite <- dataTransform_remove. now apply distinctKeys_dataTransform.
Qed.

Lemma timestamps_alone_write_nothing_witness :
  let ret :=
    [("_id", VNum 1); ("text", VStr "comm 1"); ("createdAt", VNum 10);
     ("updatedAt", VNum 10)] in
  dataTransform TimestampsTrue ret = [("text", VStr "comm 1")] /\
  preSave plainOptions
    (documentOf TimestampsTrue (VNum 1) (set_key "updatedAt" (VNum 20) ret)
       (_original (snapshot (documentOf TimestampsTrue (VNum 1) ret None))))
    emptyWorld
  = (emptyWorld, Ok tt).
Proof.
  intros ret. split; [reflexivity|].
  apply (proj2 (timestamps_alone_write_nothing plainOptions TimestampsTrue (VNum 1)
                  ret "updatedAt" (VNum 20) emptyWorld
                  (or_intror (or_intror (or_introl eq_refl))) eq_refl)).
Defined.

(** ** The outcomes of a rollback *)

(** X18. The outcomes of a rollback.  For an id that no record of the
    history has, it is rejected with [patch doesn't exist] and the document
    is untouched.  Otherwise either it is rejected with the document neither
    set nor saved, or the id is the id of a record, the records up to the
    last one with that id applied to a state, and the document was set once,
    to [merge(data, state)]; then, without [save] it resolves, and with
    [save] the document was saved after it was set and the rollback settles
    as the save does: when the save is rejected, so is the rollback, with the
    error of the save and the document already set. *)
Theorem rollback_outcomes
  (patches : list PatchData) (patchId : string) (data : value) (save : bool)
  (saved : result unit) :
  (~ In patchId (map _id patches) ->
   rollback patches patchId data save saved
   = ([], Err (RollbackError "patch doesn't exist"))) /\
  ((exists e, rollback patches patchId data save saved = ([], Err e)) \/
   (In patchId (map _id patches) /\
    exists state,
      applyRecords (VObj [])
        (dropRightWhile (fun patch => negb (String.eqb (_id patch) patchId)) patches)
      = Ok state /\
      rollback patches patchId data save saved
      = (DocSet (merge data state) :: (if save then [DocSave] else []),
         if save then saved else Ok tt))) /\
  (forall effects e,
      rollback patches patchId data save saved = (effects, Err e) ->
      effects = [] \/
      (save = true /\ saved = Err e /\
       exists state, effects = [DocSet (merge data state); DocSave])).
Proof.
  unfold rollback.
  destruct (existsb (String.eqb patchId) (map _id patches)) eqn:Hin; cbn [negb].
  - apply existsb_eqb_In in Hin. split; [intros Hnot; contradiction|].
    destruct (Nat.eqb _ _).
    + split; [left; now eexists | intros effects e H; left; now injection H as <-].
    + destruct (applyRecords (VObj []) _) as [state|e0].
      * split.
        -- right. split; [exact Hin|]. exists state. split; [reflexivity|].
           now destruct save.
        -- intros effects e H. destruct save; [|discriminate].
           injection H as <- ->. right. split; [reflexivity|].
           split; [reflexivity|]. now exists state.
      * split; [left; now eexists | intros effects e H; left; now injection H as <-].
  - split; [reflexivity|].
    split; [left; now eexists | intros effects e H; left; now injection H as <-].
Qed.

Lemma rollback_outcomes_witness :
  rollback commentHistory "p4" (VObj []) true (Err (TypeError "save"))
  = ([], Err (RollbackError "patch doesn't exist")).
Proof.
  apply (proj1 (rollback_outcomes commentHistory "p4" (VObj []) true
                  (Err (TypeError "save")))).
  simpl. intuition discriminate.
Defined.

(** ** The original value of an operation *)

Lemma contains_app (c : ascii) (a b : string) :
  contains c (a ++ b)%string = contains c a || contains c b.
Proof.
  induction a as [|x a IH]; simpl; [reflexivity|]. now rewrite IH, orb_assoc.
Qed.

Lemma dottedPath_join (keys : list string) :
  keys <> [] -> Forall (fun k => contains slash k = false) keys ->
  dottedPath (String slash (join "/" keys)) = join "." keys.
Proof.
  intros Hne Hall. unfold dottedPath, split_slash.
  change (String slash (join "/" keys)) with ("" ++ String slash (join "/" keys))%string.
  rewrite split_on_append by reflexivity.
  rewrite (split_on_join slash) by assumption. reflexivity.
Qed.

Lemma baseGet_single (key : string) (object : value) :
  baseGet [key] object = getProp object key.
Proof. simpl. now destruct (getProp object key). Qed.

Lemma plainName_String (c : ascii) (key : string) :
  plainName (String c key) = true ->
  is_special c = false /\ Ascii.eqb c slash = false /\ plainName key = true.
Proof.
  unfold plainName, is_special. cbn [contains].
  intros H. apply negb_true_iff in H.
  repeat (apply orb_false_iff in H; destruct H as [H ?]).
  repeat match goal with
         | H : _ || _ = false |- _ => apply orb_false_iff in H; destruct H
         end.
  rewrite (Ascii.eqb_sym c "."), (Ascii.eqb_sym c "["), (Ascii.eqb_sym c "]"),
    (Ascii.eqb_sym c slash).
  repeat split; try assumption.
  - repeat (apply orb_false_iff; split); assumption.
  - apply negb_true_iff. repeat (apply orb_false_iff; split); assumption.
Qed.

Lemma plainName_contains (key : string) :
  plainName key = true -> contains slash key = false /\ contains "." key = false.
Proof.
  unfold plainName. intros H. apply negb_true_iff in H.
  repeat (apply orb_false_iff in H; destruct H as [H ?]). now split.
Qed.

(** The first alternative of the pattern takes a plain key whole. *)
Lemma takeRun_plain (key rest : string) :
  plainName key = true ->
  match rest with
  | String c _ => is_special c = true
  | EmptyString => True
  end ->
  takeRun (key ++ rest)%string = (key, rest).
Proof.
  intros Hkey Hrest. induction key as [|c key IH]; cbn [append].
  - destruct rest as [|c rest]; [reflexivity|]. cbn [takeRun]. now rewrite Hrest.
  - apply plainName_String in Hkey as (Hc & _ & Hkey).
    cbn [takeRun]. now rewrite Hc, (IH Hkey).
Qed.

Lemma length_append (a b : string) :
  String.length (a ++ b)%string = (String.length a + String.length b)%nat.
Proof. induction a as [|c a IH]; simpl; [reflexivity | now rewrite IH]. Qed.

Lemma emptyKeyAhead_dot (key : string) (keys : list string) :
  plainName key = true ->
  emptyKeyAhead (String "." (join "." (key :: keys))) = String.eqb key "".
Proof.
  intros Hkey. unfold emptyKeyAhead.
  change (dropDelimiter (String "." (join "." (key :: keys))))
    with (Some (join "." (key :: keys))).
  cbv iota beta.
  destruct key as [|c key].
  - destruct keys as [|k keys]; [reflexivity|]. now rewrite join_cons.
  - apply plainName_String in Hkey as (Hc & _ & _).
    assert (Hs : forall rest, dropDelimiter (String c rest) = None).
    { intros rest. unfold is_special in Hc. cbn [dropDelimiter].
      apply orb_false_iff in Hc as [Hc _]. apply orb_false_iff in Hc as [Hd Hb].
      now rewrite Hd, Hb. }
    destruct keys as [|k keys].
    + cbn [join]. now rewrite Hs.
    + rewrite join_cons. cbn [append]. now rewrite Hs.
Qed.

(** The pattern cuts a path of plain keys joined by dots at its dots; in
    front of a dot an empty key is a match of its own. *)
Lemma scanPath_join (fuel : nat) (keys : list string) :
  Forall (fun key => plainName key = true) keys ->
  ((String.length (join "." keys) <= fuel)%nat ->
   scanPath fuel (join "." keys)
   = match keys with
     | "" :: keys' => keys'
     | _ => keys
     end) /\
  (keys <> [] -> (S (String.length (join "." keys)) <= fuel)%nat ->
   scanPath fuel (String "." (join "." keys)) = keys).
Proof.
  revert keys. induction fuel as [|fuel IH]; intros keys Hall.
  - split; [|intros _ H; lia].
    intros H. destruct (join "." keys) eqn:Hj; [|simpl in H; lia].
    destruct keys as [|k [|k' keys]]; [reflexivity| |].
    + cbn [join] in Hj. now subst k.
    + rewrite join_cons in Hj. destruct k; discriminate.
  - assert (Hdot : forall ks,
               Forall (fun key => plainName key = true) ks -> ks <> [] ->
               (S (String.length (join "." ks)) <= S fuel)%nat ->
               scanPath (S fuel) (String "." (join "." ks)) = ks).
    { intros ks Hks Hne Hlen. destruct ks as [|key ks]; [contradiction|].
      inversion Hks as [|? ? Hkey Hrest]; subst.
      cbn [scanPath]. change (is_special ".") with true. cbn [negb].
      rewrite (emptyKeyAhead_dot key ks Hkey).
      change (Ascii.eqb "." "[") with false. cbv iota.
      pose proof (proj1 (IH (key :: ks) Hks)) as Hjoin.
      destruct (String.eqb_spec key "") as [->|Hkey'].
      - rewrite Hjoin by lia. reflexivity.
      - rewrite Hjoin by lia.
        destruct key; [contradiction | reflexivity]. }
    split; [|now apply Hdot].
    intros Hlen. destruct keys as [|key keys]; [reflexivity|].
    inversion Hall as [|? ? Hkey Hrest]; subst.
    destruct key as [|c key].
    + destruct keys as [|k keys]; [reflexivity|].
      rewrite join_cons in Hlen |- *. cbn [append] in Hlen |- *.
      apply Hdot; [exact Hrest | discriminate | exact Hlen].
    + pose proof (plainName_String c key Hkey) as (Hc & _ & _).
      destruct keys as [|k keys].
      * cbn [join] in Hlen |- *. cbn [scanPath]. rewrite Hc. cbn [negb].
        pose proof (takeRun_plain (String c key) "" Hkey I) as Hrun.
        rewrite string_app_empty in Hrun. rewrite Hrun.
        now destruct fuel.
      * rewrite join_cons in Hlen |- *.
        cbn [append] in Hlen |- *. cbn [scanPath]. rewrite Hc. cbn [negb].
        change (String c (key ++ String "." (join "." (k :: keys)))%string)
          with (String c key ++ String "." (join "." (k :: keys)))%string.
        rewrite (takeRun_plain (String c key)
                   (String "." (join "." (k :: keys))) Hkey eq_refl).
        f_equal. apply (proj2 (IH (k :: keys) Hrest)); [discriminate|].
        cbn [String.length] in Hlen. rewrite length_append in Hlen.
        cbn [String.length] in Hlen. lia.
Qed.

Lemma stringToPath_join (keys : list string) :
  Forall (fun key => plainName key = true) keys ->
  (2 <= List.length keys)%nat ->
  stringToPath (join "." keys) = keys.
Proof.
  intros Hall Hlen. unfold stringToPath.
  rewrite (proj1 (scanPath_join _ keys Hall)) by lia.
  destruct keys as [|key [|k keys]]; try (simpl in Hlen; lia).
  inversion Hall as [|? ? Hkey _]; subst.
  rewrite join_cons. destruct key as [|c key]; [reflexivity|].
  apply plainName_String in Hkey as (Hc & _ & _).
  cbn [append]. unfold is_special in Hc.
  apply orb_false_iff in Hc as [Hc _]. apply orb_false_iff in Hc as [Hd _].
  now rewrite Hd.
Qed.

Lemma hasBracketGroup_contains (s : string) :
  contains "[" s = false -> hasBracketGroup s = false.
Proof.
  induction s as [|c s IH]; [reflexivity|]. cbn [contains hasBracketGroup].
  intros H. apply orb_false_iff in H as [Hc Hs].
  rewrite (IH Hs), orb_false_r.
  first [now rewrite Hc | rewrite Ascii.eqb_sym; now rewrite Hc].
Qed.

Lemma reIsPlainProp_no_dot (s : string) :
  contains "." s = true -> reIsPlainProp s = false.
Proof.
  induction s as [|c s IH]; [discriminate|]. cbn [contains reIsPlainProp].
  intros H. apply orb_true_iff in H as [Hc | Hs].
  - apply Ascii.eqb_eq in Hc. subst c. reflexivity.
  - rewrite (IH Hs). apply andb_false_r.
Qed.

Lemma contains_dot_join (key k : string) (keys : list string) :
  contains "." (join "." (key :: k :: keys)) = true.
Proof.
  rewrite join_cons, !contains_app. cbn [contains].
  rewrite Ascii.eqb_refl. cbn [orb]. apply orb_true_r.
Qed.

Lemma inherits_object_no_dot (ps : list (string * value)) (key : string) :
  contains "." key = true -> inherits (VObj ps) key = false.
Proof.
  intros Hdot. unfold inherits, isOneOf. cbn [inheritedKeys].
  destruct (existsb (String.eqb key) objectPrototypeKeys) eqn:Hex; [|reflexivity].
  apply existsb_exists in Hex as (x & Hin & Hx). apply String.eqb_eq in Hx. subst x.
  unfold objectPrototypeKeys in Hin. cbn [In] in Hin.
  repeat (destruct Hin as [<- | Hin]; [discriminate Hdot|]). contradiction.
Qed.

(** A path of plain keys joined by dots is read key by key, when the object
    has no property under the whole path. *)
Lemma castPath_join (keys : list string) (ps : list (string * value)) :
  keys <> [] ->
  Forall (fun key => plainName key = true) keys ->
  Forall (fun kv => contains "." (fst kv) = false) ps ->
  castPath (join "." keys) (VObj ps) = keys.
Proof.
  intros Hne Hall Hps. unfold castPath.
  destruct keys as [|key [|k keys]]; [contradiction| |].
  - cbn [join]. inversion Hall as [|? ? Hkey _]; subst.
    unfold isKey, reIsDeepProp. unfold plainName in Hkey.
    apply negb_true_iff in Hkey.
    apply orb_false_iff in Hkey as [Hkey _]. apply orb_false_iff in Hkey as [Hkey Hb].
    apply orb_false_iff in Hkey as [_ Hd].
    rewrite Hd, (hasBracketGroup_contains key Hb). cbn [orb negb].
    now rewrite orb_true_r.
  - pose proof (contains_dot_join key k keys) as Hdot.
    unfold isKey, reIsDeepProp, memberOf.
    rewrite (reIsPlainProp_no_dot _ Hdot), Hdot. cbn [orb negb].
    rewrite (inherits_object_no_dot ps _ Hdot).
    destruct (getProp (VObj ps) (join "." (key :: k :: keys))) as [v|] eqn:Hget.
    + exfalso. cbn [getProp] in Hget. apply assoc_In in Hget.
      rewrite Forall_forall in Hps. specialize (Hps _ Hget). cbn [fst] in Hps.
      congruence.
    + apply stringToPath_join; [exact Hall | simpl; lia].
Qed.

(** Along keys that name no built-in member, [get] reads own properties. *)
Lemma readPath_own (keys : list string) (object : value) :
  ownNames keys = true -> readPath keys object = ownLookup (baseGet keys object).
Proof.
  revert object. induction keys as [|key keys IH]; intros object Hown;
    [reflexivity|].
  apply ownNames_cons in Hown as [Hkey Hown].
  cbn [readPath baseGet]. unfold memberOf.
  rewrite (inherits_builtinKey object key Hkey).
  destruct object; cbn [getProp]; try reflexivity;
    match goal with
    | |- context [match ?g with Some _ => _ | None => _ end] =>
        destruct g as [child|] eqn:Hget
    end; cbn [getProp] in *; rewrite ?Hget; try reflexivity; now apply IH.
Qed.

(** X19. With [trackOriginalValue], the original value of an operation is
    what [get] reads, key by key, along the segments of the path of the
    operation: in the snapshot, and in the empty object for a new document.
    This holds as long as the segments hold neither a slash, nor a dot, nor a
    bracket, and no key of the snapshot holds a dot: the path is looked up
    with its slashes turned into dots, and lodash reads dots and brackets as
    separators.  When no segment names a member of a built-in prototype,
    what is read are own properties only: the value the snapshot holds at the
    path, or [undefined]. *)
Theorem tracked_original_value
  (document : Document) (entry : PatchOperation) (keys : list string)
  (props : list (string * value))
  (Hpath : path entry = String slash (join "/" keys))
  (Hkeys : keys <> [])
  (Hplain : Forall (fun key => plainName key = true) keys)
  (Horiginal : _original document = Some (VObj props))
  (Hprops : Forall (fun kv => contains "." (fst kv) = false) props) :
  originalValue (trackOriginal document entry)
  = readPath keys (if isNew document then VObj [] else VObj props) /\
  (ownNames keys = true ->
   originalValue (trackOriginal document entry)
   = if isNew document then Missing else ownLookup (baseGet keys (VObj props))).
Proof.
  assert (Hread : originalValue (trackOriginal document entry)
                  = readPath keys (if isNew document then VObj [] else VObj props)).
  { unfold trackOriginal. cbn [originalValue]. rewrite Hpath, Horiginal.
    rewrite dottedPath_join;
      [|exact Hkeys
       |eapply Forall_impl; [|exact Hplain]; intros k Hk;
        now apply plainName_contains in Hk].
    assert (Hget : forall ps,
               Forall (fun kv => contains "." (fst kv) = false) ps ->
               lodash_get (Some (VObj ps)) (join "." keys) = readPath keys (VObj ps)).
    { intros ps Hps. unfold lodash_get.
      rewrite (castPath_join keys ps Hkeys Hplain Hps).
      destruct keys; [contradiction | reflexivity]. }
    destruct (isNew document); [apply Hget; constructor | now apply Hget]. }
  split; [exact Hread|].
  intros Hown. rewrite Hread, (readPath_own _ _ Hown).
  destruct (isNew document); [|reflexivity].
  destruct keys as [|key keys]; [contradiction | reflexivity].
Qed.

Lemma tracked_original_value_witness :
  originalValue
    (trackOriginal
       (mkDocument (VNum 1) (VObj []) (Some hiddenDocument) false None [])
       (replaceOp "/object/array/1/property" (VStr "new")))
  = Found (VObj [("visible", VStr "v")]).
Proof.
  apply (proj2 (tracked_original_value
           (mkDocument (VNum 1) (VObj []) (Some hiddenDocument) false None [])
           (replaceOp "/object/array/1/property" (VStr "new"))
           ["object"; "array"; "1"; "property"]
           [("object", VObj [("array",
               threeElements (arrayElement [("hidden", VStr "h")] [])
                 (arrayElement [("visible", VStr "v")] [])
                 (arrayElement [("hidden", VStr "h")] []))])]
           eq_refl ltac:(discriminate) ltac:(repeat constructor) eq_refl
           ltac:(repeat constructor))).
  reflexivity.
Defined.

(** * Replaying a diff *)

(** ** JSON pointers *)

Lemma replace_pair_other (a b r x : ascii) (t : string) :
  x <> a -> replace_pair a b r (String x t) = String x (replace_pair a b r t).
Proof.
  intros Hx. simpl. destruct t as [|y s']; [reflexivity|].
  apply Ascii.eqb_neq in Hx. now rewrite Hx.
Qed.

Lemma replace_pair_second (a b r y : ascii) (s : string) :
  y <> b ->
  replace_pair a b r (String a (String y s)) = String a (replace_pair a b r (String y s)).
Proof.
  intros Hy. simpl. apply Ascii.eqb_neq in Hy. rewrite Hy, andb_false_r. reflexivity.
Qed.

Lemma replace_pair_hit (a b r : ascii) (s : string) :
  replace_pair a b r (String a (String b s)) = String r (replace_pair a b r s).
Proof. simpl. now rewrite !Ascii.eqb_refl. Qed.

Lemma unescape_escape (key : string) :
  unescapePathComponent (escapePathComponent key) = key.
Proof.
  unfold unescapePathComponent. induction key as [|c key IH]; [reflexivity|].
  cbn [escapePathComponent].
  destruct (Ascii.eqb_spec c "~") as [->|Htilde].
  - rewrite replace_pair_second by discriminate.
    rewrite (replace_pair_other "~" "1" "/" "0") by discriminate.
    rewrite replace_pair_hit. now rewrite IH.
  - destruct (Ascii.eqb_spec c slash) as [->|Hslash].
    + rewrite replace_pair_hit.
      rewrite replace_pair_other by discriminate. now rewrite IH.
    + rewrite replace_pair_other by exact Htilde.
      rewrite replace_pair_other by exact Htilde. now rewrite IH.
Qed.

Lemma escape_no_slash (key : string) : contains slash (escapePathComponent key) = false.
Proof.
  induction key as [|c key IH]; [reflexivity|]. cbn [escapePathComponent].
  destruct (Ascii.eqb_spec c "~") as [->|Htilde]; [exact IH|].
  destruct (Ascii.eqb_spec c slash) as [->|Hslash]; [exact IH|].
  simpl. apply Ascii.eqb_neq in Hslash. now rewrite Hslash.
Qed.

Lemma pointerOf_app (keys : list string) (key : string) :
  pointerOf (keys ++ [key]) = childPath (pointerOf keys) key.
Proof.
  unfold childPath. induction keys as [|k keys IH]; simpl.
  - now rewrite string_app_empty.
  - rewrite IH. now rewrite !string_app_assoc.
Qed.

Lemma split_slash_cons (rest : string) :
  split_slash (String slash rest) = "" :: split_slash rest.
Proof. reflexivity. Qed.

Lemma split_pointerOf (key : string) (keys : list string) :
  split_slash (pointerOf (key :: keys)) = "" :: map escapePathComponent (key :: keys).
Proof.
  revert key. induction keys as [|k keys IH]; intros key.
  - cbn [pointerOf]. rewrite string_app_empty.
    change ("/" ++ escapePathComponent key)%string
      with (String slash (escapePathComponent key)).
    rewrite split_slash_cons. unfold split_slash.
    now rewrite split_on_no_sep by apply escape_no_slash.
  - change (pointerOf (key :: k :: keys))
      with (String slash (escapePathComponent key ++ pointerOf (k :: keys))).
    rewrite split_slash_cons. f_equal.
    specialize (IH k).
    change (pointerOf (k :: keys))
      with (String slash (escapePathComponent k ++ pointerOf keys)) in IH |- *.
    rewrite split_slash_cons in IH. injection IH as IH.
    unfold split_slash in *.
    rewrite split_on_append by apply escape_no_slash.
    cbn [map]. f_equal. exact IH.
Qed.

Lemma pointerKeys_pointerOf (keys : list string) : pointerKeys (pointerOf keys) = keys.
Proof.
  unfold pointerKeys. destruct keys as [|key keys]; [reflexivity|].
  rewrite split_pointerOf. cbn [tl]. rewrite map_map.
  rewrite <- (map_id (key :: keys)) at 2. apply map_ext. apply unescape_escape.
Qed.

Lemma pointerOf_nonRoot (keys : list string) (key : string) :
  isRootPath (pointerOf (keys ++ [key])) = false /\
  starts_with_slash (pointerOf (keys ++ [key])) = true.
Proof. destruct keys; split; reflexivity. Qed.

(** ** Keys that read as numbers *)

Lemma digit_not_ws (c : ascii) : is_digit c = true -> is_ws c = false.
Proof.
  unfold is_digit, is_ws. intros H. apply andb_true_iff in H as [Hlo Hhi].
  apply Nat.leb_le in Hlo, Hhi.
  repeat rewrite orb_false_iff. repeat split; apply Z.eqb_neq; lia.
Qed.

Lemma digit_value_digit (c : ascii) :
  is_digit c = true ->
  digit_value 10 c = Some (Z.of_nat (nat_of_ascii c - 48)).
Proof.
  unfold is_digit, digit_value. intros H. apply andb_true_iff in H as [Hlo Hhi].
  apply Nat.leb_le in Hlo, Hhi.
  destruct (Z.leb_spec 48 (Z.of_nat (nat_of_ascii c))); [|lia].
  destruct (Z.leb_spec (Z.of_nat (nat_of_ascii c)) 57); [|lia]. simpl.
  destruct (Z.ltb_spec (Z.of_nat (nat_of_ascii c) - 48) 10); [|lia].
  f_equal. lia.
Qed.

Lemma digit_not_char (c x : ascii) :
  is_digit c = true -> is_digit x = false -> Ascii.eqb c x = false.
Proof.
  intros Hc Hx. destruct (Ascii.eqb_spec c x) as [->|]; [congruence | reflexivity].
Qed.

Lemma read_nat_digits (s : string) (acc m : nat) :
  read_nat s acc = Some m -> Forall (fun c => is_digit c = true) (ascii_list s).
Proof.
  revert acc. induction s as [|c s IH]; intros acc H; simpl; [constructor|].
  cbn [read_nat] in H. destruct (is_digit c) eqn:Hc; [|discriminate].
  constructor; [exact Hc | now apply IH with (10 * acc + (nat_of_ascii c - 48))%nat].
Qed.

Lemma read_digits_read_nat (s : string) (acc m cnt : nat) :
  read_nat s acc = Some m ->
  read_digits 10 (ascii_list s) (Z.of_nat acc) cnt
  = (Z.of_nat m, (cnt + String.length s)%nat, []).
Proof.
  revert acc cnt. induction s as [|c s IH]; intros acc cnt H.
  - simpl in *. injection H as <-. now rewrite Nat.add_0_r.
  - cbn [read_nat] in H. unfold ascii_list in *.
    cbn [list_ascii_of_string read_digits String.length].
    destruct (is_digit c) eqn:Hc; [|discriminate].
    rewrite (digit_value_digit c Hc).
    replace (Z.of_nat acc * 10 + Z.of_nat (nat_of_ascii c - 48))
      with (Z.of_nat (10 * acc + (nat_of_ascii c - 48))) by lia.
    rewrite (IH _ (S cnt) H). now rewrite Nat.add_succ_r.
Qed.

Lemma drop_ws_digits (l : list ascii) :
  match l with
  | c :: _ => is_ws c = false
  | [] => True
  end -> drop_ws l = l.
Proof. destruct l as [|c l]; [reflexivity|]. simpl. now intros ->. Qed.

Lemma trim_digits (l : list ascii) :
  Forall (fun c => is_digit c = true) l -> trim l = l.
Proof.
  intros H. unfold trim.
  assert (Hhead : forall l', Forall (fun c => is_digit c = true) l' -> drop_ws l' = l').
  { intros l' Hl'. apply drop_ws_digits. destruct Hl' as [|c t Hc _]; [exact I|].
    now apply digit_not_ws. }
  rewrite (Hhead l H), (Hhead (rev l)) by now apply Forall_rev.
  apply rev_involutive.
Qed.

Lemma to_binary64_integer (n : Z) :
  0 <= n < 2 ^ 53 ->
  Number_isInteger (to_binary64 false n 1) = true /\
  Number_ge0 (to_binary64 false n 1) = true.
Proof.
  intros Hn. unfold to_binary64.
  destruct (Z.eqb_spec n 0) as [->|Hne]; [now split|].
  assert (Hpos : 0 < n) by lia.
  assert (Hlog : 0 <= Z.log2 n < 53).
  { split; [apply Z.log2_nonneg|]. apply Z.log2_lt_pow2; lia. }
  assert (Hfloor : floor_log2_ratio n 1 = Z.log2 n).
  { unfold floor_log2_ratio, ratio_ge_pow2. change (Z.log2 1) with 0.
    rewrite Z.sub_0_r. destruct (Z.leb_spec 0 (Z.log2 n)); [|lia].
    destruct (Z.log2_spec n Hpos) as [Hlow _].
    destruct (Z.leb_spec (1 * 2 ^ Z.log2 n) n); [reflexivity | lia]. }
  rewrite Hfloor.
  assert (Hround : forall a, round_half_even a 1 = a).
  { intros a. unfold round_half_even. rewrite Z.mod_1_r, Z.div_1_r. reflexivity. }
  set (e := Z.max (Z.log2 n - 52) (-1074)).
  assert (He : e <= 0) by (unfold e; lia).
  destruct (Z.leb_spec 0 e) as [Hge|Hlt].
  - assert (e = 0) as -> by lia.
    change (1 * 2 ^ 0) with 1. rewrite Hround. change (2 ^ 0) with 1.
    rewrite Z.mul_1_r.
    assert (Hsmall : n < 2 ^ 1024).
    { apply Z.lt_trans with (2 ^ 53); [lia|]. apply Z.pow_lt_mono_r; lia. }
    destruct (Z.leb_spec (2 ^ 1024) n); [lia|]. simpl. now split.
  - rewrite Hround. simpl andb. cbn [Number_isInteger Number_ge0 negb orb].
    destruct (Z.leb_spec 0 e); [lia|]. split; [|reflexivity].
    apply Z.eqb_eq. apply Z.mod_mul.
    assert (0 < 2 ^ (- e)) by (apply Z.pow_pos_nonneg; lia). lia.
Qed.

Lemma parse_decimal_digits (s : string) (n : nat) :
  s <> ""%string -> read_nat s 0 = Some n ->
  parse_decimal false (ascii_list s) = to_binary64 false (Z.of_nat n) 1.
Proof.
  intros Hne Hread. unfold parse_decimal.
  pose proof (read_nat_digits _ _ _ Hread) as Hdigits.
  destruct (list_eq_dec ascii_dec (ascii_list s) (ascii_list "Infinity")) as [Heq|_].
  - rewrite Heq in Hdigits. inversion Hdigits as [|? ? Hc _]. discriminate.
  - change 0 with (Z.of_nat 0). rewrite (read_digits_read_nat s 0 n 0 Hread).
    simpl Nat.add. destruct s as [|c s]; [contradiction|].
    cbn [String.length Nat.add parse_exponent]. rewrite Z.sub_0_r.
    cbn [Z.of_nat Z.leb Z.compare]. now rewrite Z.pow_0_r, Z.mul_1_r.
Qed.

Lemma parse_number_digits (s : string) (n : nat) :
  s <> ""%string -> read_nat s 0 = Some n ->
  parse_number (ascii_list s) = to_binary64 false (Z.of_nat n) 1.
Proof.
  intros Hne Hread. pose proof (read_nat_digits _ _ _ Hread) as Hdigits.
  rewrite <- (parse_decimal_digits s n Hne Hread).
  destruct s as [|c [|x s]]; [contradiction | reflexivity|].
  cbn [ascii_list list_ascii_of_string] in *. unfold parse_number.
  inversion Hdigits as [|? ? Hc Hrest]; subst.
  inversion Hrest as [|? ? Hx _]; subst.
  unfold is_char.
  rewrite (digit_not_char x "x"), (digit_not_char x "X"), (digit_not_char x "o"),
    (digit_not_char x "O"), (digit_not_char x "b"), (digit_not_char x "B"),
    (digit_not_char c "-"), (digit_not_char c "+") by (assumption || reflexivity).
  rewrite !andb_false_r. reflexivity.
Qed.

Lemma string_of_nat_read (n : nat) :
  string_of_nat n <> ""%string /\ read_nat (string_of_nat n) 0 = Some n.
Proof.
  pose proof (array_index_string_of_nat n) as H. unfold array_index in H.
  destruct (string_of_nat n) as [|c [|x s]] eqn:Hs; [discriminate | |].
  - split; [discriminate | exact H].
  - split; [discriminate|]. now destruct (Ascii.eqb c "0").
Qed.

(** Every array index reads as a non-negative integer. *)
Lemma isIntegerGreaterEqual0_index (i : nat) :
  Z.of_nat i < 2 ^ 53 -> isIntegerGreaterEqual0 (Some (string_of_nat i)) = true.
Proof.
  intros Hi. destruct (string_of_nat_read i) as [Hne Hread].
  unfold isIntegerGreaterEqual0, Number.
  rewrite trim_digits by exact (read_nat_digits _ _ _ Hread).
  rewrite (parse_number_digits _ _ Hne Hread).
  destruct (to_binary64_integer (Z.of_nat i)) as [-> ->]; [lia | reflexivity].
Qed.

(** ** The wildcard and the numbers *)

Lemma digit_value_nonneg (radix : Z) (c : ascii) (d : Z) :
  digit_value radix c = Some d -> 0 <= d.
Proof.
  unfold digit_value.
  set (n := Z.of_nat (nat_of_ascii c)).
  destruct ((48 <=? n) && (n <=? 57)) eqn:H1.
  - apply andb_true_iff in H1 as [H1 _]. apply Z.leb_le in H1.
    destruct (n - 48 <? radix); [|discriminate]. intros H. injection H as <-. lia.
  - destruct ((97 <=? n) && (n <=? 102)) eqn:H2.
    + apply andb_true_iff in H2 as [H2 _]. apply Z.leb_le in H2.
      destruct (n - 87 <? radix); [|discriminate]. intros H. injection H as <-. lia.
    + destruct ((65 <=? n) && (n <=? 70)) eqn:H3.
      * apply andb_true_iff in H3 as [H3 _]. apply Z.leb_le in H3.
        destruct (n - 55 <? radix); [|discriminate]. intros H. injection H as <-. lia.
      * destruct (99 <? radix); [|discriminate]. intros H. injection H as <-. lia.
Qed.

Lemma read_digits_nonneg (radix : Z) (l : list ascii) (acc : Z) (n : nat) :
  0 <= radix -> 0 <= acc -> 0 <= fst (fst (read_digits radix l acc n)).
Proof.
  intros Hr. revert acc n. induction l as [|c l IH]; intros acc n Hacc; [exact Hacc|].
  cbn [read_digits]. destruct (digit_value radix c) as [d|] eqn:Hd; [|exact Hacc].
  apply IH. pose proof (digit_value_nonneg _ _ _ Hd). nia.
Qed.

Lemma round_half_even_nonneg (a b : Z) : 0 <= a -> 0 < b -> 0 <= round_half_even a b.
Proof.
  intros Ha Hb. unfold round_half_even.
  assert (Hq : 0 <= a / b) by (apply Z.div_pos; lia).
  destruct (2 * (a mod b) ?= b); [destruct (Z.even (a / b))| |]; lia.
Qed.

Lemma to_binary64_mant (negative : bool) (num den : Z) (neg' : bool) (m e : Z) :
  0 <= num -> 0 < den -> to_binary64 negative num den = Fin neg' m e -> 0 <= m.
Proof.
  intros Hnum Hden. unfold to_binary64.
  destruct (num =? 0); [intros H; injection H as _ <- _; lia|].
  set (x := Z.max (floor_log2_ratio num den - 52) (-1074)).
  destruct (Z.leb_spec 0 x) as [Hx|Hx].
  - assert (Hpow : 0 < 2 ^ x) by (apply Z.pow_pos_nonneg; lia).
    destruct ((true && (2 ^ 1024 <=? round_half_even num (den * 2 ^ x) * 2 ^ x)));
      [discriminate|].
    intros H. injection H as _ <- _. apply round_half_even_nonneg; nia.
  - assert (Hpow : 0 < 2 ^ (- x)) by (apply Z.pow_pos_nonneg; lia).
    cbn [andb]. intros H. injection H as _ <- _. apply round_half_even_nonneg; nia.
Qed.

Lemma parse_radix_mant (radix : Z) (l : list ascii) (negative : bool) (m e : Z) :
  0 <= radix -> parse_radix radix l = Fin negative m e -> 0 <= m.
Proof.
  intros Hr. unfold parse_radix.
  pose proof (read_digits_nonneg radix l 0 0 Hr (Z.le_refl 0)) as Hv.
  destruct (read_digits radix l 0 0) as [[v k] r]. cbn [fst] in Hv.
  destruct k as [|k]; [discriminate|]. destruct r; [|discriminate].
  apply to_binary64_mant; lia.
Qed.

Lemma parse_decimal_mant (sign : bool) (l : list ascii) (negative : bool) (m e : Z) :
  parse_decimal sign l = Fin negative m e -> 0 <= m.
Proof.
  unfold parse_decimal.
  destruct (list_eq_dec ascii_dec l (ascii_list "Infinity")); [discriminate|].
  pose proof (read_digits_nonneg 10 l 0 0 ltac:(lia) (Z.le_refl 0)) as Hip.
  destruct (read_digits 10 l 0 0) as [[ip ni] r1]. cbn [fst] in Hip.
  assert (Hmant : forall mant nf r2,
             (match r1 with
              | c :: t => if is_char c "." then read_digits 10 t ip 0 else (ip, O, r1)
              | [] => (ip, O, r1)
              end) = (mant, nf, r2) -> 0 <= mant).
  { intros mant nf r2 H. destruct r1 as [|c t]; [now injection H as <- _ _|].
    destruct (is_char c "."); [|now injection H as <- _ _].
    pose proof (read_digits_nonneg 10 t ip 0 ltac:(lia) Hip) as Hm.
    rewrite H in Hm. exact Hm. }
  destruct (match r1 with
            | c :: t => if is_char c "." then read_digits 10 t ip 0 else (ip, O, r1)
            | [] => (ip, O, r1)
            end) as [[mant nf] r2].
  specialize (Hmant mant nf r2 eq_refl).
  destruct (ni + nf)%nat; [discriminate|].
  destruct (parse_exponent r2) as [ex|]; [|discriminate].
  destruct (Z.leb_spec 0 (ex - Z.of_nat nf)) as [He|He].
  - apply to_binary64_mant; [|lia].
    assert (0 < 10 ^ (ex - Z.of_nat nf)) by (apply Z.pow_pos_nonneg; lia). nia.
  - apply to_binary64_mant; [exact Hmant|]. apply Z.pow_pos_nonneg; lia.
Qed.

(** The mantissa of a number that a string converts to is not negative. *)
Lemma Number_mant (entry : option string) (negative : bool) (m e : Z) :
  Number entry = Fin negative m e -> 0 <= m.
Proof.
  destruct entry as [s|]; [|discriminate]. unfold Number, parse_number.
  destruct (trim (ascii_list s)) as [|c [|x digits]].
  - intros H. injection H as _ <- _. lia.
  - apply parse_decimal_mant.
  - destruct (is_char c "0" && (is_char x "x" || is_char x "X"));
      [apply parse_radix_mant; lia|].
    destruct (is_char c "0" && (is_char x "o" || is_char x "O"));
      [apply parse_radix_mant; lia|].
    destruct (is_char c "0" && (is_char x "b" || is_char x "B"));
      [apply parse_radix_mant; lia|].
    destruct (is_char c "-"); [apply parse_decimal_mant|].
    destruct (is_char c "+"); apply parse_decimal_mant.
Qed.

(** The test of the wildcard is the criterion of the specification: the
    segment converts to a number that is an integer and not negative. *)
Lemma isIntegerGreaterEqual0_spec (seg : string) :
  isIntegerGreaterEqual0 (Some seg) = true <-> parsesAsNonNegativeInteger seg.
Proof.
  unfold isIntegerGreaterEqual0, parsesAsNonNegativeInteger.
  destruct (Number (Some seg)) as [|negative|negative m e] eqn:Hnum.
  - split; [discriminate | intros (n & _ & H); contradiction].
  - split; [discriminate | intros (n & _ & H); contradiction].
  - pose proof (Number_mant _ _ _ _ Hnum) as Hm.
    cbn [Number_isInteger Number_ge0 denotes].
    destruct (Z.leb_spec 0 e) as [He|He].
    + assert (Hpow : 0 < 2 ^ e) by (apply Z.pow_pos_nonneg; lia).
      split.
      * intros H. cbn [andb] in H. apply orb_true_iff in H as [H | H].
        -- apply negb_true_iff in H. subst negative. exists (m * 2 ^ e).
           split; [nia | reflexivity].
        -- apply Z.eqb_eq in H. subst m. exists 0. split; [lia|].
           now destruct negative.
      * intros (n & Hn & Heq). cbn [andb]. destruct negative; [|reflexivity].
        cbn [negb orb]. apply Z.eqb_eq. nia.
    + assert (Hpow : 0 < 2 ^ (- e)) by (apply Z.pow_pos_nonneg; lia).
      split.
      * intros H. apply andb_true_iff in H as [Hint Hge].
        apply Z.eqb_eq in Hint. apply Z.mod_divide in Hint; [|lia].
        destruct Hint as [q Hq]. apply orb_true_iff in Hge as [H | H].
        -- apply negb_true_iff in H. subst negative. exists q. split; [nia | exact Hq].
        -- apply Z.eqb_eq in H. subst m. exists 0. split; [lia|].
           destruct negative; cbv zeta; lia.
      * intros (n & Hn & Heq). apply andb_true_iff.
        assert (Hmn : m = n * 2 ^ (- e) /\ (negative = false \/ m = 0)).
        { cbv zeta in Heq. destruct negative.
          - assert (m = 0) by nia. split; [nia | now right].
          - split; [exact Heq | now left]. }
        destruct Hmn as [-> Hsign]. split.
        -- apply Z.eqb_eq. apply Z.mod_mul. lia.
        -- destruct Hsign as [-> | H0]; [reflexivity|].
           rewrite H0. apply orb_true_r.
Qed.

(** A decimal numeral below 2^53 converts to its number. *)
Lemma to_binary64_exact (n : Z) :
  0 <= n < 2 ^ 53 -> denotes (to_binary64 false n 1) n.
Proof.
  intros Hn. unfold to_binary64.
  destruct (Z.eqb_spec n 0) as [->|Hne]; [reflexivity|].
  assert (Hpos : 0 < n) by lia.
  assert (Hlog : 0 <= Z.log2 n < 53).
  { split; [apply Z.log2_nonneg|]. apply Z.log2_lt_pow2; lia. }
  assert (Hfloor : floor_log2_ratio n 1 = Z.log2 n).
  { unfold floor_log2_ratio, ratio_ge_pow2. change (Z.log2 1) with 0.
    rewrite Z.sub_0_r. destruct (Z.leb_spec 0 (Z.log2 n)); [|lia].
    destruct (Z.log2_spec n Hpos) as [Hlow _].
    destruct (Z.leb_spec (1 * 2 ^ Z.log2 n) n); [reflexivity | lia]. }
  rewrite Hfloor.
  assert (Hround : forall a, round_half_even a 1 = a).
  { intros a. unfold round_half_even. rewrite Z.mod_1_r, Z.div_1_r. reflexivity. }
  set (e := Z.max (Z.log2 n - 52) (-1074)).
  assert (He : e <= 0) by (unfold e; lia).
  destruct (Z.leb_spec 0 e) as [Hge|Hlt].
  - assert (e = 0) as -> by lia.
    change (1 * 2 ^ 0) with 1. rewrite Hround. change (2 ^ 0) with 1.
    rewrite Z.mul_1_r.
    assert (Hsmall : n < 2 ^ 1024).
    { apply Z.lt_trans with (2 ^ 53); [lia|]. apply Z.pow_lt_mono_r; lia. }
    destruct (Z.leb_spec (2 ^ 1024) n); [lia|]. cbn [andb denotes].
    change (0 <=? 0) with true. cbv iota. lia.
  - rewrite Hround. cbn [andb denotes].
    destruct (Z.leb_spec 0 e); [lia | reflexivity].
Qed.

Lemma index_parses (i : nat) :
  Z.of_nat i < 2 ^ 53 -> denotes (Number (Some (string_of_nat i))) (Z.of_nat i).
Proof.
  intros Hi. destruct (string_of_nat_read i) as [Hne Hread].
  unfold Number. rewrite trim_digits by exact (read_nat_digits _ _ _ Hread).
  rewrite (parse_number_digits _ _ Hne Hread). apply to_binary64_exact. lia.
Qed.

(** When an operation is dropped though no pattern is contained in its
    path, a pattern has pruned its value to nothing. *)
Lemma everyDeepRemove_false (excludes : list (list string))
  (patch p' : PatchOperation) :
  everyDeepRemove patch excludes = Ok (false, p') ->
  exists v', value_ p' = Some v' /\ Object_keys v' = Ok [].
Proof.
  revert patch. induction excludes as [|exclude excludes IH]; intros patch H;
    [discriminate|].
  cbn [everyDeepRemove] in H.
  destruct (deepRemovePath patch exclude) as [[b p1]|] eqn:Hd; [|discriminate].
  cbn [bind fst snd] in H. destruct b; [now apply IH with p1|].
  injection H as <-. unfold deepRemovePath in Hd.
  destruct (isPathContained _ exclude); [|discriminate].
  destruct (value_ patch) as [v|]; [|discriminate].
  destruct (walk _ (lastKeyOf exclude) v) as [[v'|]|]; cbn [bind] in Hd;
    try discriminate.
  destruct (Object_keys v') as [keys|] eqn:Hkeys; [|discriminate].
  cbn [bind] in Hd. injection Hd as Hb <-. exists v'. split; [reflexivity|].
  apply negb_false_iff, Nat.eqb_eq in Hb. destruct keys; [exact Hkeys | discriminate].
Qed.

(** C5. The containment check [isPathContained pattern concrete] is true
    exactly when every segment of the pattern has a segment of the concrete
    path at its position that it equals, or the pattern segment is the
    wildcard and the concrete segment parses as a non-negative integer: the
    number it converts to is an integer that is not negative, as is every
    decimal numeral.  A pattern is contained in every path it is a prefix of,
    and in no path shorter than itself.  Containment is the criterion of
    whole-operation exclusion: an operation whose path contains an exclude
    pattern is dropped by the filter as it is; an operation whose path
    contains none is kept when it has no value or no pattern reaches into its
    value, and is dropped only when a pattern has pruned its value to
    nothing. *)
Theorem isPathContained_criterion :
  (forall pattern concrete,
      isPathContained pattern concrete = true <->
      (forall i entry,
          nth_error pattern i = Some entry ->
          exists seg,
            nth_error concrete i = Some seg /\
            (entry = seg \/
             (entry = "*" /\ parsesAsNonNegativeInteger seg)))) /\
  (forall i : nat,
      Z.of_nat i < 2 ^ 53 ->
      denotes (Number (Some (string_of_nat i))) (Z.of_nat i)) /\
  (forall pattern rest, isPathContained pattern (pattern ++ rest) = true) /\
  (forall pattern concrete,
      (List.length concrete < List.length pattern)%nat ->
      isPathContained pattern concrete = false) /\
  (forall excludes patch,
      let contained :=
        existsb (fun exclude => isPathContained exclude (getArrayFromPath (path patch)))
          excludes in
      (contained = true -> keepOp excludes patch = Ok (false, patch)) /\
      (contained = false -> value_ patch = None ->
       keepOp excludes patch = Ok (true, patch)) /\
      (contained = false ->
       Forall (fun exclude => overlaps patch exclude = false) excludes ->
       keepOp excludes patch = Ok (true, patch)) /\
      (forall p',
          contained = false -> keepOp excludes patch = Ok (false, p') ->
          exists v', value_ p' = Some v' /\ Object_keys v' = Ok [])).
Proof.
  split.
  { intros pattern concrete. rewrite isPathContained_nth. split.
    - intros H i entry Hentry. destruct (H i entry Hentry) as (seg & Hseg & Hcase).
      exists seg. split; [exact Hseg|].
      destruct Hcase as [-> | [-> Hint]]; [now left | right].
      split; [reflexivity | now apply isIntegerGreaterEqual0_spec].
    - intros H i entry Hentry. destruct (H i entry Hentry) as (seg & Hseg & Hcase).
      exists seg. split; [exact Hseg|].
      destruct Hcase as [-> | [-> Hint]]; [now left | right].
      split; [reflexivity | now apply isIntegerGreaterEqual0_spec]. }
  split; [exact index_parses|].
  split; [exact isPathContained_prefix|].
  split.
  { intros pattern concrete Hlen.
    destruct (isPathContained pattern concrete) eqn:Hc; [|reflexivity].
    apply isPathContained_length in Hc. lia. }
  intros excludes patch contained. unfold keepOp. fold contained.
  split; [now intros ->|].
  split; [intros -> Hv; now apply everyDeepRemove_no_value|].
  split; [intros -> Hover; now apply everyDeepRemove_no_overlap|].
  intros p' -> H. now apply everyDeepRemove_false with excludes patch.
Qed.

(** ** A part of a document *)

Lemma replace_key_twice (key : string) (a b : value) (props : list (string * value)) :
  replace_key key a (replace_key key b props) = replace_key key a props.
Proof.
  induction props as [|[k x] props IH]; simpl; [reflexivity|].
  destruct (String.eqb key k) eqn:Hk; simpl; rewrite Hk; [reflexivity|].
  now rewrite IH.
Qed.

Lemma set_nth_twice (A : Type) (i : nat) (a b : A) (l : list A) :
  set_nth i a (set_nth i b l) = set_nth i a l.
Proof.
  revert i. induction l as [|x l IH]; intros [|i]; simpl; try reflexivity.
  now rewrite IH.
Qed.

Lemma elem_at_set_nth (elems : list (option value)) (i : nat) (c x : value) :
  elem_at elems i = Some c -> elem_at (set_nth i (Some x) elems) i = Some x.
Proof.
  unfold elem_at. intros H. rewrite nth_error_set_nth, Nat.eqb_refl.
  destruct (nth_error elems i); [reflexivity | discriminate].
Qed.

Lemma elem_at_length (elems : list (option value)) (i : nat) (c : value) :
  elem_at elems i = Some c -> (i < List.length elems)%nat.
Proof.
  unfold elem_at. intros H. apply nth_error_Some.
  destruct (nth_error elems i); [discriminate | discriminate H].
Qed.

(** The children that [getAt], [setAt] and the loop of [applyOperation]
    reach. *)
Lemma leafGet_cases (v : value) (key : string) (child : value) :
  leafGet v key = Some child ->
  (exists props, v = VObj props /\ assoc key props = Some child) \/
  (exists elems i, v = VArr elems /\ smallIndex key = Some i /\
                   elem_at elems i = Some child).
Proof.
  destruct v as [| | | |elems|props]; simpl; try discriminate.
  - destruct (smallIndex key) as [i|] eqn:Hi; [|discriminate].
    intros H. right. now exists elems, i.
  - intros H. left. now exists props.
Qed.

Lemma leafGet_isObject (v : value) (key : string) (child : value) :
  leafGet v key = Some child -> isObject v = true.
Proof. destruct v; simpl; try discriminate; reflexivity. Qed.

Lemma getAt_app (p q : list string) (root : value) :
  getAt (p ++ q) root
  = match getAt p root with
    | Some s => getAt q s
    | None => None
    end.
Proof.
  revert root. induction p as [|key p IH]; intros root; simpl; [reflexivity|].
  destruct (leafGet root key); [apply IH | reflexivity].
Qed.

Lemma getAt_setAt (p : list string) (root s s' : value) :
  getAt p root = Some s -> getAt p (setAt p s' root) = Some s'.
Proof.
  revert root. induction p as [|key p IH]; intros root H; simpl in *; [reflexivity|].
  destruct (leafGet root key) as [child|] eqn:Hchild; [|discriminate].
  destruct (leafGet_cases _ _ _ Hchild)
    as [(props & -> & Hk) | (elems & i & -> & Hi & Hk)].
  - simpl. rewrite assoc_replace_key, Hk, String.eqb_refl. now apply IH.
  - rewrite Hi. simpl. rewrite Hi, (elem_at_set_nth _ _ _ _ Hk). now apply IH.
Qed.

Lemma setAt_setAt (p : list string) (root s s1 s2 : value) :
  getAt p root = Some s -> setAt p s2 (setAt p s1 root) = setAt p s2 root.
Proof.
  revert root. induction p as [|key p IH]; intros root H; simpl in *; [reflexivity|].
  destruct (leafGet root key) as [child|] eqn:Hchild; [|discriminate].
  destruct (leafGet_cases _ _ _ Hchild)
    as [(props & -> & Hk) | (elems & i & -> & Hi & Hk)].
  - simpl. rewrite assoc_replace_key, Hk, String.eqb_refl.
    now rewrite replace_key_twice, (IH _ H).
  - rewrite Hi. simpl. rewrite Hi, (elem_at_set_nth _ _ _ _ Hk).
    now rewrite set_nth_twice, (IH _ H).
Qed.

Lemma setAt_same (p : list string) (root s : value) :
  getAt p root = Some s -> setAt p s root = root.
Proof.
  revert root. induction p as [|key p IH]; intros root H; simpl in *;
    [now injection H|].
  destruct (leafGet root key) as [child|] eqn:Hchild; [|discriminate].
  destruct (leafGet_cases _ _ _ Hchild)
    as [(props & -> & Hk) | (elems & i & -> & Hi & Hk)].
  - rewrite (IH _ H). now rewrite replace_key_same.
  - rewrite Hi, (IH _ H). apply elem_at_Some in Hk. now rewrite set_nth_same.
Qed.

Lemma setAt_app (p q : list string) (root s d : value) :
  getAt p root = Some s -> setAt (p ++ q) d root = setAt p (setAt q d s) root.
Proof.
  revert root. induction p as [|key p IH]; intros root H; simpl in *.
  - now injection H as ->.
  - destruct (leafGet root key) as [child|] eqn:Hchild; [|discriminate].
    now rewrite (IH _ H).
Qed.

(** *** The key of an element, as the loop reads it *)

Lemma truncate_to_binary64 (n : Z) :
  0 <= n < 2 ^ 53 -> truncate (to_binary64 false n 1) = Some n.
Proof.
  intros Hn. unfold to_binary64.
  destruct (Z.eqb_spec n 0) as [->|Hne]; [reflexivity|].
  assert (Hpos : 0 < n) by lia.
  assert (Hlog : 0 <= Z.log2 n < 53).
  { split; [apply Z.log2_nonneg|]. apply Z.log2_lt_pow2; lia. }
  assert (Hfloor : floor_log2_ratio n 1 = Z.log2 n).
  { unfold floor_log2_ratio, ratio_ge_pow2. change (Z.log2 1) with 0.
    rewrite Z.sub_0_r. destruct (Z.leb_spec 0 (Z.log2 n)); [|lia].
    destruct (Z.log2_spec n Hpos) as [Hlow _].
    destruct (Z.leb_spec (1 * 2 ^ Z.log2 n) n); [reflexivity | lia]. }
  rewrite Hfloor.
  assert (Hround : forall a, round_half_even a 1 = a).
  { intros a. unfold round_half_even. rewrite Z.mod_1_r, Z.div_1_r. reflexivity. }
  set (e := Z.max (Z.log2 n - 52) (-1074)).
  assert (He : e <= 0) by (unfold e; lia).
  destruct (Z.leb_spec 0 e) as [Hge|Hlt].
  - assert (e = 0) as -> by lia.
    change (1 * 2 ^ 0) with 1. rewrite Hround. change (2 ^ 0) with 1.
    rewrite Z.mul_1_r.
    assert (Hsmall : n < 2 ^ 1024).
    { apply Z.lt_trans with (2 ^ 53); [lia|]. apply Z.pow_lt_mono_r; lia. }
    destruct (Z.leb_spec (2 ^ 1024) n); [lia|]. cbn [andb truncate].
    change (0 <=? 0) with true. cbv iota. f_equal. lia.
  - rewrite Hround. cbn [andb truncate].
    destruct (Z.leb_spec 0 e); [lia|]. f_equal.
    apply Z.div_mul.
    assert (0 < 2 ^ (- e)) by (apply Z.pow_pos_nonneg; lia). lia.
Qed.

Lemma isInteger_digits (s : string) :
  Forall (fun c => is_digit c = true) (ascii_list s) -> isInteger s = true.
Proof.
  induction s as [|c s IH]; [reflexivity|]. unfold ascii_list. simpl.
  intros H. inversion H as [|? ? Hc Hs]; subst. rewrite Hc. now apply IH.
Qed.

Lemma array_index_read (key : string) (i : nat) :
  array_index key = Some i -> key <> ""%string /\ read_nat key 0 = Some i.
Proof.
  unfold array_index. destruct key as [|c [|x s]]; [discriminate | |].
  - intros H. split; [discriminate | exact H].
  - intros H. split; [discriminate|]. now destruct (Ascii.eqb c "0").
Qed.

(** A key that is the decimal form of a number below 2^31 is read as that
    number. *)
Lemma rawIndex_smallIndex (elems : list (option value)) (key : string) (i : nat) :
  smallIndex key = Some i -> rawIndex elems key = Some (Z.of_nat i).
Proof.
  unfold smallIndex. destruct (array_index key) as [j|] eqn:Hidx; [|discriminate].
  destruct (Z.ltb_spec (Z.of_nat j) (2 ^ 31)) as [Hlt|]; [|discriminate].
  intros H. injection H as ->.
  destruct (array_index_read key i Hidx) as [Hne Hread].
  pose proof (read_nat_digits _ _ _ Hread) as Hdigits.
  unfold rawIndex.
  assert (Hdash : String.eqb key "-" = false).
  { destruct (String.eqb_spec key "-") as [->|]; [|reflexivity].
    inversion Hdigits as [|? ? Hc _]. discriminate. }
  rewrite Hdash, (isInteger_digits key Hdigits). f_equal.
  unfold Number. rewrite trim_digits by exact Hdigits.
  rewrite (parse_number_digits _ _ Hne Hread).
  unfold toInt32. rewrite truncate_to_binary64 by lia.
  cbv zeta. rewrite Z.mod_small by lia.
  destruct (Z.ltb_spec (Z.of_nat i) (2 ^ 31)); [reflexivity | lia].
Qed.

Lemma arrayKey_smallIndex (elems : list (option value)) (key : string) (i : nat) :
  smallIndex key = Some i -> arrayKey elems key = Ok (Z.of_nat i).
Proof. intros H. unfold arrayKey. now rewrite (rawIndex_smallIndex elems key i H). Qed.

Lemma smallIndex_index (i : nat) :
  Z.of_nat i < 2 ^ 31 -> smallIndex (string_of_nat i) = Some i.
Proof.
  intros H. unfold smallIndex. rewrite array_index_string_of_nat.
  destruct (Z.ltb_spec (Z.of_nat i) (2 ^ 31)); [reflexivity | lia].
Qed.

Lemma smallIndex_array_index (key : string) (i : nat) :
  smallIndex key = Some i -> array_index key = Some i.
Proof.
  unfold smallIndex. destruct (array_index key) as [j|]; [|discriminate].
  destruct (Z.of_nat j <? 2 ^ 31); [congruence | discriminate].
Qed.

Lemma elementAt_nat (elems : list (option value)) (i : nat) :
  elementAt elems (Z.of_nat i) = elem_at elems i.
Proof.
  unfold elementAt. destruct (Z.ltb_spec (Z.of_nat i) 0); [lia|].
  now rewrite Nat2Z.id.
Qed.

(** *** The loop of [applyOperation] along a path that the document has *)

Lemma banned_plainKey (key previous : string) :
  plainKey key = true -> banned key previous = false.
Proof.
  unfold plainKey, banned. intros H. apply andb_true_iff in H as [Hp Hq].
  apply negb_true_iff in Hp, Hq. now rewrite Hp, Hq.
Qed.

Lemma memberOf_leafGet (obj : value) (key : string) (child : value) :
  leafGet obj key = Some child -> memberOf obj key = Own child.
Proof.
  intros H. unfold memberOf.
  destruct (leafGet_cases _ _ _ H) as [(props & -> & Hk) | (elems & i & -> & Hi & Hk)].
  - cbn [getProp]. now rewrite Hk.
  - cbn [getProp]. now rewrite (smallIndex_array_index key i Hi), Hk.
Qed.

Lemma descend_cons (operation : PatchOperation) (document : value)
  (fromCheck : result unit) (previous : string) (pending : bool)
  (key : string) (rest : list string) (obj child : value) :
  rest <> [] ->
  plainKey key = true ->
  leafGet obj key = Some child ->
  isObject child = true ->
  descend operation document fromCheck previous pending
    (escapePathComponent key :: rest) obj
  = (r <- descend operation document fromCheck (escapePathComponent key) pending
            rest child ;;
     Ok (option_map (fun child' => setAt [key] child' obj) r)).
Proof.
  intros Hrest Hkey Hchild Hobj. destruct rest as [|raw rest]; [contradiction|].
  remember (raw :: rest) as keys eqn:Heq.
  cbn [descend]. rewrite unescape_escape, (banned_plainKey key previous Hkey).
  rewrite (memberOf_leafGet obj key child Hchild).
  assert (Hcheck : pending && (negb true || match keys with [] => true | _ :: _ => false end)
                   = false).
  { subst keys. apply andb_false_r. }
  rewrite Hcheck, andb_true_r.
  destruct (leafGet_cases _ _ _ Hchild)
    as [(props & -> & Hk) | (elems & i & -> & Hi & Hk)].
  - cbn [bind]. subst keys. rewrite Hobj. cbn [setAt leafGet]. rewrite Hk.
    destruct (descend operation document fromCheck (escapePathComponent key) pending
                (raw :: rest) child) as [[c'|]|e]; reflexivity.
  - cbn [bind]. rewrite (arrayKey_smallIndex elems key i Hi). cbn [bind].
    subst keys. rewrite elementAt_nat, Hk, Hobj. cbn [setAt leafGet].
    rewrite Hi, Hk, Nat2Z.id.
    destruct (descend operation document fromCheck (escapePathComponent key) pending
                (raw :: rest) child) as [[c'|]|e]; reflexivity.
Qed.

(** The operation at the end of a path that the document has. *)
Lemma descend_at (operation : PatchOperation) (document : value)
  (fromCheck : result unit) (pending : bool)
  (prefix : list string) (rel : list string) (s : value) :
  rel <> [] -> protoFree prefix -> isObject s = true ->
  forall (previous : string) (root : value),
    getAt prefix root = Some s ->
    descend operation document fromCheck previous pending
      (map escapePathComponent prefix ++ rel) root
    = (r <- descend operation document fromCheck
              (last (map escapePathComponent prefix) previous) pending rel s ;;
       Ok (option_map (fun s' => setAt prefix s' root) r)).
Proof.
  intros Hrel Hplain Hobj.
  induction Hplain as [|key prefix Hkey _ IH]; intros previous root Hat.
  - simpl in Hat. injection Hat as ->. cbn [map app last setAt].
    destruct (descend operation document fromCheck previous pending rel s)
      as [[s'|]|e]; reflexivity.
  - simpl in Hat. destruct (leafGet root key) as [child|] eqn:Hchild; [|discriminate].
    assert (Hchildobj : isObject child = true).
    { destruct prefix as [|key' prefix'].
      - simpl in Hat. now injection Hat as ->.
      - simpl in Hat. destruct (leafGet child key') eqn:Hc; [|discriminate].
        now apply leafGet_isObject in Hc. }
    cbn [map app].
    rewrite (descend_cons operation document fromCheck previous pending key
               (map escapePathComponent prefix ++ rel) root child);
      [|intros Hnil; apply app_eq_nil in Hnil as [_ Hnil]; contradiction
       |exact Hkey | exact Hchild | exact Hchildobj].
    rewrite (IH (escapePathComponent key) child Hat).
    assert (Hlast : last (map escapePathComponent prefix) (escapePathComponent key)
                    = last (escapePathComponent key :: map escapePathComponent prefix)
                        previous).
    { destruct (map escapePathComponent prefix) as [|x l]; [reflexivity|].
      cbn [last]. clear. revert x. induction l as [|y l IHl]; intros x; [reflexivity|].
      cbn [last] in *. apply IHl. }
    rewrite Hlast.
    destruct (descend operation document fromCheck _ pending rel s) as [[s'|]|e];
      cbn [bind option_map]; try reflexivity.
    f_equal. f_equal.
    change (key :: prefix) with ([key] ++ prefix)%list.
    symmetry. rewrite (setAt_app [key] prefix root child s').
    + reflexivity.
    + simpl. now rewrite Hchild.
Qed.

Lemma descend_last (operation : PatchOperation) (document : value)
  (fromCheck : result unit) (previous : string) (key : string) (obj : value) :
  plainKey key = true -> isObject obj = true ->
  descend operation document fromCheck previous true [escapePathComponent key] obj
  = (_ <- validateExisting operation document fromCheck
            (match memberOf obj key with Absent => false | _ => true end) true ;;
     match obj with
     | VArr elems => k <- arrayKey elems key ;; arrayLeaf operation elems k
     | _ => objectLeaf operation obj key
     end).
Proof.
  intros Hkey Hobj. cbn [descend].
  rewrite unescape_escape, (banned_plainKey key previous Hkey), orb_true_r.
  cbn [andb]. destruct obj; try discriminate; reflexivity.
Qed.

Lemma getAt_isObject (prefix : list string) (root s : value) :
  getAt prefix root = Some s -> isObject s = true -> isObject root = true.
Proof.
  destruct prefix as [|key prefix]; simpl.
  - intros H. now injection H as ->.
  - destruct (leafGet root key) eqn:Hc; [|discriminate].
    intros _ _. now apply leafGet_isObject in Hc.
Qed.

Lemma isObject_truthy (v : value) : isObject v = true -> truthy v = true.
Proof. destruct v; try discriminate; reflexivity. Qed.

Lemma rawKeys_pointerOf (keys : list string) :
  rawKeys (pointerOf keys) = map escapePathComponent keys.
Proof.
  unfold rawKeys. destruct keys as [|key keys]; [reflexivity|].
  now rewrite split_pointerOf.
Qed.

(** ** Operations on a part of a document *)

Lemma jsonValue_hasUndefined (v : value) : jsonValue v = true -> hasUndefined v = false.
Proof.
  induction v as [|b|n|s|es IH|ps IH] using value_ind; intros H; try reflexivity.
  - simpl in *. apply andb_true_iff in H as [_ H].
    induction IH as [|o es Ho _ IHes]; [reflexivity|].
    destruct o as [x|]; [|discriminate].
    apply andb_true_iff in H as [Hx Hes]. simpl in Ho.
    now rewrite (Ho Hx), (IHes Hes).
  - simpl in *. apply andb_true_iff in H as [_ H].
    induction IH as [|[k x] ps Hx _ IHps]; [reflexivity|].
    apply andb_true_iff in H as [Hjx Hps]. simpl in Hx.
    now rewrite (Hx Hjx), (IHps Hps).
Qed.

Lemma transforms_nil (prefix : list string) (s : value) : transforms prefix [] s s.
Proof.
  split; [constructor|]. intros root Hat. simpl. now rewrite (setAt_same _ _ _ Hat).
Qed.

Lemma transforms_app (prefix : list string) (ops1 ops2 : list PatchOperation)
  (s s1 s2 : value) :
  transforms prefix ops1 s s1 -> transforms prefix ops2 s1 s2 ->
  transforms prefix (ops1 ++ ops2) s s2.
Proof.
  intros [Hn1 H1] [Hn2 H2]. split; [now apply Forall_app|].
  intros root Hat. rewrite applyAll_app, (H1 root Hat). cbn [bind].
  rewrite (H2 (setAt prefix s1 root) (getAt_setAt _ _ _ _ Hat)).
  now rewrite (setAt_setAt _ _ _ _ _ Hat).
Qed.

Lemma transforms_child (prefix : list string) (key : string)
  (ops : list PatchOperation) (s c c' : value) :
  leafGet s key = Some c ->
  transforms (prefix ++ [key]) ops c c' ->
  transforms prefix ops s (setAt [key] c' s).
Proof.
  intros Hc [Hn H]. split; [exact Hn|]. intros root Hat.
  rewrite (H root).
  - now rewrite (setAt_app _ _ _ _ _ Hat).
  - rewrite getAt_app, Hat. simpl. now rewrite Hc.
Qed.

(** An operation without [from] on a key of a part of the document: what
    it does to the part, it does to the document. *)
Lemma transforms_op (prefix : list string) (key : string) (operation : PatchOperation)
  (s s' : value) :
  protoFree (prefix ++ [key]) ->
  isObject s = true ->
  path operation = pointerOf (prefix ++ [key]) ->
  validator operation = Ok tt ->
  from operation = None ->
  (forall document, truthy document = true ->
     (_ <- validateExisting operation document (Ok tt)
             (match memberOf s key with Absent => false | _ => true end) true ;;
      match s with
      | VArr elems => k <- arrayKey elems key ;; arrayLeaf operation elems k
      | _ => objectLeaf operation s key
      end) = Ok (Some s')) ->
  transforms prefix [operation] s s'.
Proof.
  intros Hplain Hobj Hpath Hvalid Hfrom Hleaf.
  destruct (pointerOf_nonRoot prefix key) as [Hroot _].
  apply Forall_app in Hplain as [Hprefix Hkey].
  inversion Hkey as [|? ? Hk _]; subst.
  split.
  - constructor; [|constructor]. unfold nonRoot. now rewrite Hpath.
  - intros root Hat. simpl. unfold applyOperation. rewrite Hvalid. cbn [bind].
    rewrite Hpath, Hroot. unfold applyInside. rewrite Hfrom, Hpath.
    rewrite rawKeys_pointerOf, map_app. cbn [map].
    rewrite (descend_at operation root (Ok tt) true prefix
               [escapePathComponent key] s);
      [|discriminate | exact Hprefix | exact Hobj | exact Hat].
    rewrite (descend_last operation root (Ok tt) _ key s Hk Hobj).
    rewrite (Hleaf root (isObject_truthy _ (getAt_isObject _ _ _ Hat Hobj))).
    reflexivity.
Qed.

Lemma validator_value (kind : opkind) (pointer : string) (v : value) :
  (kind = op_add \/ kind = op_replace) ->
  starts_with_slash pointer = true ->
  jsonValue v = true ->
  validator (mkPatch kind pointer (Some v)) = Ok tt.
Proof.
  intros Hkind Hslash Hv. unfold validator, mkPatch. simpl.
  rewrite Hslash, orb_true_r, (jsonValue_hasUndefined _ Hv).
  now destruct Hkind as [-> | ->].
Qed.

Lemma set_key_replace_key (key : string) (v x : value) (props : list (string * value)) :
  assoc key props = Some x -> set_key key v props = replace_key key v props.
Proof.
  induction props as [|[k y] props IH]; simpl; [discriminate|].
  rewrite (String.eqb_sym k key) || idtac.
  destruct (String.eqb key k) eqn:Hk.
  - reflexivity.
  - intros H. f_equal. apply IH.
    now rewrite ?(String.eqb_sym k key), ?Hk in H.
Qed.

Lemma pad_holes_short (n : nat) (elems : list (option value)) :
  (n <= List.length elems)%nat -> pad_holes n elems = elems.
Proof.
  revert elems. induction n as [|n IH]; intros elems H; [reflexivity|].
  destruct elems as [|o elems]; [simpl in H; lia|].
  simpl. f_equal. apply IH. simpl in H. lia.
Qed.

Lemma spliceStart_nat (len i : nat) :
  (i <= len)%nat -> spliceStart len (Z.of_nat i) = i.
Proof.
  intros H. unfold spliceStart. destruct (Z.ltb_spec (Z.of_nat i) 0); [lia|].
  rewrite Nat2Z.id. lia.
Qed.

Lemma transforms_add (prefix : list string) (key : string) (v s s' : value) :
  protoFree (prefix ++ [key]) ->
  isObject s = true -> jsonValue v = true ->
  leafAdd v s key = Some s' ->
  transforms prefix [mkPatch op_add (childPath (pointerOf prefix) key) (Some v)] s s'.
Proof.
  intros Hplain Hobj Hv Hleaf. rewrite <- pointerOf_app.
  apply (transforms_op prefix key); try assumption; try reflexivity.
  - apply validator_value; [now left | apply pointerOf_nonRoot | exact Hv].
  - intros document Hdoc. unfold validateExisting. rewrite Hdoc.
    cbn [mkPatch op value_]. rewrite orb_true_r. cbn [bind].
    destruct s as [| | | |elems|props]; try discriminate.
    + cbn [leafAdd] in Hleaf. destruct (smallIndex key) as [i|] eqn:Hi; [|discriminate].
      rewrite (arrayKey_smallIndex elems key i Hi). cbn [bind].
      destruct (Nat.leb_spec i (List.length elems)) as [Hle|]; [|discriminate].
      injection Hleaf as <-. unfold arrayLeaf. cbn [mkPatch op value_].
      destruct (Z.ltb_spec (Z.of_nat (List.length elems)) (Z.of_nat i)); [lia|].
      now rewrite (spliceStart_nat _ _ Hle).
    + cbn [leafAdd] in Hleaf. injection Hleaf as <-. reflexivity.
Qed.

Lemma transforms_replace (prefix : list string) (key : string) (v s s' : value) :
  protoFree (prefix ++ [key]) ->
  isObject s = true -> jsonValue v = true ->
  leafReplace v s key = Some s' ->
  transforms prefix [mkPatch op_replace (childPath (pointerOf prefix) key) (Some v)] s s'.
Proof.
  intros Hplain Hobj Hv Hleaf. rewrite <- pointerOf_app.
  apply (transforms_op prefix key); try assumption; try reflexivity.
  - apply validator_value; [now right | apply pointerOf_nonRoot | exact Hv].
  - intros document Hdoc. unfold validateExisting. rewrite Hdoc.
    cbn [mkPatch op value_]. unfold leafReplace in Hleaf.
    destruct (leafGet s key) as [child|] eqn:Hchild; [|discriminate].
    rewrite (memberOf_leafGet s key child Hchild). cbn [bind].
    destruct (leafGet_cases _ _ _ Hchild)
      as [(props & -> & Hk) | (elems & i & -> & Hi & Hk)].
    + injection Hleaf as <-. cbn [objectLeaf mkPatch op value_].
      now rewrite (set_key_replace_key key v child props Hk).
    + rewrite Hi in Hleaf. injection Hleaf as <-.
      rewrite (arrayKey_smallIndex elems key i Hi). cbn [bind].
      unfold arrayLeaf. cbn [mkPatch op value_].
      destruct (Z.ltb_spec (Z.of_nat i) 0); [lia|].
      rewrite Nat2Z.id, pad_holes_short; [reflexivity|].
      apply elem_at_length in Hk. lia.
Qed.

Lemma transforms_remove (prefix : list string) (key : string) (s s' : value) :
  protoFree (prefix ++ [key]) ->
  isObject s = true ->
  leafRemove s key = Some s' ->
  transforms prefix [mkPatch op_remove (childPath (pointerOf prefix) key) None] s s'.
Proof.
  intros Hplain Hobj Hleaf. rewrite <- pointerOf_app.
  apply (transforms_op prefix key); try assumption; try reflexivity.
  - unfold validator, mkPatch. simpl.
    destruct (pointerOf_nonRoot prefix key) as [_ Hslash]. now rewrite Hslash, orb_true_r.
  - intros document Hdoc. unfold validateExisting. rewrite Hdoc.
    cbn [mkPatch op value_]. unfold leafRemove in Hleaf.
    destruct (leafGet s key) as [child|] eqn:Hchild; [|discriminate].
    rewrite (memberOf_leafGet s key child Hchild). cbn [bind].
    destruct (leafGet_cases _ _ _ Hchild)
      as [(props & -> & Hk) | (elems & i & -> & Hi & Hk)].
    + injection Hleaf as <-. reflexivity.
    + rewrite Hi in Hleaf. injection Hleaf as <-.
      rewrite (arrayKey_smallIndex elems key i Hi). cbn [bind].
      unfold arrayLeaf. cbn [mkPatch op value_].
      rewrite spliceStart_nat; [reflexivity|].
      apply elem_at_length in Hk. lia.
Qed.

(** ** The same value up to the order of keys *)

Lemma jsonValue_props (props : list (string * value)) :
  jsonValue (VObj props) = true ->
  NoDup (map fst props) /\
  Forall (fun kv => plainKey (fst kv) = true /\ jsonValue (snd kv) = true) props.
Proof.
  simpl. intros H. apply andb_true_iff in H as [H Hall].
  apply andb_true_iff in H as [Hd Hplain].
  split; [now apply distinct_NoDup|].
  clear Hd. induction props as [|[k x] props IH]; [constructor|].
  simpl in Hplain. apply andb_true_iff in Hplain as [Hk Hplain].
  apply andb_true_iff in Hall as [Hx Hall].
  constructor; [now split | now apply IH].
Qed.

Lemma jsonValue_elems (elems : list (option value)) :
  jsonValue (VArr elems) = true ->
  Forall (fun o => exists x, o = Some x /\ jsonValue x = true) elems.
Proof.
  cbn [jsonValue]. intros H. apply andb_true_iff in H as [_ H].
  induction elems as [|[x|] elems IH]; [constructor| |discriminate].
  apply andb_true_iff in H as [Hx H]. constructor; [now exists x | now apply IH].
Qed.

Lemma jsonValue_length (elems : list (option value)) :
  jsonValue (VArr elems) = true -> Z.of_nat (List.length elems) < 2 ^ 31.
Proof.
  cbn [jsonValue]. intros H. apply andb_true_iff in H as [H _].
  now apply Z.ltb_lt in H.
Qed.

Lemma sameJSON_refl (v : value) : jsonValue v = true -> sameJSON v v.
Proof.
  induction v as [|b|n|s|es IH|ps IH] using value_ind; intros H;
    try (now apply same_scalar).
  - apply jsonValue_elems in H. apply same_array; [reflexivity|].
    intros i Hi. destruct (nth_error es i) as [o|] eqn:Ho;
      [|apply nth_error_None in Ho; lia].
    pose proof (nth_error_In _ _ Ho) as Hin.
    rewrite Forall_forall in H, IH.
    destruct (H o Hin) as (x & -> & Hx). exists x, x.
    split; [reflexivity|]. split; [reflexivity|]. exact (IH _ Hin Hx).
  - apply jsonValue_props in H as [_ H]. apply same_object; [|auto].
    intros k x Hk. exists x. split; [exact Hk|].
    apply assoc_In in Hk. rewrite Forall_forall in H, IH.
    exact (IH _ Hk (proj2 (H _ Hk))).
Qed.

Lemma sameJSON_object (s : value) (qs : list (string * value)) :
  sameJSON s (VObj qs) ->
  exists ps, s = VObj ps /\
    (forall k x, assoc k ps = Some x -> exists y, assoc k qs = Some y /\ sameJSON x y) /\
    (forall k, assoc k ps = None -> assoc k qs = None).
Proof.
  intros H. inversion H as [v Hv|es fs|ps qs' Hsome Hnone]; subst.
  - discriminate.
  - now exists ps.
Qed.

Lemma sameJSON_array (s : value) (fs : list (option value)) :
  sameJSON s (VArr fs) ->
  exists es, s = VArr es /\ List.length es = List.length fs /\
    (forall i, (i < List.length es)%nat ->
               exists x y, nth_error es i = Some (Some x) /\
                           nth_error fs i = Some (Some y) /\ sameJSON x y).
Proof.
  intros H. inversion H as [v Hv|es fs' Hlen Hall|ps qs]; subst.
  - discriminate.
  - now exists es.
Qed.

Lemma sameJSON_isObject (a b : value) : sameJSON a b -> isObject a = isObject b.
Proof. intros H. now inversion H. Qed.

(** ** The diff of two objects *)

Lemma sameJSON_lookup (ps qs : list (string * value)) :
  sameJSON (VObj ps) (VObj qs) <-> forall k, sameOption (assoc k ps) (assoc k qs).
Proof.
  split.
  - intros H k. apply sameJSON_object in H as (ps' & Heq & Hsome & Hnone).
    injection Heq as <-. unfold sameOption.
    destruct (assoc k ps) as [x|] eqn:Hk.
    + destruct (Hsome k x Hk) as (y & -> & Hxy). exact Hxy.
    + now rewrite (Hnone k Hk).
  - intros H. apply same_object.
    + intros k x Hk. specialize (H k). rewrite Hk in H. unfold sameOption in H.
      destruct (assoc k qs) as [y|]; [now exists y | contradiction].
    + intros k Hk. specialize (H k). rewrite Hk in H. unfold sameOption in H.
      now destruct (assoc k qs).
Qed.

Lemma sameOption_refl (o : option value) :
  (forall x, o = Some x -> jsonValue x = true) -> sameOption o o.
Proof.
  intros H. destruct o as [x|]; simpl; [|exact I]. apply sameJSON_refl. now apply H.
Qed.

Lemma protoFree_snoc (prefix : list string) (key : string) :
  protoFree prefix -> plainKey key = true -> protoFree (prefix ++ [key]).
Proof. intros Hp Hk. apply Forall_app. split; [exact Hp | now constructor]. Qed.

Lemma assoc_replace_other (k key : string) (v : value) (props : list (string * value)) :
  k <> key -> assoc k (replace_key key v props) = assoc k props.
Proof.
  intros Hne. rewrite assoc_replace_key. apply String.eqb_neq in Hne. rewrite Hne.
  now destruct (assoc k props).
Qed.

Lemma assoc_replace_here (key : string) (v c : value) (props : list (string * value)) :
  assoc key props = Some c -> assoc key (replace_key key v props) = Some v.
Proof. intros H. now rewrite assoc_replace_key, H, String.eqb_refl. Qed.

Lemma in_keys_dec (k : string) (l : list (string * value)) :
  {In k (map fst l)} + {~ In k (map fst l)}.
Proof. apply in_dec, string_dec. Qed.

(** One key of [mirror]. *)
Lemma object_key_step (prefix : list string) (mp op sp : list (string * value))
  (key : string) (oldVal c : value) :
  protoFree prefix ->
  plainKey key = true ->
  jsonValue oldVal = true ->
  jsonValue (VObj op) = true ->
  replays oldVal ->
  assoc key sp = Some c -> sameJSON c oldVal ->
  exists sp',
    transforms prefix
      (fst (generateKey (generate oldVal) (VObj mp) (VObj op) (pointerOf prefix) key oldVal))
      (VObj sp) (VObj sp') /\
    sameOption (assoc key sp') (assoc key op) /\
    (forall k, k <> key -> assoc k sp' = assoc k sp) /\
    (snd (generateKey (generate oldVal) (VObj mp) (VObj op) (pointerOf prefix) key oldVal)
     = false -> assoc key op <> None).
Proof.
  intros Hprefix Hkey Hold Hop Hreplays Hc Hsame.
  pose proof (protoFree_snoc _ _ Hprefix Hkey) as Hpath.
  destruct (jsonValue_props _ Hop) as [Hnd Hvalues].
  unfold generateKey. cbn [ownProps isArray Bool.eqb].
  destruct (assoc key op) as [newVal|] eqn:Hnew.
  - assert (Hjnew : jsonValue newVal = true).
    { apply assoc_In in Hnew. rewrite Forall_forall in Hvalues.
      exact (proj2 (Hvalues _ Hnew)). }
    destruct (isObject oldVal && isObject newVal
              && Bool.eqb (isArray oldVal) (isArray newVal)) eqn:Hrec.
    + apply andb_true_iff in Hrec as [Hrec Harr].
      apply andb_true_iff in Hrec as [Hoo Hno]. apply Bool.eqb_prop in Harr.
      cbn [fst snd]. rewrite <- pointerOf_app.
      destruct (Hreplays newVal c (prefix ++ [key]) Hold Hjnew Hoo Hno Harr Hsame Hpath)
        as (c' & Htrans & Hc').
      exists (replace_key key c' sp). split.
      * assert (Hset : setAt [key] c' (VObj sp) = VObj (replace_key key c' sp))
          by (simpl; now rewrite Hc).
        rewrite <- Hset. apply transforms_child with c; [exact Hc | exact Htrans].
      * split; [now rewrite (assoc_replace_here _ _ _ _ Hc)|].
        split; [intros k Hk; now apply assoc_replace_other | discriminate].
    + destruct (strictNeq oldVal newVal) eqn:Hneq; cbn [fst snd].
      * exists (replace_key key newVal sp). split.
        -- apply transforms_replace; [exact Hpath | reflexivity | exact Hjnew|].
           unfold leafReplace. cbn [leafGet]. now rewrite Hc.
        -- split.
           ++ rewrite (assoc_replace_here _ _ _ _ Hc). simpl. now apply sameJSON_refl.
           ++ split; [intros k Hk; now apply assoc_replace_other | discriminate].
      * exists sp. split; [apply transforms_nil|].
        unfold strictNeq in Hneq.
        destruct (isObject oldVal || isObject newVal) eqn:Hobj; [discriminate|].
        apply negb_false_iff, value_eqb_eq in Hneq. subst newVal.
        split; [rewrite Hc; exact Hsame|]. split; [reflexivity | discriminate].
  - cbn [fst snd]. exists (remove_key key sp). split.
    + apply transforms_remove; [exact Hpath | reflexivity|].
      unfold leafRemove. cbn [leafGet]. now rewrite Hc.
    + split; [now rewrite assoc_remove_key, String.eqb_refl|].
      split; [|discriminate].
      intros k Hk. rewrite assoc_remove_key. apply String.eqb_neq in Hk. now rewrite Hk.
Qed.

(** The first loop over the keys of [mirror], in the order [l]. *)
Lemma object_olds (prefix : list string) (mp op : list (string * value))
  (l : list (string * value)) :
  protoFree prefix ->
  jsonValue (VObj op) = true ->
  NoDup (map fst l) ->
  Forall (fun kv => assoc (fst kv) mp = Some (snd kv) /\ plainKey (fst kv) = true /\
                    jsonValue (snd kv) = true /\ replays (snd kv)) l ->
  forall sp,
    (forall k, sameOption (assoc k sp)
                 (if in_keys_dec k l then assoc k mp else afterOlds mp op k)) ->
    exists sp',
      transforms prefix
        (concat (map fst (map (fun kv => generateKey (generate (snd kv)) (VObj mp) (VObj op)
                                           (pointerOf prefix) (fst kv) (snd kv)) l)))
        (VObj sp) (VObj sp') /\
      (forall k, sameOption (assoc k sp') (afterOlds mp op k)) /\
      (existsb snd (map (fun kv => generateKey (generate (snd kv)) (VObj mp) (VObj op)
                                     (pointerOf prefix) (fst kv) (snd kv)) l) = false ->
       forall kv, In kv l -> assoc (fst kv) op <> None).
Proof.
  intros Hprefix Hop Hnd Hall. induction Hall as [|[key oldVal] l Hkv Hall IH];
    intros sp Hinv.
  - exists sp. split; [apply transforms_nil|]. split; [|intros _ kv []].
    intros k. specialize (Hinv k). now destruct (in_keys_dec k []).
  - cbn [fst snd] in Hkv. destruct Hkv as (Hmp & Hkey & Hold & Hreplays).
    inversion Hnd as [|? ? Hnotin Hnd']; subst.
    assert (Hc : exists c, assoc key sp = Some c /\ sameJSON c oldVal).
    { specialize (Hinv key). destruct (in_keys_dec key ((key, oldVal) :: l)) as [_|Hn];
        [|exfalso; apply Hn; now left].
      rewrite Hmp in Hinv. unfold sameOption in Hinv.
      destruct (assoc key sp) as [c|]; [now exists c | contradiction]. }
    destruct Hc as (c & Hc & Hsame).
    destruct (object_key_step prefix mp op sp key oldVal c Hprefix Hkey Hold Hop
                Hreplays Hc Hsame) as (sp1 & Ht1 & Hhere & Hothers & Hkept).
    destruct (IH Hnd' sp1) as (sp' & Ht2 & Hfinal & Hkept').
    { intros k. destruct (String.eqb_spec k key) as [->|Hne].
      - destruct (in_keys_dec key l) as [Hin|_]; [contradiction|].
        unfold afterOlds. rewrite Hmp. exact Hhere.
      - rewrite (Hothers k Hne). specialize (Hinv k).
        destruct (in_keys_dec k ((key, oldVal) :: l)) as [Hin|Hn],
                 (in_keys_dec k l) as [Hin'|Hn']; try exact Hinv.
        + destruct Hin as [Heq|Hin]; [simpl in Heq; congruence | contradiction].
        + exfalso. apply Hn. now right. }
    exists sp'. cbn [map concat fst snd]. split; [|split].
    + eapply transforms_app; [exact Ht1 | exact Ht2].
    + exact Hfinal.
    + cbn [existsb]. intros Hdel. apply orb_false_iff in Hdel as [Hd1 Hd2].
      intros kv [<- | Hin]; [now apply Hkept | now apply Hkept'].
Qed.

(** The second loop: the keys of [obj] that [mirror] lacks. *)
Lemma object_adds (prefix : list string) (mp op : list (string * value))
  (l : list (string * value)) :
  protoFree prefix ->
  NoDup (map fst l) ->
  Forall (fun kv => assoc (fst kv) op = Some (snd kv) /\ plainKey (fst kv) = true /\
                    jsonValue (snd kv) = true) l ->
  forall sp,
    (forall k, sameOption (assoc k sp)
                 (if in_keys_dec k l then afterOlds mp op k else assoc k op)) ->
    exists sp',
      transforms prefix
        (flat_map
           (fun kv =>
              match assoc (fst kv) mp with
              | Some _ => []
              | None => [mkPatch op_add (childPath (pointerOf prefix) (fst kv))
                           (Some (snd kv))]
              end) l)
        (VObj sp) (VObj sp') /\
      (forall k, sameOption (assoc k sp') (assoc k op)).
Proof.
  intros Hprefix Hnd Hall. induction Hall as [|[key v] l Hkv Hall IH]; intros sp Hinv.
  - exists sp. split; [apply transforms_nil|].
    intros k. specialize (Hinv k). now destruct (in_keys_dec k []).
  - cbn [fst snd] in Hkv. destruct Hkv as (Hop & Hkey & Hv).
    inversion Hnd as [|? ? Hnotin Hnd']; subst.
    pose proof (protoFree_snoc _ _ Hprefix Hkey) as Hpath.
    assert (Hstep : exists sp1,
               transforms prefix
                 (match assoc key mp with
                  | Some _ => []
                  | None => [mkPatch op_add (childPath (pointerOf prefix) key) (Some v)]
                  end) (VObj sp) (VObj sp1) /\
               sameOption (assoc key sp1) (assoc key op) /\
               (forall k, k <> key -> assoc k sp1 = assoc k sp)).
    { destruct (assoc key mp) as [oldVal|] eqn:Hmp.
      - exists sp. split; [apply transforms_nil|]. split; [|reflexivity].
        specialize (Hinv key).
        destruct (in_keys_dec key ((key, v) :: l)) as [_|Hn];
          [|exfalso; apply Hn; now left].
        unfold afterOlds in Hinv. now rewrite Hmp in Hinv.
      - exists (set_key key v sp). split.
        + apply transforms_add; [exact Hpath | reflexivity | exact Hv | reflexivity].
        + split.
          * rewrite assoc_set_key, String.eqb_refl, Hop. simpl. now apply sameJSON_refl.
          * intros k Hk. rewrite assoc_set_key. apply String.eqb_neq in Hk.
            now rewrite Hk. }
    destruct Hstep as (sp1 & Ht1 & Hhere & Hothers).
    destruct (IH Hnd' sp1) as (sp' & Ht2 & Hfinal).
    { intros k. destruct (String.eqb_spec k key) as [->|Hne].
      - destruct (in_keys_dec key l) as [Hin|_]; [contradiction | exact Hhere].
      - rewrite (Hothers k Hne). specialize (Hinv k).
        destruct (in_keys_dec k ((key, v) :: l)) as [Hin|Hn],
                 (in_keys_dec k l) as [Hin'|Hn']; try exact Hinv.
        + destruct Hin as [Heq|Hin]; [simpl in Heq; congruence | contradiction].
        + exfalso. apply Hn. now right. }
    exists sp'. split; [|exact Hfinal].
    cbn [flat_map fst snd]. eapply transforms_app; [exact Ht1 | exact Ht2].
Qed.

Lemma assoc_in_keys (k : string) (props : list (string * value)) :
  In k (map fst props) <-> assoc k props <> None.
Proof.
  induction props as [|[k' v] props IH]; simpl.
  - split; [contradiction | congruence].
  - destruct (String.eqb_spec k k') as [->|Hne].
    + split; [discriminate | now left].
    + rewrite <- IH. split; [intros [Heq|H]; [congruence | exact H] | now right].
Qed.

Lemma existsb_rev (A : Type) (f : A -> bool) (l : list A) :
  existsb f (rev l) = existsb f l.
Proof.
  induction l as [|x l IH]; [reflexivity|]. simpl.
  rewrite existsb_app, IH. simpl. rewrite orb_false_r. apply orb_comm.
Qed.

Lemma flat_map_nil (A B : Type) (f : A -> list B) (l : list A) :
  (forall x, In x l -> f x = []) -> flat_map f l = [].
Proof.
  induction l as [|x l IH]; intros H; [reflexivity|]. simpl.
  rewrite (H x) by now left. apply IH. intros y Hy. apply H. now right.
Qed.

Lemma generate_object (props : list (string * value)) (obj : value) (pointer : string) :
  generate (VObj props) obj pointer
  = finishGenerate (VObj props) obj pointer
      (map (fun kv => generateKey (generate (snd kv)) (VObj props) obj pointer
                        (fst kv) (snd kv)) props).
Proof.
  cbn [generate]. f_equal.
  generalize (VObj props). intros mirror.
  induction props as [|[key oldVal] l IH]; [reflexivity|].
  cbn [map fst snd]. now rewrite IH.
Qed.

Lemma in_keys_rev (k : string) (l : list (string * value)) :
  In k (map fst (rev l)) <-> In k (map fst l).
Proof. rewrite map_rev. symmetry. apply in_rev. Qed.

(** The diff of two objects replays, when the diffs of the values of the
    first do. *)
Lemma replays_object (mp : list (string * value)) :
  Forall (fun kv => replays (snd kv)) mp -> replays (VObj mp).
Proof.
  intros IH obj s prefix Hmirror Hobj _ Hobject Harray Hsame Hprefix.
  destruct obj as [| | | |fs|op]; try discriminate.
  destruct (jsonValue_props _ Hmirror) as [Hndm Hvm].
  destruct (jsonValue_props _ Hobj) as [Hndo Hvo].
  apply sameJSON_object in Hsame as (sp & -> & Hsome & Hnone).
  assert (Hlookup : forall k, sameOption (assoc k sp) (assoc k mp)).
  { apply sameJSON_lookup. now apply same_object. }
  rewrite generate_object. unfold finishGenerate.
  set (perKey := map _ mp).
  (* the first loop, from the last key to the first *)
  destruct (object_olds prefix mp op (rev mp) Hprefix Hobj) with (sp := sp)
    as (sp1 & Ht1 & Hafter & Hkept).
  { rewrite map_rev. apply NoDup_rev. exact Hndm. }
  { apply Forall_rev. apply Forall_forall. intros [key oldVal] Hin. cbn [fst snd].
    rewrite Forall_forall in Hvm, IH.
    split; [now apply assoc_NoDup_In|].
    split; [exact (proj1 (Hvm _ Hin))|].
    split; [exact (proj2 (Hvm _ Hin)) | exact (IH _ Hin)]. }
  { intros k. destruct (in_keys_dec k (rev mp)) as [Hin|Hn]; [apply Hlookup|].
    rewrite in_keys_rev, assoc_in_keys in Hn.
    unfold afterOlds. specialize (Hlookup k).
    destruct (assoc k mp); [exfalso; apply Hn; discriminate | exact Hlookup]. }
  assert (Holds : concat (map fst (rev perKey))
                  = concat (map fst (map (fun kv =>
                      generateKey (generate (snd kv)) (VObj mp) (VObj op)
                        (pointerOf prefix) (fst kv) (snd kv)) (rev mp)))).
  { unfold perKey. now rewrite <- map_rev. }
  (* the second loop *)
  destruct (object_adds prefix mp op op Hprefix Hndo) with (sp := sp1)
    as (sp2 & Ht2 & Hfinal).
  { apply Forall_forall. intros [key v] Hin. cbn [fst snd].
    rewrite Forall_forall in Hvo.
    split; [now apply assoc_NoDup_In|]. exact (Hvo _ Hin). }
  { intros k. destruct (in_keys_dec k op) as [Hin|Hn]; [apply Hafter|].
    rewrite assoc_in_keys in Hn. specialize (Hafter k). unfold afterOlds in *.
    destruct (assoc k op) as [v|] eqn:Hk; [exfalso; apply Hn; discriminate|].
    now destruct (assoc k mp). }
  change (transforms prefix (generateAdds (VObj mp) (VObj op) (pointerOf prefix))
            (VObj sp1) (VObj sp2)) in Ht2.
  exists (VObj sp2). split; [|now apply sameJSON_lookup].
  rewrite Holds.
  destruct (negb (existsb snd perKey)
            && Nat.eqb (List.length (ownProps (VObj op)))
                 (List.length (ownProps (VObj mp)))) eqn:Hskip.
  - (* nothing was removed and the numbers of keys agree: nothing to add *)
    apply andb_true_iff in Hskip as [Hdel Hlen].
    apply negb_true_iff in Hdel. apply Nat.eqb_eq in Hlen. cbn [ownProps] in Hlen.
    assert (Hsub : incl (map fst mp) (map fst op)).
    { intros k Hk. apply in_map_iff in Hk as ([k' v] & <- & Hin).
      apply assoc_in_keys. apply (Hkept) with (kv := (k', v)); [|now apply in_rev in Hin].
      rewrite map_rev, existsb_rev. exact Hdel. }
    assert (Hsup : incl (map fst op) (map fst mp)).
    { apply NoDup_length_incl; [exact Hndm | rewrite !length_map; lia | exact Hsub]. }
    assert (Hadds : generateAdds (VObj mp) (VObj op) (pointerOf prefix) = []).
    { unfold generateAdds. cbn [ownProps]. apply flat_map_nil.
      intros kv Hin. destruct (assoc (fst kv) mp) eqn:Hk; [reflexivity|].
      exfalso. apply (proj1 (assoc_in_keys (fst kv) mp)); [|exact Hk].
      apply Hsup. now apply in_map. }
    rewrite Hadds in Ht2. rewrite <- (app_nil_r (concat _)).
    eapply transforms_app; [exact Ht1 | exact Ht2].
  - eapply transforms_app; [exact Ht1 | exact Ht2].
Qed.

(** ** The diff of two arrays *)

Lemma jsonValue_array (elems : list (option value)) :
  jsonValue (VArr elems) = true ->
  exists xs, elems = map Some xs /\ Forall (fun x => jsonValue x = true) xs.
Proof.
  intros H. apply jsonValue_elems in H.
  induction H as [|o elems (x & -> & Hx) _ (xs & -> & Hxs)]; [now exists []|].
  exists (x :: xs). split; [reflexivity | now constructor].
Qed.

Lemma index_protoFree (i : nat) : plainKey (string_of_nat i) = true.
Proof.
  pose proof (array_index_string_of_nat i) as Hi. unfold plainKey.
  apply andb_true_iff. split; apply negb_true_iff, String.eqb_neq; intros Heq;
    rewrite Heq in Hi; discriminate.
Qed.

Lemma assoc_index (elems : list (option value)) (i : nat) :
  assoc (string_of_nat i) (indexed_from 0 elems) = elem_at elems i.
Proof. rewrite assoc_indexed_from. simpl. now rewrite Nat.sub_0_r. Qed.

Lemma elem_at_values (xs : list value) (i : nat) :
  elem_at (map Some xs) i = nth_error xs i.
Proof.
  unfold elem_at. rewrite nth_error_map. now destruct (nth_error xs i).
Qed.

Lemma length_remove_nth (A : Type) (i : nat) (l : list A) :
  (i < List.length l)%nat -> List.length (remove_nth i l) = (List.length l - 1)%nat.
Proof.
  revert i. induction l as [|x l IH]; intros i H; simpl in H; [lia|].
  destruct i as [|i]; simpl; [lia|]. rewrite IH by lia. lia.
Qed.

Lemma nth_error_remove_nth (A : Type) (i j : nat) (l : list A) :
  (j < i)%nat -> nth_error (remove_nth i l) j = nth_error l j.
Proof.
  revert i j. induction l as [|x l IH]; intros [|i] [|j] H; simpl; try reflexivity;
    try lia.
  apply IH. lia.
Qed.

Lemma insert_nth_end (A : Type) (a : A) (l : list A) :
  insert_nth (List.length l) a l = l ++ [a].
Proof. induction l as [|x l IH]; simpl; [reflexivity | now rewrite IH]. Qed.

Lemma perKeyElems_app (mirror obj : value) (pointer : string) (i : nat)
  (xs : list value) (x : value) :
  perKeyElems mirror obj pointer i (map Some (xs ++ [x]))
  = perKeyElems mirror obj pointer i (map Some xs)
    ++ [generateKey (generate x) mirror obj pointer
          (string_of_nat (i + List.length xs)) x].
Proof.
  revert i. induction xs as [|y xs IH]; intros i; simpl.
  - now rewrite Nat.add_0_r.
  - rewrite IH. now rewrite Nat.add_succ_r.
Qed.

Lemma generate_array (elems : list (option value)) (obj : value) (pointer : string) :
  generate (VArr elems) obj pointer
  = finishGenerate (VArr elems) obj pointer
      (perKeyElems (VArr elems) obj pointer 0 elems).
Proof.
  cbn [generate]. f_equal.
  generalize (VArr elems). intros mirror. generalize 0%nat.
  induction elems as [|[x|] l IH]; intros i; [reflexivity| |];
    cbn [perKeyElems]; now rewrite IH.
Qed.

(** One index of [mirror]. *)
Lemma array_key_step (prefix : list string) (es : list (option value))
  (ys : list value) (ss : list (option value)) (i : nat) (oldVal c : value) :
  protoFree prefix ->
  Z.of_nat i < 2 ^ 31 ->
  jsonValue oldVal = true ->
  Forall (fun y => jsonValue y = true) ys ->
  replays oldVal ->
  nth_error ss i = Some (Some c) -> sameJSON c oldVal ->
  exists ss',
    transforms prefix
      (fst (generateKey (generate oldVal) (VArr es) (VArr (map Some ys))
              (pointerOf prefix) (string_of_nat i) oldVal))
      (VArr ss) (VArr ss') /\
    ((i < List.length ys)%nat ->
     List.length ss' = List.length ss /\
     (exists c' y, nth_error ss' i = Some (Some c') /\ nth_error ys i = Some y /\
                   sameJSON c' y) /\
     (forall j, j <> i -> nth_error ss' j = nth_error ss j)) /\
    ((List.length ys <= i)%nat -> ss' = remove_nth i ss).
Proof.
  intros Hprefix Hsmall Hold Hys Hreplays Hc Hsame.
  pose proof (protoFree_snoc _ _ Hprefix (index_protoFree i)) as Hpath.
  pose proof (smallIndex_index i Hsmall) as Hindex.
  assert (Helem : elem_at ss i = Some c) by now apply elem_at_Some.
  assert (Hget : leafGet (VArr ss) (string_of_nat i) = Some c).
  { cbn [leafGet]. now rewrite Hindex. }
  assert (Hset : forall x, setAt [string_of_nat i] x (VArr ss)
                           = VArr (set_nth i (Some x) ss)).
  { intros x. cbn [setAt]. rewrite Hget. now rewrite Hindex. }
  assert (Hupdated : forall x y,
             nth_error ys i = Some y -> sameJSON x y ->
             List.length (set_nth i (Some x) ss) = List.length ss /\
             (exists c' y, nth_error (set_nth i (Some x) ss) i = Some (Some c') /\
                           nth_error ys i = Some y /\ sameJSON c' y) /\
             (forall j, j <> i -> nth_error (set_nth i (Some x) ss) j = nth_error ss j)).
  { intros x y Hy Hxy. split; [apply length_set_nth|]. split.
    - exists x, y. rewrite nth_error_set_nth, Nat.eqb_refl, Hc. now split.
    - intros j Hj. rewrite nth_error_set_nth.
      destruct (Nat.eqb_spec i j) as [->|_]; [contradiction | reflexivity]. }
  unfold generateKey. cbn [ownProps isArray Bool.eqb].
  rewrite assoc_index, elem_at_values.
  destruct (nth_error ys i) as [newVal|] eqn:Hnew.
  - assert (Hlt : (i < List.length ys)%nat) by (apply nth_error_Some; congruence).
    assert (Hjnew : jsonValue newVal = true).
    { rewrite Forall_forall in Hys. apply Hys. now apply nth_error_In with i. }
    destruct (isObject oldVal && isObject newVal
              && Bool.eqb (isArray oldVal) (isArray newVal)) eqn:Hrec.
    + apply andb_true_iff in Hrec as [Hrec Harr].
      apply andb_true_iff in Hrec as [Hoo Hno]. apply Bool.eqb_prop in Harr.
      cbn [fst snd]. rewrite <- pointerOf_app.
      destruct (Hreplays newVal c (prefix ++ [string_of_nat i]) Hold Hjnew Hoo Hno Harr
                  Hsame Hpath) as (c' & Htrans & Hc').
      exists (set_nth i (Some c') ss). split.
      * rewrite <- Hset. apply transforms_child with c; [exact Hget | exact Htrans].
      * split; [intros _; exact (Hupdated c' newVal eq_refl Hc') | lia].
    + destruct (strictNeq oldVal newVal) eqn:Hneq; cbn [fst snd].
      * exists (set_nth i (Some newVal) ss). split.
        -- apply transforms_replace; [exact Hpath | reflexivity | exact Hjnew|].
           unfold leafReplace. rewrite Hget. now rewrite Hindex.
        -- split; [intros _;
                   exact (Hupdated newVal newVal eq_refl (sameJSON_refl _ Hjnew))
                  | lia].
      * exists ss. split; [apply transforms_nil|].
        unfold strictNeq in Hneq.
        destruct (isObject oldVal || isObject newVal) eqn:Hobj; [discriminate|].
        apply negb_false_iff, value_eqb_eq in Hneq. subst newVal.
        split; [|lia]. intros _. split; [reflexivity|]. split; [|reflexivity].
        now exists c, oldVal.
  - assert (Hge : (List.length ys <= i)%nat) by now apply nth_error_None.
    cbn [fst snd]. exists (remove_nth i ss). split.
    + apply transforms_remove; [exact Hpath | reflexivity|].
      unfold leafRemove. rewrite Hget. now rewrite Hindex.
    + split; [lia | reflexivity].
Qed.

(** The first loop over the elements of [mirror], from the last to the
    first; [M] is the length of [mirror], [xs] the elements yet to visit. *)
Lemma array_olds (prefix : list string) (es : list (option value)) (ys : list value)
  (M : nat) :
  protoFree prefix ->
  Z.of_nat M < 2 ^ 31 ->
  Forall (fun y => jsonValue y = true) ys ->
  forall xs,
    Forall (fun x => jsonValue x = true /\ replays x) xs ->
    (List.length xs <= M)%nat ->
    forall ss,
      List.length ss = Nat.max (List.length xs) (Nat.min M (List.length ys)) ->
      (forall j x, nth_error xs j = Some x ->
                   exists c, nth_error ss j = Some (Some c) /\ sameJSON c x) ->
      (forall j, (List.length xs <= j)%nat -> (j < List.length ss)%nat ->
                 exists c y, nth_error ss j = Some (Some c) /\ nth_error ys j = Some y /\
                             sameJSON c y) ->
      exists ss',
        transforms prefix
          (concat (map fst (rev (perKeyElems (VArr es) (VArr (map Some ys))
                                   (pointerOf prefix) 0 (map Some xs)))))
          (VArr ss) (VArr ss') /\
        List.length ss' = Nat.min M (List.length ys) /\
        (forall j, (j < List.length ss')%nat ->
                   exists c y, nth_error ss' j = Some (Some c) /\
                               nth_error ys j = Some y /\ sameJSON c y).
Proof.
  intros Hprefix Hsmall Hys xs. induction xs as [|x xs IH] using rev_ind;
    intros Hxs HM ss Hlen Hleft Hright.
  - exists ss. split; [apply transforms_nil|]. simpl in Hlen.
    split; [exact Hlen|]. intros j Hj. apply Hright; [simpl; lia | exact Hj].
  - apply Forall_app in Hxs as [Hxs Hx]. inversion Hx as [|? ? [Hjx Hrx] _]; subst.
    rewrite length_app in HM, Hlen. simpl in HM, Hlen.
    set (i := List.length xs) in *.
    destruct (Hleft i x) as (c & Hc & Hsame).
    { rewrite nth_error_app2 by (unfold i; lia).
      unfold i. now rewrite Nat.sub_diag. }
    destruct (array_key_step prefix es ys ss i x c Hprefix ltac:(unfold i; lia)
                Hjx Hys Hrx Hc Hsame)
      as (ss1 & Ht1 & Hin & Hout).
    rewrite perKeyElems_app, rev_app_distr. cbn [rev app map concat Nat.add].
    fold i.
    assert (Hnext : exists ss',
               transforms prefix
                 (concat (map fst (rev (perKeyElems (VArr es) (VArr (map Some ys))
                                          (pointerOf prefix) 0 (map Some xs)))))
                 (VArr ss1) (VArr ss') /\
               List.length ss' = Nat.min M (List.length ys) /\
               (forall j, (j < List.length ss')%nat ->
                          exists c y, nth_error ss' j = Some (Some c) /\
                                      nth_error ys j = Some y /\ sameJSON c y)).
    { destruct (Nat.lt_ge_cases i (List.length ys)) as [Hlt|Hge].
      - destruct (Hin Hlt) as (Hlen1 & Hhere & Hothers).
        apply IH; [exact Hxs | lia | fold i; lia | |].
        + intros j x' Hj.
          assert (Hji : (j < i)%nat) by (apply nth_error_Some; congruence).
          rewrite Hothers by lia. apply Hleft.
          now rewrite nth_error_app1 by (fold i; lia).
        + fold i. intros j Hj Hjlen. destruct (Nat.eq_dec j i) as [->|Hne];
            [exact Hhere|].
          rewrite Hothers by exact Hne. apply Hright; [rewrite length_app; simpl; fold i; lia|].
          lia.
      - rewrite (Hout Hge).
        assert (Hi : (i < List.length ss)%nat) by (apply nth_error_Some; congruence).
        apply IH; [exact Hxs | lia | | |].
        + rewrite length_remove_nth by exact Hi. fold i. lia.
        + intros j x' Hj.
          assert (Hji : (j < i)%nat) by (apply nth_error_Some; congruence).
          rewrite nth_error_remove_nth by exact Hji. apply Hleft.
          now rewrite nth_error_app1 by (fold i; lia).
        + fold i. intros j Hj Hjlen. rewrite length_remove_nth in Hjlen by exact Hi. lia. }
    destruct Hnext as (ss' & Ht2 & Hlen' & Hall).
    exists ss'. split; [|now split].
    eapply transforms_app; [exact Ht1 | exact Ht2].
Qed.

(** The second loop: the elements of [obj] past the length [M] of
    [mirror]; [j] is the index of the first of [ys]. *)
Lemma array_adds (prefix : list string) (es : list (option value)) (M n : nat) :
  protoFree prefix ->
  Z.of_nat n < 2 ^ 31 ->
  (forall j, assoc (string_of_nat j) (indexed_from 0 es) = None <-> (M <= j)%nat) ->
  forall ys j ss,
    Forall (fun y => jsonValue y = true) ys ->
    (j + List.length ys = n)%nat ->
    List.length ss = Nat.max j (Nat.min M n) ->
    exists ss',
      transforms prefix
        (flat_map
           (fun kv =>
              match assoc (fst kv) (indexed_from 0 es) with
              | Some _ => []
              | None => [mkPatch op_add (childPath (pointerOf prefix) (fst kv))
                           (Some (snd kv))]
              end) (indexed_from j (map Some ys)))
        (VArr ss) (VArr ss') /\
      List.length ss' = n /\
      (forall i, (i < List.length ss)%nat -> nth_error ss' i = nth_error ss i) /\
      (forall i y, (List.length ss <= i)%nat -> nth_error ys (i - j) = Some y ->
                   nth_error ss' i = Some (Some y)).
Proof.
  intros Hprefix Hsmall Hmirror ys.
  induction ys as [|y ys IH]; intros j ss Hys Hn Hlen.
  - simpl in Hn. exists ss. split; [apply transforms_nil|].
    split; [lia|]. split; [reflexivity|]. intros i y' _ Hy. now destruct (i - j)%nat.
  - apply Forall_cons_iff in Hys as [Hy Hys']. simpl in Hn.
    cbn [map indexed_from flat_map fst snd].
    destruct (assoc (string_of_nat j) (indexed_from 0 es)) as [old|] eqn:Hold.
    + assert (HjM : (j < M)%nat).
      { destruct (Nat.lt_ge_cases j M) as [H|H]; [exact H|].
        apply Hmirror in H. congruence. }
      destruct (IH (S j) ss Hys') as (ss' & Ht & Hlen' & Hkeep & Hnew); [lia | lia|].
      exists ss'. split; [exact Ht|]. split; [exact Hlen'|]. split; [exact Hkeep|].
      intros i y' Hi Hy'. apply Hnew; [exact Hi|].
      replace (i - j)%nat with (S (i - S j)) in Hy' by lia. exact Hy'.
    + assert (HjM : (M <= j)%nat) by now apply Hmirror.
      assert (Hlenj : List.length ss = j) by lia.
      destruct (IH (S j) (ss ++ [Some y]) Hys') as (ss' & Ht & Hlen' & Hkeep & Hnew);
        [lia | rewrite length_app; cbn [List.length]; lia|].
      exists ss'. split.
      * eapply transforms_app; [|exact Ht].
        apply transforms_add;
          [exact (protoFree_snoc _ _ Hprefix (index_protoFree j)) | reflexivity
          | exact Hy|].
        cbn [leafAdd]. rewrite smallIndex_index by lia.
        rewrite Hlenj, Nat.leb_refl. rewrite <- Hlenj at 1. now rewrite insert_nth_end.
      * split; [exact Hlen'|]. split.
        -- intros i Hi. rewrite Hkeep by (rewrite length_app; cbn [List.length]; lia).
           now rewrite nth_error_app1.
        -- intros i y' Hi Hy'. destruct (Nat.eq_dec i j) as [->|Hne].
           ++ rewrite Nat.sub_diag in Hy'. simpl in Hy'. injection Hy' as <-.
              rewrite Hkeep by (rewrite length_app; cbn [List.length]; lia).
              rewrite nth_error_app2 by lia. now rewrite Hlenj, Nat.sub_diag.
           ++ apply Hnew; [rewrite length_app; cbn [List.length]; lia|].
              replace (i - j)%nat with (S (i - S j)) in Hy' by lia. exact Hy'.
Qed.

Lemma length_indexed_from (xs : list value) (i : nat) :
  List.length (indexed_from i (map Some xs)) = List.length xs.
Proof.
  revert i. induction xs as [|x xs IH]; intros i; simpl; [reflexivity|]. now rewrite IH.
Qed.

Lemma indexed_from_keys (ys : list value) (i : nat) (k : string) (v : value) :
  In (k, v) (indexed_from i (map Some ys)) ->
  exists j, k = string_of_nat j /\ (j < i + List.length ys)%nat.
Proof.
  revert i. induction ys as [|y ys IH]; intros i Hin; [contradiction|].
  simpl in Hin. destruct Hin as [Heq | Hin].
  - injection Heq as <- _. exists i. split; [reflexivity | simpl; lia].
  - destruct (IH (S i) Hin) as (j & -> & Hj). exists j.
    split; [reflexivity | simpl; lia].
Qed.

(** The diff of two arrays replays, when the diffs of the elements of the
    first do. *)
Lemma replays_array (es : list (option value)) :
  Forall (onElem replays) es -> replays (VArr es).
Proof.
  intros IH obj s prefix Hmirror Hobj _ Hobject Harray Hsame Hprefix.
  destruct obj as [| | | |fs|op]; try discriminate.
  pose proof (jsonValue_length _ Hmirror) as Hsmallx.
  pose proof (jsonValue_length _ Hobj) as Hsmally.
  destruct (jsonValue_array _ Hmirror) as (xs & -> & Hxs).
  destruct (jsonValue_array _ Hobj) as (ys & -> & Hys).
  rewrite length_map in Hsmallx, Hsmally.
  apply sameJSON_array in Hsame as (ss & -> & Hlen & Hall).
  rewrite length_map in Hlen.
  assert (Hmirror_index : forall j,
             assoc (string_of_nat j) (indexed_from 0 (map Some xs)) = None
             <-> (List.length xs <= j)%nat).
  { intros j. rewrite assoc_index, elem_at_values. apply nth_error_None. }
  rewrite generate_array. unfold finishGenerate.
  set (perKey := perKeyElems _ _ _ _ _).
  destruct (array_olds prefix (map Some xs) ys (List.length xs) Hprefix Hsmallx Hys xs)
    with (ss := ss) as (ss1 & Ht1 & Hlen1 & Hall1).
  { apply Forall_forall. intros x Hx. rewrite Forall_forall in Hxs, IH.
    split; [now apply Hxs|]. apply (IH (Some x)). now apply in_map. }
  { lia. }
  { lia. }
  { intros j x Hj.
    assert (Hjlen : (j < List.length ss)%nat)
      by (rewrite Hlen; apply nth_error_Some; congruence).
    destruct (Hall j Hjlen) as (c & x' & Hc & Hx' & Hcx).
    rewrite nth_error_map, Hj in Hx'. injection Hx' as <-. now exists c. }
  { intros j Hj Hjlen. lia. }
  fold perKey in Ht1.
  destruct (array_adds prefix (map Some xs) (List.length xs) (List.length ys) Hprefix
              Hsmally Hmirror_index ys 0%nat ss1 Hys)
    as (ss2 & Ht2 & Hlen2 & Hkeep & Hnew);
    [lia | lia|].
  change (transforms prefix
            (generateAdds (VArr (map Some xs)) (VArr (map Some ys)) (pointerOf prefix))
            (VArr ss1) (VArr ss2)) in Ht2.
  exists (VArr ss2). split.
  - destruct (negb (existsb snd perKey)
              && Nat.eqb (List.length (ownProps (VArr (map Some ys))))
                   (List.length (ownProps (VArr (map Some xs))))) eqn:Hskip.
    + apply andb_true_iff in Hskip as [_ Hsame].
      apply Nat.eqb_eq in Hsame. cbn [ownProps] in Hsame.
      rewrite !length_indexed_from in Hsame.
      assert (Hadds : generateAdds (VArr (map Some xs)) (VArr (map Some ys))
                        (pointerOf prefix) = []).
      { unfold generateAdds. cbn [ownProps]. apply flat_map_nil.
        intros [k v] Hin. cbn [fst].
        destruct (assoc k (indexed_from 0 (map Some xs))) eqn:Hk; [reflexivity|].
        exfalso.
        destruct (indexed_from_keys ys 0 k v Hin) as (j & -> & Hj).
        apply Hmirror_index in Hk. lia. }
      rewrite Hadds in Ht2. rewrite <- (app_nil_r (concat _)).
      eapply transforms_app; [exact Ht1 | exact Ht2].
    + eapply transforms_app; [exact Ht1 | exact Ht2].
  - apply same_array; [now rewrite length_map|].
    intros i Hi. rewrite Hlen2 in Hi.
    destruct (nth_error ys i) as [y|] eqn:Hy; [|apply nth_error_None in Hy; lia].
    destruct (Nat.lt_ge_cases i (List.length ss1)) as [Hlt|Hge].
    + destruct (Hall1 i Hlt) as (c & y' & Hc & Hy' & Hcy).
      exists c, y'. rewrite (Hkeep i Hlt), nth_error_map, Hy'. now split.
    + exists y, y. rewrite (Hnew i y Hge) by (now rewrite Nat.sub_0_r).
      rewrite nth_error_map, Hy. split; [reflexivity|]. split; [reflexivity|].
      apply sameJSON_refl. rewrite Forall_forall in Hys. apply Hys.
      now apply nth_error_In with i.
Qed.

(** The diff of two objects or two arrays replays. *)
Lemma replays_all (mirror : value) : replays mirror.
Proof.
  induction mirror as [|b|n|s|es IH|ps IH] using value_ind;
    try (intros obj s0 prefix _ _ Hobject; discriminate).
  - now apply replays_array.
  - now apply replays_object.
Qed.

Lemma compare_replays (mirror obj s : value) :
  jsonValue mirror = true -> jsonValue obj = true ->
  isObject mirror = true -> isObject obj = true -> isArray mirror = isArray obj ->
  sameJSON s mirror ->
  exists s', applyAll s (compare mirror obj) = Ok s' /\ sameJSON s' obj /\
             Forall nonRoot (compare mirror obj).
Proof.
  intros Hm Ho Hmo Hoo Harr Hsame.
  destruct (replays_all mirror obj s [] Hm Ho Hmo Hoo Harr Hsame (Forall_nil _))
    as (s' & [Hnon Hrun] & Hs').
  exists s'. split; [exact (Hrun s eq_refl)|]. now split.
Qed.

(** ** The history of a document and its replay *)

(** The loop does not look at the original value of an operation. *)
Lemma descend_original (kind : opkind) (pointer : string) (v : option value)
  (src : option string) (x y : lookup) (document : value) (fromCheck : result unit)
  (rest : list string) :
  forall (previous : string) (pending : bool) (obj : value),
    descend (mkOp kind pointer v src x) document fromCheck previous pending rest obj
    = descend (mkOp kind pointer v src y) document fromCheck previous pending rest obj.
Proof.
  induction rest as [|raw rest IH]; intros previous pending obj; [reflexivity|].
  cbn [descend]. unfold validateExisting, arrayLeaf, objectLeaf. cbn [op value_].
  destruct (banned (unescapePathComponent raw) previous); [reflexivity|].
  destruct rest as [|raw' rest]; [reflexivity|].
  destruct obj as [| | | |elems|props]; try reflexivity;
    (match goal with
     | |- bind ?c _ = _ => destruct c; [|reflexivity]
     end);
    cbn [bind].
  5: { destruct (memberOf (VObj props) (unescapePathComponent raw)) as [child| |];
         try reflexivity.
       destruct (isObject child); [|reflexivity]. now rewrite IH. }
  4: { destruct (arrayKey elems (unescapePathComponent raw)) as [k|]; [|reflexivity].
       cbn [bind]. destruct (elementAt elems k) as [child|]; [|reflexivity].
       destruct (isObject child); [|reflexivity]. now rewrite IH. }
  all: match goal with
       | |- context [memberOf ?o ?k] => destruct (memberOf o k) as [child| |]
       end; try reflexivity;
    (destruct (isObject child); [|reflexivity]); now rewrite IH.
Qed.

Lemma applyOperation_same (doc : value) (a b : PatchOperation) :
  sameOperation a b -> applyOperation doc a = applyOperation doc b.
Proof.
  intros (Hop & Hpath & Hvalue & Hfrom).
  destruct a as [oa pa va fa xa], b as [ob pb vb fb xb]. simpl in *. subst.
  unfold applyOperation, applyInside. cbn [path from op].
  now rewrite (descend_original ob pb vb fb xa xb).
Qed.

Lemma applyAll_same (ops ops' : list PatchOperation) (doc : value) :
  Forall2 sameOperation ops ops' -> applyAll doc ops = applyAll doc ops'.
Proof.
  intros H. revert doc. induction H as [|a b ops ops' Hab _ IH]; intros doc;
    [reflexivity|].
  simpl. rewrite (applyOperation_same doc a b Hab).
  destruct (applyOperation doc b); [apply IH | reflexivity].
Qed.

Lemma nonRoot_same (ops ops' : list PatchOperation) :
  Forall2 sameOperation ops ops' -> Forall nonRoot ops' -> Forall nonRoot ops.
Proof.
  induction 1 as [|a b ops ops' (_ & Hpath & _) _ IH]; intros H; [constructor|].
  inversion H as [|? ? Hb Hrest]; subst. constructor; [|now apply IH].
  unfold nonRoot in *. now rewrite Hpath.
Qed.

Lemma trackOriginal_same (document : Document) (ops : list PatchOperation) :
  Forall2 sameOperation (map (trackOriginal document) ops) ops.
Proof.
  induction ops as [|o ops IH]; constructor; [|exact IH]. now repeat split.
Qed.

Lemma sameOperation_refl (ops : list PatchOperation) : Forall2 sameOperation ops ops.
Proof. induction ops; constructor; [now repeat split | assumption]. Qed.

Lemma jsonDocument_object (d : value) :
  jsonDocument d = true ->
  jsonValue d = true /\ isObject d = true /\ isArray d = false /\ truthy d = true.
Proof. destruct d; simpl; try discriminate. now intros ->. Qed.

(** What one save writes, without excludes. *)
Lemma preSave_writes (opts : ResolvedOptions) (doc : Document) (w : World) :
  excludes opts = [] ->
  exists tracked,
    Forall2 sameOperation tracked (compare (diffBase doc) (docData doc)) /\
    preSave opts doc w
    = (match compare (diffBase doc) (docData doc) with
       | [] => w
       | _ :: _ =>
           mkWorld
             (patchCollection w ++
              [mkPatchDataInput tracked (docId doc)
                 (match timestamp doc with Some t => t | None => now w end)
                 (map (includeValue doc (VObj [])) (includes opts))])
             (now w) (lookups w)
       end, Ok tt).
Proof.
  intros Hex. unfold preSave.
  destruct (createPatch_cases opts doc (VObj []) w)
    as [[-> Hf] | [(e & _ & Hf) | (o & rest & Hf & ->)]];
    rewrite Hex in Hf; unfold filterOps in Hf; simpl in Hf.
  - injection Hf as ->. exists []. split; [constructor | reflexivity].
  - discriminate.
  - injection Hf as ->.
    exists (if trackOriginalValue opts
            then map (trackOriginal doc) (o :: rest) else o :: rest).
    split; [|reflexivity].
    destruct (trackOriginalValue opts);
      [apply trackOriginal_same | apply sameOperation_refl].
Qed.

Lemma diffBase_withData (this : Document) (d : value) :
  diffBase (withData this d) = diffBase this.
Proof. reflexivity. Qed.

Lemma diffBase_afterSave (doc : Document) :
  truthy (docData doc) = true -> diffBase (afterSave doc) = docData doc.
Proof. intros H. unfold diffBase, afterSave. simpl. now rewrite H. Qed.

(** The records the saves write. *)
Lemma saveAll_collection (opts : ResolvedOptions) (states : list value) :
  excludes opts = [] ->
  Forall (fun d => jsonDocument d = true) states ->
  forall this w,
  exists records,
    patchCollection (fst (saveAll opts this states w)) = patchCollection w ++ records /\
    Forall2 (fun r ops => Forall2 sameOperation (input_ops r) ops /\
                          input_ref r = docId this)
      records (writtenOps (diffBase this) states).
Proof.
  intros Hex Hstates. induction Hstates as [|d states Hd _ IH]; intros this w.
  - exists []. simpl. rewrite app_nil_r. split; [reflexivity | constructor].
  - destruct (jsonDocument_object _ Hd) as (_ & _ & _ & Htruthy).
    cbn [saveAll writtenOps]. unfold bindM.
    destruct (preSave_writes opts (withData this d) w Hex) as (tracked & Hsame & ->).
    rewrite diffBase_withData in *. cbn [docData withData] in *.
    change (docData (withData this d)) with d in *.
    destruct (IH (afterSave (withData this d))
                (match compare (diffBase this) d with
                 | [] => w
                 | _ :: _ =>
                     mkWorld
                       (patchCollection w ++
                        [mkPatchDataInput tracked (docId (withData this d))
                           (match timestamp (withData this d) with
                            | Some t => t
                            | None => now w
                            end)
                           (map (includeValue (withData this d) (VObj []))
                              (includes opts))])
                       (now w) (lookups w)
                 end))
      as (records & Hrecords & Hall).
    rewrite diffBase_afterSave in Hall by exact Htruthy.
    cbn [docData withData afterSave docId] in Hall.
    destruct (compare (diffBase this) d) as [|o rest] eqn:Hcompare.
    + exists records. split; [exact Hrecords | exact Hall].
    + eexists (_ :: records). split.
      * rewrite Hrecords. cbn [patchCollection]. rewrite <- app_assoc. reflexivity.
      * constructor; [|exact Hall]. now split.
Qed.

Lemma last_cons (A : Type) (l : list A) (d x : A) : last (x :: l) d = last l x.
Proof.
  revert d x. induction l as [|y l IH]; intros d x; [reflexivity|].
  change (last (x :: y :: l) d) with (last (y :: l) d).
  now rewrite (IH d y), (IH x y).
Qed.

Lemma writtenOps_app (base : value) (l1 l2 : list value) :
  writtenOps base (l1 ++ l2) = writtenOps base l1 ++ writtenOps (last l1 base) l2.
Proof.
  revert base. induction l1 as [|d l1 IH]; intros base; [reflexivity|].
  cbn [app writtenOps]. rewrite IH, last_cons. now destruct (compare base d).
Qed.

(** Replaying the operations of the records that the saves wrote gives
    the data of the last save. *)
Lemma replay_written (states : list value) :
  Forall (fun d => jsonDocument d = true) states ->
  forall base s opss,
    jsonDocument base = true ->
    sameJSON s base ->
    Forall2 (Forall2 sameOperation) opss (writtenOps base states) ->
    exists s',
      applyAll s (concat opss) = Ok s' /\ sameJSON s' (last states base) /\
      Forall nonRoot (concat opss).
Proof.
  intros Hstates. induction Hstates as [|d states Hd _ IH]; intros base s opss Hbase Hs Hopss.
  - inversion Hopss; subst. exists s. simpl. repeat split; [exact Hs | constructor].
  - destruct (jsonDocument_object _ Hd) as (Hjd & Hod & Had & _).
    destruct (jsonDocument_object _ Hbase) as (Hjb & Hob & Hab & _).
    destruct (compare_replays base d s Hjb Hjd Hob Hod (eq_trans Hab (eq_sym Had)) Hs)
      as (s1 & Hrun & Hs1 & Hnon).
    rewrite last_cons. cbn [writtenOps] in Hopss.
    destruct (compare base d) as [|o rest] eqn:Hcompare.
    + simpl in Hrun. injection Hrun as <-. now apply IH.
    + inversion Hopss as [|ops1 ? opss' ? Hsame Hrest]; subst.
      destruct (IH d s1 opss' Hd Hs1 Hrest) as (s' & Hrun' & Hs' & Hnon').
      exists s'. cbn [concat]. rewrite applyAll_app, (applyAll_same _ _ _ Hsame), Hrun.
      split; [exact Hrun'|]. split; [exact Hs'|].
      apply Forall_app. split; [|exact Hnon'].
      now apply (nonRoot_same _ _ Hsame).
Qed.

Lemma saveAll_app (opts : ResolvedOptions) (l1 l2 : list value) (this : Document)
  (w : World) :
  saveAll opts this (l1 ++ l2) w
  = bindM (saveAll opts this l1) (fun doc => saveAll opts doc l2) w.
Proof.
  revert this w. induction l1 as [|d l1 IH]; intros this w; [reflexivity|].
  cbn [app saveAll]. unfold bindM.
  destruct (preSave opts (withData this d) w) as [w1 [[]|e]]; [|reflexivity].
  rewrite IH. reflexivity.
Qed.

Lemma saveAll_ok (opts : ResolvedOptions) (states : list value) (this : Document)
  (w : World) :
  excludes opts = [] -> exists doc, snd (saveAll opts this states w) = Ok doc.
Proof.
  intros Hex. revert this w. induction states as [|d states IH]; intros this w.
  - now exists this.
  - cbn [saveAll]. unfold bindM.
    destruct (preSave_writes opts (withData this d) w Hex) as (tracked & _ & ->).
    apply IH.
Qed.

Lemma stored_ids (ids : list string) (records : list PatchDataInput) :
  List.length ids = List.length records -> map _id (stored ids records) = ids.
Proof.
  revert records. induction ids as [|id ids IH]; intros [|r records] H; simpl in *;
    try discriminate; [reflexivity|]. f_equal. apply IH. lia.
Qed.

Lemma stored_ops (ids : list string) (records : list PatchDataInput) :
  List.length ids = List.length records ->
  flat_map ops (stored ids records) = concat (map input_ops records).
Proof.
  revert records. induction ids as [|id ids IH]; intros [|r records] H; simpl in *;
    try discriminate; [reflexivity|]. f_equal. apply IH. lia.
Qed.

Lemma stored_firstn (n : nat) (ids : list string) (records : list PatchDataInput) :
  firstn n (stored ids records) = stored (firstn n ids) (firstn n records).
Proof.
  revert ids records. induction n as [|n IH]; intros [|id ids] [|r records];
    simpl; try reflexivity. now rewrite IH.
Qed.

Lemma stored_length (ids : list string) (records : list PatchDataInput) :
  List.length ids = List.length records ->
  List.length (stored ids records) = List.length records.
Proof.
  revert records. induction ids as [|id ids IH]; intros [|r records] H; simpl in *;
    try discriminate; [reflexivity|]. f_equal. apply IH. lia.
Qed.

(** X20. Rollback restores what was saved.  A new document is saved
    again and again, without excludes, each time with a JSON object as its
    data (no key is [__proto__] or [prototype], no array has 2^31 elements
    or more); the lookup of [rollback] answers the records in the order they
    were written, each with an id of its own.  When the saves up to one with
    the data [d] wrote records and later saves wrote more, rolling back to the
    last record of the former sets the document to [merge(data, state)] for a
    state that is [d] up to the order of keys; with [save] the document is
    then saved and the rollback settles as the save does, without it the
    rollback resolves. *)
Theorem rollback_restores_saved_data
  (opts : ResolvedOptions) (this : Document) (before after : list value) (d : value)
  (ids : list string) (data : value) (save : bool) (outcome : result unit)
  (w : World)
  (Hexcludes : excludes opts = [])
  (Hnew : _original this = None)
  (Hempty : patchCollection w = [])
  (Hstates : Forall (fun x => jsonDocument x = true) (before ++ d :: after))
  (Hids : NoDup ids)
  (Hlength :
     List.length ids
     = List.length
         (patchCollection (fst (saveAll opts this (before ++ d :: after) w))))
  (Hwritten : patchCollection (fst (saveAll opts this (before ++ [d]) w)) <> [])
  (Hlater :
     (List.length (patchCollection (fst (saveAll opts this (before ++ [d]) w)))
      < List.length
          (patchCollection (fst (saveAll opts this (before ++ d :: after) w))))%nat) :
  let saved := patchCollection (fst (saveAll opts this (before ++ [d]) w)) in
  let history :=
    stored ids (patchCollection (fst (saveAll opts this (before ++ d :: after) w))) in
  exists id state,
    nth_error ids (List.length saved - 1) = Some id /\
    rollback history id data save outcome
    = (DocSet (merge data state) :: (if save then [DocSave] else []),
       if save then outcome else Ok tt) /\
    sameJSON state d.
Proof.
  intros saved history.
  assert (Hsplit : before ++ d :: after = (before ++ [d]) ++ after)
    by now rewrite <- app_assoc.
  (* the records of the former saves come first *)
  assert (Hbase : diffBase this = VObj []) by (unfold diffBase; now rewrite Hnew).
  apply Forall_app in Hstates as Hparts. destruct Hparts as [Hbefore Hrest].
  apply Forall_cons_iff in Hrest as [Hd Hafter].
  assert (Hformer : Forall (fun x => jsonDocument x = true) (before ++ [d])).
  { apply Forall_app. split; [exact Hbefore | now constructor]. }
  destruct (saveAll_collection opts (before ++ [d]) Hexcludes Hformer this w)
    as (records & Hrecords & Hall).
  rewrite Hempty, Hbase in *. cbn [app] in Hrecords. fold saved in Hrecords.
  assert (Hprefix : exists more,
             patchCollection (fst (saveAll opts this (before ++ d :: after) w))
             = saved ++ more).
  { rewrite Hsplit, saveAll_app. unfold bindM.
    destruct (saveAll_ok opts (before ++ [d]) this w Hexcludes) as (doc & Hok).
    unfold saved. destruct (saveAll opts this (before ++ [d]) w) as [w1 r1].
    simpl in Hok. subst r1. cbn [fst].
    destruct (saveAll_collection opts after Hexcludes Hafter doc w1)
      as (more & Hmore & _).
    now exists more. }
  destruct Hprefix as (more & Hmore).
  fold saved in Hwritten, Hlater. unfold history. rewrite Hmore in *.
  rewrite length_app in Hlater, Hlength.
  set (i := (List.length saved - 1)%nat).
  assert (Hi : (S i = List.length saved)%nat).
  { unfold i. destruct saved; [contradiction | simpl; lia]. }
  destruct (nth_error ids i) as [id|] eqn:Hid;
    [|apply nth_error_None in Hid; lia].
  (* the replay of the former records *)
  destruct (replay_written (before ++ [d]) Hformer (VObj []) (VObj [])
              (map input_ops saved) eq_refl (sameJSON_refl (VObj []) eq_refl))
    as (state & Hrun & Hstate & Hnon).
  { rewrite Hrecords. clear -Hall. induction Hall as [|r o rs os [Hro _] _ IH];
      constructor; assumption. }
  rewrite last_last in Hstate.
  exists id, state. split; [reflexivity|]. split; [|exact Hstate].
  set (H := stored ids (saved ++ more)).
  assert (Hlen : List.length ids = List.length (saved ++ more))
    by (rewrite length_app; exact Hlength).
  assert (Hmap : map _id H = ids) by now apply stored_ids.
  assert (Htarget : exists target, nth_error H i = Some target /\ _id target = id).
  { destruct (nth_error H i) as [target|] eqn:Ht.
    - exists target. split; [reflexivity|].
      apply (map_nth_error _id) in Ht. rewrite Hmap, Hid in Ht. now injection Ht.
    - apply nth_error_None in Ht. unfold H in Ht. rewrite stored_length in Ht by exact Hlen.
      rewrite length_app in Ht. lia. }
  destruct Htarget as (target & Htarget & <-).
  unfold rollback.
  assert (Hin : existsb (String.eqb (_id target)) (map _id H) = true).
  { apply existsb_eqb_In, in_map. now apply nth_error_In with i. }
  rewrite Hin. cbn [negb].
  rewrite (rollback_prefix H i target) by (rewrite ?Hmap; assumption).
  assert (Hfirst : firstn (S i) H = stored (firstn (S i) ids) saved).
  { unfold H. rewrite stored_firstn, Hi, firstn_app, Nat.sub_diag, firstn_all.
    simpl. now rewrite app_nil_r. }
  rewrite Hfirst.
  assert (Hlenfirst : List.length (firstn (S i) ids) = List.length saved)
    by (rewrite length_firstn; lia).
  assert (Hshorter : Nat.eqb (List.length H)
                       (List.length (stored (firstn (S i) ids) saved)) = false).
  { apply Nat.eqb_neq. unfold H. rewrite !stored_length by assumption.
    rewrite length_app. lia. }
  rewrite Hshorter.
  rewrite applyRecords_flat; rewrite (stored_ops _ _ Hlenfirst); [|exact Hnon].
  rewrite Hrun. now destruct save.
Qed.

Lemma rollback_restores_saved_data_witness :
  exists state,
    rollback
      (stored ["p1"; "p2"; "p3"]
         (patchCollection
            (fst (saveAll plainOptions newComment
                    [commentData "comm 1"; commentData "comm 2"; commentData "comm 3"]
                    emptyWorld))))
      "p2" (VObj []) false (Ok tt)
    = ([DocSet (merge (VObj []) state)], Ok tt) /\
    sameJSON state (commentData "comm 2").
Proof.
  assert (Hids : NoDup ["p1"; "p2"; "p3"])
    by (repeat constructor; simpl; intuition discriminate).
  assert (Hstates : Forall (fun x => jsonDocument x = true)
                      ([commentData "comm 1"]
                       ++ commentData "comm 2" :: [commentData "comm 3"]))
    by (repeat constructor).
  destruct (rollback_restores_saved_data plainOptions newComment
              [commentData "comm 1"] [commentData "comm 3"] (commentData "comm 2")
              ["p1"; "p2"; "p3"] (VObj []) false (Ok tt) emptyWorld
              eq_refl eq_refl eq_refl
              Hstates Hids eq_refl)
    as (id & state & Hid & Hrollback & Hstate).
  - vm_compute. discriminate.
  - vm_compute. lia.
  - vm_compute in Hid. injection Hid as <-. exists state. split; assumption.
Defined.

(** * Array indices and the wildcard *)

(** X21. A wildcard matches every array index.  When the path of an
    operation starts with an exclude pattern in which array indices, as
    [jsonpatch.compare] writes them, take the place of wildcards, the path
    contains the pattern and the filter drops the operation. *)
Theorem wildcard_excludes_every_index
  (excludes : list (list string)) (pattern concrete rest : list string)
  (patch : PatchOperation)
  (Hexclude : In pattern excludes)
  (Hpath : getArrayFromPath (path patch) = concrete ++ rest)
  (Hinstance : instanceOf concrete pattern) :
  isPathContained pattern (getArrayFromPath (path patch)) = true /\
  keepOp excludes patch = Ok (false, patch).
Proof.
  assert (Hcontained : isPathContained pattern (getArrayFromPath (path patch)) = true).
  { rewrite Hpath. apply isPathContained_nth. intros i entry Hentry.
    unfold instanceOf in Hinstance. clear Hpath Hexclude. revert i Hentry.
    induction Hinstance as [|seg entry' concrete' pattern' Hseg _ IH]; intros i Hentry.
    - destruct i; discriminate.
    - destruct i as [|i]; simpl in Hentry |- *.
      + injection Hentry as ->. exists seg. split; [reflexivity|].
        destruct Hseg as [-> | (-> & n & Hn & ->)]; [now left | right].
        split; [reflexivity | now apply isIntegerGreaterEqual0_index].
      + exact (IH i Hentry). }
  split; [exact Hcontained|].
  unfold keepOp.
  assert (Hsome : existsb
            (fun exclude => isPathContained exclude (getArrayFromPath (path patch)))
            excludes = true)
    by (apply existsb_exists; now exists pattern).
  now rewrite Hsome.
Qed.

Lemma wildcard_excludes_every_index_witness :
  keepOp testExcludes (replaceOp "/array/7/hiddenProperty/since" (VStr "today"))
  = Ok (false, replaceOp "/array/7/hiddenProperty/since" (VStr "today")).
Proof.
  assert (Hexclude : In ["array"; "*"; "hiddenProperty"] testExcludes)
    by (simpl; tauto).
  assert (Hinstance : instanceOf ["array"; "7"; "hiddenProperty"]
                        ["array"; "*"; "hiddenProperty"]).
  { constructor; [now left|]. constructor; [|constructor; [now left | constructor]].
    right. split; [reflexivity|]. exists 7%nat. split; reflexivity. }
  exact (proj2 (wildcard_excludes_every_index testExcludes
                  ["array"; "*"; "hiddenProperty"] ["array"; "7"; "hiddenProperty"]
                  ["since"]
                  (replaceOp "/array/7/hiddenProperty/since" (VStr "today"))
                  Hexclude eq_refl Hinstance)).
Defined.

(** ** Excludes and rollback *)

Lemma hidden_history (secret : string) (v later : value) :
  map input_ops
    (patchCollection
       (fst (saveAll hiddenOptions newComment (hiddenStates secret v later) emptyWorld)))
  = [ [addOp "/a/x" v]; [mkPatch op_remove "/a/x" None; addOp "/y" later] ].
Proof.
  unfold hiddenStates. cbn [saveAll]. unfold bindM, preSave, createPatch, bindM, lift.
  cbn -[filterOps compare].
  assert (H1 : compare (VObj []) (VObj [("a", VObj [("hidden", VStr secret)])])
               = [addOp "/a" (VObj [("hidden", VStr secret)])]) by reflexivity.
  assert (H2 : compare (VObj [("a", VObj [("hidden", VStr secret)])])
                 (VObj [("a", VObj [("hidden", VStr secret); ("x", v)])])
               = [addOp "/a/x" v]).
  { unfold compare. cbn. unfold generateKey. cbn. unfold strictNeq. cbn.
    rewrite String.eqb_refl. reflexivity. }
  assert (H3 : compare (VObj [("a", VObj [("hidden", VStr secret); ("x", v)])])
                 (VObj [("a", VObj [("hidden", VStr secret)]); ("y", later)])
               = [mkPatch op_remove "/a/x" None; addOp "/y" later]).
  { unfold compare. cbn. unfold generateKey. cbn. unfold strictNeq. cbn.
    rewrite String.eqb_refl. reflexivity. }
  rewrite H1.
  assert (F1 : filterOps [["a"; "hidden"]]
                 [addOp "/a" (VObj [("hidden", VStr secret)])] = Ok []) by reflexivity.
  rewrite F1. cbn -[filterOps compare]. rewrite H2.
  assert (F2 : filterOps [["a"; "hidden"]] [addOp "/a/x" v] = Ok [addOp "/a/x" v])
    by reflexivity.
  rewrite F2. cbn -[filterOps compare]. rewrite H3.
  assert (F3 : filterOps [["a"; "hidden"]]
                 [mkPatch op_remove "/a/x" None; addOp "/y" later]
               = Ok [mkPatch op_remove "/a/x" None; addOp "/y" later]) by reflexivity.
  rewrite F3. reflexivity.
Qed.

(** X22. With excludes the plugin can write a history that [rollback]
    cannot replay.  The property [hidden] of the object [a] is excluded.  The
    first save, of [a] with [hidden] alone, writes no record: the value of
    its one operation is pruned to the empty object and the operation is
    dropped.  The second save adds [x] to [a] and writes a record with the
    operation [add /a/x], the third writes another record.  Rolling back to
    the first record is rejected with an error of the patch library: the
    state replayed from the empty object has no [a] to add [x] to.  This holds
    whatever the values are. *)
Theorem excluded_parent_breaks_rollback
  (secret : string) (v later data : value) (save : bool) (outcome : result unit) :
  let history :=
    stored ["p1"; "p2"]
      (patchCollection
         (fst (saveAll hiddenOptions newComment (hiddenStates secret v later)
                 emptyWorld))) in
  map ops history
  = [ [addOp "/a/x" v]; [mkPatch op_remove "/a/x" None; addOp "/y" later] ] /\
  exists name,
    rollback history "p1" data save outcome = ([], Err (JsonPatchError name)).
Proof.
  intros history. subst history.
  pose proof (hidden_history secret v later) as Hops.
  destruct (patchCollection _) as [|r1 [|r2 [|r3 rs]]]; try discriminate.
  destruct r1 as [ops1 ref1 date1 includes1], r2 as [ops2 ref2 date2 includes2].
  simpl in Hops. injection Hops as -> ->.
  split; [reflexivity|].
  unfold rollback. simpl. unfold applyPatch. cbn [applyPatchFrom getAt].
  unfold validator. simpl.
  destruct (hasUndefined v).
  - eexists. reflexivity.
  - eexists. reflexivity.
Qed.

(** * Excluded top-level keys *)

(** ** The paths of a diff *)

Lemma generateKey_ops (rec : value -> string -> list PatchOperation)
  (mirror obj : value) (pointer key : string) (oldVal : value) (operation : PatchOperation) :
  isArray mirror = isArray obj ->
  In operation (fst (generateKey rec mirror obj pointer key oldVal)) ->
  (exists newVal, isArray oldVal = isArray newVal /\
                  In operation (rec newVal (childPath pointer key))) \/
  path operation = childPath pointer key.
Proof.
  intros Harr. unfold generateKey.
  destruct (assoc key (ownProps obj)) as [newVal|].
  - destruct (isObject oldVal && isObject newVal
              && Bool.eqb (isArray oldVal) (isArray newVal)) eqn:Hrec.
    + intros H. left. exists newVal. split; [|exact H].
      apply andb_true_iff in Hrec as [_ Hrec]. now apply Bool.eqb_prop.
    + destruct (strictNeq oldVal newVal); simpl; [|contradiction].
      intros [<- | []]. now right.
  - rewrite Harr, Bool.eqb_reflx. simpl. intros [<- | []]. now right.
Qed.

Lemma generateAdds_ops (mirror obj : value) (pointer : string)
  (operation : PatchOperation) :
  In operation (generateAdds mirror obj pointer) ->
  exists key, path operation = childPath pointer key.
Proof.
  unfold generateAdds. intros H. apply in_flat_map in H as ([k v] & _ & H).
  cbn [fst snd] in H. destruct (assoc k (ownProps mirror)); [contradiction|].
  destruct H as [<- | []]. now exists k.
Qed.

Lemma finishGenerate_ops (mirror obj : value) (pointer : string)
  (perKey : list (list PatchOperation * bool)) (operation : PatchOperation) :
  In operation (finishGenerate mirror obj pointer perKey) ->
  (exists r, In r perKey /\ In operation (fst r)) \/
  In operation (generateAdds mirror obj pointer).
Proof.
  unfold finishGenerate. intros H.
  assert (Holds : In operation (concat (map fst (rev perKey))) ->
                  exists r, In r perKey /\ In operation (fst r)).
  { intros Hin. apply in_concat in Hin as (ops & Hops & Hin).
    apply in_map_iff in Hops as (r & <- & Hr). exists r.
    split; [now apply in_rev | exact Hin]. }
  destruct (negb (existsb snd perKey) && _); [left; now apply Holds|].
  apply in_app_or in H as [H | H]; [left; now apply Holds | now right].
Qed.

Lemma childPath_extends (pointer key : string) :
  exists rest, childPath pointer key = (pointer ++ String slash rest)%string.
Proof. now exists (escapePathComponent key). Qed.

Lemma childPath_below (pointer key rest : string) :
  (childPath pointer key ++ String slash rest
   = pointer ++ String slash (escapePathComponent key ++ String slash rest))%string.
Proof. unfold childPath. now rewrite !string_app_assoc. Qed.

(** Every operation of a diff is at a path below the pointer of the
    diff. *)
Lemma generate_paths (mirror : value) :
  forall obj pointer operation,
    isArray mirror = isArray obj ->
    In operation (generate mirror obj pointer) ->
    exists rest, path operation = (pointer ++ String slash rest)%string.
Proof.
  induction mirror as [|b|n|s|es IH|ps IH] using value_ind;
    intros obj pointer operation Harr Hin;
    try (apply finishGenerate_ops in Hin as [(r & [] & _) | Hin];
         apply generateAdds_ops in Hin as (key & ->); apply childPath_extends).
  - rewrite generate_array in Hin.
    apply finishGenerate_ops in Hin as [(r & Hr & Hin) | Hin];
      [|apply generateAdds_ops in Hin as (key & ->); apply childPath_extends].
    assert (Hfrom : forall l i,
               Forall (onElem (fun m => forall obj pointer operation,
                                   isArray m = isArray obj ->
                                   In operation (generate m obj pointer) ->
                                   exists rest,
                                     path operation = (pointer ++ String slash rest)%string))
                 l ->
               In r (perKeyElems (VArr es) obj pointer i l) ->
               exists rest, path operation = (pointer ++ String slash rest)%string).
    { induction l as [|o l IHl]; intros i Hl Hrl; [contradiction|].
      inversion Hl as [|? ? Ho Hl']; subst.
      destruct o as [oldVal|]; cbn [perKeyElems] in Hrl; [|now apply (IHl (S i))].
      destruct Hrl as [<- | Hrl]; [|now apply (IHl (S i))].
      apply generateKey_ops in Hin as [(newVal & Hsame & Hin) | ->];
        [|apply childPath_extends | exact Harr].
      destruct (Ho newVal _ operation Hsame Hin) as (rest & ->).
      rewrite childPath_below. now eexists. }
    now apply (Hfrom es 0%nat).
  - rewrite generate_object in Hin.
    apply finishGenerate_ops in Hin as [(r & Hr & Hin) | Hin];
      [|apply generateAdds_ops in Hin as (key & ->); apply childPath_extends].
    apply in_map_iff in Hr as ([key oldVal] & <- & Hkv). cbn [fst snd] in Hin.
    apply generateKey_ops in Hin as [(newVal & Hsame & Hin) | ->];
      [|apply childPath_extends | exact Harr].
    rewrite Forall_forall in IH.
    destruct (IH _ Hkv newVal _ operation Hsame Hin) as (rest & ->).
    rewrite childPath_below. now eexists.
Qed.

(** ** The filter on the operations of one top-level key *)

Lemma escape_tilde_free (key : string) :
  contains "~" (escapePathComponent key) = false -> escapePathComponent key = key.
Proof.
  induction key as [|c key IH]; [reflexivity|]. cbn [escapePathComponent].
  destruct (Ascii.eqb_spec c "~") as [->|Htilde]; [discriminate|].
  destruct (Ascii.eqb_spec c slash) as [->|Hslash]; [discriminate|].
  simpl. apply Ascii.eqb_neq in Htilde. rewrite Htilde. simpl.
  intros H. now rewrite (IH H).
Qed.

Lemma escape_plain (key : string) :
  contains slash key = false -> contains "~" key = false ->
  escapePathComponent key = key.
Proof.
  induction key as [|c key IH]; [reflexivity|]. simpl.
  intros Hs Ht. apply orb_false_iff in Hs as [Hs Hs'], Ht as [Ht Ht'].
  now rewrite Ht, Hs, (IH Hs' Ht').
Qed.

Lemma escape_empty (key : string) : escapePathComponent key = ""%string -> key = ""%string.
Proof.
  destruct key as [|c key]; [reflexivity|]. cbn [escapePathComponent].
  destruct (Ascii.eqb c "~"); [discriminate|].
  destruct (Ascii.eqb c slash); discriminate.
Qed.

Lemma hideable_spec (key : string) :
  hideable key = true ->
  escapePathComponent key = key /\ contains "~" key = false /\
  key <> ARRAY_INDEX_WILDCARD /\ isIntegerGreaterEqual0 (Some key) = false.
Proof.
  unfold hideable. intros H.
  apply andb_true_iff in H as [H Hint]. apply andb_true_iff in H as [H Hwild].
  apply andb_true_iff in H as [Hslash Htilde].
  apply negb_true_iff in Hint, Hwild, Hslash, Htilde.
  split; [now apply escape_plain|]. split; [exact Htilde|].
  split; [now apply String.eqb_neq | exact Hint].
Qed.

(** A hidden key and the first segment of a path. *)
Lemma hidden_segment (hidden : list string) (h key : string) :
  Forall (fun k => hideable k = true) hidden -> In h hidden ->
  h = escapePathComponent key -> h = key.
Proof.
  intros Hall Hh Heq. rewrite Forall_forall in Hall.
  destruct (hideable_spec _ (Hall _ Hh)) as (_ & Htilde & _).
  rewrite Heq in Htilde. rewrite Heq. now apply escape_tilde_free.
Qed.

Lemma in_hidden (hidden : list string) (key : string) :
  visible hidden key = false <-> In key hidden.
Proof.
  unfold visible. rewrite negb_false_iff, existsb_exists. split.
  - intros (x & Hx & Heq). apply String.eqb_eq in Heq. now subst.
  - intros H. exists key. split; [exact H | apply String.eqb_refl].
Qed.

Lemma keepOp_top_level (hidden : list string) (patch : PatchOperation)
  (key : string) (tail : list string) :
  Forall (fun k => hideable k = true) hidden ->
  key <> ""%string ->
  getArrayFromPath (path patch) = escapePathComponent key :: tail ->
  keepOp (topLevel hidden) patch = Ok (visible hidden key, patch).
Proof.
  intros Hall Hkey Hpath. unfold keepOp. rewrite Hpath.
  destruct (visible hidden key) eqn:Hvis.
  - assert (Hnot : ~ In key hidden).
    { intros Hin. apply in_hidden in Hin. congruence. }
    assert (Hwhole : existsb
              (fun exclude => isPathContained exclude (escapePathComponent key :: tail))
              (topLevel hidden) = false).
    { destruct (existsb _ (topLevel hidden)) eqn:Hex; [|reflexivity].
      apply existsb_exists in Hex as (e & He & Hc).
      apply in_map_iff in He as (h & <- & Hh).
      rewrite isPathContained_nth in Hc.
      destruct (Hc 0%nat h eq_refl) as (seg & Hseg & [Heq | [Hw _]]).
      - simpl in Hseg. injection Hseg as <-.
        exfalso. apply Hnot. now rewrite <- (hidden_segment hidden h key Hall Hh Heq).
      - rewrite Forall_forall in Hall.
        destruct (hideable_spec _ (Hall _ Hh)) as (_ & _ & Hwild & _). contradiction. }
    rewrite Hwhole. apply everyDeepRemove_no_overlap.
    apply Forall_forall. intros e He. apply in_map_iff in He as (h & <- & Hh).
    unfold overlaps, operationPathOf. rewrite Hpath.
    assert (Hsan : sanitizeEmptyPath (escapePathComponent key :: tail)
                   = escapePathComponent key :: tail).
    { unfold sanitizeEmptyPath. destruct tail; [|reflexivity].
      destruct (String.eqb_spec (escapePathComponent key) "") as [He|]; [|reflexivity].
      apply escape_empty in He. contradiction. }
    rewrite Hsan.
    destruct (isPathContained (escapePathComponent key :: tail) [h]) eqn:Hc;
      [|reflexivity].
    rewrite isPathContained_nth in Hc.
    destruct (Hc 0%nat _ eq_refl) as (seg & Hseg & [Heq | [_ Hint]]).
    + simpl in Hseg. injection Hseg as <-. exfalso. apply Hnot.
      now rewrite <- (hidden_segment hidden h key Hall Hh (eq_sym Heq)).
    + simpl in Hseg. injection Hseg as <-. rewrite Forall_forall in Hall.
      destruct (hideable_spec _ (Hall _ Hh)) as (_ & _ & _ & Hnotint). congruence.
  - apply in_hidden in Hvis. rewrite Forall_forall in Hall.
    destruct (hideable_spec _ (Hall _ Hvis)) as (Hesc & _).
    assert (Hwhole : existsb
              (fun exclude => isPathContained exclude (escapePathComponent key :: tail))
              (topLevel hidden) = true).
    { apply existsb_exists. exists [key].
      split; [exact (in_map (fun k => [k]) hidden key Hvis)|].
      rewrite Hesc. apply (isPathContained_prefix [key] tail). }
    now rewrite Hwhole.
Qed.

Lemma filterM_app (excludes : list (list string)) (a b : list PatchOperation) :
  filterM excludes (a ++ b)
  = (x <- filterM excludes a ;; y <- filterM excludes b ;; Ok (x ++ y)).
Proof.
  induction a as [|p a IH]; simpl.
  - now destruct (filterM excludes b).
  - destruct (keepOp excludes p) as [[keep p']|e]; simpl; [|reflexivity].
    rewrite IH. destruct (filterM excludes a) as [x|e]; simpl; [|reflexivity].
    destruct (filterM excludes b) as [y|e]; simpl; [|reflexivity].
    now destruct keep.
Qed.

Lemma filterM_segment (hidden : list string) (key : string) (ops : list PatchOperation) :
  Forall (fun k => hideable k = true) hidden ->
  key <> ""%string ->
  Forall (fun patch => exists tail,
              getArrayFromPath (path patch) = escapePathComponent key :: tail) ops ->
  filterM (topLevel hidden) ops = Ok (if visible hidden key then ops else []).
Proof.
  intros Hall Hkey Hops. induction Hops as [|p ops (tail & Hp) _ IH]; simpl.
  - now destruct (visible hidden key).
  - rewrite (keepOp_top_level hidden p key tail Hall Hkey Hp), IH. simpl.
    now destruct (visible hidden key).
Qed.

Lemma filterM_groups (hidden : list string) (A : Type) (keyOf : A -> string)
  (group : A -> list PatchOperation) (l : list A) :
  Forall (fun k => hideable k = true) hidden ->
  Forall (fun a => keyOf a <> ""%string /\
                   Forall (fun patch => exists tail,
                              getArrayFromPath (path patch)
                              = escapePathComponent (keyOf a) :: tail) (group a)) l ->
  filterM (topLevel hidden) (concat (map group l))
  = Ok (concat (map group (filter (fun a => visible hidden (keyOf a)) l))).
Proof.
  intros Hall Hl. induction Hl as [|a l [Hkey Hops] _ IH]; [reflexivity|].
  cbn [map concat filter]. rewrite filterM_app.
  rewrite (filterM_segment hidden (keyOf a) (group a) Hall Hkey Hops), IH. simpl.
  now destruct (visible hidden (keyOf a)).
Qed.

Lemma segment_of_child (key : string) :
  getArrayFromPath (childPath "" key) = [escapePathComponent key].
Proof.
  unfold getArrayFromPath, childPath. simpl. unfold split_slash.
  apply split_on_no_sep. apply escape_no_slash.
Qed.

Lemma segment_below_child (key rest : string) :
  getArrayFromPath (childPath "" key ++ String slash rest)
  = escapePathComponent key :: split_slash rest.
Proof.
  unfold getArrayFromPath, childPath. simpl. unfold split_slash.
  apply split_on_append. apply escape_no_slash.
Qed.

(** ** The diff of two objects, loop by loop *)

Lemma generateKey_kept (rec : value -> string -> list PatchOperation)
  (mp op : list (string * value)) (pointer key : string) (oldVal : value) :
  snd (generateKey rec (VObj mp) (VObj op) pointer key oldVal) = false ->
  assoc key op <> None.
Proof.
  unfold generateKey. cbn [ownProps isArray Bool.eqb].
  destruct (assoc key op) as [newVal|]; [discriminate|]. simpl. discriminate.
Qed.

Lemma generate_object_loops (mp op : list (string * value)) (pointer : string) :
  NoDup (map fst mp) ->
  generate (VObj mp) (VObj op) pointer
  = concat (map (fun kv => fst (generateKey (generate (snd kv)) (VObj mp) (VObj op)
                                  pointer (fst kv) (snd kv))) (rev mp))
    ++ generateAdds (VObj mp) (VObj op) pointer.
Proof.
  intros Hnd. rewrite generate_object. unfold finishGenerate.
  set (g := fun kv : string * value =>
              generateKey (generate (snd kv)) (VObj mp) (VObj op) pointer (fst kv) (snd kv)).
  assert (Holds : concat (map fst (rev (map g mp)))
                  = concat (map (fun kv => fst (g kv)) (rev mp))).
  { now rewrite <- map_rev, map_map. }
  rewrite Holds.
  destruct (negb (existsb snd (map g mp))
            && Nat.eqb (List.length (ownProps (VObj op)))
                 (List.length (ownProps (VObj mp)))) eqn:Hskip; [|reflexivity].
  apply andb_true_iff in Hskip as [Hdel Hlen].
  apply negb_true_iff in Hdel. apply Nat.eqb_eq in Hlen. cbn [ownProps] in Hlen.
  assert (Hsub : incl (map fst mp) (map fst op)).
  { intros k Hk. apply in_map_iff in Hk as ([k' v] & <- & Hin).
    apply assoc_in_keys. apply (generateKey_kept (generate v) mp op pointer k' v).
    destruct (snd (generateKey (generate v) (VObj mp) (VObj op) pointer k' v)) eqn:Hs;
      [|reflexivity].
    assert (Htrue : existsb snd (map g mp) = true).
    { apply existsb_exists. exists (g (k', v)). split; [now apply in_map | exact Hs]. }
    congruence. }
  assert (Hsup : incl (map fst op) (map fst mp)).
  { apply NoDup_length_incl; [exact Hnd | rewrite !length_map; lia | exact Hsub]. }
  assert (Hadds : generateAdds (VObj mp) (VObj op) pointer = []).
  { unfold generateAdds. cbn [ownProps]. apply flat_map_nil.
    intros kv Hin. destruct (assoc (fst kv) mp) eqn:Hk; [reflexivity|].
    exfalso. apply (proj1 (assoc_in_keys (fst kv) mp)); [|exact Hk].
    apply Hsup. now apply in_map. }
  now rewrite Hadds, app_nil_r.
Qed.

Lemma generateKey_visible (rec : value -> string -> list PatchOperation)
  (hidden : list string) (mp op : list (string * value)) (pointer key : string)
  (oldVal : value) :
  visible hidden key = true ->
  generateKey rec (withoutKeys hidden (VObj mp)) (withoutKeys hidden (VObj op))
    pointer key oldVal
  = generateKey rec (VObj mp) (VObj op) pointer key oldVal.
Proof.
  intros Hvis. unfold generateKey. cbn [withoutKeys ownProps isArray].
  now rewrite (assoc_filter_keys (visible hidden) key op), Hvis.
Qed.

Lemma NoDup_filter_keys (keep : string -> bool) (props : list (string * value)) :
  NoDup (map fst props) -> NoDup (map fst (filter (fun kv => keep (fst kv)) props)).
Proof.
  induction props as [|[k v] props IH]; simpl; intros H; [constructor|].
  inversion H as [|? ? Hnot Hnd]; subst.
  destruct (keep k); simpl; [|now apply IH].
  constructor; [|now apply IH].
  intros Hin. apply Hnot. apply in_map_iff in Hin as (kv & Hk & Hkv).
  apply filter_In in Hkv as [Hkv _]. apply in_map_iff. now exists kv.
Qed.

Lemma filter_visible_nil (props : list (string * value)) :
  filter (fun kv => visible [] (fst kv)) props = props.
Proof. induction props as [|kv props IH]; simpl; [reflexivity | now rewrite IH]. Qed.

Lemma flat_map_concat (A B : Type) (f : A -> list B) (l : list A) :
  flat_map f l = concat (map f l).
Proof. induction l as [|a l IH]; simpl; [reflexivity | now rewrite IH]. Qed.

(** Excluding top-level keys is diffing the documents without them. *)
Lemma filter_top_level (hidden : list string) (mp op : list (string * value)) :
  Forall (fun k => hideable k = true) hidden ->
  NoDup (map fst mp) ->
  assoc "" mp = None -> assoc "" op = None ->
  filterOps (topLevel hidden) (compare (VObj mp) (VObj op))
  = Ok (compare (withoutKeys hidden (VObj mp)) (withoutKeys hidden (VObj op))).
Proof.
  intros Hall Hnd Hemp Heop.
  destruct hidden as [|h hidden'].
  { unfold filterOps. simpl. now rewrite !filter_visible_nil. }
  set (hidden := h :: hidden') in *.
  assert (Hfilter : filterOps (topLevel hidden) (compare (VObj mp) (VObj op))
                    = filterM (topLevel hidden) (compare (VObj mp) (VObj op)))
    by reflexivity.
  rewrite Hfilter. clear Hfilter.
  unfold compare. cbn [withoutKeys].
  rewrite (generate_object_loops mp op "" Hnd).
  rewrite (generate_object_loops _ _ "" (NoDup_filter_keys (visible hidden) mp Hnd)).
  rewrite filterM_app.
  (* the first loop *)
  rewrite (filterM_groups hidden _ fst
             (fun kv => fst (generateKey (generate (snd kv)) (VObj mp) (VObj op) ""
                               (fst kv) (snd kv))) (rev mp) Hall).
  2:{ apply Forall_forall. intros [key oldVal] Hin. apply in_rev in Hin. cbn [fst snd].
      split.
      - intros ->. rewrite (assoc_NoDup_In "" oldVal mp Hnd Hin) in Hemp. discriminate.
      - apply Forall_forall. intros patch Hp.
        apply generateKey_ops in Hp as [(newVal & Hsame & Hp) | Hp]; [| |reflexivity].
        + destruct (generate_paths oldVal newVal _ patch Hsame Hp) as (rest & ->).
          rewrite segment_below_child. now eexists.
        + rewrite Hp, segment_of_child. now eexists. }
  cbn [bind].
  (* the second loop *)
  unfold generateAdds. cbn [ownProps]. rewrite !flat_map_concat.
  rewrite (filterM_groups hidden _ fst
             (fun kv => match assoc (fst kv) mp with
                        | Some _ => []
                        | None => [mkPatch op_add (childPath "" (fst kv)) (Some (snd kv))]
                        end) op Hall).
  2:{ apply Forall_forall. intros [key v] Hin. cbn [fst snd]. split.
      - intros ->. apply (in_map fst) in Hin. apply assoc_in_keys in Hin. contradiction.
      - destruct (assoc key mp); constructor; [|constructor].
        cbn [path mkPatch]. rewrite segment_of_child. now eexists. }
  cbn [bind]. f_equal. f_equal.
  - rewrite filter_rev. f_equal. apply map_ext_in. intros [key oldVal] Hin.
    apply in_rev, filter_In in Hin as [_ Hvis]. cbn [fst snd] in *.
    change (VObj (filter (fun kv => visible hidden (fst kv)) mp))
      with (withoutKeys hidden (VObj mp)).
    change (VObj (filter (fun kv => visible hidden (fst kv)) op))
      with (withoutKeys hidden (VObj op)).
    now rewrite generateKey_visible.
  - f_equal. apply map_ext_in. intros [key v] Hin.
    apply filter_In in Hin as [_ Hvis]. cbn [fst snd] in *.
    now rewrite (assoc_filter_keys (visible hidden) key mp), Hvis.
Qed.

(** ** Saves with excluded top-level keys *)

Lemma distinct_filter_props (keep : string -> bool) (props : list (string * value)) :
  distinct (map fst props) = true ->
  distinct (map fst (filter (fun kv => keep (fst kv)) props)) = true.
Proof.
  intros H.
  assert (Hmap : map fst (filter (fun kv : string * value => keep (fst kv)) props)
                 = filter keep (map fst props)).
  { clear. induction props as [|[k v] props IH]; simpl; [reflexivity|].
    destruct (keep k); simpl; now rewrite IH. }
  rewrite Hmap. now apply distinct_filter.
Qed.

Lemma jsonDocument_withoutKeys (hidden : list string) (d : value) :
  jsonDocument d = true -> jsonDocument (withoutKeys hidden d) = true.
Proof.
  destruct d as [| | | | |props]; try discriminate. cbn [jsonDocument withoutKeys jsonValue].
  intros H. apply andb_true_iff in H as [H Hvalues].
  apply andb_true_iff in H as [Hdistinct Hplain].
  rewrite (distinct_filter_props _ _ Hdistinct). cbn [andb].
  apply andb_true_iff. split.
  - clear -Hplain. induction props as [|[k v] props IH]; [reflexivity|].
    simpl in Hplain. apply andb_true_iff in Hplain as [Hk Hrest].
    simpl. destruct (visible hidden k); simpl; [now rewrite Hk, IH | now apply IH].
  - clear -Hvalues. induction props as [|[k v] props IH]; [reflexivity|].
    apply andb_true_iff in Hvalues as [Hv Hrest].
    simpl. destruct (visible hidden k); simpl; [now rewrite Hv, IH | now apply IH].
Qed.

Lemma plainDocument_object (d : value) :
  plainDocument d = true ->
  jsonDocument d = true /\
  exists props, d = VObj props /\ NoDup (map fst props) /\ assoc "" props = None.
Proof.
  unfold plainDocument. intros H. apply andb_true_iff in H as [Hjson Hempty].
  split; [exact Hjson|]. destruct d as [| | | | |props]; try discriminate.
  exists props. split; [reflexivity|]. split.
  - now apply (jsonValue_props props).
  - simpl in Hempty. now destruct (assoc "" props).
Qed.

(** What one save writes, with excluded top-level keys. *)
Lemma preSave_writes_hidden (opts : ResolvedOptions) (hidden : list string)
  (doc : Document) (w : World) :
  excludes opts = topLevel hidden ->
  Forall (fun k => hideable k = true) hidden ->
  plainDocument (diffBase doc) = true ->
  plainDocument (docData doc) = true ->
  exists tracked,
    Forall2 sameOperation tracked
      (compare (withoutKeys hidden (diffBase doc)) (withoutKeys hidden (docData doc))) /\
    preSave opts doc w
    = (match compare (withoutKeys hidden (diffBase doc))
               (withoutKeys hidden (docData doc)) with
       | [] => w
       | _ :: _ =>
           mkWorld
             (patchCollection w ++
              [mkPatchDataInput tracked (docId doc)
                 (match timestamp doc with Some t => t | None => now w end)
                 (map (includeValue doc (VObj [])) (includes opts))])
             (now w) (lookups w)
       end, Ok tt).
Proof.
  intros Hex Hall Hbase Hdata. unfold preSave.
  destruct (plainDocument_object _ Hbase) as (_ & bp & Hbp & Hndb & Hemptyb).
  destruct (plainDocument_object _ Hdata) as (_ & dp & Hdp & _ & Hemptyd).
  pose proof (filter_top_level hidden bp dp Hall Hndb Hemptyb Hemptyd) as Hfilter.
  rewrite <- Hbp, <- Hdp in Hfilter.
  destruct (createPatch_cases opts doc (VObj []) w)
    as [[-> Hf] | [(e & _ & Hf) | (o & rest & Hf & ->)]];
    rewrite Hex, Hfilter in Hf.
  - injection Hf as Hf. rewrite Hf. exists []. split; [constructor | reflexivity].
  - discriminate.
  - injection Hf as Hf. rewrite Hf.
    exists (if trackOriginalValue opts
            then map (trackOriginal doc) (o :: rest) else o :: rest).
    split; [|reflexivity].
    destruct (trackOriginalValue opts);
      [apply trackOriginal_same | apply sameOperation_refl].
Qed.

Lemma plainDocument_truthy (d : value) : plainDocument d = true -> truthy d = true.
Proof.
  intros H. destruct (plainDocument_object _ H) as (_ & props & -> & _). reflexivity.
Qed.

(** The records the saves write, and the document after them. *)
Lemma saveAll_collection_hidden (opts : ResolvedOptions) (hidden : list string)
  (states : list value) :
  excludes opts = topLevel hidden ->
  Forall (fun k => hideable k = true) hidden ->
  Forall (fun d => plainDocument d = true) states ->
  forall this w,
    plainDocument (diffBase this) = true ->
    exists records doc,
      saveAll opts this states w
      = (mkWorld (patchCollection w ++ records) (now w) (lookups w), Ok doc) /\
      diffBase doc = last states (diffBase this) /\
      Forall2 (fun r ops => Forall2 sameOperation (input_ops r) ops)
        records
        (writtenOps (withoutKeys hidden (diffBase this))
           (map (withoutKeys hidden) states)).
Proof.
  intros Hex Hall Hstates. induction Hstates as [|d states Hd _ IH]; intros this w Hbase.
  - exists [], this. cbn [saveAll map writtenOps last]. unfold ret.
    rewrite app_nil_r. destruct w. split; [reflexivity|]. split; [reflexivity|].
    constructor.
  - cbn [saveAll map writtenOps]. unfold bindM.
    destruct (preSave_writes_hidden opts hidden (withData this d) w Hex Hall Hbase Hd)
      as (tracked & Hsame & ->).
    rewrite diffBase_withData in *. change (docData (withData this d)) with d in *.
    set (w1 := match compare (withoutKeys hidden (diffBase this)) (withoutKeys hidden d)
               with
               | [] => w
               | _ :: _ => _
               end).
    destruct (IH (afterSave (withData this d)) w1) as (records & doc & Hrun & Hdoc & Hrec).
    { rewrite diffBase_afterSave by (now apply plainDocument_truthy). exact Hd. }
    rewrite diffBase_afterSave in Hdoc, Hrec by (now apply plainDocument_truthy).
    change (docData (withData this d)) with d in *.
    rewrite Hrun, last_cons. subst w1.
    destruct (compare (withoutKeys hidden (diffBase this)) (withoutKeys hidden d))
      as [|o rest] eqn:Hcompare.
    + exists records, doc. split; [reflexivity|]. split; [exact Hdoc | exact Hrec].
    + eexists (_ :: records), doc. split; [|split; [exact Hdoc|]].
      * cbn [patchCollection now lookups]. rewrite <- app_assoc. reflexivity.
      * constructor; [exact Hsame | exact Hrec].
Qed.

(** ** Rolling back in a stored history *)

Lemma rollback_stored (saved more : list PatchDataInput) (ids : list string)
  (data : value) (save : bool) (outcome : result unit) (state : value) :
  NoDup ids ->
  List.length ids = List.length (saved ++ more) ->
  saved <> [] -> more <> [] ->
  applyAll (VObj []) (concat (map input_ops saved)) = Ok state ->
  Forall nonRoot (concat (map input_ops saved)) ->
  exists id,
    nth_error ids (List.length saved - 1) = Some id /\
    rollback (stored ids (saved ++ more)) id data save outcome
    = (DocSet (merge data state) :: (if save then [DocSave] else []),
       if save then outcome else Ok tt).
Proof.
  intros Hids Hlen Hsaved Hmore Hrun Hnon.
  set (i := (List.length saved - 1)%nat).
  assert (Hi : (S i = List.length saved)%nat).
  { unfold i. destruct saved; [contradiction | simpl; lia]. }
  assert (Hmorelen : (0 < List.length more)%nat)
    by (destruct more; [contradiction | simpl; lia]).
  pose proof Hlen as Hlen'. rewrite length_app in Hlen'.
  destruct (nth_error ids i) as [id|] eqn:Hid;
    [|apply nth_error_None in Hid; lia].
  exists id. split; [reflexivity|].
  set (H := stored ids (saved ++ more)).
  assert (Hmap : map _id H = ids) by now apply stored_ids.
  assert (Htarget : exists target, nth_error H i = Some target /\ _id target = id).
  { destruct (nth_error H i) as [target|] eqn:Ht.
    - exists target. split; [reflexivity|].
      apply (map_nth_error _id) in Ht. rewrite Hmap, Hid in Ht. now injection Ht.
    - apply nth_error_None in Ht. unfold H in Ht.
      rewrite stored_length in Ht by exact Hlen. lia. }
  destruct Htarget as (target & Htarget & <-).
  unfold rollback.
  assert (Hin : existsb (String.eqb (_id target)) (map _id H) = true).
  { apply existsb_eqb_In, in_map. now apply nth_error_In with i. }
  rewrite Hin. cbn [negb].
  rewrite (rollback_prefix H i target) by (rewrite ?Hmap; assumption).
  assert (Hfirst : firstn (S i) H = stored (firstn (S i) ids) saved).
  { unfold H. rewrite stored_firstn, Hi, firstn_app, Nat.sub_diag, firstn_all.
    simpl. now rewrite app_nil_r. }
  rewrite Hfirst.
  assert (Hlenfirst : List.length (firstn (S i) ids) = List.length saved)
    by (rewrite length_firstn; lia).
  assert (Hshorter : Nat.eqb (List.length H)
                       (List.length (stored (firstn (S i) ids) saved)) = false).
  { apply Nat.eqb_neq. unfold H. rewrite !stored_length by assumption. lia. }
  rewrite Hshorter.
  rewrite applyRecords_flat; rewrite (stored_ops _ _ Hlenfirst); [|exact Hnon].
  rewrite Hrun. now destruct save.
Qed.

(** X23. Rollback restores what was saved, without the excluded keys.
    A new document is saved again and again, each time with a JSON object
    without an empty key as its data (no key is [__proto__] or [prototype],
    no array has 2^31 elements or more); the excludes of the plugin are
    top-level keys, none of them the wildcard or a number, none with a slash
    or a tilde; the lookup of [rollback] answers the records in the order
    they were written, each with an id of its own.  When the saves up to one
    with the data [d] wrote records and later saves wrote more, rolling back
    to the last record of the former sets the document to
    [merge(data, state)] for a state that is [d] without the excluded keys, up
    to the order of keys; with [save] the document is then saved and the
    rollback settles as the save does, without it the rollback resolves. *)
Theorem rollback_restores_without_excluded_keys
  (opts : ResolvedOptions) (hidden : list string) (this : Document)
  (before after : list value) (d : value)
  (ids : list string) (data : value) (save : bool) (outcome : result unit)
  (w : World)
  (Hexcludes : excludes opts = topLevel hidden)
  (Hhidden : Forall (fun k => hideable k = true) hidden)
  (Hnew : _original this = None)
  (Hempty : patchCollection w = [])
  (Hstates : Forall (fun x => plainDocument x = true) (before ++ d :: after))
  (Hids : NoDup ids)
  (Hlength :
     List.length ids
     = List.length
         (patchCollection (fst (saveAll opts this (before ++ d :: after) w))))
  (Hwritten : patchCollection (fst (saveAll opts this (before ++ [d]) w)) <> [])
  (Hlater :
     (List.length (patchCollection (fst (saveAll opts this (before ++ [d]) w)))
      < List.length
          (patchCollection (fst (saveAll opts this (before ++ d :: after) w))))%nat) :
  let saved := patchCollection (fst (saveAll opts this (before ++ [d]) w)) in
  let history :=
    stored ids (patchCollection (fst (saveAll opts this (before ++ d :: after) w))) in
  exists id state,
    nth_error ids (List.length saved - 1) = Some id /\
    rollback history id data save outcome
    = (DocSet (merge data state) :: (if save then [DocSave] else []),
       if save then outcome else Ok tt) /\
    sameJSON state (withoutKeys hidden d).
Proof.
  intros saved history.
  assert (Hsplit : before ++ d :: after = (before ++ [d]) ++ after)
    by now rewrite <- app_assoc.
  assert (Hbase : diffBase this = VObj []) by (unfold diffBase; now rewrite Hnew).
  apply Forall_app in Hstates as Hparts. destruct Hparts as [Hbefore Hrest].
  apply Forall_cons_iff in Hrest as [Hd Hafter].
  assert (Hformer : Forall (fun x => plainDocument x = true) (before ++ [d])).
  { apply Forall_app. split; [exact Hbefore | now constructor]. }
  destruct (saveAll_collection_hidden opts hidden (before ++ [d]) Hexcludes Hhidden
              Hformer this w) as (records & doc & Hrun & Hdoc & Hall);
    [now rewrite Hbase|].
  rewrite Hbase, Hempty in *. cbn [app] in Hrun. rewrite last_last in Hdoc.
  assert (Hsaved : saved = records) by (unfold saved; now rewrite Hrun).
  destruct (saveAll_collection_hidden opts hidden after Hexcludes Hhidden Hafter doc
              (mkWorld records (now w) (lookups w)))
    as (more & doc' & Hrun' & _ & _); [now rewrite Hdoc|].
  assert (Hboth : patchCollection (fst (saveAll opts this (before ++ d :: after) w))
                  = saved ++ more).
  { rewrite Hsplit, saveAll_app. unfold bindM. rewrite Hrun, Hrun', Hsaved. reflexivity. }
  unfold history. rewrite Hboth in *. fold saved in Hwritten, Hlater.
  rewrite length_app in Hlater.
  (* the replay of the former records *)
  assert (Hstripped : Forall (fun x => jsonDocument x = true)
                        (map (withoutKeys hidden) (before ++ [d]))).
  { apply Forall_forall. intros x Hx. apply in_map_iff in Hx as (y & <- & Hy).
    apply jsonDocument_withoutKeys. rewrite Forall_forall in Hformer.
    now apply plainDocument_object, Hformer. }
  destruct (replay_written _ Hstripped (VObj []) (VObj []) (map input_ops saved)
              eq_refl (sameJSON_refl (VObj []) eq_refl))
    as (state & Hreplay & Hstate & Hnon).
  { rewrite Hsaved. clear -Hall. cbn [withoutKeys filter] in Hall.
    induction Hall as [|r o rs os Hro _ IH]; constructor; assumption. }
  rewrite map_app in Hstate. cbn [map] in Hstate. rewrite last_last in Hstate.
  destruct (rollback_stored saved more ids data save outcome state Hids Hlength
              Hwritten)
    as (id & Hid & Hrollback); [|exact Hreplay | exact Hnon|].
  { intros ->. simpl in Hlater. lia. }
  exists id, state. split; [exact Hid|]. split; [exact Hrollback | exact Hstate].
Qed.

Lemma rollback_restores_without_excluded_keys_witness :
  let states :=
    [ VObj [("name", VStr "one"); ("hidden", VStr "h1")];
      VObj [("name", VStr "two"); ("hidden", VStr "h2"); ("tags", VArr [Some (VNum 1)])];
      VObj [("name", VStr "three"); ("hidden", VStr "h3")] ] in
  exists state,
    rollback
      (stored ["p1"; "p2"; "p3"]
         (patchCollection
            (fst (saveAll (mkOptions (topLevel ["hidden"]) [] true true) newComment
                    states emptyWorld))))
      "p2" (VObj []) true (Ok tt)
    = ([DocSet (merge (VObj []) state); DocSave], Ok tt) /\
    sameJSON state (VObj [("name", VStr "two"); ("tags", VArr [Some (VNum 1)])]).
Proof.
  intros states.
  assert (Hids : NoDup ["p1"; "p2"; "p3"])
    by (repeat constructor; simpl; intuition discriminate).
  assert (Hhidden : Forall (fun k => hideable k = true) ["hidden"])
    by (repeat constructor).
  assert (Hstates : Forall (fun x => plainDocument x = true)
                      ([VObj [("name", VStr "one"); ("hidden", VStr "h1")]]
                       ++ VObj [("name", VStr "two"); ("hidden", VStr "h2");
                                ("tags", VArr [Some (VNum 1)])]
                          :: [VObj [("name", VStr "three"); ("hidden", VStr "h3")]]))
    by (repeat constructor).
  destruct (rollback_restores_without_excluded_keys
              (mkOptions (topLevel ["hidden"]) [] true true) ["hidden"] newComment
              [VObj [("name", VStr "one"); ("hidden", VStr "h1")]]
              [VObj [("name", VStr "three"); ("hidden", VStr "h3")]]
              (VObj [("name", VStr "two"); ("hidden", VStr "h2");
                     ("tags", VArr [Some (VNum 1)])])
              ["p1"; "p2"; "p3"] (VObj []) true (Ok tt) emptyWorld
              eq_refl Hhidden eq_refl eq_refl Hstates Hids eq_refl)
    as (id & state & Hid & Hrollback & Hstate).
  - vm_compute. discriminate.
  - vm_compute. lia.
  - vm_compute in Hid. injection Hid as <-. exists state. split; assumption.
Defined.

(** X24. Excluding top-level keys is diffing the documents without them:
    for two JSON objects without an empty key, and excluded keys none of
    which is the wildcard or a number or holds a slash or a tilde, the filter
    answers the operations of the diff between the two objects without the
    excluded keys. *)
Theorem top_level_excludes_diff_without_keys
  (hidden : list string) (a b : value)
  (Hhidden : Forall (fun k => hideable k = true) hidden)
  (Ha : plainDocument a = true) (Hb : plainDocument b = true) :
  filterOps (topLevel hidden) (compare a b)
  = Ok (compare (withoutKeys hidden a) (withoutKeys hidden b)).
Proof.
  destruct (plainDocument_object _ Ha) as (_ & ap & -> & Hnd & Hempty).
  destruct (plainDocument_object _ Hb) as (_ & bp & -> & _ & Hempty').
  now apply filter_top_level.
Qed.

Lemma top_level_excludes_diff_without_keys_witness :
  filterOps (topLevel ["hidden"])
    (compare (VObj [("name", VStr "one"); ("hidden", VStr "h1")])
       (VObj [("name", VStr "two"); ("hidden", VObj [("since", VNum 2)])]))
  = Ok [replaceOp "/name" (VStr "two")].
Proof.
  apply (top_level_excludes_diff_without_keys ["hidden"]
           (VObj [("name", VStr "one"); ("hidden", VStr "h1")])
           (VObj [("name", VStr "two"); ("hidden", VObj [("since", VNum 2)])])).
  - repeat constructor.
  - reflexivity.
  - reflexivity.
Defined.
